(** * dBwatch: the range / transition animation state machine

    A shallow embedding of the animation model ([animations/model.js], in its
    four-state escalation variant and its five-state plain variant) and of
    the animation controller ([animations/controller.js], in its tracker
    variant and its plain variant), followed by the properties that the
    specification states about them.

    - [Js]: the fragment of JavaScript the sources rely on.
    - [Binary64]: the rounding of the arithmetic on numbers.
    - Section [Model]: the functions of [model.js] over any tables.
    - [SF]: the escalation variant of [model.js], with [animationState] and
      the background colour mapper.
    - [S5]: the plain variant of [model.js].
    - [Session], Section [Playback], [Controller], [PlainController]: the
      two variants of [controller.js] on an explicit event loop.
    - [Theme]: the theme level of the older [app.js].
    - [App]: the readout of [app.js] and its hand-over to the controller.

    Conventions of the embedding.
    - A JavaScript number is a [JsNumber]: [NaN], the two infinities, or a
      finite value carried as a rational.  Every finite double is a rational
      and the relational operators on doubles agree with the order of the
      rationals, so every comparison below is exact.  The only arithmetic is
      in the colour mapper: there every subtraction, division, product and
      sum is rounded to binary64 as the source rounds it ([Binary64.round]:
      to nearest, a tie to the even significand).  The readout of [app.js]
      only clamps and rounds to the nearest integer, which is exact on
      doubles.
    - A value that is a range identifier or nullish is a [JsRange]:
      [Some s] for the string [s], [None] for [null] / [undefined].
    - Object literals used as tables are association lists with string keys.
    - The cooperative scheduling of [async] functions is an explicit event
      system: a suspended call is a continuation stored in the controller
      state and resumed by an event. *)

From Stdlib Require Import PrimFloat.
From Stdlib Require SpecFloat FloatOps Uint63.
From Stdlib Require Import ZArith QArith Qround Qabs List Sorted String Ascii Bool Lia Lqa HexString.
Import ListNotations.

Local Open Scope string_scope.
Local Open Scope list_scope.
Local Open Scope Z_scope.

(** ** JavaScript numbers and values *)

Inductive JsNumber : Type :=
| NaN
| PosInf
| NegInf
| Fin (q : Q).

(** The values a reading can be: the loudness source passes numbers, and a
    missing argument is [undefined]. *)
Inductive JsValue : Type :=
| VUndefined
| VNull
| VBool (b : bool)
| VNumber (n : JsNumber).

Definition JsRange : Type := option string.

Module Js.

(** [Number(v)] *)
Definition Number (v : JsValue) : JsNumber :=
  match v with
  | VUndefined => NaN
  | VNull => Fin 0
  | VBool true => Fin 1
  | VBool false => Fin 0
  | VNumber n => n
  end.

(** [Number.isFinite(n)] on a number *)
Definition isFinite (n : JsNumber) : bool :=
  match n with
  | Fin _ => true
  | _ => false
  end.

(** [Number.isFinite(v)] on any value: no coercion, only numbers pass. *)
Definition isFiniteValue (v : JsValue) : bool :=
  match v with
  | VNumber n => isFinite n
  | _ => false
  end.

Definition Qltb (x y : Q) : bool := negb (Qle_bool y x).

(** [a < b] *)
Definition lt (a b : JsNumber) : bool :=
  match a, b with
  | NaN, _ | _, NaN => false
  | Fin x, Fin y => Qltb x y
  | NegInf, NegInf => false
  | NegInf, _ => true
  | _, NegInf => false
  | PosInf, _ => false
  | Fin _, PosInf => true
  end.

(** [a <= b] *)
Definition le (a b : JsNumber) : bool :=
  match a, b with
  | NaN, _ | _, NaN => false
  | Fin x, Fin y => Qle_bool x y
  | NegInf, _ => true
  | _, NegInf => false
  | _, PosInf => true
  | PosInf, _ => false
  end.

(** [a >= b] *)
Definition ge (a b : JsNumber) : bool := le b a.

(** Truthiness of a string-or-nullish value: [null], [undefined] and the
    empty string are falsy. *)
Definition truthy (r : JsRange) : bool :=
  match r with
  | Some s => negb (String.eqb s "")
  | None => false
  end.

Definition is_some {A : Type} (o : option A) : bool :=
  match o with
  | Some _ => true
  | None => false
  end.

(** [a === b].  In the sources it is only evaluated when at least one side
    is a string, so merging [null] and [undefined] loses nothing. *)
Definition strict_eq (a b : JsRange) : bool :=
  match a, b with
  | Some x, Some y => String.eqb x y
  | None, None => true
  | _, _ => false
  end.

Fixpoint indexOfFrom (l : list string) (x : string) (i : Z) : Z :=
  match l with
  | [] => -1
  | y :: l' => if String.eqb y x then i else indexOfFrom l' x (i + 1)
  end.

(** [l.indexOf(x)]: first position holding [x], [-1] when there is none. *)
Definition indexOf (l : list string) (x : JsRange) : Z :=
  match x with
  | Some s => indexOfFrom l s 0
  | None => -1
  end.

(** [l[i]]: [undefined] outside the array. *)
Definition at_ (l : list string) (i : Z) : JsRange :=
  if i <? 0 then None else nth_error l (Z.to_nat i).

(** [obj[k]] on a table. *)
Fixpoint lookup {A : Type} (tbl : list (string * A)) (k : string) : option A :=
  match tbl with
  | [] => None
  | (k', v) :: tbl' => if String.eqb k' k then Some v else lookup tbl' k
  end.

(** A range value inside a template literal. *)
Definition template (r : JsRange) : string :=
  match r with
  | Some s => s
  | None => "undefined"
  end.

End Js.

(** ** The rounding of binary64 arithmetic

    An arithmetic operation of JavaScript on two finite numbers gives the
    binary64 number nearest to the exact result, the one with the even
    significand at a tie.  A binary64 number has 53 significant bits and
    no bit below [2^-1074].  (A result of magnitude [2^1024] or more would
    be an infinity; the colour mapper, the only code here that computes,
    stays below 256.)  That [round] gives a nearest binary64 number is
    [round_nearest]; [round_agrees_on_quotients] and
    [interpolation_agrees_on_probes] run it against the primitive binary64
    numbers of the prover. *)

Module Binary64.

(** The integer nearest to [a / b], for [b > 0]; the even one at a tie. *)
Definition nearest_even (a b : Z) : Z :=
  let q := a / b in
  match 2 * (a mod b) ?= b with
  | Lt => q
  | Gt => q + 1
  | Eq => if Z.even q then q else q + 1
  end.

(** The integer [e] with [2^e <= n / d < 2^(e+1)], for [n, d > 0]. *)
Definition exponent (n d : Z) : Z :=
  let e := Z.log2 n - Z.log2 d in
  if (if 0 <=? e then d * 2 ^ e <=? n else d <=? n * 2 ^ (- e)) then e
  else e - 1.

(** The exponent of the last bit kept around [n / d]. *)
Definition quantum (n d : Z) : Z := Z.max (exponent n d - 52) (-1074).

(** The binary64 number nearest to [n / d], for [n, d > 0]. *)
Definition round_positive (n d : Z) : Q :=
  let c := quantum n d in
  if 0 <=? c then inject_Z (nearest_even n (d * 2 ^ c) * 2 ^ c)
  else Qmake (nearest_even (n * 2 ^ (- c)) d) (Z.to_pos (2 ^ (- c))).

(** The binary64 number nearest to [x]. *)
Definition round (x : Q) : Q :=
  let x := Qred x in
  match Qnum x with
  | Z0 => 0
  | Zpos n => round_positive (Zpos n) (Zpos (Qden x))
  | Zneg n => - round_positive (Zpos n) (Zpos (Qden x))
  end.

End Binary64.

(** ** Configuration records *)

Inductive Mode : Type := forward | reverse.
Inductive Direction : Type := up | down | steady.

Module Range.
Record t : Type := mk
  { label : string;
    min : JsNumber;
    max : JsNumber;
    test : JsNumber -> bool }.
End Range.

Module StateConfig.
Record t : Type := mk
  { file : string;
    mode : option Mode;
    loop : option bool }.
End StateConfig.

Module Descriptor.
Record t : Type := mk
  { file : string;
    durationMs : option Z }.
End Descriptor.

Module Plan.
Record t : Type := mk
  { key : string;
    direction : Direction;
    file : string;
    durationMs : Z;
    mode : Mode }.
End Plan.

Definition DEFAULT_TRANSITION_DURATION : Z := 2000.

(** ** The animation model, for any configuration tables

    [getStateConfig], [getRangeDirection], [resolveTransition] and
    [buildRangePath] have the same text in both variants of [model.js], and
    [classify] differs only in how it normalises its argument; the tables
    are what differs. *)

Section Model.

Variable STATE_SEQUENCE : list string.
Variable ranges : list (string * Range.t).
Variable files_state : list (string * StateConfig.t).
Variable files_transition : list (string * Descriptor.t).

(** The condition [range?.test?.(value)] for [range = ranges[key]]: falsy
    when [ranges] has no entry for [key]. *)
Definition range_matches (key : string) (value : JsNumber) : bool :=
  match Js.lookup ranges key with
  | Some range => Range.test range value
  | None => false
  end.

(** The [for (const key of STATE_SEQUENCE)] loop of [classify]. *)
Fixpoint classify_scan (keys : list string) (value : JsNumber) : option string :=
  match keys with
  | [] => None
  | key :: rest =>
      if range_matches key value then Some key else classify_scan rest value
  end.

(** [STATE_SEQUENCE[STATE_SEQUENCE.length - 1]] *)
Definition last_of_sequence : JsRange :=
  Js.at_ STATE_SEQUENCE (Z.of_nat (List.length STATE_SEQUENCE) - 1).

Definition classify_number (value : JsNumber) : JsRange :=
  match classify_scan STATE_SEQUENCE value with
  | Some key => Some key
  | None => last_of_sequence
  end.

(** [if (!Number.isFinite(value)) value = 0] *)
Definition finite_or_zero (value : JsNumber) : JsNumber :=
  if Js.isFinite value then value else Fin 0.

(** [classify] of the escalation variant: [Number(dbValue)], then [0] when
    not finite. *)
Definition classify (dbValue : JsValue) : JsRange :=
  classify_number (finite_or_zero (Js.Number dbValue)).

(** [classify] of the plain variant:
    [Number.isFinite(dbValue) ? dbValue : 0]. *)
Definition classify_plain (dbValue : JsValue) : JsRange :=
  let value := if Js.isFiniteValue dbValue then Js.Number dbValue else Fin 0 in
  classify_number value.

Definition getStateConfig (range : JsRange) : option StateConfig.t :=
  match range with
  | Some s => Js.lookup files_state s
  | None => None
  end.

Definition getRangeDirection (prevRange nextRange : JsRange) : Direction :=
  if negb (Js.truthy prevRange) || negb (Js.truthy nextRange)
     || Js.strict_eq prevRange nextRange
  then steady
  else
    let prevIndex := Js.indexOf STATE_SEQUENCE prevRange in
    let nextIndex := Js.indexOf STATE_SEQUENCE nextRange in
    if (prevIndex =? -1) || (nextIndex =? -1) then steady
    else if nextIndex >? prevIndex then up
    else if nextIndex <? prevIndex then down
    else steady.

Definition resolveTransition (prevRange nextRange : JsRange) : option Plan.t :=
  let direction := getRangeDirection prevRange nextRange in
  match direction with
  | steady => None
  | _ =>
      let prevIndex := Js.indexOf STATE_SEQUENCE prevRange in
      let nextIndex := Js.indexOf STATE_SEQUENCE nextRange in
      if (prevIndex =? -1) || (nextIndex =? -1) then None
      else if negb (Z.abs (prevIndex - nextIndex) =? 1) then None
      else
        let '(startRange, endRange) :=
          match direction with
          | up => (prevRange, nextRange)
          | _ => (nextRange, prevRange)
          end in
        let key := (Js.template startRange ++ "_" ++ Js.template endRange)%string in
        match Js.lookup files_transition key with
        | None => None
        | Some base =>
            Some {| Plan.key := key;
                    Plan.direction := direction;
                    Plan.file := Descriptor.file base;
                    Plan.durationMs :=
                      match Descriptor.durationMs base with
                      | Some d => d
                      | None => DEFAULT_TRANSITION_DURATION
                      end;
                    Plan.mode :=
                      match direction with
                      | up => forward
                      | _ => reverse
                      end |}
        end
  end.

(** The unbounded [for (let i = prevIndex; ; i += step)] loop of
    [buildRangePath].  The loop has no exit test of its own, so the model
    carries fuel: [None] stands for a loop that has not reached [break]
    within [fuel] iterations. *)
Fixpoint walk (fuel : nat) (i step nextIndex : Z) (path : list JsRange)
  : option (list JsRange) :=
  match fuel with
  | O => None
  | S fuel' =>
      let path := path ++ [Js.at_ STATE_SEQUENCE i] in
      if i =? nextIndex then Some path
      else walk fuel' (i + step) step nextIndex path
  end.

Definition buildRangePath_fuel (fuel : nat) (prevRange nextRange : JsRange)
  : option (list JsRange) :=
  if negb (Js.truthy prevRange) || negb (Js.truthy nextRange)
  then Some (if Js.truthy nextRange then [nextRange] else [])
  else
    let prevIndex := Js.indexOf STATE_SEQUENCE prevRange in
    let nextIndex := Js.indexOf STATE_SEQUENCE nextRange in
    if (prevIndex =? -1) || (nextIndex =? -1) then Some [nextRange]
    else if prevIndex =? nextIndex then Some [nextRange]
    else
      let step := if nextIndex >? prevIndex then 1 else -1 in
      walk fuel prevIndex step nextIndex [].

(** One iteration per position of the sequence is always enough (see
    [buildRangePath_total] and [buildRangePath_fuel_stable]). *)
Definition buildRangePath (prevRange nextRange : JsRange)
  : option (list JsRange) :=
  buildRangePath_fuel (List.length STATE_SEQUENCE) prevRange nextRange.

End Model.

(** ** The escalation variant of [model.js] *)

Module SF.

Definition STATE_SEQUENCE : list string := ["S1"; "S2"; "S3"; "SF"].

Definition ranges : list (string * Range.t) :=
  [ ("S1", {| Range.label := "<75dB";
              Range.min := NegInf; Range.max := Fin 75;
              Range.test := fun v => Js.lt v (Fin 75) |});
    ("S2", {| Range.label := "75–90dB";
              Range.min := Fin 75; Range.max := Fin 90;
              Range.test := fun v => Js.ge v (Fin 75) && Js.lt v (Fin 90) |});
    ("S3", {| Range.label := "90db+";
              Range.min := Fin 90; Range.max := PosInf;
              Range.test := fun v => Js.ge v (Fin 90) |}) ].

Definition files_state : list (string * StateConfig.t) :=
  [ ("S1", StateConfig.mk "./media/state_1.json" (Some forward) (Some true));
    ("S2", StateConfig.mk "./media/state_2.json" (Some forward) (Some true));
    ("S3", StateConfig.mk "./media/state_3.json" (Some forward) (Some true));
    ("SF", StateConfig.mk "./media/state_final.json" (Some forward) (Some true)) ].

Definition files_transition : list (string * Descriptor.t) :=
  [ ("S1_S2", Descriptor.mk "./media/transition_1_2.json" (Some 700));
    ("S2_S3", Descriptor.mk "./media/transition_2_3.json" (Some 467)) ].

Definition classify : JsValue -> JsRange :=
  classify STATE_SEQUENCE ranges.
Definition range_matches : string -> JsNumber -> bool :=
  range_matches ranges.
Definition getStateConfig : JsRange -> option StateConfig.t :=
  getStateConfig files_state.
Definition getRangeDirection : JsRange -> JsRange -> Direction :=
  getRangeDirection STATE_SEQUENCE.
Definition resolveTransition : JsRange -> JsRange -> option Plan.t :=
  resolveTransition STATE_SEQUENCE files_transition.
Definition buildRangePath : JsRange -> JsRange -> option (list JsRange) :=
  buildRangePath STATE_SEQUENCE.

Definition SF_TIMEOUT_MS : Z := 10000.

(** *** The sustained-state tracker [animationState]

    The object is a record of its three fields; a method takes the record
    as [this] and returns the updated record. *)
Module animationState.

Record t : Type := mk
  { currentRange : JsRange;
    inSF : bool;
    s3EnteredAt : option Z }.

Record Result : Type := mkResult
  { range : JsRange;
    transition : option Plan.t }.

Definition initial : t := mk None false None.

Definition reset (this : t) : t := mk None false None.

(** [update(dbValue, now)]; the controller lets [now] default to
    [Date.now()], an integer count of milliseconds. *)
Definition update (this : t) (dbValue : JsValue) (now : Z) : t * Result :=
  let baseRange := classify dbValue in
  if inSF this then
    if Js.strict_eq baseRange (Some "S2") then
      let this := mk (Some "S2") false None in
      match Js.lookup files_transition "S2_S3" with
      | Some base =>
          (this,
           mkResult (Some "S2")
             (Some {| Plan.key := "S2_S3";
                      Plan.direction := down;
                      Plan.file := Descriptor.file base;
                      Plan.durationMs :=
                        match Descriptor.durationMs base with
                        | Some d => d
                        | None => DEFAULT_TRANSITION_DURATION
                        end;
                      Plan.mode := reverse |}))
      | None =>
          (this,
           mkResult (Some "S2") (resolveTransition (Some "S3") (Some "S2")))
      end
    else
      (mk (Some "SF") (inSF this) (s3EnteredAt this),
       mkResult (Some "SF") None)
  else if Js.strict_eq baseRange (Some "S3") then
    let entered :=
      match s3EnteredAt this with
      | None => now
      | Some t0 => t0
      end in
    if now - entered >=? SF_TIMEOUT_MS then
      (mk (Some "SF") true None, mkResult (Some "SF") None)
    else
      let transition := resolveTransition (currentRange this) (Some "S3") in
      (mk (Some "S3") (inSF this) (Some entered),
       mkResult (Some "S3") transition)
  else
    let transition := resolveTransition (currentRange this) baseRange in
    (mk baseRange (inSF this) None, mkResult baseRange transition).

(** Successive calls of [update], one per reading with its timestamp, and
    what each returned. *)
Fixpoint updates (this : t) (readings : list (JsValue * Z)) : t * list Result :=
  match readings with
  | [] => (this, [])
  | (dbValue, now) :: rest =>
      let '(this', result) := update this dbValue now in
      let '(final, results) := updates this' rest in
      (final, result :: results)
  end.

End animationState.

(** *** The background colour mapper *)

Record Keyframe : Type := mkKeyframe
  { dB : Q;
    hex : string }.

Definition COLOR_KEYFRAMES : list Keyframe :=
  [ mkKeyframe 76 "#a4f12c";
    mkKeyframe 85 "#f1e22c";
    mkKeyframe 95 "#ef8e2e";
    mkKeyframe 105 "#ee5b2d" ].

Record Rgb : Type := mkRgb
  { r : Q;
    g : Q;
    b : Q }.

(** One character of the class [[a-f\d]], case-insensitive. *)
Definition hexDigit (c : ascii) : option Z :=
  let n := Z.of_nat (nat_of_ascii c) in
  if (48 <=? n) && (n <=? 57) then Some (n - 48)
  else if (97 <=? n) && (n <=? 102) then Some (n - 87)
  else if (65 <=? n) && (n <=? 70) then Some (n - 55)
  else None.

(** [parseInt(xy, 16)] on a two-digit group of the match. *)
Definition parseHexPair (c1 c2 : ascii) : option Z :=
  match hexDigit c1, hexDigit c2 with
  | Some hi, Some lo => Some (16 * hi + lo)
  | _, _ => None
  end.

Definition hexToRgb (hex : string) : Rgb :=
  let digits :=
    match hex with
    | String "#"%char rest => rest
    | _ => hex
    end in
  match digits with
  | String c1 (String c2 (String c3 (String c4 (String c5 (String c6 EmptyString))))) =>
      match parseHexPair c1 c2, parseHexPair c3 c4, parseHexPair c5 c6 with
      | Some r, Some g, Some b => mkRgb (inject_Z r) (inject_Z g) (inject_Z b)
      | _, _, _ => mkRgb 0 0 0
      end
  | _ => mkRgb 0 0 0
  end.

(** [Math.round]: the nearest integer, a tie going up. *)
Definition Math_round (x : Q) : Z := Qfloor (x + (1 # 2)).

(** [n.toString(16)] on an integer. *)
Definition toString16 (n : Z) : string :=
  match n with
  | Z0 => "0"
  | Zpos p => HexString.Raw.of_pos p ""
  | Zneg p => String "-"%char (HexString.Raw.of_pos p "")
  end.

Definition toHex (value : Q) : string :=
  let hex := toString16 (Math_round value) in
  if (String.length hex =? 1)%nat then String "0"%char hex else hex.

Definition rgbToHex (rgb : Rgb) : string :=
  ("#" ++ toHex (r rgb) ++ toHex (g rgb) ++ toHex (b rgb))%string.

(** [start + (end - start) * factor], each operation rounded. *)
Definition lerp (start end_ factor : Q) : Q :=
  Binary64.round
    (start + Binary64.round (Binary64.round (end_ - start) * factor)).

Definition interpolateColor (colorA colorB : Rgb) (factor : Q) : Rgb :=
  mkRgb (lerp (r colorA) (r colorB) factor)
        (lerp (g colorA) (g colorB) factor)
        (lerp (b colorA) (b colorB) factor).

(** The search loop of [getBackgroundColor] over consecutive keyframes.
    Under its test [next.dB] is above [current.dB], so [range] is not
    zero. *)
Fixpoint interpolate_between (keyframes : list Keyframe) (value : Q)
  : option string :=
  match keyframes with
  | current :: ((next :: _) as rest) =>
      if Qle_bool (dB current) value && Js.Qltb value (dB next) then
        let range := Binary64.round (dB next - dB current) in
        let position := Binary64.round (value - dB current) in
        let factor := Binary64.round (position / range) in
        let colorA := hexToRgb (hex current) in
        let colorB := hexToRgb (hex next) in
        Some (rgbToHex (interpolateColor colorA colorB factor))
      else interpolate_between rest value
  | _ => None
  end.

(** The two arithmetic steps of the interpolation on the primitive
    binary64 numbers of the prover, to compare the model with. *)
Definition factor_double (value current next : float) : float :=
  ((value - current) / (next - current))%float.

Definition lerp_double (start end_ factor : float) : float :=
  (start + (end_ - start) * factor)%float.

Definition first_keyframe : Keyframe :=
  hd (mkKeyframe 0 "") COLOR_KEYFRAMES.
Definition last_keyframe : Keyframe :=
  last COLOR_KEYFRAMES (mkKeyframe 0 "").

Definition getBackgroundColor (dbValue : JsValue) : string :=
  let value :=
    match Js.Number dbValue with
    | Fin q => q
    | _ => 76%Q
    end in
  if Qle_bool value (dB first_keyframe) then hex first_keyframe
  else if Qle_bool (dB last_keyframe) value then hex last_keyframe
  else
    match interpolate_between COLOR_KEYFRAMES value with
    | Some color => color
    | None => hex first_keyframe
    end.

End SF.

(** ** The plain five-state variant of [model.js] *)

Module S5.

Definition STATE_SEQUENCE : list string := ["S1"; "S2"; "S3"; "S4"; "S5"].

Definition ranges : list (string * Range.t) :=
  [ ("S1", {| Range.label := "<70dB";
              Range.min := NegInf; Range.max := Fin 70;
              Range.test := fun v => Js.lt v (Fin 70) |});
    ("S2", {| Range.label := "70–85dB";
              Range.min := Fin 70; Range.max := Fin 85;
              Range.test := fun v => Js.ge v (Fin 70) && Js.lt v (Fin 85) |});
    ("S3", {| Range.label := "85–100dB";
              Range.min := Fin 85; Range.max := Fin 100;
              Range.test := fun v => Js.ge v (Fin 85) && Js.lt v (Fin 100) |});
    ("S4", {| Range.label := "100–120dB";
              Range.min := Fin 100; Range.max := Fin 120;
              Range.test := fun v => Js.ge v (Fin 100) && Js.lt v (Fin 120) |});
    ("S5", {| Range.label := "120dB+";
              Range.min := Fin 120; Range.max := PosInf;
              Range.test := fun v => Js.ge v (Fin 120) |}) ].

Definition files_state : list (string * StateConfig.t) :=
  [ ("S1", StateConfig.mk "./media/state_1.json" (Some forward) (Some true));
    ("S2", StateConfig.mk "./media/state_2.json" (Some forward) (Some true));
    ("S3", StateConfig.mk "./media/state_3.json" (Some forward) (Some true));
    ("S4", StateConfig.mk "./media/state_4.json" (Some forward) (Some true));
    ("S5", StateConfig.mk "./media/state_5.json" (Some forward) (Some true)) ].

Definition files_transition : list (string * Descriptor.t) :=
  [ ("S1_S2", Descriptor.mk "./media/transition_1_2.json" (Some 2000));
    ("S2_S3", Descriptor.mk "./media/transition_2_3.json" (Some 2000));
    ("S3_S4", Descriptor.mk "./media/transition_3_4.json" (Some 2000));
    ("S4_S5", Descriptor.mk "./media/transition_4_5.json" (Some 2000)) ].

Definition classify : JsValue -> JsRange :=
  classify_plain STATE_SEQUENCE ranges.
Definition getStateConfig : JsRange -> option StateConfig.t :=
  getStateConfig files_state.
Definition getRangeDirection : JsRange -> JsRange -> Direction :=
  getRangeDirection STATE_SEQUENCE.
Definition resolveTransition : JsRange -> JsRange -> option Plan.t :=
  resolveTransition STATE_SEQUENCE files_transition.
Definition buildRangePath : JsRange -> JsRange -> option (list JsRange) :=
  buildRangePath STATE_SEQUENCE.

End S5.

(** ** The controller session

    The module-level variables of [controller.js], the tracker object, the
    page and the player as the controller sees them, and the calls of
    [onReading] that are suspended at an [await]. *)

Module LoadArgs.
Record t : Type := mk
  { src : string;
    autoplay : bool;
    loop : bool;
    mode : Mode }.
End LoadArgs.

(** What [onReading] does once the awaited playback returns to it:
    [controller.js] then assigns [previousRange = nextRange]; the plain
    variant has nothing left to do. *)
Inductive Return : Type :=
| RetAdvance (nextRange : JsRange)
| RetDone.

(** The point at which a call of [onReading] is suspended. *)
Inductive Cont : Type :=
| K_transition_loaded (durationMs : Z) (nextRange : JsRange)
    (* onReading: [await loadClip(transition)], then [delay] *)
| K_transition_waited (nextRange : JsRange)
    (* onReading: [await delay(transition.durationMs)], then [playSteady] *)
| K_steady_loaded (ret : Return)
    (* playSteady: [await loadClip(stateConfig)], then back to onReading *)
| K_step_loaded (path : list JsRange) (i : nat) (durationMs : Z) (ret : Return)
    (* playTransitionSequence, iteration [i]: [await loadClip], then the
       token check and [delay] *)
| K_step_waited (path : list JsRange) (i : nat) (ret : Return).
    (* playTransitionSequence, iteration [i]: [await delay], then [i += 1] *)

Inductive Await : Type :=
| AwaitLoad
| AwaitTimer (due : Z).

Record Suspended : Type := mkSuspended
  { cont : Cont;
    await : Await }.

Module Session.

Record t : Type := mk
  { previousRange : JsRange;
    sequenceCounter : Z;
    tracker : SF.animationState.t;
    playerReady : bool;
      (* [isPlayerReady()]: [player] is a module constant *)
    document_body : option string;
      (* [None]: no [document.body]; otherwise its background colour *)
    loads : list (Z * LoadArgs.t);
      (* the [player.load] calls, most recent first, each with the
         sequence token of the call of [onReading] that issued it *)
    warnings : nat;
      (* [console.warn] calls *)
    clock : Z;
      (* [Date.now()] *)
    pending : list (Z * Suspended);
      (* suspended calls of [onReading], by sequence token *)
    hung : bool
      (* a synchronous loop that never exits has been entered *) }.

Definition set_previousRange (v : JsRange) (st : t) : t :=
  mk v (sequenceCounter st) (tracker st) (playerReady st) (document_body st)
     (loads st) (warnings st) (clock st) (pending st) (hung st).
Definition set_sequenceCounter (v : Z) (st : t) : t :=
  mk (previousRange st) v (tracker st) (playerReady st) (document_body st)
     (loads st) (warnings st) (clock st) (pending st) (hung st).
Definition set_tracker (v : SF.animationState.t) (st : t) : t :=
  mk (previousRange st) (sequenceCounter st) v (playerReady st)
     (document_body st) (loads st) (warnings st) (clock st) (pending st)
     (hung st).
Definition set_document_body (v : option string) (st : t) : t :=
  mk (previousRange st) (sequenceCounter st) (tracker st) (playerReady st) v
     (loads st) (warnings st) (clock st) (pending st) (hung st).
Definition set_loads (v : list (Z * LoadArgs.t)) (st : t) : t :=
  mk (previousRange st) (sequenceCounter st) (tracker st) (playerReady st)
     (document_body st) v (warnings st) (clock st) (pending st) (hung st).
Definition set_warnings (v : nat) (st : t) : t :=
  mk (previousRange st) (sequenceCounter st) (tracker st) (playerReady st)
     (document_body st) (loads st) v (clock st) (pending st) (hung st).
Definition set_clock (v : Z) (st : t) : t :=
  mk (previousRange st) (sequenceCounter st) (tracker st) (playerReady st)
     (document_body st) (loads st) (warnings st) v (pending st) (hung st).
Definition set_pending (v : list (Z * Suspended)) (st : t) : t :=
  mk (previousRange st) (sequenceCounter st) (tracker st) (playerReady st)
     (document_body st) (loads st) (warnings st) (clock st) v (hung st).
Definition set_hung (v : bool) (st : t) : t :=
  mk (previousRange st) (sequenceCounter st) (tracker st) (playerReady st)
     (document_body st) (loads st) (warnings st) (clock st) (pending st) v.

Fixpoint find (id : Z) (l : list (Z * Suspended)) : option Suspended :=
  match l with
  | [] => None
  | (id', s) :: l' => if id' =? id then Some s else find id l'
  end.

Fixpoint remove (id : Z) (l : list (Z * Suspended)) : list (Z * Suspended) :=
  match l with
  | [] => []
  | (id', s) :: l' => if id' =? id then remove id l' else (id', s) :: remove id l'
  end.

End Session.

(** ** Playback: the helpers shared by both controller variants

    A run of synchronous code ends either with the call of [onReading]
    complete ([None]) or suspended at an [await] on the player or on a timer
    ([Some]).  An [await] on a promise that is already settled only yields
    to the other continuations that are ready; none of them changes
    [sequenceCounter], and [previousRange] is not read by any of them, so
    the run is carried through such an [await] in one piece. *)

Section Playback.

Variable getStateConfig : JsRange -> option StateConfig.t.
Variable resolveTransition : JsRange -> JsRange -> option Plan.t.

Import Session.

Definition Run : Type := Session.t * option Suspended.

Definition isPlayerReady (st : Session.t) : bool := playerReady st.

(** [loadClip({ src, mode, loop })] on behalf of the call with token
    [sequenceId]; the boolean tells whether [player.load] was called, that
    is whether the caller is now suspended on its promise. *)
Definition loadClip (sequenceId : Z) (src : string) (mode : Mode) (loop : bool)
           (st : Session.t) : Session.t * bool :=
  if negb (isPlayerReady st) || negb (Js.truthy (Some src)) then (st, false)
  else
    (set_loads ((sequenceId, LoadArgs.mk src true loop mode) :: loads st) st,
     true).

Definition playSteady (range : JsRange) (sequenceId : Z) (st : Session.t)
  : Session.t * bool :=
  if negb (sequenceId =? sequenceCounter st) then (st, false)
  else
    match getStateConfig range with
    | None => (st, false)
    | Some stateConfig =>
        loadClip sequenceId (StateConfig.file stateConfig)
          (match StateConfig.mode stateConfig with
           | Some m => m
           | None => forward
           end)
          (match StateConfig.loop stateConfig with
           | Some l => l
           | None => true
           end)
          st
    end.

(** Back in [onReading] after the awaited playback. *)
Definition return_to_onReading (ret : Return) (st : Session.t) : Run :=
  match ret with
  | RetAdvance nextRange => (set_previousRange nextRange st, None)
  | RetDone => (st, None)
  end.

(** [await playSteady(range, sequenceId)] in tail position. *)
Definition playSteady_then (range : JsRange) (sequenceId : Z) (ret : Return)
           (st : Session.t) : Run :=
  let '(st', loading) := playSteady range sequenceId st in
  if loading then (st', Some (mkSuspended (K_steady_loaded ret) AwaitLoad))
  else return_to_onReading ret st'.

(** [delay(ms)]: a timer due after [Math.max(0, ms)]. *)
Definition delay (ms : Z) (st : Session.t) : Await :=
  AwaitTimer (clock st + Z.max 0 ms).

(** In the loop of [playTransitionSequence], from the token check that
    follows [await loadClip] to [await delay]. *)
Definition after_step_load (path : list JsRange) (i : nat) (durationMs : Z)
           (sequenceId : Z) (ret : Return) (st : Session.t) : Run :=
  if negb (sequenceId =? sequenceCounter st) then return_to_onReading ret st
  else (st, Some (mkSuspended (K_step_waited path i ret) (delay durationMs st))).

(** The [for] loop of [playTransitionSequence] entered at index [i] with
    [remaining = path.length - 1 - i] iterations to go, then the final
    [playSteady]. *)
Fixpoint transition_loop (remaining : nat) (path : list JsRange) (i : nat)
         (sequenceId : Z) (ret : Return) (st : Session.t) : Run :=
  match remaining with
  | O =>
      playSteady_then (nth (List.length path - 1) path None) sequenceId ret st
  | S remaining' =>
      if negb (sequenceId =? sequenceCounter st) then return_to_onReading ret st
      else
        let startRange := nth i path None in
        let endRange := nth (i + 1) path None in
        match resolveTransition startRange endRange with
        | None => transition_loop remaining' path (i + 1) sequenceId ret st
        | Some transition =>
            let '(st', loading) :=
              loadClip sequenceId (Plan.file transition) (Plan.mode transition)
                false st in
            if loading then
              (st', Some (mkSuspended
                            (K_step_loaded path i (Plan.durationMs transition) ret)
                            AwaitLoad))
            else
              after_step_load path i (Plan.durationMs transition) sequenceId
                ret st'
        end
  end.

Definition playTransitionSequence (path : list JsRange) (sequenceId : Z)
           (ret : Return) (st : Session.t) : Run :=
  match path with
  | [] => return_to_onReading ret st
  | [only] => playSteady_then only sequenceId ret st
  | _ => transition_loop (List.length path - 1) path 0 sequenceId ret st
  end.

(** Resuming the call with token [sequenceId] at its continuation. *)
Definition resume (k : Cont) (sequenceId : Z) (st : Session.t) : Run :=
  match k with
  | K_transition_loaded durationMs nextRange =>
      (st, Some (mkSuspended (K_transition_waited nextRange)
                   (delay durationMs st)))
  | K_transition_waited nextRange =>
      playSteady_then nextRange sequenceId (RetAdvance nextRange) st
  | K_steady_loaded ret => return_to_onReading ret st
  | K_step_loaded path i durationMs ret =>
      after_step_load path i durationMs sequenceId ret st
  | K_step_waited path i ret =>
      transition_loop (List.length path - 1 - (i + 1)) path (i + 1)
        sequenceId ret st
  end.

(** Recording where the call with token [sequenceId] stands after a run. *)
Definition settle (sequenceId : Z) (run : Run) : Session.t :=
  let '(st, susp) := run in
  match susp with
  | Some s => set_pending ((sequenceId, s) :: remove sequenceId (pending st)) st
  | None => set_pending (remove sequenceId (pending st)) st
  end.

(** The promise of the pending [player.load] of a call settles; a
    rejection is caught in [loadClip] and logged. *)
Definition on_load_settled (sequenceId : Z) (ok : bool) (st : Session.t)
  : option Session.t :=
  match find sequenceId (pending st) with
  | Some (mkSuspended k AwaitLoad) =>
      let st := if ok then st else set_warnings (S (warnings st)) st in
      Some (settle sequenceId (resume k sequenceId st))
  | _ => None
  end.

(** The timer of the pending [delay] of a call fires, not before it is
    due. *)
Definition on_timer_fired (sequenceId : Z) (st : Session.t) : option Session.t :=
  match find sequenceId (pending st) with
  | Some (mkSuspended k (AwaitTimer due)) =>
      if due <=? clock st then Some (settle sequenceId (resume k sequenceId st))
      else None
  | _ => None
  end.

End Playback.

(** What the environment does to the page. *)
Inductive Event : Type :=
| Advance (dt : Z)
    (* time passes *)
| Reading (dbValue : JsValue)
    (* the loudness source calls [onReading(dbValue)] *)
| LoadSettled (sequenceId : Z) (ok : bool)
    (* the player resolves or rejects the pending load of a call *)
| TimerFired (sequenceId : Z).
    (* the timer of the pending delay of a call fires *)

(** ** [controller.js]: the controller driven by the tracker *)

Module Controller.

Import Session.

Definition loadClip := loadClip.
Definition playSteady := playSteady SF.getStateConfig.
Definition playTransitionSequence :=
  playTransitionSequence SF.getStateConfig SF.resolveTransition.

Definition initial (ready : bool) (body : option string) (now : Z) : Session.t :=
  mk (SF.classify (VNumber (Fin 0))) 0 SF.animationState.initial ready body
     [] 0 now [] false.

Definition updateBackgroundColor (dbValue : JsValue) (st : Session.t)
  : Session.t :=
  let color := SF.getBackgroundColor dbValue in
  match document_body st with
  | Some _ => set_document_body (Some color) st
  | None => st
  end.

(** [onReading(dbValue)] up to its first suspension. *)
Definition onReading (dbValue : JsValue) (st : Session.t) : Session.t :=
  let st := updateBackgroundColor dbValue st in
  if negb (isPlayerReady st) then st
  else
    let '(tracker', result) :=
      SF.animationState.update (tracker st) dbValue (clock st) in
    let st := set_tracker tracker' st in
    let nextRange := SF.animationState.range result in
    let transition := SF.animationState.transition result in
    if negb (Js.truthy nextRange) then st
    else if Js.strict_eq nextRange (previousRange st)
            && negb (Js.is_some transition) then st
    else
      let oldPrev := previousRange st in
      let sequenceId := sequenceCounter st + 1 in
      let st := set_sequenceCounter sequenceId st in
      match transition with
      | Some transition =>
          let '(st, loading) :=
            loadClip sequenceId (Plan.file transition) (Plan.mode transition)
              false st in
          settle sequenceId
            (if loading then
               (st, Some (mkSuspended
                            (K_transition_loaded (Plan.durationMs transition)
                               nextRange)
                            AwaitLoad))
             else
               (st, Some (mkSuspended (K_transition_waited nextRange)
                            (delay (Plan.durationMs transition) st))))
      | None =>
          match SF.buildRangePath oldPrev nextRange with
          | Some path =>
              settle sequenceId
                (playTransitionSequence path sequenceId
                   (RetAdvance nextRange) st)
          | None => set_hung true st
          end
      end.

Definition step (e : Event) (st : Session.t) : option Session.t :=
  if hung st then None
  else
    match e with
    | Advance dt => if dt <? 0 then None else Some (set_clock (clock st + dt) st)
    | Reading dbValue => Some (onReading dbValue st)
    | LoadSettled sequenceId ok =>
        on_load_settled SF.getStateConfig SF.resolveTransition sequenceId ok st
    | TimerFired sequenceId =>
        on_timer_fired SF.getStateConfig SF.resolveTransition sequenceId st
    end.

Fixpoint run (es : list Event) (st : Session.t) : option Session.t :=
  match es with
  | [] => Some st
  | e :: es' =>
      match step e st with
      | Some st' => run es' st'
      | None => None
      end
  end.

End Controller.

(** ** The plain controller: [classify] only, no tracker

    It runs on the same session record and leaves the fields of the tracker
    and of the page alone. *)

Module PlainController.

Import Session.

Definition playTransitionSequence :=
  playTransitionSequence S5.getStateConfig S5.resolveTransition.

Definition initial (ready : bool) (now : Z) : Session.t :=
  mk (S5.classify (VNumber (Fin 0))) 0 SF.animationState.initial ready None
     [] 0 now [] false.

Definition onReading (dbValue : JsValue) (st : Session.t) : Session.t :=
  if negb (isPlayerReady st) then st
  else
    let normalizedValue :=
      if Js.isFiniteValue dbValue then dbValue else VNumber (Fin 0) in
    let nextRange := S5.classify normalizedValue in
    if negb (Js.truthy nextRange) then st
    else if Js.strict_eq nextRange (previousRange st) then st
    else
      match S5.buildRangePath (previousRange st) nextRange with
      | Some path =>
          let st := set_previousRange nextRange st in
          let sequenceId := sequenceCounter st + 1 in
          let st := set_sequenceCounter sequenceId st in
          settle sequenceId (playTransitionSequence path sequenceId RetDone st)
      | None => set_hung true st
      end.

Definition step (e : Event) (st : Session.t) : option Session.t :=
  if hung st then None
  else
    match e with
    | Advance dt => if dt <? 0 then None else Some (set_clock (clock st + dt) st)
    | Reading dbValue => Some (onReading dbValue st)
    | LoadSettled sequenceId ok =>
        on_load_settled S5.getStateConfig S5.resolveTransition sequenceId ok st
    | TimerFired sequenceId =>
        on_timer_fired S5.getStateConfig S5.resolveTransition sequenceId st
    end.

Fixpoint run (es : list Event) (st : Session.t) : option Session.t :=
  match es with
  | [] => Some st
  | e :: es' =>
      match step e st with
      | Some st' => run es' st'
      | None => None
      end
  end.

End PlainController.

(** ** Vocabulary of the specification *)

(** The controller has settled on a range: no call of [onReading] is
    suspended and [previousRange] is the current range of the tracker. *)
Definition settled (st : Session.t) : Prop :=
  Session.pending st = []
  /\ Session.hung st = false
  /\ Session.previousRange st
     = SF.animationState.currentRange (Session.tracker st).

(** The dwell timestamp of the tracker is set only outside the final
    state. *)
Definition dwell_outside_final (this : SF.animationState.t) : Prop :=
  SF.animationState.s3EnteredAt this <> None
  -> SF.animationState.inSF this = false.

(** The tracker is in the final state exactly when its current range is the
    final marker. *)
Definition final_marked (this : SF.animationState.t) : Prop :=
  SF.animationState.inSF this = true
  <-> SF.animationState.currentRange this = Some "SF"%string.

(** The tracker keeps the reading in the range the controller has settled
    on: outside the final state the reading is classified into it, in the
    final state the reading is not classified into the exit range. *)
Definition stays_in_settled_range (dbValue : JsValue) (st : Session.t) : Prop :=
  (SF.animationState.inSF (Session.tracker st) = true
   /\ SF.classify dbValue <> Some "S2"%string)
  \/ (SF.animationState.inSF (Session.tracker st) = false
      /\ SF.classify dbValue = Session.previousRange st).

(** Nothing is left to play but, at most, the steady clip of [target]
    whose load is pending; [previousRange] is [target] once that call has
    returned. *)
Definition awaiting_steady (target : JsRange) (st : Session.t) : Prop :=
  (Session.pending st = [] /\ Session.previousRange st = target)
  \/ (exists id,
         Session.pending st
         = [(id, mkSuspended (K_steady_loaded (RetAdvance target)) AwaitLoad)]).

(** Between [st] and [st'] the call with token [id] has issued no load, or
    one load while its token was the latest; the counter, the tracker, the
    player and the clock are as they were. *)
Definition issued_while_live (id : Z) (st st' : Session.t) : Prop :=
  Session.sequenceCounter st' = Session.sequenceCounter st
  /\ Session.tracker st' = Session.tracker st
  /\ Session.playerReady st' = Session.playerReady st
  /\ Session.clock st' = Session.clock st
  /\ Session.hung st' = Session.hung st
  /\ (Session.loads st' = Session.loads st
      \/ (id = Session.sequenceCounter st
          /\ exists args, Session.loads st' = (id, args) :: Session.loads st)).

(** The loads were issued in the order of the tokens: none by an older
    token after one by a newer token, and none by a token not yet taken. *)
Definition loads_in_token_order (st : Session.t) : Prop :=
  StronglySorted (fun later earlier => fst earlier <= fst later)
    (Session.loads st)
  /\ Forall (fun load => fst load <= Session.sequenceCounter st)
       (Session.loads st).

(** The suspended call has nothing to do in [onReading] once its playback
    returns, as in the plain variant. *)
Definition returns_done (k : Cont) : Prop :=
  match k with
  | K_steady_loaded RetDone
  | K_step_loaded _ _ _ RetDone
  | K_step_waited _ _ RetDone => True
  | _ => False
  end.

Definition pending_return_done (st : Session.t) : Prop :=
  Forall (fun entry => returns_done (cont (snd entry))) (Session.pending st).

(** A run of playback that returns to a caller with nothing left to do:
    [previousRange] is as it was and, if the run is suspended again, it is
    still to return to such a caller. *)
Definition keeps_previousRange (st : Session.t) (run : Run) : Prop :=
  Session.previousRange (fst run) = Session.previousRange st
  /\ Session.pending (fst run) = Session.pending st
  /\ forall s, snd run = Some s -> returns_done (cont s).

Definition is_reading (e : Event) : bool :=
  match e with
  | Reading _ => true
  | _ => false
  end.

(** Two readings in different ranges, the second made while the sequence of
    the first is waiting for its transition to play, and both sequences run
    to their end: the second reading comes 100 ms after the first, its
    transition lasts 467 ms and the transition of the first 700 ms. *)
Definition superseded_prefix : list Event :=
  [ Reading (VNumber (Fin 80)); LoadSettled 1 true;
    Advance 100;
    Reading (VNumber (Fin 95)); LoadSettled 2 true;
    Advance 467; TimerFired 2; LoadSettled 2 true;
    Advance 133 ].

(** The plain variant with the same two readings, up to the moment the
    delay of the first sequence has elapsed (its transitions last 2000 ms). *)
Definition superseded_prefix_plain : list Event :=
  [ Reading (VNumber (Fin 80)); LoadSettled 1 true;
    Advance 100;
    Reading (VNumber (Fin 95)); LoadSettled 2 true;
    Advance 1900 ].

(** The state reached by a schedule ([st] itself if an event of the
    schedule cannot occur). *)
Definition run_or (es : list Event) (st : Session.t) : Session.t :=
  match Controller.run es st with
  | Some st' => st'
  | None => st
  end.

Definition run_from_start (es : list Event) : Session.t :=
  run_or es (Controller.initial true (Some "") 0).

(** The controller settled on [S1] by a first quiet reading. *)
Definition settled_on_S1 : Session.t :=
  run_from_start [ Reading (VNumber (Fin 60)) ].

(** The controller settled on [S3] after walking up from [S1], the dwell
    timer running since time 0. *)
Definition settled_on_S3 : Session.t :=
  run_from_start
    [ Reading (VNumber (Fin 95)); LoadSettled 1 true;
      Advance 700; TimerFired 1; LoadSettled 1 true;
      Advance 467; TimerFired 1; LoadSettled 1 true ].

(** The rational that a finite double is. *)
Definition Q_of_double (x : float) : option Q :=
  match FloatOps.Prim2SF x with
  | SpecFloat.S754_zero _ => Some 0%Q
  | SpecFloat.S754_finite negative m e =>
      let n := if negative then Zneg m else Zpos m in
      Some (match e with
            | Z0 => inject_Z n
            | Zpos p => inject_Z (n * 2 ^ Zpos p)
            | Zneg p => Qmake n (2 ^ p)
            end)
  | _ => None
  end.

(** On these operands the interpolation of the model gives the number that
    the interpolation on primitive binary64 numbers gives. *)
Definition interpolation_agrees (value current next start end_ : float) : bool :=
  match Q_of_double value, Q_of_double current, Q_of_double next,
        Q_of_double start, Q_of_double end_,
        Q_of_double (SF.lerp_double start end_
                       (SF.factor_double value current next))
  with
  | Some v, Some c, Some n, Some s, Some e, Some result =>
      Qeq_bool result
        (SF.lerp s e
           (Binary64.round (Binary64.round (v - c) / Binary64.round (n - c))))
  | _, _, _, _, _, _ => false
  end.

(** The three channels of the three pairs of adjacent keyframes. *)
Definition keyframe_segments : list (float * float * list (float * float)) :=
  [ (76, 85, [(164, 241); (241, 226); (44, 44)]);
    (85, 95, [(241, 239); (226, 142); (44, 46)]);
    (95, 105, [(239, 238); (142, 91); (46, 45)]) ]%float.

(** Loudness values to compare on: from each multiple [m] of 1/16 between
    76 and 105, the number itself, its two neighbours among the binary64
    numbers, and [m + 1/10] and [m + 1/3] as they are rounded. *)
Definition probes : list float :=
  flat_map
    (fun k : nat =>
       let m := (76 + PrimFloat.of_uint63 (Uint63.of_Z (Z.of_nat k)) / 16)%float in
       [m; PrimFloat.next_down m; PrimFloat.next_up m;
        (m + 1 / 10)%float; (m + 1 / 3)%float])
    (seq 0 464).

(** The model agrees with the primitive numbers on a probe, in the segment
    that holds it. *)
Definition agrees_on_probe (value : float) : bool :=
  forallb
    (fun segment : float * float * list (float * float) =>
       let '(current, next, channels) := segment in
       if (PrimFloat.leb current value && PrimFloat.ltb value next)%bool then
         forallb
           (fun channel : float * float =>
              interpolation_agrees value current next (fst channel)
                (snd channel))
           channels
       else true)
    keyframe_segments.

(** [2^e] for any integer [e]. *)
Definition pow2 (e : Z) : Q :=
  if 0 <=? e then inject_Z (2 ^ e) else 1 # Z.to_pos (2 ^ (- e)).

(** A binary64 number, whatever its magnitude: an integer of fewer than 54
    bits times a power of two that is not below [2^-1074]. *)
Definition representable (y : Q) : Prop :=
  exists m e : Z, Z.abs m < 2 ^ 53 /\ -1074 <= e /\ y == inject_Z m * pow2 e.

(** [Binary64.round] of a rational is the binary64 number [x]. *)
Definition round_agrees_at (x : float) (q : Q) : bool :=
  match Q_of_double x with
  | Some result => Qeq_bool result (Binary64.round q)
  | None => false
  end.

(** [Binary64.round] against the primitive operations on the quotient of
    two integers: as it is, negated, scaled down to where binary64 keeps
    fewer than 53 bits, scaled up, and inside a sum. *)
Definition round_agrees_on_quotient (a b : Z) : bool :=
  let x := PrimFloat.of_uint63 (Uint63.of_Z a) in
  let y := PrimFloat.of_uint63 (Uint63.of_Z b) in
  let q := Qmake a (Z.to_pos b) in
  round_agrees_at (x / y) q
  && round_agrees_at (- x / y) (- q)
  && round_agrees_at (FloatOps.Z.ldexp x (-1074) / y)
       (q * (1 # Z.to_pos (2 ^ 1074)))
  && round_agrees_at (FloatOps.Z.ldexp x (-1030) / y)
       (q * (1 # Z.to_pos (2 ^ 1030)))
  && round_agrees_at (FloatOps.Z.ldexp x 900 / y) (q * inject_Z (2 ^ 900))
  && round_agrees_at (x * x / y + y)
       (Binary64.round (inject_Z (a * a) / inject_Z b) + inject_Z b).

(** [n] is an integer nearest to [x]. *)
Definition nearest_integer (n : Z) (x : Q) : Prop :=
  (x - (1 # 2) <= inject_Z n)%Q /\ (inject_Z n <= x + (1 # 2))%Q.

(** The arithmetic mean of two numbers. *)
Definition mean (x y : Q) : Q := ((x + y) / 2)%Q.

(** ** The theme levels of the first [app.js]

    Before the animations, [app.js] mapped the loudness to one of five theme
    levels by its own table of thresholds. *)

Module Theme.

Record Threshold : Type := mkThreshold
  { min : JsNumber;
    max : JsNumber;
    level : Z }.

Definition DB_THRESHOLDS : list Threshold :=
  [ mkThreshold NegInf (Fin 70) 0;
    mkThreshold (Fin 70) (Fin 85) 1;
    mkThreshold (Fin 85) (Fin 100) 2;
    mkThreshold (Fin 100) (Fin 120) 3;
    mkThreshold (Fin 120) PosInf 4 ].

Record Assets : Type := mkAssets
  { svg : string;
    bg : string }.

(** The keys of the object literal are the levels. *)
Definition THEME_ASSETS : list (Z * Assets) :=
  [ (0, mkAssets "../media/welcom_logo.svg" "../media/background_image_0.png");
    (1, mkAssets "../media/noise_level_msg_1.svg" "../media/background_image_1.png");
    (2, mkAssets "../media/noise_level_msg_2.svg" "../media/background_image_2.png");
    (3, mkAssets "../media/noise_level_msg_3.svg" "../media/background_image_3.png");
    (4, mkAssets "../media/noise_level_msg_4.svg" "../media/background_image_4.png") ].

Fixpoint assets_of (tbl : list (Z * Assets)) (level : Z) : option Assets :=
  match tbl with
  | [] => None
  | (k, v) :: tbl' => if k =? level then Some v else assets_of tbl' level
  end.

(** [isNaN(db)] on a number *)
Definition isNaN (db : JsNumber) : bool :=
  match db with
  | NaN => true
  | _ => false
  end.

(** [db === -Infinity] *)
Definition is_negative_infinity (db : JsNumber) : bool :=
  match db with
  | NegInf => true
  | _ => false
  end.

(** The [for (const threshold of DB_THRESHOLDS)] loop of [getThemeLevel]. *)
Fixpoint scan (thresholds : list Threshold) (db : JsNumber) : option Z :=
  match thresholds with
  | [] => None
  | threshold :: rest =>
      if Js.ge db (min threshold) && Js.lt db (max threshold)
      then Some (level threshold)
      else scan rest db
  end.

Definition getThemeLevel (db : JsNumber) : Z :=
  if is_negative_infinity db || isNaN db then 0
  else
    match scan DB_THRESHOLDS db with
    | Some level => level
    | None => 0
    end.

End Theme.

(** ** [app.js]: the readout and the hand-over to the controller *)

Module App.

(** What is assigned to [dbValueElement.textContent]: a string, or the
    number that [Math.round] returns. *)
Inductive TextContent : Type :=
| TextString (s : string)
| TextNumber (n : JsNumber).

Record t : Type := mk
  { dbValueElement_textContent : TextContent;
    animation : Session.t
      (* the state of the controller module that [onReading] belongs to *) }.

(** [Math.min(a, b)] *)
Definition Math_min (a b : JsNumber) : JsNumber :=
  match a, b with
  | NaN, _ | _, NaN => NaN
  | _, _ => if Js.lt b a then b else a
  end.

(** [Math.max(a, b)] *)
Definition Math_max (a b : JsNumber) : JsNumber :=
  match a, b with
  | NaN, _ | _, NaN => NaN
  | _, _ => if Js.lt a b then b else a
  end.

(** [Math.round(x)]: the nearest integer, a tie going up. *)
Definition Math_round (x : JsNumber) : JsNumber :=
  match x with
  | Fin q => Fin (inject_Z (SF.Math_round q))
  | _ => x
  end.

Definition syncAnimationWithDb (db : JsNumber) (st : Session.t) : Session.t :=
  let normalizedDb := if Js.isFinite db then db else Fin 0 in
  Controller.onReading (VNumber normalizedDb) st.

Definition updateDbDisplay (db : JsNumber) (app : t) : t :=
  let text :=
    if Theme.is_negative_infinity db || Theme.isNaN db then TextString "--"
    else
      let clampedDb := Math_max (Fin 0) (Math_min (Fin 150) db) in
      TextNumber (Math_round clampedDb) in
  mk text (syncAnimationWithDb db (animation app)).

End App.

(** A run of readings all classified into [S3], the first of them made
    at [t0]. *)
Definition sustained_S3 (t0 : Z) (run : list (JsValue * Z)) : Prop :=
  match run with
  | [] => False
  | first :: _ => snd first = t0
  end
  /\ Forall (fun reading => SF.classify (fst reading) = Some "S3"%string) run.

(** While the dwell timer of the tracker runs, it holds the time of the
    first reading of a run of [S3] readings that goes on to the latest
    reading processed. *)
Definition dwell_since_run (this : SF.animationState.t)
           (processed : list (JsValue * Z)) : Prop :=
  SF.animationState.inSF this = false ->
  forall t0 : Z,
    SF.animationState.s3EnteredAt this = Some t0 ->
    exists before run, processed = before ++ run /\ sustained_S3 t0 run.

(** A lower-case hexadecimal digit. *)
Definition lower_hex_digit (c : ascii) : bool :=
  let n := Z.of_nat (nat_of_ascii c) in
  ((48 <=? n) && (n <=? 57)) || ((97 <=? n) && (n <=? 102)).

(** A colour as [rgbToHex] writes the channels from 0 to 255: ['#'] and six
    lower-case hexadecimal digits. *)
Definition canonical_hex (color : string) : bool :=
  match color with
  | String "#"%char
      (String c1 (String c2 (String c3 (String c4 (String c5 (String c6
         EmptyString)))))) =>
      lower_hex_digit c1 && lower_hex_digit c2 && lower_hex_digit c3
      && lower_hex_digit c4 && lower_hex_digit c5 && lower_hex_digit c6
  | _ => false
  end.

(** [y] lies between [x] and [z], whichever of the two is the larger. *)
Definition between (x y z : Q) : Prop :=
  (x <= y /\ y <= z)%Q \/ (z <= y /\ y <= x)%Q.

(** A channel value in the range of a colour channel. *)
Definition in_channel_range (x : Q) : Prop := (0 <= x /\ x <= 255)%Q.

(** The value of the last reading of a schedule, if it has one. *)
Fixpoint last_reading (es : list Event) : option JsValue :=
  match es with
  | [] => None
  | Reading dbValue :: es' =>
      match last_reading es' with
      | Some later => Some later
      | None => Some dbValue
      end
  | _ :: es' => last_reading es'
  end.

(** The readings of a schedule that starts at time [clock], each with the
    time at which it is made. *)
Fixpoint readings_of (es : list Event) (clock : Z) : list (JsValue * Z) :=
  match es with
  | [] => []
  | Advance dt :: es' => readings_of es' (clock + dt)
  | Reading dbValue :: es' => (dbValue, clock) :: readings_of es' clock
  | _ :: es' => readings_of es' clock
  end.

(** A run of playback with one more warning logged before it. *)
Definition warned (count : nat) (run : Run) : Run :=
  (Session.set_warnings count (fst run), snd run).

(** Between [st] and [st'] playback has touched nothing but the log of the
    loads and [previousRange]. *)
Definition playback_only (st st' : Session.t) : Prop :=
  st' = Session.mk (Session.previousRange st') (Session.sequenceCounter st)
          (Session.tracker st) (Session.playerReady st)
          (Session.document_body st) (Session.loads st')
          (Session.warnings st) (Session.clock st) (Session.pending st)
          (Session.hung st).

(** The arguments of the [player.load] call that [playSteady] makes for a
    range, when it makes one. *)
Definition steady_load (getStateConfig : JsRange -> option StateConfig.t)
           (range : JsRange) : option LoadArgs.t :=
  match getStateConfig range with
  | Some stateConfig =>
      if Js.truthy (Some (StateConfig.file stateConfig)) then
        Some (LoadArgs.mk (StateConfig.file stateConfig) true
                (match StateConfig.loop stateConfig with
                 | Some l => l
                 | None => true
                 end)
                (match StateConfig.mode stateConfig with
                 | Some m => m
                 | None => forward
                 end))
      else None
  | None => None
  end.

(** The last call made to the player is the load of the steady clip of
    [range], made by the call of [onReading] that holds the latest token. *)
Definition shows_steady (getStateConfig : JsRange -> option StateConfig.t)
           (range : JsRange) (st : Session.t) : Prop :=
  exists args rest,
    Session.loads st = (Session.sequenceCounter st, args) :: rest
    /\ steady_load getStateConfig range = Some args.

(** What is left of a suspended sequence leads to the steady clip of
    [target] and then returns to [onReading] as [ret] says: either that clip
    is the load being awaited, or the sequence is inside a path that ends
    with [target], or it is between the transition and the steady clip of
    [target]. *)
Definition plays_to (getStateConfig : JsRange -> option StateConfig.t)
           (target : JsRange) (ret : Return) (st : Session.t) (s : Suspended)
  : Prop :=
  match s with
  | mkSuspended (K_steady_loaded ret') AwaitLoad =>
      ret' = ret /\ shows_steady getStateConfig target st
  | mkSuspended (K_step_loaded path i _ ret') AwaitLoad
  | mkSuspended (K_step_waited path i ret') (AwaitTimer _) =>
      ret' = ret /\ last path None = target /\ (i + 1 < List.length path)%nat
  | mkSuspended (K_transition_loaded _ nextRange) AwaitLoad
  | mkSuspended (K_transition_waited nextRange) (AwaitTimer _) =>
      ret = RetAdvance nextRange /\ nextRange = target
  | _ => False
  end.

(** The plain controller is up to date or on its way: the sequence that
    holds the latest token, if it is still suspended, leads to the steady
    clip of [previousRange]; if it is not, that clip is what the player was
    last asked for, unless no sequence has been started yet. *)
Definition plain_up_to_date (st : Session.t) : Prop :=
  match Session.find (Session.sequenceCounter st) (Session.pending st) with
  | Some s => plays_to S5.getStateConfig (Session.previousRange st) RetDone st s
  | None =>
      (Session.loads st = [] /\ Session.sequenceCounter st = 0
       /\ Session.previousRange st = S5.classify (VNumber (Fin 0)))
      \/ shows_steady S5.getStateConfig (Session.previousRange st) st
  end.

(** The invariant of the sessions of the plain controller with the player
    ready. *)
Definition plain_session_ok (st : Session.t) : Prop :=
  Session.playerReady st = true
  /\ pending_return_done st
  /\ (exists name : string,
         Session.previousRange st = Some name /\ In name S5.STATE_SEQUENCE)
  /\ plain_up_to_date st.

(** Every reading of the schedule is made while no call of [onReading] is
    suspended. *)
Fixpoint serial_from (es : list Event) (st : Session.t) : Prop :=
  match es with
  | [] => True
  | e :: es' =>
      (is_reading e = true -> Session.pending st = [])
      /\ match Controller.step e st with
         | Some st' => serial_from es' st'
         | None => True
         end
  end.

(** The tracker has not heard a reading yet, and the controller is in its
    initial range. *)
Definition before_first_reading (st : Session.t) : Prop :=
  SF.animationState.currentRange (Session.tracker st) = None
  /\ Session.previousRange st = Some "S1"%string.

(** The invariant of the sessions of the tracker variant in which every
    reading is made while the controller is idle: an idle controller is in
    the current range of the tracker and the player was last asked for the
    steady clip of that range; a busy one has one call suspended, which
    holds the latest token and leads to the steady clip of the current range
    of the tracker. *)
Definition serial_session_ok (st : Session.t) : Prop :=
  Session.playerReady st = true
  /\ Session.hung st = false
  /\ match Session.pending st with
     | [] =>
         (Session.previousRange st
          = SF.animationState.currentRange (Session.tracker st)
          \/ before_first_reading st)
         /\ ((Session.loads st = []
              /\ Session.previousRange st = Some "S1"%string)
             \/ shows_steady SF.getStateConfig (Session.previousRange st) st)
     | [(id, s)] =>
         id = Session.sequenceCounter st
         /\ (exists args,
                steady_load SF.getStateConfig
                  (SF.animationState.currentRange (Session.tracker st))
                = Some args)
         /\ plays_to SF.getStateConfig
              (SF.animationState.currentRange (Session.tracker st))
              (RetAdvance (SF.animationState.currentRange (Session.tracker st)))
              st s
     | _ => False
     end.

(** The call to the player that [loadClip] makes for a transition plan:
    its clip, played once in the direction of the plan; none when the plan
    has no file. *)
Definition transition_clip (transition : Plan.t) : list LoadArgs.t :=
  if Js.truthy (Some (Plan.file transition))
  then [LoadArgs.mk (Plan.file transition) true false (Plan.mode transition)]
  else [].

(** The calls to the player that the steps of a path make when it is
    played to its end, in order: for each step that has a transition plan,
    the load of its clip. *)
Fixpoint transition_loads (resolveTransition : JsRange -> JsRange -> option Plan.t)
         (path : list JsRange) : list LoadArgs.t :=
  match path with
  | startRange :: ((endRange :: _) as rest) =>
      match resolveTransition startRange endRange with
      | Some transition => transition_clip transition
      | None => []
      end ++ transition_loads resolveTransition rest
  | _ => []
  end.

(** The time that the delays of the steps of a path add up to. *)
Fixpoint transition_time (resolveTransition : JsRange -> JsRange -> option Plan.t)
         (path : list JsRange) : Z :=
  match path with
  | startRange :: ((endRange :: _) as rest) =>
      match resolveTransition startRange endRange with
      | Some transition => Z.max 0 (Plan.durationMs transition)
      | None => 0
      end + transition_time resolveTransition rest
  | _ => 0
  end.

(** The environment lets the call with token [id] run on, for at most
    [steps] resumptions: it settles each load that the call awaits, lets
    the time pass until the timer that the call awaits is due and fires it,
    and nothing else happens meanwhile. *)
Fixpoint drive (getStateConfig : JsRange -> option StateConfig.t)
         (resolveTransition : JsRange -> JsRange -> option Plan.t)
         (steps : nat) (id : Z) (st : Session.t) : Session.t :=
  match steps with
  | O => st
  | S steps' =>
      match Session.find id (Session.pending st) with
      | Some (mkSuspended _ AwaitLoad) =>
          match on_load_settled getStateConfig resolveTransition id true st with
          | Some st' => drive getStateConfig resolveTransition steps' id st'
          | None => st
          end
      | Some (mkSuspended _ (AwaitTimer due)) =>
          let st := Session.set_clock (Z.max (Session.clock st) due) st in
          match on_timer_fired getStateConfig resolveTransition id st with
          | Some st' => drive getStateConfig resolveTransition steps' id st'
          | None => st
          end
      | None => st
      end
  end.

(** Where a call is once it has returned to [onReading] as [ret] says. *)
Definition returned_range (ret : Return) (st : Session.t) : JsRange :=
  match ret with
  | RetAdvance nextRange => nextRange
  | RetDone => Session.previousRange st
  end.

(** Between [st] and [final] the call with token [id] has run to its end
    undisturbed: the player was given the [clips] in order and then the
    [steady] clip, by this call and by no other; the waits took [time]; the
    call is no longer suspended. *)
Definition played_through (id : Z) (clips : list LoadArgs.t)
           (steady : LoadArgs.t) (time : Z) (st final : Session.t) : Prop :=
  Session.loads final = map (pair id) (rev (clips ++ [steady])) ++ Session.loads st
  /\ Session.clock final = Session.clock st + time
  /\ Session.find id (Session.pending final) = None.

(** The calls to the player that a suspended call still has to make
    before it returns, if nothing supersedes it. *)
Definition remaining_clips (getStateConfig : JsRange -> option StateConfig.t)
           (resolveTransition : JsRange -> JsRange -> option Plan.t)
           (k : Cont) : option (list LoadArgs.t) :=
  match k with
  | K_steady_loaded _ => Some []
  | K_transition_loaded _ nextRange
  | K_transition_waited nextRange =>
      match steady_load getStateConfig nextRange with
      | Some clip => Some [clip]
      | None => None
      end
  | K_step_loaded path i _ _
  | K_step_waited path i _ =>
      if (i + 1 <? List.length path)%nat then
        match steady_load getStateConfig (last path None) with
        | Some clip =>
            Some (transition_loads resolveTransition (skipn (i + 1) path)
                  ++ [clip])
        | None => None
        end
      else None
  end.

(** The call with token [id], the only one under way since [st0], keeps to
    its plan: the player has been given a first part of the [planned]
    clips, in order, and the call is suspended with the rest still to
    make, or has returned with none left. *)
Definition on_plan (getStateConfig : JsRange -> option StateConfig.t)
           (resolveTransition : JsRange -> JsRange -> option Plan.t)
           (id : Z) (planned : list LoadArgs.t) (st0 st : Session.t) : Prop :=
  Session.playerReady st = true
  /\ Session.sequenceCounter st = id
  /\ (forall other : Z, other <> id ->
        Session.find other (Session.pending st) = None)
  /\ exists done rest : list LoadArgs.t,
      planned = done ++ rest
      /\ Session.loads st = map (pair id) (rev done) ++ Session.loads st0
      /\ match Session.find id (Session.pending st) with
         | Some s =>
             remaining_clips getStateConfig resolveTransition (cont s)
             = Some rest
         | None => rest = []
         end.

(** * Properties *)

(** ** Comparisons of finite numbers *)

Lemma Qltb_true (x y : Q) : Js.Qltb x y = true <-> (x < y)%Q.
Proof.
  unfold Js.Qltb. rewrite negb_true_iff.
  split; intro H.
  - apply Qnot_le_lt. intro Hle. apply Qle_bool_iff in Hle. congruence.
  - destruct (Qle_bool y x) eqn:E; [|reflexivity].
    apply Qle_bool_iff in E. exfalso. exact (Qlt_not_le _ _ H E).
Qed.

Lemma Qltb_false (x y : Q) : Js.Qltb x y = false <-> (y <= x)%Q.
Proof.
  unfold Js.Qltb. rewrite negb_false_iff. apply Qle_bool_iff.
Qed.

Lemma Qle_bool_false (x y : Q) : Qle_bool x y = false <-> (y < x)%Q.
Proof.
  rewrite <- Qltb_true. unfold Js.Qltb.
  destruct (Qle_bool x y); simpl; split; congruence.
Qed.

(** ** The range classifier *)

Lemma SF_test_S1 (q : Q) :
  SF.range_matches "S1" (Fin q) = true <-> (q < 75)%Q.
Proof. apply Qltb_true. Qed.

Lemma SF_test_S2 (q : Q) :
  SF.range_matches "S2" (Fin q) = true <-> (75 <= q)%Q /\ (q < 90)%Q.
Proof.
  unfold SF.range_matches, range_matches; simpl.
  rewrite andb_true_iff, Qltb_true. unfold Js.ge; simpl.
  rewrite Qle_bool_iff. reflexivity.
Qed.

Lemma SF_test_S3 (q : Q) :
  SF.range_matches "S3" (Fin q) = true <-> (90 <= q)%Q.
Proof. apply Qle_bool_iff. Qed.

Lemma SF_range_matches_keys (key : string) (value : JsNumber) :
  SF.range_matches key value = true -> In key ["S1"; "S2"; "S3"].
Proof.
  unfold SF.range_matches, range_matches, SF.ranges.
  cbn [Js.lookup].
  destruct (String.eqb_spec "S1" key) as [<-|_]; [simpl; tauto|].
  destruct (String.eqb_spec "S2" key) as [<-|_]; [simpl; tauto|].
  destruct (String.eqb_spec "S3" key) as [<-|_]; [simpl; tauto|].
  discriminate.
Qed.

Lemma Q_75_lt_90 : (75 < 90)%Q.
Proof. reflexivity. Qed.

(** The three cases of a finite value, with where the loop of [classify]
    stops. *)
Lemma SF_classify_scan_finite (q : Q) :
  ((q < 75)%Q
   /\ classify_scan SF.ranges SF.STATE_SEQUENCE (Fin q) = Some "S1")
  \/ ((75 <= q)%Q /\ (q < 90)%Q
      /\ classify_scan SF.ranges SF.STATE_SEQUENCE (Fin q) = Some "S2")
  \/ ((90 <= q)%Q
      /\ classify_scan SF.ranges SF.STATE_SEQUENCE (Fin q) = Some "S3").
Proof.
  cbn [classify_scan SF.STATE_SEQUENCE].
  change (range_matches SF.ranges) with SF.range_matches.
  destruct (Qlt_le_dec q 75) as [H1|H1].
  - left. split; [assumption|].
    rewrite (proj2 (SF_test_S1 q) H1). reflexivity.
  - right.
    assert (N1 : SF.range_matches "S1" (Fin q) = false).
    { apply not_true_is_false. intro H. apply SF_test_S1 in H.
      exact (Qlt_not_le _ _ H H1). }
    rewrite N1.
    destruct (Qlt_le_dec q 90) as [H2|H2].
    + left. rewrite (proj2 (SF_test_S2 q) (conj H1 H2)). auto.
    + right.
      assert (N2 : SF.range_matches "S2" (Fin q) = false).
      { apply not_true_is_false. intro H. apply SF_test_S2 in H as [_ H].
        exact (Qlt_not_le _ _ H H2). }
      rewrite N2, (proj2 (SF_test_S3 q) H2). auto.
Qed.

Lemma SF_classify_finite (q : Q) :
  ((q < 75)%Q /\ SF.classify (VNumber (Fin q)) = Some "S1")
  \/ ((75 <= q)%Q /\ (q < 90)%Q /\ SF.classify (VNumber (Fin q)) = Some "S2")
  \/ ((90 <= q)%Q /\ SF.classify (VNumber (Fin q)) = Some "S3").
Proof.
  unfold SF.classify, classify, classify_number.
  change (finite_or_zero (Js.Number (VNumber (Fin q)))) with (Fin q).
  destruct (SF_classify_scan_finite q) as [[H1 E]|[[H1 [H2 E]]|[H1 E]]];
    rewrite E; tauto.
Qed.

Lemma finite_or_zero_finite (value : JsNumber) :
  exists q, finite_or_zero value = Fin q.
Proof.
  destruct value; unfold finite_or_zero; simpl; eexists; reflexivity.
Qed.

(** In any configuration: when no test accepts the value, the loop falls
    through. *)
Lemma classify_scan_none ranges (keys : list string) (value : JsNumber) :
  (forall key, In key keys -> range_matches ranges key value = false) ->
  classify_scan ranges keys value = None.
Proof.
  induction keys as [|k keys IH]; cbn [classify_scan]; intro H; [reflexivity|].
  rewrite (H k (or_introl eq_refl)). apply IH. intros key Hin. apply H.
  right. exact Hin.
Qed.

(** C3. [classify] answers every input with one range identifier.  A value
    that is not a finite number is classified as [0] is.  The value once
    normalised ([Number(dbValue)], or [0] when that is not finite) is
    accepted by the test of exactly one range, the one [classify] returns.
    A finite [q] is classified [S1] exactly when [q < 75], [S2] exactly
    when [75 <= q < 90] and [S3] exactly when [90 <= q]; these are the
    tests of the three ranges, each the half-open interval from [min] to
    [max] of its range.  In any configuration, when no test accepts the
    value the answer is the last element of the state order. *)
Theorem classify_total_partition :
  (forall dbValue : JsValue,
      Js.isFinite (Js.Number dbValue) = false ->
      SF.classify dbValue = SF.classify (VNumber (Fin 0)))
  /\ (forall dbValue : JsValue,
         exists key value,
           SF.classify dbValue = Some key
           /\ value = (if Js.isFinite (Js.Number dbValue)
                       then Js.Number dbValue else Fin 0)
           /\ SF.range_matches key value = true
           /\ forall key', SF.range_matches key' value = true -> key' = key)
  /\ (forall q : Q,
         (SF.classify (VNumber (Fin q)) = Some "S1" <-> (q < 75)%Q)
         /\ (SF.classify (VNumber (Fin q)) = Some "S2"
             <-> (75 <= q)%Q /\ (q < 90)%Q)
         /\ (SF.classify (VNumber (Fin q)) = Some "S3" <-> (90 <= q)%Q))
  /\ (forall q : Q,
         (SF.range_matches "S1" (Fin q) = true <-> (q < 75)%Q)
         /\ (SF.range_matches "S2" (Fin q) = true <-> (75 <= q)%Q /\ (q < 90)%Q)
         /\ (SF.range_matches "S3" (Fin q) = true <-> (90 <= q)%Q))
  /\ (forall (key : string) (range : Range.t) (q : Q),
         Js.lookup SF.ranges key = Some range ->
         Range.test range (Fin q)
         = Js.le (Range.min range) (Fin q) && Js.lt (Fin q) (Range.max range))
  /\ (forall STATE_SEQUENCE ranges value,
         (forall key, In key STATE_SEQUENCE ->
                      range_matches ranges key value = false) ->
         classify_number STATE_SEQUENCE ranges value
         = Js.at_ STATE_SEQUENCE (Z.of_nat (List.length STATE_SEQUENCE) - 1)).
Proof.
  split; [|split; [|split; [|split; [|split]]]].
  - intros dbValue Hnf. unfold SF.classify, classify, finite_or_zero.
    rewrite Hnf. reflexivity.
  - intro dbValue.
    change (if Js.isFinite (Js.Number dbValue) then Js.Number dbValue
            else Fin 0)
      with (finite_or_zero (Js.Number dbValue)).
    destruct (finite_or_zero_finite (Js.Number dbValue)) as [q Hq].
    assert (Hc : SF.classify dbValue = SF.classify (VNumber (Fin q))).
    { unfold SF.classify, classify. rewrite Hq. reflexivity. }
    rewrite Hc, Hq.
    destruct (SF_classify_finite q) as [[H1 E]|[[H1 [H2 E]]|[H1 E]]];
      rewrite E; eexists; exists (Fin q); (split; [reflexivity|]);
      (split; [reflexivity|]); split.
    + apply SF_test_S1; assumption.
    + intros key' Hk. pose proof (SF_range_matches_keys _ _ Hk) as Hin.
      simpl in Hin. destruct Hin as [<-|[<-|[<-|[]]]]; [reflexivity| |].
      * apply SF_test_S2 in Hk as [Hk _]. exfalso.
        exact (Qlt_not_le _ _ H1 Hk).
      * apply SF_test_S3 in Hk. exfalso.
        apply (Qlt_not_le _ _ H1). apply Qle_trans with 90%Q; [|assumption].
        apply Qlt_le_weak, Q_75_lt_90.
    + apply SF_test_S2; split; assumption.
    + intros key' Hk. pose proof (SF_range_matches_keys _ _ Hk) as Hin.
      simpl in Hin. destruct Hin as [<-|[<-|[<-|[]]]]; [|reflexivity|].
      * apply SF_test_S1 in Hk. exfalso. exact (Qlt_not_le _ _ Hk H1).
      * apply SF_test_S3 in Hk. exfalso. exact (Qlt_not_le _ _ H2 Hk).
    + apply SF_test_S3; assumption.
    + intros key' Hk. pose proof (SF_range_matches_keys _ _ Hk) as Hin.
      simpl in Hin. destruct Hin as [<-|[<-|[<-|[]]]]; [| |reflexivity].
      * apply SF_test_S1 in Hk. exfalso.
        apply (Qlt_not_le _ _ Hk). apply Qle_trans with 90%Q; [|assumption].
        apply Qlt_le_weak, Q_75_lt_90.
      * apply SF_test_S2 in Hk as [_ Hk]. exfalso.
        exact (Qlt_not_le _ _ Hk H1).
  - intro q.
    destruct (SF_classify_finite q) as [[H1 E]|[[H1 [H2 E]]|[H1 E]]];
      rewrite E; (split; [|split]); (split; intro Hcase);
      try discriminate; try reflexivity; try assumption;
      try (split; assumption);
      try (exfalso; lra); try (destruct Hcase; exfalso; lra).
  - intro q. split; [apply SF_test_S1|split; [apply SF_test_S2|apply SF_test_S3]].
  - intros key range q. unfold SF.ranges. cbn [Js.lookup].
    destruct (String.eqb_spec "S1" key) as [_|_];
      [intros [= <-]; reflexivity|].
    destruct (String.eqb_spec "S2" key) as [_|_];
      [intros [= <-]; reflexivity|].
    destruct (String.eqb_spec "S3" key) as [_|_]; [|discriminate].
    intros [= <-]. cbn. rewrite andb_true_r. reflexivity.
  - intros seq ranges value H. unfold classify_number.
    rewrite (classify_scan_none ranges seq value H). reflexivity.
Qed.

Lemma SF_classify_not_final (dbValue : JsValue) :
  SF.classify dbValue <> Some "SF"%string.
Proof.
  destruct (finite_or_zero_finite (Js.Number dbValue)) as [q Hq].
  assert (E : SF.classify dbValue = SF.classify (VNumber (Fin q))).
  { unfold SF.classify, classify. rewrite Hq. reflexivity. }
  rewrite E.
  destruct (SF_classify_finite q) as [[_ H]|[[_ [_ H]]|[_ H]]]; rewrite H;
    discriminate.
Qed.

(** C10. [classify] never answers the final marker: its result is always one
    of [S1], [S2], [S3], although the marker is the last element of the
    state order and is what the loop falls back to when no test accepts the
    value, as it does on [NaN] when the normalisation is left out. *)
Theorem classify_never_final :
  (forall dbValue : JsValue,
      SF.classify dbValue <> Some "SF"
      /\ (SF.classify dbValue = Some "S1"
          \/ SF.classify dbValue = Some "S2"
          \/ SF.classify dbValue = Some "S3"))
  /\ (forall dbValue : JsValue,
         classify_scan SF.ranges SF.STATE_SEQUENCE
           (finite_or_zero (Js.Number dbValue)) <> None)
  /\ last_of_sequence SF.STATE_SEQUENCE = Some "SF"
  /\ classify_number SF.STATE_SEQUENCE SF.ranges NaN = Some "SF".
Proof.
  assert (H : forall dbValue, exists q,
               finite_or_zero (Js.Number dbValue) = Fin q
               /\ SF.classify dbValue = SF.classify (VNumber (Fin q))).
  { intro dbValue.
    destruct (finite_or_zero_finite (Js.Number dbValue)) as [q Hq].
    exists q. split; [assumption|].
    unfold SF.classify, classify. rewrite Hq. reflexivity. }
  split; [|split; [|split]]; try reflexivity.
  - intro dbValue. destruct (H dbValue) as [q [_ ->]].
    destruct (SF_classify_finite q) as [[_ E]|[[_ [_ E]]|[_ E]]]; rewrite E;
      (split; [discriminate|tauto]).
  - intro dbValue. destruct (H dbValue) as [q [Hq _]]. rewrite Hq.
    destruct (SF_classify_scan_finite q) as [[_ E]|[[_ [_ E]]|[_ E]]];
      rewrite E; discriminate.
Qed.

(** ** Positions in the state order *)

Lemma strict_eq_true (a b : JsRange) : Js.strict_eq a b = true <-> a = b.
Proof.
  destruct a as [x|], b as [y|]; simpl; try (split; congruence).
  rewrite String.eqb_eq. split; congruence.
Qed.

Lemma indexOfFrom_cases (l : list string) (x : string) (i : Z) :
  (Js.indexOfFrom l x i = -1 /\ ~ In x l)
  \/ (exists k : nat,
         (k < List.length l)%nat
         /\ Js.indexOfFrom l x i = i + Z.of_nat k
         /\ nth_error l k = Some x
         /\ forall j, (j < k)%nat -> nth_error l j <> Some x).
Proof.
  revert i. induction l as [|y l IH]; intro i; cbn [Js.indexOfFrom].
  - left. split; [reflexivity|]. intros [].
  - destruct (String.eqb_spec y x) as [->|Hyx].
    + right. exists 0%nat. cbn. repeat split; try lia.
    + destruct (IH (i + 1)) as [[H1 H2]|[k [Hk [Hi [Hn Hf]]]]].
      * left. split; [assumption|].
        intros [E|E]; [congruence|contradiction].
      * right. exists (S k). cbn [List.length nth_error].
        repeat split; try lia; try assumption.
        intros [|j] Hj; cbn; [congruence|]. apply Hf. lia.
Qed.

(** [indexOf] either fails on a value that does not occur, or returns the
    first position of a string that does. *)
Lemma indexOf_cases (l : list string) (r : JsRange) :
  (Js.indexOf l r = -1 /\ forall s, r = Some s -> ~ In s l)
  \/ (exists (s : string) (k : nat),
         r = Some s
         /\ (k < List.length l)%nat
         /\ Js.indexOf l r = Z.of_nat k
         /\ nth_error l k = Some s).
Proof.
  destruct r as [s|]; cbn [Js.indexOf].
  - destruct (indexOfFrom_cases l s 0) as [[H1 H2]|[k [Hk [Hi [Hn _]]]]].
    + left. split; [assumption|]. congruence.
    + right. exists s, k. rewrite Hi. repeat split; auto.
  - left. split; [reflexivity|]. discriminate.
Qed.

Lemma indexOf_In (l : list string) (s : string) :
  In s l -> Js.indexOf l (Some s) <> -1.
Proof.
  intro Hin. destruct (indexOf_cases l (Some s)) as [[_ H]|[s' [k [_ [_ [Hi _]]]]]].
  - exfalso. exact (H s eq_refl Hin).
  - rewrite Hi. lia.
Qed.

Lemma indexOf_known_truthy (l : list string) (r : JsRange) :
  ~ In ""%string l -> Js.indexOf l r <> -1 -> Js.truthy r = true.
Proof.
  intros Hne Hi.
  destruct (indexOf_cases l r) as [[H _]|[s [k [-> [_ [_ Hn]]]]]]; [contradiction|].
  cbn. destruct (String.eqb_spec s "") as [->|_]; [|reflexivity].
  exfalso. apply Hne. eapply nth_error_In; eassumption.
Qed.

Lemma at_indexOf (l : list string) (r : JsRange) :
  Js.indexOf l r <> -1 -> Js.at_ l (Js.indexOf l r) = r.
Proof.
  intro Hi.
  destruct (indexOf_cases l r) as [[H _]|[s [k [-> [_ [Hk Hn]]]]]]; [contradiction|].
  rewrite Hk. unfold Js.at_.
  destruct (Z.ltb_spec (Z.of_nat k) 0); [lia|].
  rewrite Nat2Z.id. assumption.
Qed.

Lemma indexOf_at (l : list string) (k : nat) (s : string) :
  NoDup l -> nth_error l k = Some s -> Js.indexOf l (Some s) = Z.of_nat k.
Proof.
  intros Hnd Hn.
  destruct (indexOf_cases l (Some s)) as [[_ H]|[s' [k' [E [Hk' [Hi Hn']]]]]].
  - exfalso. apply (H s eq_refl). eapply nth_error_In; eassumption.
  - injection E as <-. rewrite Hi. f_equal.
    apply (proj1 (NoDup_nth_error l) Hnd); [assumption|congruence].
Qed.

Lemma indexOf_range (l : list string) (r : JsRange) :
  Js.indexOf l r = -1
  \/ (0 <= Js.indexOf l r < Z.of_nat (List.length l)).
Proof.
  destruct (indexOf_cases l r) as [[H _]|[s [k [_ [Hk [Hi _]]]]]]; [auto|].
  right. lia.
Qed.

(** ** The transition resolver *)

Lemma falsy_unknown (l : list string) (r : JsRange) :
  ~ In ""%string l -> Js.truthy r = false -> Js.indexOf l r = -1.
Proof.
  intros Hne Hf. destruct (Z.eq_dec (Js.indexOf l r) (-1)) as [E|E]; [assumption|].
  rewrite (indexOf_known_truthy l r Hne E) in Hf. discriminate.
Qed.

(** The outcome of [resolveTransition] in terms of the two positions. *)
Lemma resolveTransition_cases
  (STATE_SEQUENCE : list string) (files_transition : list (string * Descriptor.t))
  (prevRange nextRange : JsRange) :
  ~ In ""%string STATE_SEQUENCE ->
  let prevIndex := Js.indexOf STATE_SEQUENCE prevRange in
  let nextIndex := Js.indexOf STATE_SEQUENCE nextRange in
  let resolved :=
    resolveTransition STATE_SEQUENCE files_transition prevRange nextRange in
  (resolved = None
   /\ (prevIndex = -1 \/ nextIndex = -1 \/ Z.abs (prevIndex - nextIndex) <> 1))
  \/ (prevIndex <> -1 /\ nextIndex = prevIndex + 1
      /\ resolved =
           match Js.lookup files_transition
                   (Js.template prevRange ++ "_" ++ Js.template nextRange)%string
           with
           | Some base =>
               Some (Plan.mk
                       (Js.template prevRange ++ "_" ++ Js.template nextRange)%string
                       up (Descriptor.file base)
                       (match Descriptor.durationMs base with
                        | Some d => d
                        | None => DEFAULT_TRANSITION_DURATION
                        end)
                       forward)
           | None => None
           end)
  \/ (nextIndex <> -1 /\ prevIndex = nextIndex + 1
      /\ resolved =
           match Js.lookup files_transition
                   (Js.template nextRange ++ "_" ++ Js.template prevRange)%string
           with
           | Some base =>
               Some (Plan.mk
                       (Js.template nextRange ++ "_" ++ Js.template prevRange)%string
                       down (Descriptor.file base)
                       (match Descriptor.durationMs base with
                        | Some d => d
                        | None => DEFAULT_TRANSITION_DURATION
                        end)
                       reverse)
           | None => None
           end).
Proof.
  intros Hne prevIndex nextIndex resolved.
  subst resolved. unfold resolveTransition, getRangeDirection.
  fold prevIndex nextIndex.
  destruct (Js.truthy prevRange) eqn:Tp; cbn [negb orb].
  2:{ left. split; [reflexivity|]. left. apply falsy_unknown; assumption. }
  destruct (Js.truthy nextRange) eqn:Tn; cbn [negb orb].
  2:{ left. split; [reflexivity|]. right; left. apply falsy_unknown; assumption. }
  destruct (Js.strict_eq prevRange nextRange) eqn:Eq.
  { left. split; [reflexivity|]. apply strict_eq_true in Eq.
    right; right. subst prevIndex nextIndex. rewrite Eq. rewrite Z.sub_diag.
    cbn. lia. }
  destruct (Z.eqb_spec prevIndex (-1)) as [Ep|Ep]; cbn [orb].
  { left. split; [reflexivity|]. auto. }
  destruct (Z.eqb_spec nextIndex (-1)) as [En|En]; cbn [orb].
  { left. split; [reflexivity|]. auto. }
  rewrite Z.gtb_ltb.
  destruct (Z.ltb_spec prevIndex nextIndex) as [Hlt|Hge].
  - cbn [orb]. destruct (Z.eqb_spec (Z.abs (prevIndex - nextIndex)) 1) as [Ha|Ha];
      cbn [negb].
    + right; left. split; [assumption|]. split; [lia|]. reflexivity.
    + left. split; [reflexivity|]. auto.
  - destruct (Z.ltb_spec nextIndex prevIndex) as [Hlt|Hge'].
    + cbn [orb]. destruct (Z.eqb_spec (Z.abs (prevIndex - nextIndex)) 1) as [Ha|Ha];
        cbn [negb].
      * right; right. split; [assumption|]. split; [lia|]. reflexivity.
      * left. split; [reflexivity|]. auto.
    + left. split; [reflexivity|]. right; right. lia.
Qed.

(** C4. In a configuration whose range names are not empty,
    [resolveTransition(prev, next)] is [null] when the two are equal, when
    either has no position in the state order, and when the positions do
    not differ by exactly 1.  For an adjacent pair, the descriptor is looked
    up under the key made of the pair in ascending order; when there is one,
    the plan carries its file, its duration or 2000 when it gives none, and
    the mode [forward] when [next] is the higher range, [reverse] when it is
    the lower; when there is none the result is [null]. *)
Theorem resolveTransition_spec
  (STATE_SEQUENCE : list string) (files_transition : list (string * Descriptor.t))
  (Hnames : ~ In ""%string STATE_SEQUENCE) (prevRange nextRange : JsRange) :
  let position := Js.indexOf STATE_SEQUENCE in
  let resolved :=
    resolveTransition STATE_SEQUENCE files_transition prevRange nextRange in
  (prevRange = nextRange -> resolved = None)
  /\ (position prevRange = -1 \/ position nextRange = -1 -> resolved = None)
  /\ (Z.abs (position prevRange - position nextRange) <> 1 -> resolved = None)
  /\ (position prevRange <> -1 -> position nextRange <> -1 ->
      Z.abs (position prevRange - position nextRange) = 1 ->
      let ascending := position prevRange <? position nextRange in
      let key :=
        if ascending
        then (Js.template prevRange ++ "_" ++ Js.template nextRange)%string
        else (Js.template nextRange ++ "_" ++ Js.template prevRange)%string in
      match Js.lookup files_transition key with
      | Some base =>
          exists plan,
            resolved = Some plan
            /\ Plan.key plan = key
            /\ Plan.file plan = Descriptor.file base
            /\ Plan.durationMs plan =
                 match Descriptor.durationMs base with
                 | Some d => d
                 | None => 2000
                 end
            /\ Plan.mode plan = (if ascending then forward else reverse)
            /\ Plan.direction plan = (if ascending then up else down)
      | None => resolved = None
      end).
Proof.
  intros position resolved.
  pose proof (resolveTransition_cases STATE_SEQUENCE files_transition
                prevRange nextRange Hnames) as H.
  cbn zeta in H. fold position in H. fold resolved in H.
  split; [|split; [|split]].
  - intros ->.
    destruct H as [[H _]|[[_ [E _]]|[_ [E _]]]]; [assumption| |]; exfalso; lia.
  - intros Hu. pose proof (indexOf_range STATE_SEQUENCE prevRange) as Rp.
    pose proof (indexOf_range STATE_SEQUENCE nextRange) as Rn.
    fold position in Rp, Rn.
    destruct H as [[H _]|[[Hp [E _]]|[Hn [E _]]]]; [assumption| |]; exfalso; lia.
  - intros Hd.
    destruct H as [[H _]|[[_ [E _]]|[_ [E _]]]]; [assumption| |]; exfalso; lia.
  - intros Hp Hn Hd ascending key. subst ascending key.
    destruct H as [[_ H]|[[_ [E H]]|[_ [E H]]]].
    + exfalso. lia.
    + destruct (Z.ltb_spec (position prevRange) (position nextRange)); [|lia].
      destruct (Js.lookup files_transition _) as [base|]; [|assumption].
      eexists. split; [exact H|]. cbn. auto.
    + destruct (Z.ltb_spec (position prevRange) (position nextRange)); [lia|].
      destruct (Js.lookup files_transition _) as [base|]; [|assumption].
      eexists. split; [exact H|]. cbn. auto.
Qed.

Lemma SF_names : ~ In ""%string SF.STATE_SEQUENCE.
Proof. cbn. intros [H|[H|[H|[H|[]]]]]; discriminate. Qed.

Lemma S5_names : ~ In ""%string S5.STATE_SEQUENCE.
Proof. cbn. intros [H|[H|[H|[H|[H|[]]]]]]; discriminate. Qed.

(** From [S3] down to [S2] the plan is the [S2_S3] clip in reverse. *)
Lemma resolveTransition_spec_witness :
  ~ In ""%string SF.STATE_SEQUENCE
  /\ exists plan,
      SF.resolveTransition (Some "S3") (Some "S2") = Some plan
      /\ Plan.file plan = "./media/transition_2_3.json"
      /\ Plan.durationMs plan = 467
      /\ Plan.mode plan = reverse.
Proof.
  split; [exact SF_names|].
  pose proof (resolveTransition_spec SF.STATE_SEQUENCE SF.files_transition
                SF_names (Some "S3") (Some "S2")) as H.
  cbn zeta in H. destruct H as [_ [_ [_ H]]].
  specialize (H ltac:(cbn; lia) ltac:(cbn; lia) ltac:(cbn; lia)).
  cbn in H. destruct H as [plan [E [_ [Hf [Hd [Hm _]]]]]].
  exists plan. unfold SF.resolveTransition. auto.
Defined.

(** ** Range paths *)

(** The loop of [buildRangePath] from [i] to a target [d] steps away in the
    direction of [step]: it stops after [d + 1] iterations, having pushed
    the elements at [i], [i + step], ..., [i + d * step]. *)
Lemma walk_spec (STATE_SEQUENCE : list string) (step nextIndex : Z) :
  step = 1 \/ step = -1 ->
  forall (d fuel : nat) (i : Z) (acc : list JsRange),
    nextIndex = i + step * Z.of_nat d ->
    (d < fuel)%nat ->
    exists path,
      walk STATE_SEQUENCE fuel i step nextIndex acc = Some (acc ++ path)
      /\ List.length path = S d
      /\ forall k, (k <= d)%nat ->
                   nth_error path k
                   = Some (Js.at_ STATE_SEQUENCE (i + step * Z.of_nat k)).
Proof.
  intros Hstep d. induction d as [|d IH]; intros fuel i acc Hnext Hfuel.
  - destruct fuel as [|fuel]; [lia|]. cbn [walk].
    replace nextIndex with i by lia. rewrite Z.eqb_refl.
    exists [Js.at_ STATE_SEQUENCE i]. repeat split.
    intros k Hk. replace k with 0%nat by lia. cbn. do 2 f_equal. lia.
  - destruct fuel as [|fuel]; [lia|]. cbn [walk].
    destruct (Z.eqb_spec i nextIndex) as [E|_]; [exfalso; lia|].
    destruct (IH fuel (i + step) (acc ++ [Js.at_ STATE_SEQUENCE i]))
      as [path [Hw [Hl Hk]]]; [lia|lia|].
    exists (Js.at_ STATE_SEQUENCE i :: path). split; [|split].
    + rewrite Hw, <- app_assoc. reflexivity.
    + cbn [List.length]. lia.
    + intros [|k] Hle; cbn [nth_error].
      * do 2 f_equal. lia.
      * rewrite Hk by lia. do 2 f_equal. lia.
Qed.

Lemma walk_more_fuel (STATE_SEQUENCE : list string) (step nextIndex : Z)
      (fuel : nat) :
  forall (i : Z) (acc path : list JsRange),
    walk STATE_SEQUENCE fuel i step nextIndex acc = Some path ->
    forall extra : nat,
      walk STATE_SEQUENCE (fuel + extra) i step nextIndex acc = Some path.
Proof.
  induction fuel as [|fuel IH]; intros i acc path H extra; [discriminate|].
  cbn [walk Nat.add] in *.
  destruct (i =? nextIndex); [assumption|]. apply IH. assumption.
Qed.

(** The path between two known ranges, by position. *)
Lemma buildRangePath_known (STATE_SEQUENCE : list string) (a b : JsRange) :
  ~ In ""%string STATE_SEQUENCE ->
  let prevIndex := Js.indexOf STATE_SEQUENCE a in
  let nextIndex := Js.indexOf STATE_SEQUENCE b in
  prevIndex <> -1 -> nextIndex <> -1 ->
  exists path,
    buildRangePath STATE_SEQUENCE a b = Some path
    /\ Z.of_nat (List.length path) = Z.abs (prevIndex - nextIndex) + 1
    /\ forall k, Z.of_nat k <= Z.abs (prevIndex - nextIndex) ->
                 nth_error path k
                 = Some (Js.at_ STATE_SEQUENCE
                           (prevIndex
                            + (if nextIndex >? prevIndex then 1 else -1)
                              * Z.of_nat k)).
Proof.
  intros Hne prevIndex nextIndex Hp Hn.
  pose proof (indexOf_range STATE_SEQUENCE a) as Ra.
  pose proof (indexOf_range STATE_SEQUENCE b) as Rb.
  fold prevIndex in Ra. fold nextIndex in Rb.
  unfold buildRangePath, buildRangePath_fuel. fold prevIndex nextIndex.
  rewrite (indexOf_known_truthy _ _ Hne Hp), (indexOf_known_truthy _ _ Hne Hn).
  cbn [negb orb].
  destruct (Z.eqb_spec prevIndex (-1)) as [|_]; [contradiction|].
  destruct (Z.eqb_spec nextIndex (-1)) as [|_]; [contradiction|].
  cbn [orb].
  destruct (Z.eqb_spec prevIndex nextIndex) as [E|E].
  - exists [b]. rewrite E, Z.sub_diag. cbn [List.length Z.abs]. repeat split.
    intros k Hk. replace k with 0%nat by lia. cbn [nth_error].
    rewrite Z.mul_0_r, Z.add_0_r. unfold nextIndex.
    rewrite at_indexOf; [reflexivity|assumption].
  - set (step := if nextIndex >? prevIndex then 1 else -1).
    assert (Hstep : step = 1 \/ step = -1).
    { subst step. destruct (nextIndex >? prevIndex); auto. }
    assert (Hd : nextIndex
                 = prevIndex + step * Z.of_nat (Z.to_nat (Z.abs (prevIndex - nextIndex)))).
    { subst step. rewrite Z.gtb_ltb.
      destruct (Z.ltb_spec prevIndex nextIndex); lia. }
    destruct (walk_spec STATE_SEQUENCE step nextIndex Hstep
                (Z.to_nat (Z.abs (prevIndex - nextIndex)))
                (List.length STATE_SEQUENCE) prevIndex [] Hd)
      as [path [Hw [Hl Hk]]]; [lia|].
    exists path. split; [exact Hw|]. split; [lia|].
    intros k Hle. apply Hk. lia.
Qed.

(** The loop of [buildRangePath] always reaches its [break]: the function
    returns a path on every input. *)
Lemma buildRangePath_total (STATE_SEQUENCE : list string) (a b : JsRange) :
  ~ In ""%string STATE_SEQUENCE ->
  exists path, buildRangePath STATE_SEQUENCE a b = Some path.
Proof.
  intro Hne.
  destruct (Z.eq_dec (Js.indexOf STATE_SEQUENCE a) (-1)) as [Ea|Ea].
  - unfold buildRangePath, buildRangePath_fuel. rewrite Ea.
    destruct (negb (Js.truthy a) || negb (Js.truthy b));
      eexists; reflexivity.
  - destruct (Z.eq_dec (Js.indexOf STATE_SEQUENCE b) (-1)) as [Eb|Eb].
    + unfold buildRangePath, buildRangePath_fuel. rewrite Eb.
      destruct (negb (Js.truthy a) || negb (Js.truthy b));
        [eexists; reflexivity|].
      rewrite orb_true_r. eexists; reflexivity.
    + destruct (buildRangePath_known STATE_SEQUENCE a b Hne Ea Eb) as [path [H _]].
      eauto.
Qed.

(** More iterations than positions change nothing. *)
Lemma buildRangePath_fuel_stable (STATE_SEQUENCE : list string) (a b : JsRange)
      (path : list JsRange) (extra : nat) :
  buildRangePath STATE_SEQUENCE a b = Some path ->
  buildRangePath_fuel STATE_SEQUENCE (List.length STATE_SEQUENCE + extra) a b
  = Some path.
Proof.
  unfold buildRangePath, buildRangePath_fuel.
  destruct (negb (Js.truthy a) || negb (Js.truthy b)); [auto|].
  destruct ((Js.indexOf STATE_SEQUENCE a =? -1)
            || (Js.indexOf STATE_SEQUENCE b =? -1)); [auto|].
  destruct (Js.indexOf STATE_SEQUENCE a =? Js.indexOf STATE_SEQUENCE b); [auto|].
  intro H. apply walk_more_fuel. assumption.
Qed.

Lemma position_at (l : list string) (j : Z) :
  NoDup l -> 0 <= j < Z.of_nat (List.length l) ->
  exists s, Js.at_ l j = Some s /\ Js.indexOf l (Some s) = j.
Proof.
  intros Hnd Hj. unfold Js.at_.
  destruct (Z.ltb_spec j 0); [lia|].
  destruct (nth_error l (Z.to_nat j)) as [s|] eqn:E.
  - exists s. split; [reflexivity|].
    rewrite (indexOf_at l (Z.to_nat j) s Hnd E). lia.
  - apply nth_error_None in E. lia.
Qed.

Lemma last_nth_error {A : Type} (l : list A) (x d : A) :
  nth_error l (List.length l - 1) = Some x -> last l d = x.
Proof.
  induction l as [|y l IH]; cbn [List.length]; [discriminate|].
  destruct l as [|z l].
  - cbn. congruence.
  - intro H. change (last (y :: z :: l) d) with (last (z :: l) d).
    apply IH. cbn [List.length] in *.
    replace (S (S (List.length l)) - 1)%nat with (S (List.length l)) in H by lia.
    replace (S (List.length l) - 1)%nat with (List.length l) by lia.
    exact H.
Qed.

(** C5. In a configuration whose range names are distinct and not empty:
    for [a] and [b] in the state order, [buildRangePath(a, b)] returns a
    list that starts with [a], ends with [b], has
    [|position(a) - position(b)| + 1] elements, and in which any two
    consecutive elements have positions that differ by exactly 1; and when
    [a] has no position ([null], [undefined] or a name that is not in the
    order) the result for a non-empty name [b] is the list [[b]]. *)
Theorem buildRangePath_spec
  (STATE_SEQUENCE : list string)
  (Hnames : ~ In ""%string STATE_SEQUENCE) (Hdistinct : NoDup STATE_SEQUENCE) :
  let position := Js.indexOf STATE_SEQUENCE in
  (forall a b : string,
      In a STATE_SEQUENCE -> In b STATE_SEQUENCE ->
      exists path,
        buildRangePath STATE_SEQUENCE (Some a) (Some b) = Some path
        /\ hd_error path = Some (Some a)
        /\ last path None = Some b
        /\ Z.of_nat (List.length path)
           = Z.abs (position (Some a) - position (Some b)) + 1
        /\ forall (k : nat) (x y : JsRange),
            nth_error path k = Some x ->
            nth_error path (S k) = Some y ->
            position x <> -1 /\ position y <> -1
            /\ Z.abs (position x - position y) = 1)
  /\ (forall (a : JsRange) (b : string),
         position a = -1 -> b <> ""%string ->
         buildRangePath STATE_SEQUENCE a (Some b) = Some [Some b]).
Proof.
  intro position. split.
  - intros a b Ha Hb.
    pose proof (indexOf_In _ _ Ha) as Hp. pose proof (indexOf_In _ _ Hb) as Hn.
    pose proof (indexOf_range STATE_SEQUENCE (Some a)) as Ra.
    pose proof (indexOf_range STATE_SEQUENCE (Some b)) as Rb.
    destruct (buildRangePath_known STATE_SEQUENCE (Some a) (Some b) Hnames Hp Hn)
      as [path [Hpath [Hlen Hnth]]].
    fold position in Hp, Hn, Ra, Rb, Hlen, Hnth.
    set (step := if position (Some b) >? position (Some a) then 1 else -1) in *.
    assert (Hstep : position (Some b)
                    = position (Some a)
                      + step * Z.abs (position (Some a) - position (Some b))).
    { subst step. rewrite Z.gtb_ltb.
      destruct (Z.ltb_spec (position (Some a)) (position (Some b))); lia. }
    assert (Hstep1 : step = 1 \/ step = -1).
    { subst step. destruct (position (Some b) >? position (Some a)); auto. }
    exists path. split; [exact Hpath|]. split; [|split; [|split]].
    + destruct path as [|x path]; [cbn in Hlen; lia|].
      specialize (Hnth 0%nat ltac:(lia)). cbn [nth_error] in Hnth.
      cbn [hd_error]. rewrite Hnth. f_equal.
      rewrite Z.mul_0_r, Z.add_0_r. apply at_indexOf. exact Hp.
    + apply last_nth_error.
      rewrite (Hnth (List.length path - 1)%nat) by lia. f_equal.
      replace (Z.of_nat (List.length path - 1))
        with (Z.abs (position (Some a) - position (Some b))) by lia.
      rewrite <- Hstep. apply at_indexOf. exact Hn.
    + exact Hlen.
    + intros k x y Hx Hy.
      assert (Hk : Z.of_nat (S k) <= Z.abs (position (Some a) - position (Some b))).
      { assert (S k < List.length path)%nat
          by (apply nth_error_Some; congruence). lia. }
      rewrite (Hnth k) in Hx by lia. rewrite (Hnth (S k)) in Hy by lia.
      assert (Ex : x = Js.at_ STATE_SEQUENCE
                         (position (Some a) + step * Z.of_nat k))
        by congruence.
      assert (Ey : y = Js.at_ STATE_SEQUENCE
                         (position (Some a) + step * Z.of_nat (S k)))
        by congruence.
      rewrite Ex, Ey. clear Hx Hy Ex Ey.
      destruct (position_at STATE_SEQUENCE
                  (position (Some a) + step * Z.of_nat k) Hdistinct)
        as [s [Es Ps]]; [nia|].
      destruct (position_at STATE_SEQUENCE
                  (position (Some a) + step * Z.of_nat (S k)) Hdistinct)
        as [s' [Es' Ps']]; [nia|].
      rewrite Es, Es'. fold position in Ps, Ps'. rewrite Ps, Ps'.
      repeat split; nia.
  - intros a b Ha Hb. unfold buildRangePath, buildRangePath_fuel.
    fold position. rewrite Ha.
    assert (Tb : Js.truthy (Some b) = true).
    { cbn. destruct (String.eqb_spec b ""); [contradiction|reflexivity]. }
    rewrite Tb. destruct (Js.truthy a); reflexivity.
Qed.

Lemma SF_distinct : NoDup SF.STATE_SEQUENCE.
Proof.
  unfold SF.STATE_SEQUENCE.
  repeat (constructor; [cbn; intuition discriminate|]). constructor.
Qed.

Lemma S5_distinct : NoDup S5.STATE_SEQUENCE.
Proof.
  unfold S5.STATE_SEQUENCE.
  repeat (constructor; [cbn; intuition discriminate|]). constructor.
Qed.

(** From [SF] down to [S1] the path has the four ranges. *)
Lemma buildRangePath_spec_witness :
  (~ In ""%string SF.STATE_SEQUENCE /\ NoDup SF.STATE_SEQUENCE)
  /\ exists path,
      SF.buildRangePath (Some "SF") (Some "S1") = Some path
      /\ hd_error path = Some (Some "SF")
      /\ last path None = Some "S1"
      /\ List.length path = 4%nat.
Proof.
  split; [split; [exact SF_names|exact SF_distinct]|].
  destruct (buildRangePath_spec SF.STATE_SEQUENCE SF_names SF_distinct) as [H _].
  destruct (H "SF"%string "S1"%string ltac:(cbn; tauto) ltac:(cbn; tauto))
    as [path [Hp [Hh [Hl [Hn _]]]]].
  exists path. repeat split; try assumption.
  cbn in Hn. lia.
Defined.

(** ** The sustained-state tracker *)

Lemma update_in_final_stays (this : SF.animationState.t) (dbValue : JsValue) (now : Z) :
  SF.animationState.inSF this = true ->
  SF.classify dbValue <> Some "S2"%string ->
  SF.animationState.update this dbValue now
  = (SF.animationState.mk (Some "SF"%string) true
       (SF.animationState.s3EnteredAt this),
     SF.animationState.mkResult (Some "SF"%string) None).
Proof.
  intros Hin Hc. unfold SF.animationState.update. rewrite Hin.
  destruct (Js.strict_eq (SF.classify dbValue) (Some "S2"%string)) eqn:E.
  - apply strict_eq_true in E. contradiction.
  - reflexivity.
Qed.

Lemma update_in_final_exits (this : SF.animationState.t) (dbValue : JsValue) (now : Z) :
  SF.animationState.inSF this = true ->
  SF.classify dbValue = Some "S2"%string ->
  SF.animationState.update this dbValue now
  = (SF.animationState.mk (Some "S2"%string) false None,
     SF.animationState.mkResult (Some "S2"%string)
       (Some (Plan.mk "S2_S3" down "./media/transition_2_3.json" 467 reverse))).
Proof.
  intros Hin Hc. unfold SF.animationState.update. rewrite Hin, Hc. reflexivity.
Qed.

Lemma update_dwell_escalates (this : SF.animationState.t) (dbValue : JsValue)
      (now t0 : Z) :
  SF.animationState.inSF this = false ->
  SF.animationState.s3EnteredAt this = Some t0 ->
  SF.classify dbValue = Some "S3"%string ->
  now - t0 >= SF.SF_TIMEOUT_MS ->
  SF.animationState.update this dbValue now
  = (SF.animationState.mk (Some "SF"%string) true None,
     SF.animationState.mkResult (Some "SF"%string) None).
Proof.
  intros Hin Hs Hc Ht. unfold SF.animationState.update.
  rewrite Hin, Hc, Hs. cbn [Js.strict_eq].
  rewrite String.eqb_refl.
  destruct (Z.geb_spec (now - t0) SF.SF_TIMEOUT_MS); [reflexivity|lia].
Qed.

Lemma update_dwell_continues (this : SF.animationState.t) (dbValue : JsValue)
      (now t0 : Z) :
  SF.animationState.inSF this = false ->
  SF.animationState.s3EnteredAt this = Some t0 ->
  SF.classify dbValue = Some "S3"%string ->
  now - t0 < SF.SF_TIMEOUT_MS ->
  SF.animationState.update this dbValue now
  = (SF.animationState.mk (Some "S3"%string) false (Some t0),
     SF.animationState.mkResult (Some "S3"%string)
       (SF.resolveTransition (SF.animationState.currentRange this)
          (Some "S3"%string))).
Proof.
  intros Hin Hs Hc Ht. unfold SF.animationState.update.
  rewrite Hin, Hc, Hs. cbn [Js.strict_eq].
  rewrite String.eqb_refl.
  destruct (Z.geb_spec (now - t0) SF.SF_TIMEOUT_MS); [lia|reflexivity].
Qed.

Lemma update_dwell_starts (this : SF.animationState.t) (dbValue : JsValue) (now : Z) :
  SF.animationState.inSF this = false ->
  SF.animationState.s3EnteredAt this = None ->
  SF.classify dbValue = Some "S3"%string ->
  SF.animationState.update this dbValue now
  = (SF.animationState.mk (Some "S3"%string) false (Some now),
     SF.animationState.mkResult (Some "S3"%string)
       (SF.resolveTransition (SF.animationState.currentRange this)
          (Some "S3"%string))).
Proof.
  intros Hin Hs Hc. unfold SF.animationState.update.
  rewrite Hin, Hc, Hs. cbn [Js.strict_eq].
  rewrite String.eqb_refl. rewrite Z.sub_diag. reflexivity.
Qed.

(** Once in the final state, readings outside the exit range keep it. *)
Lemma updates_in_final (readings : list (JsValue * Z)) :
  forall this : SF.animationState.t,
    SF.animationState.inSF this = true ->
    SF.animationState.currentRange this = Some "SF"%string ->
    Forall (fun reading => SF.classify (fst reading) <> Some "S2"%string) readings ->
    let '(final, results) := SF.animationState.updates this readings in
    SF.animationState.inSF final = true
    /\ SF.animationState.currentRange final = Some "SF"%string
    /\ SF.animationState.s3EnteredAt final = SF.animationState.s3EnteredAt this
    /\ Forall (fun result => result = SF.animationState.mkResult (Some "SF"%string) None)
         results.
Proof.
  induction readings as [|[dbValue now] rest IH]; intros this Hin Hcur Hall.
  - cbn. auto.
  - inversion Hall as [|? ? Hhead Hrest]; subst. cbn [fst] in Hhead.
    cbn [SF.animationState.updates].
    rewrite (update_in_final_stays this dbValue now Hin Hhead).
    specialize (IH (SF.animationState.mk (Some "SF"%string) true
                      (SF.animationState.s3EnteredAt this))
                  eq_refl eq_refl Hrest).
    destruct (SF.animationState.updates _ rest) as [final results].
    destruct IH as [H1 [H2 [H3 H4]]]. cbn in H3. auto.
Qed.

Lemma updates_cons_fst (this : SF.animationState.t) (dbValue : JsValue) (now : Z)
      (rest : list (JsValue * Z)) :
  fst (SF.animationState.updates this ((dbValue, now) :: rest))
  = fst (SF.animationState.updates
           (fst (SF.animationState.update this dbValue now)) rest).
Proof.
  cbn [SF.animationState.updates].
  destruct (SF.animationState.update this dbValue now) as [this' result].
  cbn [fst snd].
  destruct (SF.animationState.updates this' rest). reflexivity.
Qed.

Lemma updates_cons_snd (this : SF.animationState.t) (dbValue : JsValue) (now : Z)
      (rest : list (JsValue * Z)) :
  snd (SF.animationState.updates this ((dbValue, now) :: rest))
  = snd (SF.animationState.update this dbValue now)
    :: snd (SF.animationState.updates
              (fst (SF.animationState.update this dbValue now)) rest).
Proof.
  cbn [SF.animationState.updates].
  destruct (SF.animationState.update this dbValue now) as [this' result].
  cbn [fst snd].
  destruct (SF.animationState.updates this' rest). reflexivity.
Qed.

Lemma last_cons_nonempty {A : Type} (x d : A) (l : list A) :
  l <> [] -> last (x :: l) d = last l d.
Proof. destruct l; [contradiction|reflexivity]. Qed.

Lemma last_Forall {A : Type} (P : A -> Prop) (l : list A) (d : A) :
  l <> [] -> Forall P l -> P (last l d).
Proof.
  intros Hne Hall. destruct (exists_last Hne) as [l' [x ->]].
  rewrite last_last. rewrite Forall_forall in Hall. apply Hall.
  apply in_or_app. right. left. reflexivity.
Qed.

(** While the dwell timer runs from [t0], readings in the topmost range
    whose last timestamp is at least the timeout after [t0] lead into the
    final state, through one call that returns no transition. *)
Lemma updates_dwelling (t0 : Z) (d : JsValue * Z) (readings : list (JsValue * Z)) :
  forall this : SF.animationState.t,
    readings <> [] ->
    SF.animationState.inSF this = false ->
    SF.animationState.s3EnteredAt this = Some t0 ->
    Forall (fun reading => SF.classify (fst reading) = Some "S3"%string) readings ->
    snd (last readings d) - t0 >= SF.SF_TIMEOUT_MS ->
    (exists pre dbValue now post,
        readings = pre ++ (dbValue, now) :: post
        /\ SF.animationState.inSF (fst (SF.animationState.updates this pre)) = false
        /\ SF.animationState.update (fst (SF.animationState.updates this pre))
             dbValue now
           = (SF.animationState.mk (Some "SF"%string) true None,
              SF.animationState.mkResult (Some "SF"%string) None))
    /\ SF.animationState.inSF (fst (SF.animationState.updates this readings)) = true
    /\ SF.animationState.currentRange (fst (SF.animationState.updates this readings))
       = Some "SF"%string
    /\ last (snd (SF.animationState.updates this readings))
         (SF.animationState.mkResult None None)
       = SF.animationState.mkResult (Some "SF"%string) None.
Proof.
  induction readings as [|[dbValue now] rest IH]; intros this Hne Hin Hs Hall Hlast;
    [contradiction|].
  inversion Hall as [|? ? Hhead Hrest]; subst. cbn [fst] in Hhead.
  rewrite updates_cons_fst, updates_cons_snd.
  destruct (Z_lt_ge_dec (now - t0) SF.SF_TIMEOUT_MS) as [Hlt|Hge].
  - assert (Hne' : rest <> []).
    { intros ->. cbn in Hlast. lia. }
    rewrite (last_cons_nonempty _ _ _ Hne') in Hlast.
    rewrite (update_dwell_continues this dbValue now t0 Hin Hs Hhead Hlt).
    cbn [fst snd].
    destruct (IH (SF.animationState.mk (Some "S3"%string) false (Some t0))
                Hne' eq_refl eq_refl Hrest Hlast)
      as [[pre [v [n [post [Epre [Hmid Hupd]]]]]] [Hf [Hc Hr]]].
    split; [|split; [exact Hf|split; [exact Hc|]]].
    + exists ((dbValue, now) :: pre), v, n, post.
      split; [rewrite Epre; reflexivity|].
      rewrite updates_cons_fst.
      rewrite (update_dwell_continues this dbValue now t0 Hin Hs Hhead Hlt).
      cbn [fst]. auto.
    + rewrite last_cons_nonempty; [exact Hr|].
      intro E. rewrite E in Hr. cbn in Hr. discriminate.
  - rewrite (update_dwell_escalates this dbValue now t0 Hin Hs Hhead Hge).
    cbn [fst snd].
    split.
    + exists [], dbValue, now, rest. cbn [SF.animationState.updates fst app].
      repeat split; try assumption.
      apply (update_dwell_escalates this dbValue now t0); assumption.
    + assert (Hrest' : Forall (fun reading =>
                                 SF.classify (fst reading) <> Some "S2"%string) rest).
      { eapply Forall_impl; [|exact Hrest]. cbn. intros a ->. discriminate. }
      pose proof (updates_in_final rest
                    (SF.animationState.mk (Some "SF"%string) true None)
                    eq_refl eq_refl Hrest') as H.
      destruct (SF.animationState.updates _ rest) as [final results].
      destruct H as [H1 [H2 [_ H4]]]. cbn [fst snd]. repeat split; try assumption.
      destruct results as [|r results]; [reflexivity|].
      rewrite last_cons_nonempty by discriminate.
      exact (last_Forall
               (fun result =>
                  result = SF.animationState.mkResult (Some "SF"%string) None)
               (r :: results) _ ltac:(discriminate) H4).
Qed.

(** C2. (a) From a tracker outside the final state whose dwell timer is not
    running, readings classified into [S3] whose last timestamp is at least
    10000 ms after the first lead into the final state: one of the calls
    finds the tracker outside the final state and returns the range [SF]
    with no transition, and at the end [inSF] holds, the current range is
    [SF] and the last call returned [SF] with no transition.  (b) In the
    final state a reading that is not classified into [S2] keeps [inSF],
    leaves the current range [SF] and returns no transition.  (c) In the
    final state a reading classified into [S2] clears [inSF] and returns the
    range [S2] with the plan made of the [S2_S3] descriptor, played in
    reverse. *)
Theorem tracker_escalation :
  (forall (this : SF.animationState.t) (first : JsValue * Z)
          (rest : list (JsValue * Z)),
      let readings := first :: rest in
      SF.animationState.inSF this = false ->
      SF.animationState.s3EnteredAt this = None ->
      Forall (fun reading => SF.classify (fst reading) = Some "S3"%string) readings ->
      snd (last readings first) - snd first >= SF.SF_TIMEOUT_MS ->
      (exists pre dbValue now post,
          readings = pre ++ (dbValue, now) :: post
          /\ SF.animationState.inSF (fst (SF.animationState.updates this pre)) = false
          /\ SF.animationState.update (fst (SF.animationState.updates this pre))
               dbValue now
             = (SF.animationState.mk (Some "SF"%string) true None,
                SF.animationState.mkResult (Some "SF"%string) None))
      /\ SF.animationState.inSF (fst (SF.animationState.updates this readings)) = true
      /\ SF.animationState.currentRange
           (fst (SF.animationState.updates this readings)) = Some "SF"%string
      /\ last (snd (SF.animationState.updates this readings))
           (SF.animationState.mkResult None None)
         = SF.animationState.mkResult (Some "SF"%string) None)
  /\ (forall (this : SF.animationState.t) (dbValue : JsValue) (now : Z),
         SF.animationState.inSF this = true ->
         SF.classify dbValue <> Some "S2"%string ->
         let '(this', result) := SF.animationState.update this dbValue now in
         SF.animationState.inSF this' = true
         /\ SF.animationState.currentRange this' = Some "SF"%string
         /\ SF.animationState.s3EnteredAt this' = SF.animationState.s3EnteredAt this
         /\ result = SF.animationState.mkResult (Some "SF"%string) None)
  /\ (forall (this : SF.animationState.t) (dbValue : JsValue) (now : Z),
         SF.animationState.inSF this = true ->
         SF.classify dbValue = Some "S2"%string ->
         exists base,
           Js.lookup SF.files_transition "S2_S3" = Some base
           /\ Descriptor.durationMs base = Some 467
           /\ SF.animationState.update this dbValue now
              = (SF.animationState.mk (Some "S2"%string) false None,
                 SF.animationState.mkResult (Some "S2"%string)
                   (Some (Plan.mk "S2_S3" down (Descriptor.file base) 467 reverse)))).
Proof.
  split; [|split].
  - intros this [v0 t0] rest readings Hin Hs Hall Hlast. subst readings.
    cbn [snd] in Hlast.
    inversion Hall as [|? ? Hhead Hrest]; subst. cbn [fst] in Hhead.
    assert (Hne' : rest <> []).
    { intros ->. cbn in Hlast. unfold SF.SF_TIMEOUT_MS in Hlast. lia. }
    rewrite (last_cons_nonempty _ _ _ Hne') in Hlast.
    rewrite updates_cons_fst, updates_cons_snd.
    rewrite (update_dwell_starts this v0 t0 Hin Hs Hhead). cbn [fst snd].
    destruct (updates_dwelling t0 (v0, t0) rest
                (SF.animationState.mk (Some "S3"%string) false (Some t0))
                Hne' eq_refl eq_refl Hrest Hlast)
      as [[pre [v [n [post [Epre [Hmid Hupd]]]]]] [Hf [Hc Hr]]].
    split; [|split; [exact Hf|split; [exact Hc|]]].
    + exists ((v0, t0) :: pre), v, n, post.
      split; [rewrite Epre; reflexivity|].
      rewrite updates_cons_fst.
      rewrite (update_dwell_starts this v0 t0 Hin Hs Hhead).
      cbn [fst]. auto.
    + rewrite last_cons_nonempty; [exact Hr|].
      intro E. rewrite E in Hr. cbn in Hr. discriminate.
  - intros this dbValue now Hin Hc.
    rewrite (update_in_final_stays this dbValue now Hin Hc). auto.
  - intros this dbValue now Hin Hc.
    exists (Descriptor.mk "./media/transition_2_3.json" (Some 467)).
    split; [reflexivity|]. split; [reflexivity|].
    apply update_in_final_exits; assumption.
Qed.

(** Three readings in [S3] over ten seconds end in the final state. *)
Lemma tracker_escalation_witness :
  let readings :=
    [(VNumber (Fin 95), 0); (VNumber (Fin 97), 5000); (VNumber (Fin 92), 10000)] in
  SF.animationState.inSF
    (fst (SF.animationState.updates SF.animationState.initial readings)) = true
  /\ last (snd (SF.animationState.updates SF.animationState.initial readings))
       (SF.animationState.mkResult None None)
     = SF.animationState.mkResult (Some "SF"%string) None.
Proof.
  destruct tracker_escalation as [H _].
  destruct (H SF.animationState.initial (VNumber (Fin 95), 0)
              [(VNumber (Fin 97), 5000); (VNumber (Fin 92), 10000)]
              eq_refl eq_refl
              ltac:(repeat constructor)
              ltac:(vm_compute; discriminate))
    as [_ [Hf [_ Hr]]].
  split; assumption.
Defined.

(** The dwell timestamp is set only outside the final state, in every state
    the tracker reaches. *)
Lemma update_dwell_outside_final (this : SF.animationState.t) (dbValue : JsValue)
      (now : Z) :
  dwell_outside_final this ->
  dwell_outside_final
    (fst (SF.animationState.update this dbValue now)).
Proof.
  unfold dwell_outside_final, SF.animationState.update.
  intro Hinv.
  destruct (SF.animationState.inSF this) eqn:Hin.
  - destruct (Js.strict_eq (SF.classify dbValue) (Some "S2"%string)).
    + destruct (Js.lookup SF.files_transition "S2_S3"); cbn; auto.
    + cbn. exact Hinv.
  - destruct (Js.strict_eq (SF.classify dbValue) (Some "S3"%string)).
    + destruct (_ >=? _); cbn; [congruence|auto].
    + cbn. auto.
Qed.

Lemma updates_dwell_outside_final (readings : list (JsValue * Z)) :
  forall this : SF.animationState.t,
    dwell_outside_final this ->
    dwell_outside_final
      (fst (SF.animationState.updates this readings)).
Proof.
  induction readings as [|[dbValue now] rest IH]; intros this Hinv; [exact Hinv|].
  rewrite updates_cons_fst. apply IH, update_dwell_outside_final, Hinv.
Qed.

(** The tracker after a call of [update], case by case. *)
Lemma update_cases (this : SF.animationState.t) (dbValue : JsValue) (now : Z) :
  let this' := fst (SF.animationState.update this dbValue now) in
  (SF.animationState.inSF this = true
   /\ SF.classify dbValue = Some "S2"%string
   /\ this' = SF.animationState.mk (Some "S2"%string) false None)
  \/ (SF.animationState.inSF this = true
      /\ SF.classify dbValue <> Some "S2"%string
      /\ this' = SF.animationState.mk (Some "SF"%string) true
                   (SF.animationState.s3EnteredAt this))
  \/ (SF.animationState.inSF this = false
      /\ SF.classify dbValue = Some "S3"%string
      /\ (this' = SF.animationState.mk (Some "SF"%string) true None
          \/ exists t0, this' = SF.animationState.mk (Some "S3"%string) false (Some t0)))
  \/ (SF.animationState.inSF this = false
      /\ SF.classify dbValue <> Some "S3"%string
      /\ this' = SF.animationState.mk (SF.classify dbValue) false None).
Proof.
  intro this'. subst this'. unfold SF.animationState.update.
  destruct (SF.animationState.inSF this) eqn:Hin.
  - destruct (Js.strict_eq (SF.classify dbValue) (Some "S2"%string)) eqn:E2.
    + left. apply strict_eq_true in E2. rewrite E2.
      destruct (Js.lookup SF.files_transition "S2_S3"); cbn; auto.
    + right; left. cbn. repeat split.
      intro E. rewrite E in E2. cbn in E2. discriminate.
  - destruct (Js.strict_eq (SF.classify dbValue) (Some "S3"%string)) eqn:E3.
    + right; right; left. apply strict_eq_true in E3.
      split; [reflexivity|]. split; [assumption|].
      destruct (_ >=? _); cbn; [left; reflexivity|right; eexists; reflexivity].
    + right; right; right. cbn. repeat split.
      intro E. rewrite E in E3. cbn in E3. discriminate.
Qed.

(** C7. On a tracker whose dwell timestamp is set only outside the final
    state, as it is initially and after [reset], a call of [update] keeps
    that; afterwards the timestamp is set only if the reading was classified
    into [S3] and the tracker is outside the final state; a reading
    classified into another range, the call that enters the final state and
    the call that leaves it all end with the timestamp [null]. *)
Theorem tracker_dwell_invariant
  (this : SF.animationState.t) (dbValue : JsValue) (now : Z)
  (Hinv : dwell_outside_final this) :
  let this' := fst (SF.animationState.update this dbValue now) in
  dwell_outside_final this'
  /\ (SF.animationState.s3EnteredAt this' <> None ->
      SF.classify dbValue = Some "S3"%string
      /\ SF.animationState.inSF this' = false)
  /\ (SF.classify dbValue <> Some "S3"%string ->
      SF.animationState.s3EnteredAt this' = None)
  /\ (SF.animationState.inSF this = false ->
      SF.animationState.inSF this' = true ->
      SF.animationState.s3EnteredAt this' = None)
  /\ (SF.animationState.inSF this = true ->
      SF.animationState.inSF this' = false ->
      SF.animationState.s3EnteredAt this' = None)
  /\ dwell_outside_final SF.animationState.initial
  /\ dwell_outside_final (SF.animationState.reset this)
  /\ SF.animationState.s3EnteredAt (SF.animationState.reset this) = None.
Proof.
  intro this'.
  split; [apply update_dwell_outside_final; exact Hinv|].
  assert (Hfinal : SF.animationState.inSF this = true ->
                   SF.animationState.s3EnteredAt this = None).
  { intro Hin. destruct (SF.animationState.s3EnteredAt this) eqn:E; [|reflexivity].
    unfold dwell_outside_final in Hinv. rewrite E in Hinv.
    rewrite Hinv in Hin; discriminate. }
  assert (Hreset : dwell_outside_final SF.animationState.initial
                   /\ dwell_outside_final
                        (SF.animationState.reset this)
                   /\ SF.animationState.s3EnteredAt (SF.animationState.reset this)
                      = None).
  { unfold dwell_outside_final. cbn. auto. }
  destruct (update_cases this dbValue now)
    as [[Hin [Hc E]]|[[Hin [Hc E]]|[[Hin [Hc [E|[t0 E]]]]|[Hin [Hc E]]]]];
    fold this' in E; rewrite E; cbn;
    repeat split; try tauto; try congruence; try discriminate.
Qed.

(** A reading in [S2] stops the dwell timer. *)
Lemma tracker_dwell_invariant_witness :
  dwell_outside_final
    (SF.animationState.mk (Some "S3"%string) false (Some 100))
  /\ SF.animationState.s3EnteredAt
       (fst (SF.animationState.update
               (SF.animationState.mk (Some "S3"%string) false (Some 100))
               (VNumber (Fin 80)) 200)) = None.
Proof.
  assert (Hinv : dwell_outside_final
                   (SF.animationState.mk (Some "S3"%string) false (Some 100))).
  { intros _. reflexivity. }
  split; [exact Hinv|].
  destruct (tracker_dwell_invariant
              (SF.animationState.mk (Some "S3"%string) false (Some 100))
              (VNumber (Fin 80)) 200 Hinv) as [_ [_ [H _]]].
  apply H. vm_compute. discriminate.
Defined.

(** ** The background colour mapper *)

(** ** Rounding to binary64 *)

Lemma nearest_even_bounds (a b m : Z) :
  0 < b ->
  (m * b <= a -> m <= Binary64.nearest_even a b)
  /\ (a <= m * b -> Binary64.nearest_even a b <= m).
Proof.
  intro Hb. unfold Binary64.nearest_even.
  pose proof (Z.div_mod a b ltac:(lia)) as Hdiv.
  pose proof (Z.mod_pos_bound a b Hb) as Hmod.
  set (q := a / b) in *. set (r := a mod b) in *.
  destruct (Z.compare_spec (2 * r) b) as [E|E|E];
    [destruct (Z.even q)| |]; split; intro H; nia.
Qed.

Lemma exponent_below (n d : Z) :
  0 < n -> 0 < d ->
  0 <= Binary64.exponent n d ->
  d * 2 ^ Binary64.exponent n d <= n.
Proof.
  intros Hn Hd. unfold Binary64.exponent.
  set (e := Z.log2 n - Z.log2 d).
  destruct (0 <=? e) eqn:He.
  - destruct (d * 2 ^ e <=? n) eqn:Ht; intro H.
    + apply Z.leb_le. exact Ht.
    + pose proof (Z.log2_spec n Hn) as [Ln _].
      pose proof (Z.log2_spec d Hd) as [_ Ld].
      pose proof (Z.log2_nonneg d) as Hld.
      assert (E : 2 ^ Z.succ (Z.log2 d) * 2 ^ (e - 1) = 2 ^ Z.log2 n).
      { rewrite <- Z.pow_add_r by lia. f_equal. subst e. lia. }
      assert (Hp : 0 < 2 ^ (e - 1)) by (apply Z.pow_pos_nonneg; lia).
      nia.
  - apply Z.leb_gt in He.
    destruct (d <=? n * 2 ^ (- e)); intro H; lia.
Qed.

Lemma round_positive_between (n d lo hi : Z) :
  0 < n -> 0 < d -> 0 <= lo -> hi < 2 ^ 53 ->
  lo * d <= n -> n <= hi * d ->
  (inject_Z lo <= Binary64.round_positive n d)%Q
  /\ (Binary64.round_positive n d <= inject_Z hi)%Q.
Proof.
  intros Hn Hd Hlo Hhi Hlower Hupper.
  assert (Hc : Binary64.quantum n d <= 0).
  { unfold Binary64.quantum.
    destruct (Z_le_gt_dec (Binary64.exponent n d) 52) as [He|He]; [lia|].
    exfalso.
    pose proof (exponent_below n d Hn Hd ltac:(lia)) as Hbelow.
    assert (Hpow : 2 ^ 53 <= 2 ^ Binary64.exponent n d)
      by (apply Z.pow_le_mono_r; lia).
    nia. }
  unfold Binary64.round_positive.
  destruct (0 <=? Binary64.quantum n d) eqn:Hsign.
  - apply Z.leb_le in Hsign.
    replace (Binary64.quantum n d) with 0 by lia.
    rewrite Z.pow_0_r, !Z.mul_1_r.
    destruct (nearest_even_bounds n d lo Hd) as [L _].
    destruct (nearest_even_bounds n d hi Hd) as [_ U].
    split; rewrite <- Zle_Qle; auto.
  - set (p := 2 ^ (- Binary64.quantum n d)).
    assert (Hp : 0 < p) by (apply Z.pow_pos_nonneg; lia).
    destruct (nearest_even_bounds (n * p) d (lo * p) Hd) as [L _].
    destruct (nearest_even_bounds (n * p) d (hi * p) Hd) as [_ U].
    unfold Qle. cbn [Qnum Qden inject_Z].
    rewrite Z2Pos.id by exact Hp.
    split; [specialize (L ltac:(nia))|specialize (U ltac:(nia))]; lia.
Qed.

(** Rounding never crosses an integer that binary64 holds. *)
Lemma round_between (lo hi : Z) (x : Q) :
  - 2 ^ 53 < lo -> hi < 2 ^ 53 ->
  (inject_Z lo <= x)%Q -> (x <= inject_Z hi)%Q ->
  (inject_Z lo <= Binary64.round x)%Q /\ (Binary64.round x <= inject_Z hi)%Q.
Proof.
  intros Hlo Hhi Hlower Hupper.
  rewrite <- (Qred_correct x) in Hlower, Hupper.
  unfold Binary64.round.
  destruct (Qred x) as [n d]. cbn [Qnum Qden].
  unfold Qle in Hlower, Hupper. cbn [Qnum Qden inject_Z] in Hlower, Hupper.
  destruct n as [|n|n].
  - change 0%Q with (inject_Z 0). split; rewrite <- Zle_Qle; lia.
  - destruct (round_positive_between (Zpos n) (Zpos d) (Z.max 0 lo) hi)
      as [L U]; try lia.
    split; [|exact U].
    apply Qle_trans with (inject_Z (Z.max 0 lo)); [|exact L].
    rewrite <- Zle_Qle. lia.
  - destruct (round_positive_between (Zpos n) (Zpos d) (Z.max 0 (- hi)) (- lo))
      as [L U]; try lia.
    assert (L' : (inject_Z (- hi) <= Binary64.round_positive (Zpos n) (Zpos d))%Q).
    { apply Qle_trans with (inject_Z (Z.max 0 (- hi))); [|exact L].
      rewrite <- Zle_Qle. lia. }
    rewrite inject_Z_opp in L', U.
    split; lra.
Qed.

Lemma round_compat (x y : Q) : x == y -> Binary64.round x = Binary64.round y.
Proof.
  intro H. unfold Binary64.round. rewrite (Qred_complete x y H). reflexivity.
Qed.

(** Binary64 holds every integer below [2^53]. *)
Lemma round_integer (n : Z) :
  - 2 ^ 53 < n < 2 ^ 53 -> Binary64.round (inject_Z n) == inject_Z n.
Proof.
  intros [Hlo Hhi].
  destruct (round_between n n (inject_Z n) Hlo Hhi) as [L U];
    try apply Qle_refl.
  apply Qle_antisym; assumption.
Qed.

Lemma pow2_pos (e : Z) : (0 < pow2 e)%Q.
Proof.
  unfold pow2. destruct (0 <=? e) eqn:He.
  - apply Z.leb_le in He. change 0%Q with (inject_Z 0). rewrite <- Zlt_Qlt.
    apply Z.pow_pos_nonneg; lia.
  - reflexivity.
Qed.

Lemma pow2_shift (c k : Z) :
  0 <= k -> pow2 (c + k) == inject_Z (2 ^ k) * pow2 c.
Proof.
  intro Hk. unfold pow2.
  destruct (0 <=? c) eqn:Hc; [apply Z.leb_le in Hc|apply Z.leb_gt in Hc].
  - replace (0 <=? c + k) with true by (symmetry; apply Z.leb_le; lia).
    rewrite <- inject_Z_mult. rewrite Z.pow_add_r by lia.
    rewrite Z.mul_comm. reflexivity.
  - assert (Hp : 0 < 2 ^ (- c)) by (apply Z.pow_pos_nonneg; lia).
    destruct (0 <=? c + k) eqn:Hck;
      [apply Z.leb_le in Hck|apply Z.leb_gt in Hck].
    + unfold Qeq. cbn [Qnum Qden inject_Z Qmult].
      rewrite Pos.mul_1_l. rewrite Z2Pos.id by exact Hp.
      assert (E : 2 ^ k = 2 ^ (c + k) * 2 ^ (- c))
        by (rewrite <- Z.pow_add_r by lia; f_equal; lia).
      rewrite E. ring.
    + assert (Hq : 0 < 2 ^ (- (c + k))) by (apply Z.pow_pos_nonneg; lia).
      unfold Qeq. cbn [Qnum Qden inject_Z Qmult].
      rewrite ?Pos.mul_1_l. rewrite !Z2Pos.id by assumption.
      assert (E : 2 ^ (- c) = 2 ^ k * 2 ^ (- (c + k)))
        by (rewrite <- Z.pow_add_r by lia; f_equal; lia).
      rewrite E. ring.
Qed.

Lemma pow2_le (e1 e2 : Z) : e1 <= e2 -> (pow2 e1 <= pow2 e2)%Q.
Proof.
  intro H. replace e2 with (e1 + (e2 - e1)) by lia.
  rewrite pow2_shift by lia.
  assert (Hk : (1 <= inject_Z (2 ^ (e2 - e1)))%Q).
  { change 1%Q with (inject_Z 1). rewrite <- Zle_Qle.
    assert (0 < 2 ^ (e2 - e1)) by (apply Z.pow_pos_nonneg; lia). lia. }
  pose proof (pow2_pos e1). nra.
Qed.

(** Comparing a fraction with a power of two. *)
Lemma pow2_le_fraction (e : Z) (n d : positive) :
  (pow2 e <= Zpos n # d)%Q
  <-> (if 0 <=? e then Zpos d * 2 ^ e <= Zpos n
       else Zpos d <= Zpos n * 2 ^ (- e)).
Proof.
  unfold pow2. destruct (0 <=? e) eqn:He.
  - unfold Qle. cbn [Qnum Qden inject_Z]. lia.
  - apply Z.leb_gt in He.
    assert (Hp : 0 < 2 ^ (- e)) by (apply Z.pow_pos_nonneg; lia).
    unfold Qle. cbn [Qnum Qden]. rewrite Z2Pos.id by exact Hp. lia.
Qed.

Lemma fraction_lt_pow2 (e : Z) (n d : positive) :
  (Zpos n # d < pow2 e)%Q
  <-> (if 0 <=? e then Zpos n < Zpos d * 2 ^ e
       else Zpos n * 2 ^ (- e) < Zpos d).
Proof.
  unfold pow2. destruct (0 <=? e) eqn:He.
  - unfold Qlt. cbn [Qnum Qden inject_Z]. lia.
  - apply Z.leb_gt in He.
    assert (Hp : 0 < 2 ^ (- e)) by (apply Z.pow_pos_nonneg; lia).
    unfold Qlt. cbn [Qnum Qden]. rewrite Z2Pos.id by exact Hp. lia.
Qed.

(** [Binary64.exponent] is the exponent of the leading bit. *)
Lemma exponent_spec (n d : positive) :
  let e := Binary64.exponent (Zpos n) (Zpos d) in
  (pow2 e <= Zpos n # d)%Q /\ (Zpos n # d < pow2 (e + 1))%Q.
Proof.
  intro e. subst e.
  pose proof (Z.log2_spec (Zpos n) ltac:(lia)) as [Ln Un].
  pose proof (Z.log2_spec (Zpos d) ltac:(lia)) as [Ld Ud].
  pose proof (Z.log2_nonneg (Zpos n)) as Hln.
  pose proof (Z.log2_nonneg (Zpos d)) as Hld.
  unfold Binary64.exponent.
  set (ln := Z.log2 (Zpos n)) in *. set (ld := Z.log2 (Zpos d)) in *.
  set (e0 := ln - ld).
  assert (Hn : 0 < Zpos n) by lia. assert (Hd : 0 < Zpos d) by lia.
  set (N := Zpos n) in *. set (D := Zpos d) in *.
  assert (Hpn : 0 < 2 ^ ln) by (apply Z.pow_pos_nonneg; lia).
  assert (Hpd : 0 < 2 ^ ld) by (apply Z.pow_pos_nonneg; lia).
  rewrite Z.pow_succ_r in Un, Ud by lia.
  destruct (if 0 <=? e0 then D * 2 ^ e0 <=? N else D <=? N * 2 ^ (- e0))
    eqn:Htest.
  - split.
    + apply pow2_le_fraction. fold N D.
      destruct (0 <=? e0); apply Z.leb_le; exact Htest.
    + apply fraction_lt_pow2. fold N D.
      destruct (0 <=? e0 + 1) eqn:H1;
        [apply Z.leb_le in H1|apply Z.leb_gt in H1].
      * assert (E : 2 * 2 ^ ln = 2 ^ ld * 2 ^ (e0 + 1)).
        { rewrite <- Z.pow_add_r by lia. rewrite <- Z.pow_succ_r by lia.
          f_equal. subst e0. lia. }
        assert (0 < 2 ^ (e0 + 1)) by (apply Z.pow_pos_nonneg; lia). nia.
      * assert (E : 2 * 2 ^ ln * 2 ^ (- (e0 + 1)) = 2 ^ ld).
        { rewrite <- Z.pow_succ_r by lia. rewrite <- Z.pow_add_r by lia.
          f_equal. subst e0. lia. }
        assert (0 < 2 ^ (- (e0 + 1))) by (apply Z.pow_pos_nonneg; lia). nia.
  - split.
    + apply pow2_le_fraction. fold N D.
      destruct (0 <=? e0 - 1) eqn:H1;
        [apply Z.leb_le in H1|apply Z.leb_gt in H1].
      * assert (E : 2 * 2 ^ ld * 2 ^ (e0 - 1) = 2 ^ ln).
        { rewrite <- Z.pow_succ_r by lia. rewrite <- Z.pow_add_r by lia.
          f_equal. subst e0. lia. }
        assert (0 < 2 ^ (e0 - 1)) by (apply Z.pow_pos_nonneg; lia). nia.
      * assert (E : 2 * 2 ^ ld = 2 ^ ln * 2 ^ (- (e0 - 1))).
        { rewrite <- Z.pow_add_r by lia. rewrite <- Z.pow_succ_r by lia.
          f_equal. subst e0. lia. }
        assert (0 < 2 ^ (- (e0 - 1))) by (apply Z.pow_pos_nonneg; lia). nia.
    + replace (e0 - 1 + 1) with e0 by lia.
      apply fraction_lt_pow2. fold N D.
      destruct (0 <=? e0); apply Z.leb_gt in Htest; exact Htest.
Qed.

(** [Binary64.nearest_even a b] is an integer nearest to [a / b], and the
    even one when two are. *)
Lemma nearest_even_nearest (a b j : Z) :
  0 < b ->
  Z.abs (Binary64.nearest_even a b * b - a) <= Z.abs (j * b - a).
Proof.
  intro Hb. unfold Binary64.nearest_even.
  pose proof (Z.div_mod a b ltac:(lia)) as Hdiv.
  pose proof (Z.mod_pos_bound a b Hb) as Hmod.
  set (q := a / b) in *. set (r := a mod b) in *.
  destruct (Z_le_gt_dec j q) as [Hj|Hj];
    destruct (Z.compare_spec (2 * r) b) as [E|E|E];
    try destruct (Z.even q); nia.
Qed.

Lemma nearest_even_tie (a b : Z) :
  0 < b ->
  2 * Z.abs (Binary64.nearest_even a b * b - a) = b ->
  Z.even (Binary64.nearest_even a b) = true.
Proof.
  intro Hb. unfold Binary64.nearest_even.
  pose proof (Z.div_mod a b ltac:(lia)) as Hdiv.
  pose proof (Z.mod_pos_bound a b Hb) as Hmod.
  set (q := a / b) in *. set (r := a mod b) in *.
  destruct (Z.compare_spec (2 * r) b) as [E|E|E]; try (intro H; nia).
  destruct (Z.even q) eqn:Hq; intros _; [exact Hq|].
  rewrite Z.even_add, Hq. reflexivity.
Qed.

Lemma inject_Z_minus (a b : Z) : inject_Z a - inject_Z b == inject_Z (a - b).
Proof.
  unfold Qminus. rewrite <- inject_Z_opp, <- inject_Z_plus. reflexivity.
Qed.

(** The rounded value is a whole number of quanta: the integer nearest to
    the value counted in quanta. *)
Lemma round_positive_scaled (n d : positive) :
  exists a b : Z,
    0 < b
    /\ Binary64.round_positive (Zpos n) (Zpos d)
       == inject_Z (Binary64.nearest_even a b)
          * pow2 (Binary64.quantum (Zpos n) (Zpos d))
    /\ (Zpos n # d) * inject_Z b
       == inject_Z a * pow2 (Binary64.quantum (Zpos n) (Zpos d)).
Proof.
  unfold Binary64.round_positive, pow2.
  set (c := Binary64.quantum (Zpos n) (Zpos d)).
  destruct (0 <=? c) eqn:Hc; [apply Z.leb_le in Hc|apply Z.leb_gt in Hc].
  - assert (Hp : 0 < 2 ^ c) by (apply Z.pow_pos_nonneg; lia).
    exists (Zpos n), (Zpos d * 2 ^ c).
    split; [lia|]. split.
    + rewrite inject_Z_mult. reflexivity.
    + unfold Qeq. cbn [Qnum Qden inject_Z Qmult].
      rewrite ?Pos.mul_1_l, ?Pos.mul_1_r. ring.
  - assert (Hp : 0 < 2 ^ (- c)) by (apply Z.pow_pos_nonneg; lia).
    exists (Zpos n * 2 ^ (- c)), (Zpos d).
    split; [lia|]. split.
    + unfold Qeq. cbn [Qnum Qden inject_Z Qmult].
      rewrite ?Pos.mul_1_l, ?Pos.mul_1_r. ring.
    + unfold Qeq. cbn [Qnum Qden inject_Z Qmult].
      rewrite ?Pos.mul_1_l, ?Pos.mul_1_r. rewrite Z2Pos.id by exact Hp. ring.
Qed.

Lemma Qabs_scaled (z : Z) (p : Q) :
  (0 < p)%Q -> Qabs (inject_Z z * p) == inject_Z (Z.abs z) * p.
Proof.
  intro Hp. rewrite Qabs_Qmult. rewrite (Qabs_pos p) by lra. reflexivity.
Qed.

(** [Binary64.round_positive] gives a binary64 number, and no binary64
    number is nearer to the value. *)
Lemma round_positive_nearest (n d : positive) :
  let x := Zpos n # d in
  let r := Binary64.round_positive (Zpos n) (Zpos d) in
  representable r
  /\ forall y : Q, representable y -> (Qabs (r - x) <= Qabs (y - x))%Q.
Proof.
  intros x r.
  destruct (round_positive_scaled n d) as [a [b [Hb [Hr Hx]]]].
  fold r in Hr. fold x in Hx.
  destruct (exponent_spec n d) as [Hlow Hhigh]. fold x in Hlow, Hhigh.
  set (e := Binary64.exponent (Zpos n) (Zpos d)) in *.
  set (c := Binary64.quantum (Zpos n) (Zpos d)) in *.
  assert (Hc : c = Z.max (e - 52) (-1074)) by reflexivity.
  set (k := Binary64.nearest_even a b) in *.
  pose proof (pow2_pos c) as HP. set (P := pow2 c) in *.
  assert (HB : (0 < inject_Z b)%Q).
  { change 0%Q with (inject_Z 0). rewrite <- Zlt_Qlt. exact Hb. }
  assert (Hscaled : forall j : Z,
             ((inject_Z j * P - x) * inject_Z b
              == inject_Z (j * b - a) * P)%Q).
  { intro j.
    transitivity (inject_Z j * P * inject_Z b - x * inject_Z b)%Q; [ring|].
    rewrite Hx. rewrite <- inject_Z_minus, inject_Z_mult. ring. }
  assert (Hgrid : forall j : Z,
             (Qabs (r - x) <= Qabs (inject_Z j * P - x))%Q).
  { intro j.
    apply (Qmult_le_r _ _ (inject_Z b) HB).
    assert (Habs : forall z : Q,
               (Qabs z * inject_Z b == Qabs (z * inject_Z b))%Q).
    { intro z. rewrite Qabs_Qmult, (Qabs_pos (inject_Z b)) by lra.
      reflexivity. }
    rewrite !Habs. rewrite Hr, !Hscaled.
    rewrite !Qabs_scaled by exact HP.
    apply Qmult_le_compat_r; [|lra].
    rewrite <- Zle_Qle. apply nearest_even_nearest. exact Hb. }
  assert (Hx0 : (0 < x)%Q) by reflexivity.
  assert (Ha : 0 < a).
  { assert (H : (0 < inject_Z a * P)%Q) by (rewrite <- Hx; nra).
    assert (H' : (0 < inject_Z a)%Q) by nra.
    change 0%Q with (inject_Z 0) in H'. rewrite <- Zlt_Qlt in H'. exact H'. }
  assert (Htop : (pow2 (e + 1) <= inject_Z (2 ^ 53) * P)%Q).
  { unfold P. rewrite <- pow2_shift by lia. apply pow2_le. lia. }
  assert (Hk : 0 <= k <= 2 ^ 53).
  { destruct (nearest_even_bounds a b 0 Hb) as [L _].
    destruct (nearest_even_bounds a b (2 ^ 53) Hb) as [_ U].
    split; [apply L; lia|apply U].
    assert (H : (inject_Z a * P < inject_Z (2 ^ 53) * inject_Z b * P)%Q).
    { rewrite <- Hx. nra. }
    assert (H' : (inject_Z a < inject_Z (2 ^ 53 * b))%Q).
    { rewrite inject_Z_mult. nra. }
    rewrite <- Zlt_Qlt in H'. lia. }
  split.
  - destruct (Z.eq_dec k (2 ^ 53)) as [Ek|Ek].
    + exists (2 ^ 52), (c + 1). split; [reflexivity|]. split; [lia|].
      rewrite Hr, Ek. rewrite pow2_shift by lia. fold P.
      change (inject_Z (2 ^ 53))
        with (inject_Z (2 ^ 52) * inject_Z (2 ^ 1))%Q.
      ring.
    + exists k, c. split; [lia|]. split; [lia|exact Hr].
  - intros y [m [e' [Hm [He' Hy]]]].
    destruct (Z_le_gt_dec c e') as [Hce|Hce].
    + assert (E : y == inject_Z (m * 2 ^ (e' - c)) * P).
      { rewrite Hy. replace e' with (c + (e' - c)) at 1 by lia.
        rewrite pow2_shift by lia. fold P. rewrite inject_Z_mult. ring. }
      rewrite E. apply Hgrid.
    + assert (Hce' : c = e - 52) by lia.
      assert (Hg : (pow2 e == inject_Z (2 ^ 52) * P)%Q).
      { unfold P. rewrite <- pow2_shift by lia.
        replace (c + 52) with e by lia. reflexivity. }
      assert (Hy' : (y < pow2 e)%Q).
      { assert (H1 : (inject_Z m * pow2 e' < inject_Z (2 ^ 53) * pow2 e')%Q).
        { pose proof (pow2_pos e'). apply Qmult_lt_compat_r; [assumption|].
          rewrite <- Zlt_Qlt. lia. }
        assert (H2 : (inject_Z (2 ^ 53) * pow2 e'
                      <= inject_Z (2 ^ 53) * pow2 (c - 1))%Q).
        { pose proof (pow2_le e' (c - 1) ltac:(lia)).
          assert (0 < inject_Z (2 ^ 53))%Q by reflexivity. nra. }
        assert (H3 : (inject_Z (2 ^ 53) * pow2 (c - 1) == pow2 e)%Q).
        { rewrite <- pow2_shift by lia. replace (c - 1 + 53) with e by lia.
          reflexivity. }
        rewrite Hy. lra. }
      specialize (Hgrid (2 ^ 52)). rewrite <- Hg in Hgrid.
      rewrite (Qabs_neg (pow2 e - x)) in Hgrid by lra.
      apply Qle_trans with (- (y - x))%Q; [lra|].
      rewrite <- Qabs_opp. apply Qle_Qabs.
Qed.

Lemma representable_opp (y : Q) : representable y -> representable (- y).
Proof.
  intros [m [e [Hm [He Hy]]]]. exists (- m), e.
  split; [lia|]. split; [exact He|].
  rewrite Hy, inject_Z_opp. ring.
Qed.

(** [Binary64.round] gives a binary64 number, and no binary64 number is
    nearer to the value.  (At a tie the significand chosen is even, by
    [nearest_even_tie].) *)
Theorem round_nearest (x : Q) :
  representable (Binary64.round x)
  /\ forall y : Q,
      representable y -> (Qabs (Binary64.round x - x) <= Qabs (y - x))%Q.
Proof.
  pose proof (Qred_correct x) as Hred.
  unfold Binary64.round.
  destruct (Qred x) as [n d]. cbn [Qnum Qden].
  destruct n as [|n|n].
  - split.
    + exists 0, 0. split; [reflexivity|]. split; [lia|reflexivity].
    + intros y _. rewrite <- Hred.
      setoid_replace (0 - (0 # d))%Q with 0%Q by reflexivity.
      apply Qabs_nonneg.
  - destruct (round_positive_nearest n d) as [Hrep Hnear].
    split; [exact Hrep|].
    intros y Hy. rewrite <- Hred. apply Hnear. exact Hy.
  - destruct (round_positive_nearest n d) as [Hrep Hnear].
    split; [apply representable_opp; exact Hrep|].
    intros y Hy. rewrite <- Hred.
    specialize (Hnear (- y)%Q (representable_opp y Hy)).
    assert (E1 : (- Binary64.round_positive (Z.pos n) (Z.pos d)
                  - (Z.neg n # d)
                  == - (Binary64.round_positive (Z.pos n) (Z.pos d)
                        - (Z.pos n # d)))%Q).
    { setoid_replace (Z.neg n # d) with (- (Z.pos n # d))%Q by reflexivity.
      ring. }
    assert (E2 : (y - (Z.neg n # d) == - (- y - (Z.pos n # d)))%Q).
    { setoid_replace (Z.neg n # d) with (- (Z.pos n # d))%Q by reflexivity.
      ring. }
    rewrite E1, E2, !Qabs_opp. exact Hnear.
Qed.

Lemma Math_round_compat (x y : Q) : x == y -> SF.Math_round x = SF.Math_round y.
Proof.
  intro H. unfold SF.Math_round. apply Qfloor_comp. rewrite H. reflexivity.
Qed.

Lemma toHex_compat (x y : Q) : x == y -> SF.toHex x = SF.toHex y.
Proof.
  intro H. unfold SF.toHex. rewrite (Math_round_compat x y H). reflexivity.
Qed.

Lemma lerp_compat (a b f f' : Q) : f == f' -> SF.lerp a b f = SF.lerp a b f'.
Proof.
  intro H. unfold SF.lerp. apply round_compat.
  rewrite (round_compat (Binary64.round (b - a) * f)
             (Binary64.round (b - a) * f')); [reflexivity|].
  rewrite H. reflexivity.
Qed.

Lemma interpolated_compat (colorA colorB : SF.Rgb) (f f' : Q) :
  f == f' ->
  SF.rgbToHex (SF.interpolateColor colorA colorB f)
  = SF.rgbToHex (SF.interpolateColor colorA colorB f').
Proof.
  intro H. unfold SF.rgbToHex, SF.interpolateColor. cbn [SF.r SF.g SF.b].
  rewrite (lerp_compat (SF.r colorA) (SF.r colorB) f f' H).
  rewrite (lerp_compat (SF.g colorA) (SF.g colorB) f f' H).
  rewrite (lerp_compat (SF.b colorA) (SF.b colorB) f f' H).
  reflexivity.
Qed.

Lemma Qle_bool_compat_l (x y z : Q) : x == y -> Qle_bool x z = Qle_bool y z.
Proof. intro H. rewrite H. reflexivity. Qed.

Lemma Qle_bool_compat_r (x y z : Q) : x == y -> Qle_bool z x = Qle_bool z y.
Proof. intro H. rewrite H. reflexivity. Qed.

Lemma interpolate_between_step (current next : SF.Keyframe)
      (rest : list SF.Keyframe) (value : Q) :
  SF.interpolate_between (current :: next :: rest) value
  = if Qle_bool (SF.dB current) value && Js.Qltb value (SF.dB next)
    then Some (SF.rgbToHex
                 (SF.interpolateColor (SF.hexToRgb (SF.hex current))
                    (SF.hexToRgb (SF.hex next))
                    (Binary64.round
                       (Binary64.round (value - SF.dB current)
                        / Binary64.round (SF.dB next - SF.dB current)))))
    else SF.interpolate_between (next :: rest) value.
Proof. reflexivity. Qed.

Lemma interpolate_between_compat (keyframes : list SF.Keyframe) (q q' : Q) :
  q == q' ->
  SF.interpolate_between keyframes q = SF.interpolate_between keyframes q'.
Proof.
  intro H. destruct keyframes as [|current rest]; [reflexivity|].
  revert current. induction rest as [|next rest IH]; intro current; [reflexivity|].
  rewrite !interpolate_between_step. rewrite (IH next).
  rewrite (Qle_bool_compat_r q q' (SF.dB current) H). unfold Js.Qltb.
  rewrite (Qle_bool_compat_r q q' (SF.dB next) H).
  rewrite (round_compat (q - SF.dB current) (q' - SF.dB current))
    by (rewrite H; reflexivity).
  reflexivity.
Qed.

(** The colour depends on the number, not on how the rational is written. *)
Lemma getBackgroundColor_compat (q q' : Q) :
  q == q' ->
  SF.getBackgroundColor (VNumber (Fin q)) = SF.getBackgroundColor (VNumber (Fin q')).
Proof.
  intro H. unfold SF.getBackgroundColor. cbn [Js.Number].
  rewrite (Qle_bool_compat_l q q' (SF.dB SF.first_keyframe) H).
  rewrite (Qle_bool_compat_r q q' (SF.dB SF.last_keyframe) H).
  rewrite (interpolate_between_compat SF.COLOR_KEYFRAMES q q' H).
  reflexivity.
Qed.

Lemma getBackgroundColor_low (q : Q) :
  (q <= 76)%Q -> SF.getBackgroundColor (VNumber (Fin q)) = "#a4f12c"%string.
Proof.
  intro H. unfold SF.getBackgroundColor. cbn [Js.Number].
  change (SF.dB SF.first_keyframe) with 76%Q.
  apply Qle_bool_iff in H. rewrite H. reflexivity.
Qed.

Lemma getBackgroundColor_high (q : Q) :
  (105 <= q)%Q -> SF.getBackgroundColor (VNumber (Fin q)) = "#ee5b2d"%string.
Proof.
  intro H. unfold SF.getBackgroundColor. cbn [Js.Number].
  change (SF.dB SF.first_keyframe) with 76%Q.
  change (SF.dB SF.last_keyframe) with 105%Q.
  assert (Hlow : Qle_bool q 76 = false).
  { apply Qle_bool_false. apply Qlt_le_trans with 105%Q; [reflexivity|assumption]. }
  rewrite Hlow. apply Qle_bool_iff in H. rewrite H. reflexivity.
Qed.

(** The model against the primitive binary64 numbers: on every probe, on
    each of the three channels, the interpolation of the model is the
    number that the primitive operations compute.  The probes include the
    midpoints, where nothing is rounded, and numbers such as the one just
    below 92.5, where the product is. *)
Lemma interpolation_agrees_on_probes :
  forallb agrees_on_probe probes = true
  /\ In 80.5%float probes
  /\ In (PrimFloat.next_down 92.5)%float probes.
Proof.
  split; [vm_compute; reflexivity|].
  split.
  - unfold probes. apply in_flat_map. exists 72%nat.
    split; [apply in_seq; lia|]. left. vm_compute. reflexivity.
  - unfold probes. apply in_flat_map. exists 264%nat.
    split; [apply in_seq; lia|]. right; left. vm_compute. reflexivity.
Qed.

(** The rounding against the primitive binary64 numbers, on the quotients
    of the integers from 1 to 20. *)
Lemma round_agrees_on_quotients :
  forallb
    (fun a => forallb (round_agrees_on_quotient a) (map Z.of_nat (seq 1 20)))
    (map Z.of_nat (seq 1 20))
  = true.
Proof. vm_compute. reflexivity. Qed.

(** Two inputs at which the product of the interpolation is rounded up to
    a tie of [Math.round]: the binary64 number just below 92.5, and the one
    nearest to 76.9. *)
Lemma getBackgroundColor_rounded :
  SF.getBackgroundColor (VNumber (Fin (6509108836433919 # 70368744177664)))
  = "#f0a32e"%string
  /\ SF.getBackgroundColor (VNumber (Fin (5411356427262362 # 70368744177664)))
     = "#acf02c"%string
  /\ Q_of_double (PrimFloat.next_down 92.5)
     = Some (6509108836433919 # 70368744177664)
  /\ Q_of_double 0x1.339999999999ap+6
     = Some (5411356427262362 # 70368744177664).
Proof. repeat split; vm_compute; reflexivity. Qed.

(** C8. An input that is not a finite number is mapped as 76 is.  A finite
    input at or below 76, the loudness of the first keyframe, gets the
    colour of the first keyframe; a finite input at or above 105, the
    loudness of the last keyframe, gets the colour of the last keyframe.  At
    the midpoint of two adjacent keyframes the colour is made, channel by
    channel, of an integer nearest to the mean of the two keyframe
    channels. *)
Theorem getBackgroundColor_keyframes :
  (forall dbValue : JsValue,
      Js.isFinite (Js.Number dbValue) = false ->
      SF.getBackgroundColor dbValue = SF.getBackgroundColor (VNumber (Fin 76))
      /\ SF.getBackgroundColor dbValue = SF.hex SF.first_keyframe)
  /\ (forall (dbValue : JsValue) (q : Q),
         Js.Number dbValue = Fin q -> (q <= SF.dB SF.first_keyframe)%Q ->
         SF.getBackgroundColor dbValue = SF.hex SF.first_keyframe)
  /\ (forall (dbValue : JsValue) (q : Q),
         Js.Number dbValue = Fin q -> (SF.dB SF.last_keyframe <= q)%Q ->
         SF.getBackgroundColor dbValue = SF.hex SF.last_keyframe)
  /\ (SF.dB SF.first_keyframe == 76 /\ SF.dB SF.last_keyframe == 105)
  /\ (forall (k : nat) (A B : SF.Keyframe) (q : Q),
         nth_error SF.COLOR_KEYFRAMES k = Some A ->
         nth_error SF.COLOR_KEYFRAMES (S k) = Some B ->
         q == mean (SF.dB A) (SF.dB B) ->
         exists red green blue : Z,
           nearest_integer red
             (mean (SF.r (SF.hexToRgb (SF.hex A))) (SF.r (SF.hexToRgb (SF.hex B))))
           /\ nearest_integer green
                (mean (SF.g (SF.hexToRgb (SF.hex A))) (SF.g (SF.hexToRgb (SF.hex B))))
           /\ nearest_integer blue
                (mean (SF.b (SF.hexToRgb (SF.hex A))) (SF.b (SF.hexToRgb (SF.hex B))))
           /\ SF.getBackgroundColor (VNumber (Fin q))
              = SF.rgbToHex
                  (SF.mkRgb (inject_Z red) (inject_Z green) (inject_Z blue)))
  /\ (SF.getBackgroundColor (VNumber (Fin 80.5)) = "#cbea2c"%string
      /\ SF.getBackgroundColor (VNumber (Fin 90)) = "#f0b82d"%string
      /\ SF.getBackgroundColor (VNumber (Fin 100)) = "#ef752e"%string).
Proof.
  assert (Hnum : forall dbValue q,
             Js.Number dbValue = Fin q ->
             SF.getBackgroundColor dbValue = SF.getBackgroundColor (VNumber (Fin q))).
  { intros dbValue q E. unfold SF.getBackgroundColor. rewrite E. reflexivity. }
  split; [|split; [|split; [|split; [|split]]]].
  - intros dbValue Hnf. unfold SF.getBackgroundColor.
    destruct (Js.Number dbValue); try discriminate; split; reflexivity.
  - intros dbValue q E Hq. rewrite (Hnum _ _ E). apply getBackgroundColor_low.
    exact Hq.
  - intros dbValue q E Hq. rewrite (Hnum _ _ E). apply getBackgroundColor_high.
    exact Hq.
  - split; reflexivity.
  - intros k A B q HA HB Hq.
    rewrite (getBackgroundColor_compat _ _ Hq).
    destruct k as [|[|[|k]]]; cbn in HA, HB.
    + injection HA as <-. injection HB as <-.
      exists 203, 234, 44.
      repeat split; apply Qle_bool_iff; vm_compute; reflexivity.
    + injection HA as <-. injection HB as <-.
      exists 240, 184, 45.
      repeat split; apply Qle_bool_iff; vm_compute; reflexivity.
    + injection HA as <-. injection HB as <-.
      exists 239, 117, 46.
      repeat split; apply Qle_bool_iff; vm_compute; reflexivity.
    + destruct k; discriminate.
  - repeat split.
Qed.

(** ** The controller *)

Lemma onReading_not_ready (st : Session.t) (dbValue : JsValue) :
  Session.playerReady st = false ->
  Controller.onReading dbValue st = Controller.updateBackgroundColor dbValue st.
Proof.
  intro Hnot. unfold Controller.onReading, isPlayerReady.
  assert (Hr : Session.playerReady (Controller.updateBackgroundColor dbValue st)
               = false).
  { unfold Controller.updateBackgroundColor.
    destruct (Session.document_body st); cbn; exact Hnot. }
  rewrite Hr. reflexivity.
Qed.

(** C9. When the player is not ready, a call of [onReading] only applies
    the background colour, when there is a body: it issues no load, leaves
    the tracker, [previousRange] and the sequence counter as they were,
    suspends nothing and logs nothing; the call is complete when it
    returns. *)
Theorem onReading_player_not_ready
  (st : Session.t) (dbValue : JsValue)
  (Hnot : Session.playerReady st = false) :
  let st' := Controller.onReading dbValue st in
  st' = Controller.updateBackgroundColor dbValue st
  /\ Session.document_body st'
     = match Session.document_body st with
       | Some _ => Some (SF.getBackgroundColor dbValue)
       | None => None
       end
  /\ Session.loads st' = Session.loads st
  /\ Session.tracker st' = Session.tracker st
  /\ Session.previousRange st' = Session.previousRange st
  /\ Session.sequenceCounter st' = Session.sequenceCounter st
  /\ Session.pending st' = Session.pending st
  /\ Session.warnings st' = Session.warnings st
  /\ Session.hung st' = Session.hung st
  /\ (Session.hung st = false ->
      Controller.step (Reading dbValue) st = Some st').
Proof.
  intro st'. subst st'.
  pose proof (onReading_not_ready st dbValue Hnot) as E.
  split; [exact E|].
  assert (Hstep : Session.hung st = false ->
                  Controller.step (Reading dbValue) st
                  = Some (Controller.onReading dbValue st)).
  { intro Hh. unfold Controller.step. rewrite Hh. reflexivity. }
  rewrite E in *. unfold Controller.updateBackgroundColor in *.
  destruct (Session.document_body st) eqn:Hb; cbn; rewrite ?Hb; auto 12.
Qed.

(** Without a player a reading of 95 loads nothing. *)
Lemma onReading_player_not_ready_witness :
  Session.playerReady (Controller.initial false (Some ""%string) 0) = false
  /\ Session.loads
       (Controller.onReading (VNumber (Fin 95))
          (Controller.initial false (Some ""%string) 0)) = [].
Proof.
  split; [reflexivity|].
  destruct (onReading_player_not_ready
              (Controller.initial false (Some ""%string) 0)
              (VNumber (Fin 95)) eq_refl) as [_ [_ [H _]]].
  exact H.
Defined.

(** C1, evaluated.  Reading 80 starts sequence 1 towards [S2]; reading 95,
    100 ms later, starts sequence 2 towards [S3], which plays to its end.
    When the delay of sequence 1 then elapses its token is stale: it issues
    no load, the last load remains the steady clip of [S3] issued by
    sequence 2, but it assigns [previousRange], which goes from [S3] back to
    [S2].  In the plain variant [previousRange] is assigned before the
    sequence starts and the stale sequence leaves it alone. *)
Theorem superseded_sequence_advances_previousRange :
  (exists before after : Session.t,
      Controller.run superseded_prefix (Controller.initial true (Some ""%string) 0)
      = Some before
      /\ Session.sequenceCounter before = 2
      /\ Session.previousRange before = Some "S3"%string
      /\ Session.pending before
         = [(1, mkSuspended
                  (K_step_waited [Some "S1"%string; Some "S2"%string] 0
                     (RetAdvance (Some "S2"%string)))
                  (AwaitTimer 700))]
      /\ Session.clock before = 700
      /\ Controller.step (TimerFired 1) before = Some after
      /\ Session.loads after = Session.loads before
      /\ hd_error (Session.loads after)
         = Some (2, LoadArgs.mk "./media/state_3.json" true true forward)
      /\ SF.animationState.currentRange (Session.tracker after) = Some "S3"%string
      /\ Session.pending after = []
      /\ Session.previousRange after = Some "S2"%string)
  /\ (exists before after : Session.t,
         PlainController.run superseded_prefix_plain (PlainController.initial true 0)
         = Some before
         /\ Session.sequenceCounter before = 2
         /\ Session.previousRange before = Some "S3"%string
         /\ PlainController.step (TimerFired 1) before = Some after
         /\ Session.loads after = Session.loads before
         /\ Session.previousRange after = Some "S3"%string).
Proof.
  split.
  - eexists. eexists.
    split; [vm_compute; reflexivity|].
    repeat split; vm_compute; reflexivity.
  - eexists. eexists.
    split; [vm_compute; reflexivity|].
    repeat split; vm_compute; reflexivity.
Qed.

(** C6, as stated, fails.  Settled on [S1], reading 80 twice issues two
    loads, whether the second call is made at once or after the first has
    played its transition and loaded the steady clip of [S2].  Settled on
    [S3] with the dwell timeout reached, reading 95 twice at once loads the
    steady clip of [SF] twice. *)
Lemma steady_idempotence_counterexample :
  (settled settled_on_S1
   /\ (exists st,
          Controller.run
            [Reading (VNumber (Fin 80)); Reading (VNumber (Fin 80))] settled_on_S1
          = Some st
          /\ ~ (List.length (Session.loads st)
                <= List.length (Session.loads settled_on_S1) + 1)%nat)
   /\ (exists st,
          Controller.run
            [Reading (VNumber (Fin 80)); LoadSettled 1 true; Advance 700;
             TimerFired 1; LoadSettled 1 true; Reading (VNumber (Fin 80))]
            settled_on_S1
          = Some st
          /\ Session.pending st = []
          /\ ~ (List.length (Session.loads st)
                <= List.length (Session.loads settled_on_S1) + 1)%nat))
  /\ (settled settled_on_S3
      /\ stays_in_settled_range (VNumber (Fin 95)) settled_on_S3
      /\ exists st,
          Controller.run
            [Advance 8833; Reading (VNumber (Fin 95)); Reading (VNumber (Fin 95))]
            settled_on_S3
          = Some st
          /\ ~ (List.length (Session.loads st)
                <= List.length (Session.loads settled_on_S3) + 1)%nat).
Proof.
  split; [split; [|split]|split; [|split]].
  - repeat split; reflexivity.
  - eexists. split; [vm_compute; reflexivity|]. vm_compute. lia.
  - eexists. split; [vm_compute; reflexivity|]. split; [reflexivity|].
    vm_compute. lia.
  - repeat split; reflexivity.
  - right. split; reflexivity.
  - eexists. split; [vm_compute; reflexivity|]. vm_compute. lia.
Qed.

(** *** The steady state *)

Lemma updateBackgroundColor_fields (dbValue : JsValue) (st : Session.t) :
  let st' := Controller.updateBackgroundColor dbValue st in
  Session.previousRange st' = Session.previousRange st
  /\ Session.sequenceCounter st' = Session.sequenceCounter st
  /\ Session.tracker st' = Session.tracker st
  /\ Session.playerReady st' = Session.playerReady st
  /\ Session.loads st' = Session.loads st
  /\ Session.warnings st' = Session.warnings st
  /\ Session.clock st' = Session.clock st
  /\ Session.pending st' = Session.pending st
  /\ Session.hung st' = Session.hung st.
Proof.
  unfold Controller.updateBackgroundColor.
  destruct (Session.document_body st); cbn; repeat split.
Qed.

(** The fast path of [onReading]: the tracker answers the range the
    controller is in and no transition. *)
Lemma onReading_fast_path (st : Session.t) (dbValue : JsValue)
      (tracker' : SF.animationState.t) (result : SF.animationState.Result) :
  Session.playerReady st = true ->
  SF.animationState.update (Session.tracker st) dbValue (Session.clock st)
  = (tracker', result) ->
  SF.animationState.range result = Session.previousRange st ->
  SF.animationState.transition result = None ->
  Controller.onReading dbValue st
  = Session.set_tracker tracker' (Controller.updateBackgroundColor dbValue st).
Proof.
  intros Hready Hupd Hrange Htrans.
  destruct (updateBackgroundColor_fields dbValue st)
    as [Hp [Hc [Ht [Hr [Hl [Hw [Hk [Hpe Hh]]]]]]]].
  unfold Controller.onReading, isPlayerReady.
  rewrite Hr, Hready, Ht, Hk, Hupd. cbn [negb].
  rewrite Htrans, Hrange.
  destruct (Js.truthy (Session.previousRange st)); cbn [negb]; [|reflexivity].
  cbn [Session.previousRange Session.set_tracker]. rewrite Hp.
  assert (E : Js.strict_eq (Session.previousRange st) (Session.previousRange st) = true)
    by (apply strict_eq_true; reflexivity).
  rewrite E. reflexivity.
Qed.

Lemma SF_path_S3_SF :
  SF.buildRangePath (Some "S3"%string) (Some "SF"%string)
  = Some [Some "S3"%string; Some "SF"%string].
Proof. reflexivity. Qed.

Lemma SF_no_transition_S3_SF :
  SF.resolveTransition (Some "S3"%string) (Some "SF"%string) = None.
Proof. reflexivity. Qed.

Lemma SF_state_SF :
  SF.getStateConfig (Some "SF"%string)
  = Some (StateConfig.mk "./media/state_final.json" (Some forward) (Some true)).
Proof. reflexivity. Qed.

(** Reaching the dwell timeout while settled on [S3]: [onReading] takes a
    new token, finds no transition between [S3] and [SF], loads the steady
    clip of [SF] and is suspended on that load. *)
Lemma onReading_escalates (st : Session.t) (dbValue : JsValue) :
  Session.playerReady st = true ->
  SF.animationState.update (Session.tracker st) dbValue (Session.clock st)
  = (SF.animationState.mk (Some "SF"%string) true None,
     SF.animationState.mkResult (Some "SF"%string) None) ->
  Session.previousRange st = Some "S3"%string ->
  Session.pending st = [] ->
  let st' := Controller.onReading dbValue st in
  let id := Session.sequenceCounter st + 1 in
  Session.tracker st' = SF.animationState.mk (Some "SF"%string) true None
  /\ Session.loads st'
     = (id, LoadArgs.mk "./media/state_final.json" true true forward)
       :: Session.loads st
  /\ Session.pending st'
     = [(id, mkSuspended (K_steady_loaded (RetAdvance (Some "SF"%string))) AwaitLoad)]
  /\ Session.playerReady st' = true
  /\ Session.hung st' = Session.hung st
  /\ Session.sequenceCounter st' = id.
Proof.
  intros Hready Hupd Hprev Hpend st' id. subst st' id.
  destruct st as [prev counter this ready body loads warnings clock pending hung].
  cbn in Hready, Hupd, Hprev, Hpend. subst.
  unfold Controller.onReading, Controller.updateBackgroundColor, isPlayerReady.
  destruct body;
    cbn [Session.document_body Session.set_document_body Session.playerReady
           Session.tracker Session.clock negb];
    rewrite Hupd;
    repeat (progress
              (cbn -[Z.eqb Z.add SF.getBackgroundColor SF.buildRangePath
                       SF.resolveTransition SF.getStateConfig];
               rewrite ?SF_path_S3_SF, ?SF_no_transition_S3_SF, ?SF_state_SF,
                 ?Z.eqb_refl;
               unfold playSteady_then, playSteady, loadClip, isPlayerReady,
                 settle));
    repeat split.
Qed.

(** Without a new reading, a controller that at most awaits the load of a
    steady clip issues no load. *)
Lemma step_awaiting_steady (target : JsRange) (e : Event) (st st' : Session.t) :
  is_reading e = false ->
  awaiting_steady target st ->
  Controller.step e st = Some st' ->
  awaiting_steady target st'
  /\ Session.loads st' = Session.loads st
  /\ Session.tracker st' = Session.tracker st
  /\ Session.playerReady st' = Session.playerReady st
  /\ Session.hung st' = Session.hung st
  /\ Session.sequenceCounter st' = Session.sequenceCounter st.
Proof.
  intros He Hst Hstep. unfold Controller.step in Hstep.
  destruct (Session.hung st) eqn:Hh; [discriminate|].
  destruct e as [dt|dbValue|id ok|id]; [|discriminate| |].
  - destruct (dt <? 0); [discriminate|]. injection Hstep as <-.
    cbn. rewrite Hh. repeat split. exact Hst.
  - unfold on_load_settled in Hstep.
    destruct Hst as [[Hp Hprev]|[id0 Hp]]; rewrite Hp in Hstep;
      cbn [Session.find] in Hstep; [discriminate|].
    destruct (Z.eqb_spec id0 id) as [->|_]; [|discriminate].
    injection Hstep as <-.
    destruct ok; cbn; rewrite Hp; cbn; rewrite Z.eqb_refl, Hh;
      repeat split; left; split; reflexivity.
  - unfold on_timer_fired in Hstep.
    destruct Hst as [[Hp Hprev]|[id0 Hp]]; rewrite Hp in Hstep;
      cbn [Session.find] in Hstep; [discriminate|].
    destruct (id0 =? id); discriminate.
Qed.

Lemma run_awaiting_steady (target : JsRange) (es : list Event) :
  forall st st' : Session.t,
    forallb (fun e => negb (is_reading e)) es = true ->
    awaiting_steady target st ->
    Controller.run es st = Some st' ->
    awaiting_steady target st'
    /\ Session.loads st' = Session.loads st
    /\ Session.tracker st' = Session.tracker st
    /\ Session.playerReady st' = Session.playerReady st
    /\ Session.hung st' = Session.hung st
    /\ Session.sequenceCounter st' = Session.sequenceCounter st.
Proof.
  induction es as [|e es IH]; intros st st' Hes Hst Hrun.
  - injection Hrun as <-. repeat split. exact Hst.
  - cbn [forallb] in Hes. apply andb_true_iff in Hes as [He Hes].
    apply negb_true_iff in He.
    cbn [Controller.run] in Hrun.
    destruct (Controller.step e st) as [st1|] eqn:Hstep; [|discriminate].
    destruct (step_awaiting_steady target e st st1 He Hst Hstep)
      as [H1 [H2 [H3 [H4 [H5 H6]]]]].
    destruct (IH st1 st' Hes H1 Hrun) as [G1 [G2 [G3 [G4 [G5 G6]]]]].
    repeat split; congruence.
Qed.

Lemma option_eq_dec_S3 (range : JsRange) :
  {range = Some "S3"%string} + {range <> Some "S3"%string}.
Proof.
  destruct range as [s|]; [|right; discriminate].
  destruct (String.string_dec s "S3") as [->|N]; [left; reflexivity|].
  right. congruence.
Qed.

Lemma SF_resolveTransition_same (range : JsRange) :
  SF.resolveTransition range range = None.
Proof.
  destruct (resolveTransition_cases SF.STATE_SEQUENCE SF.files_transition
              range range SF_names) as [[H _]|[[_ [E _]]|[_ [E _]]]];
    [exact H| |]; exfalso; lia.
Qed.

Lemma update_normal (this : SF.animationState.t) (dbValue : JsValue) (now : Z) :
  SF.animationState.inSF this = false ->
  SF.classify dbValue <> Some "S3"%string ->
  SF.animationState.update this dbValue now
  = (SF.animationState.mk (SF.classify dbValue) false None,
     SF.animationState.mkResult (SF.classify dbValue)
       (SF.resolveTransition (SF.animationState.currentRange this)
          (SF.classify dbValue))).
Proof.
  intros Hin Hc. unfold SF.animationState.update. rewrite Hin.
  destruct (Js.strict_eq (SF.classify dbValue) (Some "S3"%string)) eqn:E.
  - apply strict_eq_true in E. contradiction.
  - reflexivity.
Qed.

Lemma quiet_state_settled (st : Session.t) (dbValue : JsValue)
      (tracker' : SF.animationState.t) :
  settled st ->
  SF.animationState.currentRange tracker'
  = SF.animationState.currentRange (Session.tracker st) ->
  let st' := Session.set_tracker tracker'
               (Controller.updateBackgroundColor dbValue st) in
  settled st'
  /\ Session.loads st' = Session.loads st
  /\ Session.previousRange st' = Session.previousRange st
  /\ Session.tracker st' = tracker'.
Proof.
  intros [Hp [Hh Hprev]] Hcur st'. subst st'.
  destruct (updateBackgroundColor_fields dbValue st)
    as [Ep [Ec [Et [Er [El [Ew [Ek [Epe Eh]]]]]]]].
  unfold settled. cbn. rewrite Epe, Eh, Ep, El, Hcur. auto.
Qed.

(** What a reading that stays in the settled range does: nothing to the
    player, or, when the dwell timeout is reached on [S3], one load of the
    steady clip of [SF]. *)
Lemma onReading_settled (st : Session.t) (dbValue : JsValue) :
  settled st ->
  final_marked (Session.tracker st) ->
  stays_in_settled_range dbValue st ->
  let st' := Controller.onReading dbValue st in
  (Session.loads st' = Session.loads st
   /\ settled st'
   /\ final_marked (Session.tracker st')
   /\ stays_in_settled_range dbValue st')
  \/ (SF.animationState.inSF (Session.tracker st) = false
      /\ SF.classify dbValue = Some "S3"%string
      /\ Session.tracker st' = SF.animationState.mk (Some "SF"%string) true None
      /\ Session.hung st' = false
      /\ exists id,
          Session.loads st'
          = (id, LoadArgs.mk "./media/state_final.json" true true forward)
            :: Session.loads st
          /\ Session.pending st'
             = [(id, mkSuspended (K_steady_loaded (RetAdvance (Some "SF"%string)))
                       AwaitLoad)]).
Proof.
  intros Hsettled Hfm Hstay st'. subst st'.
  pose proof Hsettled as [Hp [Hh Hprev]].
  destruct (Session.playerReady st) eqn:Hready.
  2:{ left. rewrite (onReading_not_ready st dbValue Hready).
      destruct (updateBackgroundColor_fields dbValue st)
        as [Hpr [_ [Ht [_ [Hl [_ [_ [Hpe Hhu]]]]]]]].
      unfold settled, stays_in_settled_range. rewrite Hl, Ht, Hpr, Hpe, Hhu.
      auto. }
  assert (Hquiet : forall tracker' result,
             SF.animationState.update (Session.tracker st) dbValue (Session.clock st)
             = (tracker', result) ->
             SF.animationState.range result = Session.previousRange st ->
             SF.animationState.transition result = None ->
             SF.animationState.currentRange tracker'
             = SF.animationState.currentRange (Session.tracker st) ->
             SF.animationState.inSF tracker'
             = SF.animationState.inSF (Session.tracker st) ->
             Session.loads (Controller.onReading dbValue st) = Session.loads st
             /\ settled (Controller.onReading dbValue st)
             /\ final_marked (Session.tracker (Controller.onReading dbValue st))
             /\ stays_in_settled_range dbValue (Controller.onReading dbValue st)).
  { intros tracker' result Hupd Hr Ht Hcur Hinsf.
    rewrite (onReading_fast_path st dbValue tracker' result Hready Hupd Hr Ht).
    destruct (quiet_state_settled st dbValue tracker' Hsettled Hcur)
      as [Hs [Hl [Hpr Htr]]].
    split; [exact Hl|]. split; [exact Hs|].
    unfold stays_in_settled_range, final_marked in *.
    rewrite Htr, Hpr, Hinsf, Hcur. auto. }
  destruct Hstay as [[Hin Hc]|[Hin Hc]].
  - left.
    assert (Hcur : SF.animationState.currentRange (Session.tracker st)
                   = Some "SF"%string) by (apply Hfm; exact Hin).
    apply (Hquiet _ _ (update_in_final_stays _ dbValue _ Hin Hc)); cbn; congruence.
  - destruct (option_eq_dec_S3 (SF.classify dbValue)) as [E3|N3].
    + destruct (SF.animationState.s3EnteredAt (Session.tracker st)) as [t0|] eqn:Hs.
      * destruct (Z_lt_ge_dec (Session.clock st - t0) SF.SF_TIMEOUT_MS) as [Hlt|Hge].
        -- left.
           apply (Hquiet _ _ (update_dwell_continues _ dbValue _ t0 Hin Hs E3 Hlt));
             cbn; try congruence.
           rewrite <- Hprev, <- Hc, E3. apply SF_resolveTransition_same.
        -- right.
           pose proof (update_dwell_escalates _ dbValue _ t0 Hin Hs E3 Hge) as Hupd.
           destruct (onReading_escalates st dbValue Hready Hupd
                       ltac:(congruence) Hp)
             as [Ht [Hl [Hpe [_ [Hhu _]]]]].
           repeat split; try assumption; try congruence.
           eexists. split; eassumption.
      * left.
        apply (Hquiet _ _ (update_dwell_starts _ dbValue _ Hin Hs E3));
          cbn; try congruence.
        rewrite <- Hprev, <- Hc, E3. apply SF_resolveTransition_same.
    + left.
      apply (Hquiet _ _ (update_normal _ dbValue _ Hin N3)); cbn; try congruence.
      rewrite <- Hprev, <- Hc. apply SF_resolveTransition_same.
Qed.

Lemma settled_after_quiet_run (target : JsRange) (es : list Event)
      (st st' : Session.t) :
  forallb (fun e => negb (is_reading e)) es = true ->
  awaiting_steady target st ->
  Session.hung st = false ->
  SF.animationState.currentRange (Session.tracker st) = target ->
  Controller.run es st = Some st' ->
  Session.pending st' = [] ->
  settled st'
  /\ Session.loads st' = Session.loads st
  /\ Session.tracker st' = Session.tracker st
  /\ Session.previousRange st' = target.
Proof.
  intros Hes Haw Hh Hcur Hrun Hpend.
  destruct (run_awaiting_steady target es st st' Hes Haw Hrun)
    as [Haw' [Hl [Ht [_ [Hh' _]]]]].
  assert (Hprev : Session.previousRange st' = target).
  { destruct Haw' as [[_ H]|[id H]]; [exact H|]. rewrite H in Hpend. discriminate. }
  repeat split; try assumption; congruence.
Qed.

(** C6, amended.  After the controller has settled on a range, two
    consecutive calls of [onReading] with the same value that the tracker
    keeps in that range, the first having returned before the second is
    made, issue at most one load in total: none, or the steady clip of [SF]
    once, when the dwell timeout is reached.  In particular, a call for
    which the tracker answers the range [previousRange] and no transition
    changes nothing but the tracker and the background: no load, the same
    sequence counter, nothing suspended. *)
Theorem steady_idempotence
  (st st1 st2 : Session.t) (dbValue : JsValue) (es1 es2 : list Event)
  (Hsettled : settled st)
  (Hmarked : final_marked (Session.tracker st))
  (Hstays : stays_in_settled_range dbValue st)
  (Hes1 : forallb (fun e => negb (is_reading e)) es1 = true)
  (Hes2 : forallb (fun e => negb (is_reading e)) es2 = true)
  (Hfirst : Controller.run (Reading dbValue :: es1) st = Some st1)
  (Hreturned : Session.pending st1 = [])
  (Hsecond : Controller.run (Reading dbValue :: es2) st1 = Some st2) :
  (Session.loads st2 = Session.loads st
   \/ exists id,
       Session.loads st2
       = (id, LoadArgs.mk "./media/state_final.json" true true forward)
         :: Session.loads st)
  /\ (List.length (Session.loads st2) <= List.length (Session.loads st) + 1)%nat
  /\ (forall (s : Session.t) (v : JsValue) tracker' result,
         Session.playerReady s = true ->
         SF.animationState.update (Session.tracker s) v (Session.clock s)
         = (tracker', result) ->
         SF.animationState.range result = Session.previousRange s ->
         SF.animationState.transition result = None ->
         let s' := Controller.onReading v s in
         Session.loads s' = Session.loads s
         /\ Session.sequenceCounter s' = Session.sequenceCounter s
         /\ Session.pending s' = Session.pending s
         /\ Session.previousRange s' = Session.previousRange s).
Proof.
  assert (Hmain : Session.loads st2 = Session.loads st
                  \/ exists id,
                      Session.loads st2
                      = (id, LoadArgs.mk "./media/state_final.json" true true forward)
                        :: Session.loads st).
  { assert (Hread : forall s es s',
               Session.hung s = false ->
               Controller.run (Reading dbValue :: es) s = Some s' ->
               Controller.run es (Controller.onReading dbValue s) = Some s').
    { intros s es s' Hh Hrun. cbn [Controller.run] in Hrun.
      unfold Controller.step in Hrun. rewrite Hh in Hrun. exact Hrun. }
    pose proof Hsettled as [_ [Hh _]].
    apply (Hread _ _ _ Hh) in Hfirst.
    destruct (onReading_settled st dbValue Hsettled Hmarked Hstays)
      as [[Hl [Hs [Hm Hst]]]|[Hin [Hc [Ht [Hhu [id [Hl Hpe]]]]]]].
    - (* the first call is quiet *)
      pose proof Hs as [Hp1 [Hh1 Hprev1]].
      destruct (settled_after_quiet_run
                  (Session.previousRange (Controller.onReading dbValue st))
                  es1 _ st1 Hes1
                  (or_introl (conj Hp1 eq_refl)) Hh1 (eq_sym Hprev1)
                  Hfirst Hreturned)
        as [Hs1 [Hl1 [Ht1 Hprev']]].
      assert (Hm1 : final_marked (Session.tracker st1)) by (rewrite Ht1; exact Hm).
      assert (Hst1 : stays_in_settled_range dbValue st1).
      { unfold stays_in_settled_range in *. rewrite Ht1, Hprev'. exact Hst. }
      pose proof Hs1 as [_ [Hh1' _]].
      apply (Hread _ _ _ Hh1') in Hsecond.
      destruct (onReading_settled st1 dbValue Hs1 Hm1 Hst1)
        as [[Hl2 [Hs2 _]]|[_ [_ [Ht2 [Hhu2 [id [Hl2 Hpe2]]]]]]].
      + left. pose proof Hs2 as [Hp2 _].
        destruct (run_awaiting_steady
                    (Session.previousRange (Controller.onReading dbValue st1))
                    es2 _ st2 Hes2 (or_introl (conj Hp2 eq_refl)) Hsecond)
          as [_ [Hl3 _]].
        congruence.
      + right. exists id.
        destruct (run_awaiting_steady (Some "SF"%string) es2 _ st2 Hes2
                    (or_intror (ex_intro _ id Hpe2)) Hsecond)
          as [_ [Hl3 _]].
        congruence.
    - (* the first call reaches the dwell timeout *)
      right. exists id.
      destruct (settled_after_quiet_run (Some "SF"%string) es1 _ st1 Hes1
                  (or_intror (ex_intro _ id Hpe)) Hhu
                  ltac:(rewrite Ht; reflexivity) Hfirst Hreturned)
        as [Hs1 [Hl1 [Ht1 Hprev']]].
      assert (Hm1 : final_marked (Session.tracker st1)).
      { rewrite Ht1, Ht. unfold final_marked. cbn. tauto. }
      assert (Hst1 : stays_in_settled_range dbValue st1).
      { left. rewrite Ht1, Ht. cbn. split; [reflexivity|]. rewrite Hc. discriminate. }
      pose proof Hs1 as [_ [Hh1' _]].
      apply (Hread _ _ _ Hh1') in Hsecond.
      destruct (onReading_settled st1 dbValue Hs1 Hm1 Hst1)
        as [[Hl2 [Hs2 _]]|[Hin2 _]].
      + pose proof Hs2 as [Hp2 _].
        destruct (run_awaiting_steady
                    (Session.previousRange (Controller.onReading dbValue st1))
                    es2 _ st2 Hes2 (or_introl (conj Hp2 eq_refl)) Hsecond)
          as [_ [Hl3 _]].
        congruence.
      + rewrite Ht1, Ht in Hin2. discriminate. }
  split; [exact Hmain|]. split.
  - destruct Hmain as [E|[id E]]; rewrite E; cbn [List.length]; lia.
  - intros s v tracker' result Hready Hupd Hr Ht s'. subst s'.
    rewrite (onReading_fast_path s v tracker' result Hready Hupd Hr Ht).
    destruct (updateBackgroundColor_fields v s)
      as [Ep [Ec [_ [_ [El [_ [_ [Epe _]]]]]]]].
    cbn. auto.
Qed.

(** Settled on [S3] with the dwell timeout reached, reading 95, letting the
    load of the [SF] clip settle and reading 95 again issues that one
    load. *)
Lemma steady_idempotence_witness :
  let st := run_or [Advance 8833] settled_on_S3 in
  let st1 := run_or [Reading (VNumber (Fin 95)); LoadSettled 2 true] st in
  let st2 := run_or [Reading (VNumber (Fin 95)); Advance 50] st1 in
  (settled st
   /\ final_marked (Session.tracker st)
   /\ stays_in_settled_range (VNumber (Fin 95)) st
   /\ Controller.run [Reading (VNumber (Fin 95)); LoadSettled 2 true] st = Some st1
   /\ Session.pending st1 = []
   /\ Controller.run [Reading (VNumber (Fin 95)); Advance 50] st1 = Some st2)
  /\ List.length (Session.loads st2) = (List.length (Session.loads st) + 1)%nat
  /\ (List.length (Session.loads st2) <= List.length (Session.loads st) + 1)%nat.
Proof.
  intros st st1 st2.
  assert (Hs : settled st) by (repeat split; reflexivity).
  assert (Hm : final_marked (Session.tracker st))
    by (split; intro H; vm_compute in H; discriminate).
  assert (Hst : stays_in_settled_range (VNumber (Fin 95)) st)
    by (right; split; reflexivity).
  assert (E1 : Controller.run [Reading (VNumber (Fin 95)); LoadSettled 2 true] st
               = Some st1) by (vm_compute; reflexivity).
  assert (Hp : Session.pending st1 = []) by reflexivity.
  assert (E2 : Controller.run [Reading (VNumber (Fin 95)); Advance 50] st1
               = Some st2) by (vm_compute; reflexivity).
  split; [exact (conj Hs (conj Hm (conj Hst (conj E1 (conj Hp E2)))))|].
  split; [reflexivity|].
  exact (proj1 (proj2 (steady_idempotence st st1 st2 (VNumber (Fin 95))
                         [LoadSettled 2 true] [Advance 50]
                         Hs Hm Hst eq_refl eq_refl E1 Hp E2))).
Defined.

(** *** Stale sequences and the order of the loads *)

Section PlaybackFacts.

Variable getStateConfig : JsRange -> option StateConfig.t.
Variable resolveTransition : JsRange -> JsRange -> option Plan.t.

Lemma issued_while_live_refl (id : Z) (st : Session.t) :
  issued_while_live id st st.
Proof. unfold issued_while_live. auto 10. Qed.

Lemma loadClip_issues (id : Z) (src : string) (mode : Mode) (loop : bool)
      (st : Session.t) :
  id = Session.sequenceCounter st ->
  issued_while_live id st (fst (loadClip id src mode loop st)).
Proof.
  intro Hlive. unfold loadClip.
  destruct (negb (isPlayerReady st) || negb (Js.truthy (Some src)));
    cbn [fst]; [apply issued_while_live_refl|].
  unfold issued_while_live. cbn. repeat split. right. split; [exact Hlive|].
  eexists. reflexivity.
Qed.

Lemma playSteady_issues (range : JsRange) (id : Z) (st : Session.t) :
  issued_while_live id st (fst (playSteady getStateConfig range id st)).
Proof.
  unfold playSteady.
  destruct (Z.eqb_spec id (Session.sequenceCounter st)) as [Hlive|Hstale];
    cbn [negb fst]; [|apply issued_while_live_refl].
  destruct (getStateConfig range) as [cfg|]; [|apply issued_while_live_refl].
  apply loadClip_issues. exact Hlive.
Qed.

Lemma return_to_onReading_issues (id : Z) (ret : Return) (st st0 : Session.t) :
  issued_while_live id st0 st ->
  issued_while_live id st0 (fst (return_to_onReading ret st)).
Proof.
  intro H. destruct ret; cbn; exact H.
Qed.

Lemma playSteady_then_issues (range : JsRange) (id : Z) (ret : Return)
      (st : Session.t) :
  issued_while_live id st (fst (playSteady_then getStateConfig range id ret st)).
Proof.
  unfold playSteady_then.
  pose proof (playSteady_issues range id st) as H.
  destruct (playSteady getStateConfig range id st) as [st' loading].
  cbn [fst] in H. destruct loading; cbn [fst]; [exact H|].
  apply return_to_onReading_issues. exact H.
Qed.

Lemma after_step_load_issues (path : list JsRange) (i : nat) (durationMs : Z)
      (id : Z) (ret : Return) (st st0 : Session.t) :
  issued_while_live id st0 st ->
  issued_while_live id st0 (fst (after_step_load path i durationMs id ret st)).
Proof.
  intro H. unfold after_step_load.
  destruct (negb (id =? Session.sequenceCounter st)); cbn [fst]; [|exact H].
  apply return_to_onReading_issues. exact H.
Qed.

Lemma transition_loop_issues (remaining : nat) (path : list JsRange) (id : Z)
      (ret : Return) (st : Session.t) :
  forall i : nat,
    issued_while_live id st
      (fst (transition_loop getStateConfig resolveTransition remaining path i id
              ret st)).
Proof.
  induction remaining as [|remaining IH]; intro i; cbn [transition_loop].
  - apply playSteady_then_issues.
  - destruct (Z.eqb_spec id (Session.sequenceCounter st)) as [Hlive|Hstale];
      cbn [negb].
    + destruct (resolveTransition (nth i path None) (nth (i + 1) path None))
        as [transition|]; [|apply IH].
      pose proof (loadClip_issues id (Plan.file transition) (Plan.mode transition)
                    false st Hlive) as H.
      destruct (loadClip id (Plan.file transition) (Plan.mode transition) false st)
        as [st' loading].
      cbn [fst] in H. destruct loading; cbn [fst]; [exact H|].
      apply after_step_load_issues. exact H.
    + apply return_to_onReading_issues, issued_while_live_refl.
Qed.

(** A resumed call issues at most one load before it is suspended again or
    returns, and none if its token is stale. *)
Lemma resume_issues (k : Cont) (id : Z) (st : Session.t) :
  issued_while_live id st (fst (resume getStateConfig resolveTransition k id st)).
Proof.
  destruct k; cbn [resume fst].
  - apply issued_while_live_refl.
  - apply playSteady_then_issues.
  - apply return_to_onReading_issues, issued_while_live_refl.
  - apply after_step_load_issues, issued_while_live_refl.
  - apply transition_loop_issues.
Qed.

Lemma stale_resume_no_load (k : Cont) (id : Z) (st : Session.t) :
  id <> Session.sequenceCounter st ->
  Session.loads (fst (resume getStateConfig resolveTransition k id st))
  = Session.loads st.
Proof.
  intro Hstale.
  destruct (resume_issues k id st) as [_ [_ [_ [_ [_ [H|[H _]]]]]]];
    [exact H|contradiction].
Qed.

Lemma settle_fields (id : Z) (run : Run) :
  Session.loads (settle id run) = Session.loads (fst run)
  /\ Session.sequenceCounter (settle id run) = Session.sequenceCounter (fst run)
  /\ Session.previousRange (settle id run) = Session.previousRange (fst run)
  /\ Session.tracker (settle id run) = Session.tracker (fst run).
Proof.
  destruct run as [st [s|]]; cbn; auto.
Qed.

Lemma issued_keeps_order (id : Z) (st st' : Session.t) :
  issued_while_live id st st' ->
  loads_in_token_order st ->
  loads_in_token_order st'.
Proof.
  intros [Hc [_ [_ [_ [_ Hl]]]]] [Hsorted Hbound].
  unfold loads_in_token_order. rewrite Hc.
  destruct Hl as [->|[Hlive [args ->]]]; [auto|].
  split.
  - constructor; [exact Hsorted|].
    eapply Forall_impl; [|exact Hbound]. cbn. intros a Ha. lia.
  - constructor; [cbn; lia|exact Hbound].
Qed.

End PlaybackFacts.

(** A call of [onReading] amounts to the background update alone, or to
    that and the update of the tracker, or to both followed by a new token
    and a first run of playback under that token. *)
Lemma onReading_shape (dbValue : JsValue) (st : Session.t) :
  let st0 := Controller.updateBackgroundColor dbValue st in
  let tracker' :=
    fst (SF.animationState.update (Session.tracker st) dbValue (Session.clock st)) in
  let st1 := Session.set_tracker tracker' st0 in
  let id := Session.sequenceCounter st + 1 in
  Controller.onReading dbValue st = st0
  \/ Controller.onReading dbValue st = st1
  \/ exists run,
      Controller.onReading dbValue st = settle id run
      /\ issued_while_live id (Session.set_sequenceCounter id st1) (fst run).
Proof.
  intros st0 tracker' st1 id. subst st0 tracker' st1 id.
  destruct (updateBackgroundColor_fields dbValue st)
    as [Ep [Ec [Et [Er [El [Ew [Ek [Epe Eh]]]]]]]].
  unfold Controller.onReading.
  destruct (negb (isPlayerReady _)); [left; reflexivity|].
  rewrite Et, Ek.
  destruct (SF.animationState.update _ dbValue _) as [tracker' result].
  cbn [fst].
  set (st1 := Session.set_tracker tracker' _).
  destruct (negb (Js.truthy _)); [right; left; reflexivity|].
  destruct (_ && _); [right; left; reflexivity|].
  right; right.
  change (Session.sequenceCounter st1) with
    (Session.sequenceCounter (Controller.updateBackgroundColor dbValue st)).
  rewrite Ec.
  set (id := Session.sequenceCounter st + 1).
  set (st2 := Session.set_sequenceCounter id st1).
  assert (Hid : id = Session.sequenceCounter st2) by reflexivity.
  destruct (SF.animationState.transition result) as [transition|].
  - unfold Controller.loadClip.
    pose proof (loadClip_issues id (Plan.file transition) (Plan.mode transition)
                  false st2 Hid) as Hi.
    destruct (loadClip id (Plan.file transition) (Plan.mode transition) false st2)
      as [st3 loading].
    cbn [fst] in Hi.
    destruct loading; eexists; (split; [reflexivity|exact Hi]).
  - destruct (buildRangePath_total SF.STATE_SEQUENCE
                (Session.previousRange st1) (SF.animationState.range result)
                SF_names) as [path Hpath].
    unfold SF.buildRangePath. rewrite Hpath.
    eexists. split; [reflexivity|].
    unfold Controller.playTransitionSequence, playTransitionSequence.
    destruct path as [|x [|y path]].
    + apply return_to_onReading_issues, issued_while_live_refl.
    + apply playSteady_then_issues.
    + apply transition_loop_issues.
Qed.

(** An event other than a reading is the passing of time or the resumption
    of one suspended call. *)
Lemma step_shape (e : Event) (st st' : Session.t) :
  Controller.step e st = Some st' ->
  Session.hung st = false
  /\ match e with
     | Advance dt => st' = Session.set_clock (Session.clock st + dt) st
     | Reading dbValue => st' = Controller.onReading dbValue st
     | LoadSettled id _ | TimerFired id =>
         exists k resumed,
           st' = settle id (resume SF.getStateConfig SF.resolveTransition k id resumed)
           /\ (resumed = st
               \/ resumed = Session.set_warnings (S (Session.warnings st)) st)
     end.
Proof.
  intro Hstep. unfold Controller.step in Hstep.
  destruct (Session.hung st); [discriminate|]. split; [reflexivity|].
  destruct e as [dt|dbValue|id ok|id].
  - destruct (dt <? 0); [discriminate|]. injection Hstep as <-. reflexivity.
  - injection Hstep as <-. reflexivity.
  - unfold on_load_settled in Hstep.
    destruct (Session.find id (Session.pending st)) as [[k [|due]]|];
      try discriminate.
    injection Hstep as <-. exists k. eexists. split; [reflexivity|].
    destruct ok; auto.
  - unfold on_timer_fired in Hstep.
    destruct (Session.find id (Session.pending st)) as [[k [|due]]|];
      try discriminate.
    destruct (due <=? Session.clock st); [|discriminate].
    injection Hstep as <-. exists k, st. auto.
Qed.

Lemma order_same_loads (st st' : Session.t) :
  Session.loads st' = Session.loads st ->
  Session.sequenceCounter st <= Session.sequenceCounter st' ->
  loads_in_token_order st -> loads_in_token_order st'.
Proof.
  intros Hl Hc [Hs Hb]. unfold loads_in_token_order. rewrite Hl.
  split; [exact Hs|]. eapply Forall_impl; [|exact Hb]. cbn. intros a Ha. lia.
Qed.

Lemma settle_keeps_order (id : Z) (run : Run) :
  loads_in_token_order (fst run) -> loads_in_token_order (settle id run).
Proof.
  destruct (settle_fields id run) as [Hl [Hc _]].
  apply order_same_loads; [exact Hl|lia].
Qed.

Lemma onReading_keeps_order (dbValue : JsValue) (st : Session.t) :
  loads_in_token_order st ->
  loads_in_token_order (Controller.onReading dbValue st).
Proof.
  intro H.
  destruct (updateBackgroundColor_fields dbValue st)
    as [_ [Ec [_ [_ [El _]]]]].
  assert (H0 : loads_in_token_order (Controller.updateBackgroundColor dbValue st)).
  { apply (order_same_loads st); [exact El|rewrite Ec; lia|exact H]. }
  destruct (onReading_shape dbValue st) as [E|[E|[run [E Hi]]]]; rewrite E.
  - exact H0.
  - apply (order_same_loads (Controller.updateBackgroundColor dbValue st));
      [reflexivity|cbn; lia|exact H0].
  - apply settle_keeps_order.
    apply (issued_keeps_order _ _ _ Hi).
    apply (order_same_loads (Controller.updateBackgroundColor dbValue st));
      [reflexivity|cbn; rewrite Ec; lia|exact H0].
Qed.

Lemma step_keeps_order (e : Event) (st st' : Session.t) :
  loads_in_token_order st ->
  Controller.step e st = Some st' ->
  loads_in_token_order st'.
Proof.
  intros H Hstep. destruct (step_shape e st st' Hstep) as [_ Hshape].
  destruct e as [dt|dbValue|id ok|id].
  - subst st'. apply (order_same_loads st); [reflexivity|cbn; lia|exact H].
  - subst st'. apply onReading_keeps_order. exact H.
  - destruct Hshape as [k [resumed [-> Hr]]].
    apply settle_keeps_order.
    apply (issued_keeps_order id resumed); [apply resume_issues|].
    destruct Hr as [->| ->]; [exact H|].
    apply (order_same_loads st); [reflexivity|cbn; lia|exact H].
  - destruct Hshape as [k [resumed [-> Hr]]].
    apply settle_keeps_order.
    apply (issued_keeps_order id resumed); [apply resume_issues|].
    destruct Hr as [->| ->]; [exact H|].
    apply (order_same_loads st); [reflexivity|cbn; lia|exact H].
Qed.

(** Last token wins: whatever the readings and the schedule, the player is
    never called on behalf of an older reading after it has been called on
    behalf of a newer one. *)
Lemma run_keeps_order (es : list Event) :
  forall st st' : Session.t,
    loads_in_token_order st ->
    Controller.run es st = Some st' ->
    loads_in_token_order st'.
Proof.
  induction es as [|e es IH]; intros st st' H Hrun.
  - injection Hrun as <-. exact H.
  - cbn [Controller.run] in Hrun.
    destruct (Controller.step e st) as [st1|] eqn:Hstep; [|discriminate].
    exact (IH st1 st' (step_keeps_order e st st1 H Hstep) Hrun).
Qed.

Lemma initial_in_order (ready : bool) (body : option string) (now : Z) :
  loads_in_token_order (Controller.initial ready body now).
Proof.
  split; constructor.
Qed.

(** *** Invariants of the session *)

(** Every call of [update] leaves the tracker in the final state exactly
    when its current range is the final marker. *)
Lemma update_final_marked (this : SF.animationState.t) (dbValue : JsValue) (now : Z) :
  final_marked (fst (SF.animationState.update this dbValue now)).
Proof.
  unfold final_marked.
  destruct (update_cases this dbValue now)
    as [[_ [_ E]]|[[_ [_ E]]|[[_ [_ [E|[t0 E]]]]|[_ [Hc E]]]]];
    cbn zeta in E; rewrite E; cbn; split; try discriminate; try reflexivity.
  intro H. exfalso. exact (SF_classify_not_final dbValue H).
Qed.

Lemma settle_hung (id : Z) (run : Run) :
  Session.hung (settle id run) = Session.hung (fst run).
Proof. destruct run as [st [s|]]; reflexivity. Qed.

(** The loop of [buildRangePath] always ends, so [onReading] always returns
    to the event loop; and the tracker changes by [update] only. *)
Lemma onReading_hung_tracker (dbValue : JsValue) (st : Session.t) :
  Session.hung (Controller.onReading dbValue st) = Session.hung st
  /\ (Session.tracker (Controller.onReading dbValue st) = Session.tracker st
      \/ Session.tracker (Controller.onReading dbValue st)
         = fst (SF.animationState.update (Session.tracker st) dbValue
                  (Session.clock st))).
Proof.
  destruct (updateBackgroundColor_fields dbValue st)
    as [_ [_ [Et [_ [_ [_ [_ [_ Eh]]]]]]]].
  destruct (onReading_shape dbValue st) as [E|[E|[run [E Hi]]]]; rewrite E.
  - auto.
  - split; [exact Eh|right; reflexivity].
  - destruct Hi as [_ [Ht [_ [_ [Hh _]]]]].
    destruct (settle_fields (Session.sequenceCounter st + 1) run)
      as [_ [_ [_ Hst]]].
    rewrite settle_hung, Hh, Hst, Ht. split; [exact Eh|right; reflexivity].
Qed.

Lemma step_hung_final_marked (e : Event) (st st' : Session.t) :
  Controller.step e st = Some st' ->
  final_marked (Session.tracker st) ->
  Session.hung st' = false /\ final_marked (Session.tracker st').
Proof.
  intros Hstep Hm. destruct (step_shape e st st' Hstep) as [Hh Hshape].
  assert (Hresumed : forall id k resumed,
             resumed = st
             \/ resumed = Session.set_warnings (S (Session.warnings st)) st ->
             Session.hung
               (settle id (resume SF.getStateConfig SF.resolveTransition k id resumed))
             = false
             /\ final_marked
                  (Session.tracker
                     (settle id
                        (resume SF.getStateConfig SF.resolveTransition k id resumed)))).
  { intros id k resumed Hr.
    destruct (resume_issues SF.getStateConfig SF.resolveTransition k id resumed)
      as [_ [Ht [_ [_ [Hhu _]]]]].
    destruct (settle_fields id
                (resume SF.getStateConfig SF.resolveTransition k id resumed))
      as [_ [_ [_ Hst]]].
    rewrite settle_hung, Hhu, Hst, Ht.
    destruct Hr as [->| ->]; auto. }
  destruct e as [dt|dbValue|id ok|id].
  - subst st'. auto.
  - subst st'. destruct (onReading_hung_tracker dbValue st) as [Hhu [Ht|Ht]];
      rewrite Hhu, Ht; split; auto using update_final_marked.
  - destruct Hshape as [k [resumed [-> Hr]]]. apply Hresumed. exact Hr.
  - destruct Hshape as [k [resumed [-> Hr]]]. apply Hresumed. exact Hr.
Qed.

(** In every session the schedule can be played to its end without the
    page hanging, and the tracker stays marked. *)
Lemma run_hung_final_marked (es : list Event) :
  forall st st' : Session.t,
    Controller.run es st = Some st' ->
    Session.hung st = false ->
    final_marked (Session.tracker st) ->
    Session.hung st' = false /\ final_marked (Session.tracker st').
Proof.
  induction es as [|e es IH]; intros st st' Hrun Hh Hm.
  - injection Hrun as <-. auto.
  - cbn [Controller.run] in Hrun.
    destruct (Controller.step e st) as [st1|] eqn:Hstep; [|discriminate].
    destruct (step_hung_final_marked e st st1 Hstep Hm) as [Hh1 Hm1].
    exact (IH st1 st' Hrun Hh1 Hm1).
Qed.

Lemma initial_final_marked (ready : bool) (body : option string) (now : Z) :
  final_marked (Session.tracker (Controller.initial ready body now)).
Proof.
  unfold final_marked. cbn. split; discriminate.
Qed.

(** *** The plain variant: [previousRange] belongs to the latest reading

    The plain [onReading] assigns [previousRange] before its first [await];
    what remains of a sequence, stale or not, never assigns it. *)

Section PlainFacts.

Variable getStateConfig : JsRange -> option StateConfig.t.
Variable resolveTransition : JsRange -> JsRange -> option Plan.t.

Lemma loadClip_previousRange (id : Z) (src : string) (mode : Mode) (loop : bool)
      (st : Session.t) :
  Session.previousRange (fst (loadClip id src mode loop st))
  = Session.previousRange st
  /\ Session.pending (fst (loadClip id src mode loop st)) = Session.pending st.
Proof.
  unfold loadClip.
  destruct (negb (isPlayerReady st) || negb (Js.truthy (Some src))); cbn; auto.
Qed.

Lemma playSteady_then_done (range : JsRange) (id : Z) (st : Session.t) :
  keeps_previousRange st (playSteady_then getStateConfig range id RetDone st).
Proof.
  unfold playSteady_then, playSteady, keeps_previousRange.
  destruct (negb (id =? Session.sequenceCounter st)); cbn;
    [repeat split; discriminate|].
  destruct (getStateConfig range) as [cfg|]; cbn; [|repeat split; discriminate].
  pose proof (loadClip_previousRange id (StateConfig.file cfg)
                (match StateConfig.mode cfg with Some m => m | None => forward end)
                (match StateConfig.loop cfg with Some l => l | None => true end) st)
    as [Hp Hpe].
  destruct (loadClip id _ _ _ st) as [st' loading]. cbn [fst] in Hp, Hpe.
  destruct loading; cbn; repeat split; try assumption; try discriminate.
  intros s [= <-]. exact I.
Qed.

Lemma after_step_load_done (path : list JsRange) (i : nat) (durationMs id : Z)
      (st : Session.t) :
  keeps_previousRange st (after_step_load path i durationMs id RetDone st).
Proof.
  unfold after_step_load, keeps_previousRange.
  destruct (negb (id =? Session.sequenceCounter st)); cbn;
    repeat split; try discriminate.
  intros s [= <-]. exact I.
Qed.

Lemma transition_loop_done (remaining : nat) (path : list JsRange) (id : Z)
      (st : Session.t) :
  forall i : nat,
    keeps_previousRange st
      (transition_loop getStateConfig resolveTransition remaining path i id
         RetDone st).
Proof.
  induction remaining as [|remaining IH]; intro i; cbn [transition_loop].
  - apply playSteady_then_done.
  - destruct (negb (id =? Session.sequenceCounter st));
      [unfold keeps_previousRange; cbn; repeat split; discriminate|].
    destruct (resolveTransition (nth i path None) (nth (i + 1) path None))
      as [transition|]; [|apply IH].
    pose proof (loadClip_previousRange id (Plan.file transition)
                  (Plan.mode transition) false st) as [Hp Hpe].
    destruct (loadClip id (Plan.file transition) (Plan.mode transition) false st)
      as [st' loading].
    cbn [fst] in Hp, Hpe. destruct loading.
    + unfold keeps_previousRange. cbn. repeat split; try assumption.
      intros s [= <-]. exact I.
    + destruct (after_step_load_done path i (Plan.durationMs transition) id st')
        as [H1 [H2 H3]].
      unfold keeps_previousRange. repeat split; try congruence. exact H3.
Qed.

Lemma resume_done (k : Cont) (id : Z) (st : Session.t) :
  returns_done k ->
  keeps_previousRange st (resume getStateConfig resolveTransition k id st).
Proof.
  destruct k as [d n|n|ret|path i d ret|path i ret]; cbn [returns_done];
    try contradiction; destruct ret; try contradiction; intros _; cbn [resume].
  - unfold keeps_previousRange. cbn. repeat split; discriminate.
  - apply after_step_load_done.
  - apply transition_loop_done.
Qed.

Lemma remove_done (id : Z) (pending : list (Z * Suspended)) :
  Forall (fun entry => returns_done (cont (snd entry))) pending ->
  Forall (fun entry => returns_done (cont (snd entry))) (Session.remove id pending).
Proof.
  induction 1 as [|[id' s] l Hs Hl IH]; cbn [Session.remove]; [constructor|].
  destruct (id' =? id); [exact IH|constructor; assumption].
Qed.

Lemma settle_done (id : Z) (st : Session.t) (run : Run) :
  pending_return_done st ->
  keeps_previousRange st run ->
  pending_return_done (settle id run)
  /\ Session.previousRange (settle id run) = Session.previousRange st.
Proof.
  intros Hst [Hp [Hpe Hs]]. destruct run as [st' [s|]];
    unfold pending_return_done in *; cbn in *; rewrite Hpe.
  - split; [|exact Hp]. constructor; [exact (Hs s eq_refl)|].
    apply remove_done. exact Hst.
  - split; [|exact Hp]. apply remove_done. exact Hst.
Qed.

Lemma find_done (id : Z) (pending : list (Z * Suspended)) (s : Suspended) :
  Forall (fun entry => returns_done (cont (snd entry))) pending ->
  Session.find id pending = Some s ->
  returns_done (cont s).
Proof.
  induction 1 as [|[id' s'] l Hs Hl IH]; cbn [Session.find]; [discriminate|].
  destruct (id' =? id); [intros [= <-]; exact Hs|exact IH].
Qed.

End PlainFacts.

Lemma plain_onReading_done (dbValue : JsValue) (st : Session.t) :
  pending_return_done st ->
  pending_return_done (PlainController.onReading dbValue st).
Proof.
  intro H. unfold PlainController.onReading.
  destruct (negb (isPlayerReady st)); [exact H|].
  destruct (negb (Js.truthy _)); [exact H|].
  destruct (Js.strict_eq _ _); [exact H|].
  destruct (S5.buildRangePath _ _) as [path|]; [|exact H].
  set (nextRange := S5.classify _).
  set (st2 := Session.set_sequenceCounter _ _).
  assert (H2 : pending_return_done st2) by exact H.
  apply (settle_done _ st2); [exact H2|].
  unfold PlainController.playTransitionSequence, playTransitionSequence.
  destruct path as [|x [|y path]].
  - unfold keeps_previousRange. cbn. repeat split; discriminate.
  - apply playSteady_then_done.
  - apply transition_loop_done.
Qed.

(** In the plain variant an event other than a reading, the resumption of a
    stale sequence included, leaves [previousRange] alone. *)
Lemma plain_step_previousRange (e : Event) (st st' : Session.t) :
  pending_return_done st ->
  PlainController.step e st = Some st' ->
  pending_return_done st'
  /\ (is_reading e = false ->
      Session.previousRange st' = Session.previousRange st).
Proof.
  intros H Hstep. unfold PlainController.step in Hstep.
  destruct (Session.hung st); [discriminate|].
  destruct e as [dt|dbValue|id ok|id].
  - destruct (dt <? 0); [discriminate|]. injection Hstep as <-. auto.
  - injection Hstep as <-. split; [|discriminate].
    apply plain_onReading_done. exact H.
  - unfold on_load_settled in Hstep.
    destruct (Session.find id (Session.pending st)) as [[k [|due]]|] eqn:Hf;
      try discriminate.
    injection Hstep as <-.
    pose proof (find_done id _ _ H Hf) as Hk. cbn [cont] in Hk.
    set (resumed := if ok then st else _).
    assert (Hr : pending_return_done resumed
                 /\ Session.previousRange resumed = Session.previousRange st)
      by (subst resumed; destruct ok; auto).
    destruct Hr as [Hr1 Hr2].
    destruct (settle_done id resumed _ Hr1
                (resume_done S5.getStateConfig S5.resolveTransition k id resumed Hk))
      as [G1 G2].
    split; [exact G1|]. intros _. congruence.
  - unfold on_timer_fired in Hstep.
    destruct (Session.find id (Session.pending st)) as [[k [|due]]|] eqn:Hf;
      try discriminate.
    destruct (due <=? Session.clock st); [|discriminate].
    injection Hstep as <-.
    pose proof (find_done id _ _ H Hf) as Hk. cbn [cont] in Hk.
    destruct (settle_done id st _ H
                (resume_done S5.getStateConfig S5.resolveTransition k id st Hk))
      as [G1 G2].
    split; [exact G1|]. intros _. exact G2.
Qed.

(** *** The tracker variant: a stale sequence still assigns [previousRange]

    Whatever the point at which a call of the tracker variant finds its token
    stale after a delay or a load, it returns to [onReading], which assigns
    [previousRange] and completes. *)
Lemma stale_sequence_assigns_previousRange
      (k : Cont) (id : Z) (nextRange : JsRange) (st : Session.t) :
  id <> Session.sequenceCounter st ->
  (k = K_transition_waited nextRange
   \/ k = K_steady_loaded (RetAdvance nextRange)
   \/ (exists path i durationMs,
          k = K_step_loaded path i durationMs (RetAdvance nextRange))
   \/ (exists path i, k = K_step_waited path i (RetAdvance nextRange))) ->
  resume SF.getStateConfig SF.resolveTransition k id st
  = (Session.set_previousRange nextRange st, None).
Proof.
  intros Hstale Hk.
  assert (E : negb (id =? Session.sequenceCounter st) = true).
  { destruct (Z.eqb_spec id (Session.sequenceCounter st)); [contradiction|reflexivity]. }
  destruct Hk as [->|[->|[[path [i [d ->]]]|[path [i ->]]]]]; cbn [resume].
  - unfold playSteady_then, playSteady. rewrite E. reflexivity.
  - reflexivity.
  - unfold after_step_load. rewrite E. reflexivity.
  - destruct (List.length path - 1 - (i + 1))%nat; cbn [transition_loop].
    + unfold playSteady_then, playSteady. rewrite E. reflexivity.
    + rewrite E. reflexivity.
Qed.

(** * Further properties of the model and of the controllers *)

(** ** Directions and transitions read in both directions *)

(** The outcome of [getRangeDirection] in terms of the two positions. *)
Lemma getRangeDirection_cases (STATE_SEQUENCE : list string) (a b : JsRange) :
  let pa := Js.indexOf STATE_SEQUENCE a in
  let pb := Js.indexOf STATE_SEQUENCE b in
  (getRangeDirection STATE_SEQUENCE a b = steady
   /\ (Js.truthy a = false \/ Js.truthy b = false \/ a = b
       \/ pa = -1 \/ pb = -1))
  \/ (getRangeDirection STATE_SEQUENCE a b = up
      /\ Js.truthy a = true /\ Js.truthy b = true
      /\ pa <> -1 /\ pb <> -1 /\ pa < pb)
  \/ (getRangeDirection STATE_SEQUENCE a b = down
      /\ Js.truthy a = true /\ Js.truthy b = true
      /\ pa <> -1 /\ pb <> -1 /\ pb < pa).
Proof.
  intros pa pb. unfold getRangeDirection. fold pa pb.
  destruct (Js.truthy a) eqn:Ta; cbn [negb orb]; [|left; auto].
  destruct (Js.truthy b) eqn:Tb; cbn [negb orb]; [|left; auto].
  destruct (Js.strict_eq a b) eqn:Eq.
  { left. apply strict_eq_true in Eq. auto. }
  destruct (Z.eqb_spec pa (-1)) as [Ea|Ea]; cbn [orb]; [left; auto 6|].
  destruct (Z.eqb_spec pb (-1)) as [Eb|Eb]; cbn [orb]; [left; auto 6|].
  rewrite Z.gtb_ltb.
  destruct (Z.ltb_spec pa pb) as [Hlt|Hge]; [right; left; auto 8|].
  destruct (Z.ltb_spec pb pa) as [Hlt|Hge']; [right; right; auto 8|].
  left. split; [reflexivity|]. right; right; left.
  assert (E : pa = pb) by lia.
  rewrite <- (at_indexOf STATE_SEQUENCE a Ea), <- (at_indexOf STATE_SEQUENCE b Eb).
  fold pa pb. rewrite E. reflexivity.
Qed.

(** X1. In any state order, [getRangeDirection(a, b)] is ['up'] exactly
    when both names are non-empty, both have a position and [a] comes
    before [b]; it is ['steady'] exactly when one of them is [null] or
    empty, they are the same, or one has no position (the final
    [return 'steady'] adds no case); and swapping the arguments swaps ['up']
    and ['down'] and keeps ['steady']. *)
Theorem getRangeDirection_opposite (STATE_SEQUENCE : list string) (a b : JsRange) :
  let direction := getRangeDirection STATE_SEQUENCE in
  let position := Js.indexOf STATE_SEQUENCE in
  (direction a b = up <-> direction b a = down)
  /\ (direction a b = steady <-> direction b a = steady)
  /\ (direction a b = steady <->
      Js.truthy a = false \/ Js.truthy b = false \/ a = b
      \/ position a = -1 \/ position b = -1)
  /\ (direction a b = up <->
      Js.truthy a = true /\ Js.truthy b = true
      /\ position a <> -1 /\ position a < position b).
Proof.
  intros direction position. subst direction position.
  pose proof (getRangeDirection_cases STATE_SEQUENCE a b) as Hab.
  pose proof (getRangeDirection_cases STATE_SEQUENCE b a) as Hba.
  cbn zeta in Hab, Hba.
  assert (Hsteady : forall x y : JsRange,
             Js.truthy x = false \/ Js.truthy y = false \/ x = y
             \/ Js.indexOf STATE_SEQUENCE x = -1
             \/ Js.indexOf STATE_SEQUENCE y = -1 ->
             Js.truthy x = true -> Js.truthy y = true ->
             Js.indexOf STATE_SEQUENCE x <> -1 ->
             Js.indexOf STATE_SEQUENCE y <> -1 ->
             Js.indexOf STATE_SEQUENCE x < Js.indexOf STATE_SEQUENCE y ->
             False).
  { intros x y [H|[H|[H|[H|H]]]] Tx Ty Px Py Hlt; try congruence.
    subst y. lia. }
  destruct Hab as [[E H]|[[E [Ta [Tb [Pa [Pb Hlt]]]]]|[E [Ta [Tb [Pa [Pb Hlt]]]]]]];
    destruct Hba as [[E' H']|[[E' [Tb' [Ta' [Pb' [Pa' Hlt']]]]]
                             |[E' [Tb' [Ta' [Pb' [Pa' Hlt']]]]]]];
    rewrite E, E'.
  - repeat split; intros; try discriminate; try reflexivity; try assumption.
    exfalso. destruct H0 as [Ta [Tb [Pa Hlt]]].
    apply (Hsteady a b); auto.
    destruct (Z.eq_dec (Js.indexOf STATE_SEQUENCE b) (-1)) as [Eb|Eb]; [|exact Eb].
    pose proof (indexOf_range STATE_SEQUENCE a). lia.
  - exfalso. apply (Hsteady b a); auto.
    destruct H as [H|[H|[H|[H|H]]]]; auto.
  - exfalso. apply (Hsteady a b); auto.
  - exfalso. apply (Hsteady a b); auto.
    destruct H' as [H'|[H'|[H'|[H'|H']]]]; auto.
  - exfalso. lia.
  - repeat split; intros; try discriminate; try reflexivity; try assumption.
    exfalso. apply (Hsteady a b); auto.
  - exfalso. apply (Hsteady b a); auto.
  - repeat split; intros; try discriminate; try reflexivity; try assumption.
    + exfalso. apply (Hsteady b a); auto.
      destruct H as [H|[H|[H|[H|H]]]]; auto.
    + exfalso. lia.
  - exfalso. lia.
Qed.

(** X2. In any configuration, [resolveTransition(a, b)] and
    [resolveTransition(b, a)] are [null] together; when they are not, the
    two plans have the same key, file and duration, and one is the
    ['up'] plan played [forward] while the other is the ['down'] plan
    played in [reverse]. *)
Theorem resolveTransition_reverse
  (STATE_SEQUENCE : list string) (files_transition : list (string * Descriptor.t))
  (a b : JsRange) :
  match resolveTransition STATE_SEQUENCE files_transition a b,
        resolveTransition STATE_SEQUENCE files_transition b a with
  | None, None => True
  | Some p, Some q =>
      Plan.key p = Plan.key q
      /\ Plan.file p = Plan.file q
      /\ Plan.durationMs p = Plan.durationMs q
      /\ ((Plan.direction p = up /\ Plan.mode p = forward
           /\ Plan.direction q = down /\ Plan.mode q = reverse)
          \/ (Plan.direction p = down /\ Plan.mode p = reverse
              /\ Plan.direction q = up /\ Plan.mode q = forward))
  | _, _ => False
  end.
Proof.
  pose proof (getRangeDirection_cases STATE_SEQUENCE a b) as Hab.
  pose proof (getRangeDirection_cases STATE_SEQUENCE b a) as Hba.
  cbn zeta in Hab, Hba.
  assert (Habs : Z.abs (Js.indexOf STATE_SEQUENCE b - Js.indexOf STATE_SEQUENCE a)
                 = Z.abs (Js.indexOf STATE_SEQUENCE a - Js.indexOf STATE_SEQUENCE b))
    by lia.
  assert (Hsteady : forall x y : JsRange,
             Js.truthy x = false \/ Js.truthy y = false \/ x = y
             \/ Js.indexOf STATE_SEQUENCE x = -1
             \/ Js.indexOf STATE_SEQUENCE y = -1 ->
             Js.truthy x = true -> Js.truthy y = true ->
             Js.indexOf STATE_SEQUENCE x <> -1 ->
             Js.indexOf STATE_SEQUENCE y <> -1 ->
             Js.indexOf STATE_SEQUENCE x <> Js.indexOf STATE_SEQUENCE y ->
             False).
  { intros x y [H|[H|[H|[H|H]]]] Tx Ty Px Py Hne; congruence. }
  unfold resolveTransition.
  destruct Hab as [[E H]|[[E [Ta [Tb [Pa [Pb Hlt]]]]]|[E [Ta [Tb [Pa [Pb Hlt]]]]]]];
    destruct Hba as [[E' H']|[[E' [Tb' [Ta' [Pb' [Pa' Hlt']]]]]
                             |[E' [Tb' [Ta' [Pb' [Pa' Hlt']]]]]]];
    rewrite E, E'; try exact I; try (exfalso; lia).
  - exfalso. apply (Hsteady a b); auto. lia.
  - exfalso. apply (Hsteady a b); auto. lia.
  - exfalso. apply (Hsteady b a); auto. lia.
  - rewrite Habs.
    destruct (Z.eqb_spec (Js.indexOf STATE_SEQUENCE a) (-1)); [contradiction|].
    destruct (Z.eqb_spec (Js.indexOf STATE_SEQUENCE b) (-1)); [contradiction|].
    cbn [orb].
    destruct (negb (Z.abs (Js.indexOf STATE_SEQUENCE a - Js.indexOf STATE_SEQUENCE b)
                    =? 1)); [exact I|].
    destruct (Js.lookup files_transition
                (Js.template a ++ "_" ++ Js.template b)%string) as [base|];
      [|exact I].
    cbn. auto 10.
  - exfalso. apply (Hsteady b a); auto. lia.
  - rewrite Habs.
    destruct (Z.eqb_spec (Js.indexOf STATE_SEQUENCE a) (-1)); [contradiction|].
    destruct (Z.eqb_spec (Js.indexOf STATE_SEQUENCE b) (-1)); [contradiction|].
    cbn [orb].
    destruct (negb (Z.abs (Js.indexOf STATE_SEQUENCE a - Js.indexOf STATE_SEQUENCE b)
                    =? 1)); [exact I|].
    destruct (Js.lookup files_transition
                (Js.template b ++ "_" ++ Js.template a)%string) as [base|];
      [|exact I].
    cbn. auto 10.
Qed.

(** ** Range paths read backwards and in pieces *)

(** X3. In a configuration whose range names are not empty, for [a] and [b]
    that both have a position in the state order, the path from [b] to [a]
    is the path from [a] to [b] read backwards. *)
Theorem buildRangePath_reverse
  (STATE_SEQUENCE : list string) (a b : JsRange)
  (Hnames : ~ In ""%string STATE_SEQUENCE)
  (Ha : Js.indexOf STATE_SEQUENCE a <> -1)
  (Hb : Js.indexOf STATE_SEQUENCE b <> -1) :
  exists path,
    buildRangePath STATE_SEQUENCE a b = Some path
    /\ buildRangePath STATE_SEQUENCE b a = Some (rev path).
Proof.
  destruct (buildRangePath_known STATE_SEQUENCE a b Hnames Ha Hb)
    as [path [H1 [L1 N1]]].
  destruct (buildRangePath_known STATE_SEQUENCE b a Hnames Hb Ha)
    as [path' [H2 [L2 N2]]].
  exists path. split; [exact H1|]. rewrite H2. f_equal.
  apply nth_error_ext. intro n. rewrite nth_error_rev.
  set (pa := Js.indexOf STATE_SEQUENCE a) in *.
  set (pb := Js.indexOf STATE_SEQUENCE b) in *.
  destruct (Nat.ltb_spec n (List.length path)) as [Hn|Hn].
  - rewrite N2 by lia. rewrite N1 by lia. do 2 f_equal.
    rewrite !Z.gtb_ltb.
    destruct (Z.ltb_spec pb pa), (Z.ltb_spec pa pb); lia.
  - apply nth_error_None. lia.
Qed.

Lemma buildRangePath_reverse_witness :
  exists path,
    S5.buildRangePath (Some "S2"%string) (Some "S5"%string) = Some path
    /\ S5.buildRangePath (Some "S5"%string) (Some "S2"%string) = Some (rev path).
Proof.
  apply (buildRangePath_reverse S5.STATE_SEQUENCE (Some "S2"%string)
           (Some "S5"%string) S5_names); cbn; lia.
Defined.

Lemma nth_error_tl {A : Type} (l : list A) (k : nat) :
  nth_error (tl l) k = nth_error l (S k).
Proof.
  destruct l as [|x l]; [destruct k|]; reflexivity.
Qed.

(** X4. In a configuration whose range names are not empty, for [a], [m]
    and [b] that have positions with [m] between [a] and [b], the path from
    [a] to [b] is the path from [a] to [m] followed by the path from [m] to
    [b] without its first element: walking through an intermediate range
    visits the same ranges as walking directly. *)
Theorem buildRangePath_through
  (STATE_SEQUENCE : list string) (a m b : JsRange)
  (Hnames : ~ In ""%string STATE_SEQUENCE)
  (Ha : Js.indexOf STATE_SEQUENCE a <> -1)
  (Hm : Js.indexOf STATE_SEQUENCE m <> -1)
  (Hb : Js.indexOf STATE_SEQUENCE b <> -1)
  (Hbetween :
     Js.indexOf STATE_SEQUENCE a <= Js.indexOf STATE_SEQUENCE m
       <= Js.indexOf STATE_SEQUENCE b
     \/ Js.indexOf STATE_SEQUENCE b <= Js.indexOf STATE_SEQUENCE m
          <= Js.indexOf STATE_SEQUENCE a) :
  exists first second,
    buildRangePath STATE_SEQUENCE a m = Some first
    /\ buildRangePath STATE_SEQUENCE m b = Some second
    /\ buildRangePath STATE_SEQUENCE a b = Some (first ++ tl second).
Proof.
  destruct (buildRangePath_known STATE_SEQUENCE a m Hnames Ha Hm)
    as [first [H1 [L1 N1]]].
  destruct (buildRangePath_known STATE_SEQUENCE m b Hnames Hm Hb)
    as [second [H2 [L2 N2]]].
  destruct (buildRangePath_known STATE_SEQUENCE a b Hnames Ha Hb)
    as [whole [H3 [L3 N3]]].
  exists first, second. split; [exact H1|]. split; [exact H2|].
  rewrite H3. f_equal.
  apply nth_error_ext. intro n. rewrite nth_error_app.
  set (pa := Js.indexOf STATE_SEQUENCE a) in *.
  set (pm := Js.indexOf STATE_SEQUENCE m) in *.
  set (pb := Js.indexOf STATE_SEQUENCE b) in *.
  rewrite !Z.gtb_ltb in *.
  destruct (Nat.ltb_spec n (List.length first)) as [Hn|Hn].
  - rewrite N1 by lia. rewrite N3 by lia. do 2 f_equal.
    destruct (Z.ltb_spec pa pm), (Z.ltb_spec pa pb); lia.
  - rewrite nth_error_tl.
    destruct (Nat.ltb_spec n (List.length whole)) as [Hw|Hw].
    + rewrite N2 by lia. rewrite N3 by lia. do 2 f_equal.
      destruct (Z.ltb_spec pm pb), (Z.ltb_spec pa pb); lia.
    + rewrite (proj2 (nth_error_None whole n)) by lia.
      symmetry. apply nth_error_None. lia.
Qed.

Lemma buildRangePath_through_witness :
  exists first second,
    S5.buildRangePath (Some "S5"%string) (Some "S3"%string) = Some first
    /\ S5.buildRangePath (Some "S3"%string) (Some "S1"%string) = Some second
    /\ S5.buildRangePath (Some "S5"%string) (Some "S1"%string)
       = Some (first ++ tl second).
Proof.
  apply (buildRangePath_through S5.STATE_SEQUENCE (Some "S5"%string)
           (Some "S3"%string) (Some "S1"%string) S5_names); cbn; lia.
Defined.

(** X5. In a configuration whose range names are not empty,
    [buildRangePath] returns on every pair of arguments: the empty list
    when [next] is [null] or empty; otherwise a list that ends with [next],
    which is the one-element list [[next]] whenever [prev] is [null],
    either name has no position in the state order, or the two are the
    same. *)
Theorem buildRangePath_ends_at_target
  (STATE_SEQUENCE : list string) (a b : JsRange)
  (Hnames : ~ In ""%string STATE_SEQUENCE) :
  exists path,
    buildRangePath STATE_SEQUENCE a b = Some path
    /\ (Js.truthy b = false -> path = [])
    /\ (Js.truthy b = true -> last path None = b)
    /\ (Js.truthy b = true ->
        Js.indexOf STATE_SEQUENCE a = -1 \/ Js.indexOf STATE_SEQUENCE b = -1
        \/ a = b ->
        path = [b]).
Proof.
  destruct (Js.truthy b) eqn:Tb.
  - destruct (Z.eq_dec (Js.indexOf STATE_SEQUENCE a) (-1)) as [Ea|Ea].
    { exists [b]. unfold buildRangePath, buildRangePath_fuel.
      rewrite Tb, Ea. cbn [negb orb Z.eqb].
      destruct (negb (Js.truthy a) || false); repeat split; auto; discriminate. }
    destruct (Z.eq_dec (Js.indexOf STATE_SEQUENCE b) (-1)) as [Eb|Eb].
    { exists [b]. unfold buildRangePath, buildRangePath_fuel.
      rewrite Tb, Eb. cbn [negb orb Z.eqb]. rewrite orb_true_r.
      destruct (negb (Js.truthy a) || false); repeat split; auto; discriminate. }
    destruct (buildRangePath_known STATE_SEQUENCE a b Hnames Ea Eb)
      as [path [H [L N]]].
    exists path. split; [exact H|]. split; [discriminate|]. split.
    + intros _. apply last_nth_error.
      rewrite N by lia. f_equal.
      rewrite <- (at_indexOf STATE_SEQUENCE b Eb) at 2. f_equal.
      rewrite Z.gtb_ltb.
      destruct (Z.ltb_spec (Js.indexOf STATE_SEQUENCE a) (Js.indexOf STATE_SEQUENCE b));
        lia.
    + intros _ [E|[E|E]]; try contradiction. subst b.
      unfold buildRangePath, buildRangePath_fuel in H.
      rewrite Tb in H. cbn [negb orb] in H.
      destruct (Z.eqb_spec (Js.indexOf STATE_SEQUENCE a) (-1)); [contradiction|].
      cbn [orb] in H. rewrite Z.eqb_refl in H. congruence.
  - exists []. unfold buildRangePath, buildRangePath_fuel.
    rewrite Tb. cbn [negb]. rewrite orb_true_r.
    repeat split; auto; discriminate.
Qed.

Lemma buildRangePath_ends_at_target_witness :
  exists path,
    SF.buildRangePath None (Some "S3"%string) = Some path
    /\ (Js.truthy (Some "S3"%string) = false -> path = [])
    /\ (Js.truthy (Some "S3"%string) = true -> last path None = Some "S3"%string)
    /\ (Js.truthy (Some "S3"%string) = true ->
        Js.indexOf SF.STATE_SEQUENCE None = -1
        \/ Js.indexOf SF.STATE_SEQUENCE (Some "S3"%string) = -1
        \/ None = Some "S3"%string ->
        path = [Some "S3"%string]).
Proof.
  exact (buildRangePath_ends_at_target SF.STATE_SEQUENCE None (Some "S3"%string)
           SF_names).
Defined.

(** ** The classifier of the plain variant, and the order of loudness *)

Lemma Qle_bool_true (x y : Q) : (x <= y)%Q -> Qle_bool x y = true.
Proof. intro H. apply Qle_bool_iff. exact H. Qed.

Lemma Qle_bool_false_lt (x y : Q) : (y < x)%Q -> Qle_bool x y = false.
Proof. intro H. apply Qle_bool_false. exact H. Qed.

Lemma Qltb_true_lt (x y : Q) : (x < y)%Q -> Js.Qltb x y = true.
Proof. intro H. apply Qltb_true. exact H. Qed.

Lemma Qltb_false_le (x y : Q) : (y <= x)%Q -> Js.Qltb x y = false.
Proof. intro H. apply Qltb_false. exact H. Qed.

(** The five cases of a finite value in the plain variant. *)
Lemma S5_classify_finite (q : Q) :
  ((q < 70)%Q /\ S5.classify (VNumber (Fin q)) = Some "S1")
  \/ ((70 <= q)%Q /\ (q < 85)%Q /\ S5.classify (VNumber (Fin q)) = Some "S2")
  \/ ((85 <= q)%Q /\ (q < 100)%Q /\ S5.classify (VNumber (Fin q)) = Some "S3")
  \/ ((100 <= q)%Q /\ (q < 120)%Q /\ S5.classify (VNumber (Fin q)) = Some "S4")
  \/ ((120 <= q)%Q /\ S5.classify (VNumber (Fin q)) = Some "S5").
Proof.
  unfold S5.classify, classify_plain, classify_number.
  cbn [Js.isFiniteValue Js.isFinite Js.Number classify_scan S5.STATE_SEQUENCE].
  unfold range_matches, S5.ranges.
  cbn [Js.lookup String.eqb Ascii.eqb Bool.eqb Range.test Js.lt Js.ge Js.le].
  destruct (Qlt_le_dec q 70) as [H1|H1].
  { rewrite (Qltb_true_lt _ _ H1). auto. }
  rewrite (Qltb_false_le _ _ H1), (Qle_bool_true _ _ H1). cbn [andb].
  destruct (Qlt_le_dec q 85) as [H2|H2].
  { rewrite (Qltb_true_lt _ _ H2). auto 6. }
  rewrite (Qltb_false_le _ _ H2), (Qle_bool_true _ _ H2). cbn [andb].
  destruct (Qlt_le_dec q 100) as [H3|H3].
  { rewrite (Qltb_true_lt _ _ H3). auto 8. }
  rewrite (Qltb_false_le _ _ H3), (Qle_bool_true _ _ H3). cbn [andb].
  destruct (Qlt_le_dec q 120) as [H4|H4].
  { rewrite (Qltb_true_lt _ _ H4). auto 10. }
  rewrite (Qltb_false_le _ _ H4), (Qle_bool_true _ _ H4). auto 10.
Qed.

(** X6. Both classifiers follow the order of loudness: of two finite
    readings, the louder one is never classified into a range that comes
    earlier in the state order. *)
Theorem classify_monotone (q1 q2 : Q) (Hle : (q1 <= q2)%Q) :
  Js.indexOf SF.STATE_SEQUENCE (SF.classify (VNumber (Fin q1)))
  <= Js.indexOf SF.STATE_SEQUENCE (SF.classify (VNumber (Fin q2)))
  /\ Js.indexOf S5.STATE_SEQUENCE (S5.classify (VNumber (Fin q1)))
     <= Js.indexOf S5.STATE_SEQUENCE (S5.classify (VNumber (Fin q2))).
Proof.
  split.
  - destruct (SF_classify_finite q1) as [[A1 E1]|[[A1 [B1 E1]]|[A1 E1]]];
      destruct (SF_classify_finite q2) as [[A2 E2]|[[A2 [B2 E2]]|[A2 E2]]];
      rewrite E1, E2; cbn; try lia; exfalso; lra.
  - destruct (S5_classify_finite q1)
      as [[A1 E1]|[[A1 [B1 E1]]|[[A1 [B1 E1]]|[[A1 [B1 E1]]|[A1 E1]]]]];
      destruct (S5_classify_finite q2)
        as [[A2 E2]|[[A2 [B2 E2]]|[[A2 [B2 E2]]|[[A2 [B2 E2]]|[A2 E2]]]]];
      rewrite E1, E2; cbn; try lia; exfalso; lra.
Qed.

Lemma classify_monotone_witness :
  Js.indexOf SF.STATE_SEQUENCE (SF.classify (VNumber (Fin 74.5)))
  <= Js.indexOf SF.STATE_SEQUENCE (SF.classify (VNumber (Fin 90)))
  /\ Js.indexOf S5.STATE_SEQUENCE (S5.classify (VNumber (Fin 74.5)))
     <= Js.indexOf S5.STATE_SEQUENCE (S5.classify (VNumber (Fin 90))).
Proof.
  apply (classify_monotone 74.5 90). vm_compute. discriminate.
Defined.

(** X7. The classifier of the plain variant answers every input with the
    one range whose test accepts the value once normalised (a value that is
    not a finite number counts as 0): the value lies in the half-open
    interval from [min] to [max] of that range, and the test of no other
    range accepts it. *)
Theorem S5_classify_partition (dbValue : JsValue) :
  exists (key : string) (range : Range.t) (q : Q),
    (if Js.isFiniteValue dbValue then Js.Number dbValue else Fin 0) = Fin q
    /\ S5.classify dbValue = Some key
    /\ Js.lookup S5.ranges key = Some range
    /\ Range.test range (Fin q) = true
    /\ Js.le (Range.min range) (Fin q) = true
    /\ Js.lt (Fin q) (Range.max range) = true
    /\ forall (key' : string) (range' : Range.t),
        Js.lookup S5.ranges key' = Some range' ->
        Range.test range' (Fin q) = true ->
        key' = key.
Proof.
  assert (Hq : exists q,
             (if Js.isFiniteValue dbValue then Js.Number dbValue else Fin 0) = Fin q).
  { destruct dbValue as [| |b|[| | |q]]; cbn; eexists; reflexivity. }
  destruct Hq as [q Hq].
  assert (Hc : S5.classify dbValue = S5.classify (VNumber (Fin q))).
  { unfold S5.classify, classify_plain. rewrite Hq. reflexivity. }
  assert (Hother : forall (key' : string) (range' : Range.t),
             Js.lookup S5.ranges key' = Some range' ->
             Range.test range' (Fin q) = true ->
             (key' = "S1"%string /\ (q < 70)%Q)
             \/ (key' = "S2"%string /\ (70 <= q)%Q /\ (q < 85)%Q)
             \/ (key' = "S3"%string /\ (85 <= q)%Q /\ (q < 100)%Q)
             \/ (key' = "S4"%string /\ (100 <= q)%Q /\ (q < 120)%Q)
             \/ (key' = "S5"%string /\ (120 <= q)%Q)).
  { intros key' range'. unfold S5.ranges. cbn [Js.lookup].
    destruct (String.eqb_spec "S1" key') as [<-|_].
    { intros [= <-]. cbn. rewrite Qltb_true. auto. }
    destruct (String.eqb_spec "S2" key') as [<-|_].
    { intros [= <-]. cbn. rewrite andb_true_iff, Qltb_true, Qle_bool_iff. auto. }
    destruct (String.eqb_spec "S3" key') as [<-|_].
    { intros [= <-]. cbn. rewrite andb_true_iff, Qltb_true, Qle_bool_iff. auto 6. }
    destruct (String.eqb_spec "S4" key') as [<-|_].
    { intros [= <-]. cbn. rewrite andb_true_iff, Qltb_true, Qle_bool_iff. auto 8. }
    destruct (String.eqb_spec "S5" key') as [<-|_]; [|discriminate].
    intros [= <-]. cbn. rewrite Qle_bool_iff. auto 10. }
  rewrite Hc.
  destruct (S5_classify_finite q)
    as [[A E]|[[A [B E]]|[[A [B E]]|[[A [B E]]|[A E]]]]]; rewrite E;
    eexists; eexists; exists q;
    (split; [exact Hq|]); (split; [reflexivity|]);
    (split; [reflexivity|]); cbn [Range.test Range.min Range.max Js.le Js.lt Js.ge];
    repeat split;
    try (apply Qltb_true_lt; assumption);
    try (apply Qle_bool_true; assumption);
    try (apply andb_true_iff; split;
         [apply Qle_bool_true; assumption|apply Qltb_true_lt; assumption]);
    intros key' range' Hl Ht;
    destruct (Hother key' range' Hl Ht)
      as [[-> C]|[[-> [C D]]|[[-> [C D]]|[[-> [C D]]|[-> C]]]]];
    try reflexivity; exfalso; lra.
Qed.

(** X8. The theme level that the first [app.js] computes for a loudness is
    the position, in the state order of the plain animation model, of the
    range into which that model classifies it, for every number including
    [NaN] and the infinities ([+Infinity] is level 0, as it is range [S1]);
    and every level computed has its entry in the table of theme assets. *)
Theorem getThemeLevel_is_range_position (db : JsNumber) :
  Js.at_ S5.STATE_SEQUENCE (Theme.getThemeLevel db) = S5.classify (VNumber db)
  /\ Js.indexOf S5.STATE_SEQUENCE (S5.classify (VNumber db))
     = Theme.getThemeLevel db
  /\ exists assets,
      Theme.assets_of Theme.THEME_ASSETS (Theme.getThemeLevel db) = Some assets.
Proof.
  destruct db as [| | |q]; try (cbn; repeat split; eexists; reflexivity).
  assert (E : Theme.getThemeLevel (Fin q)
              = Js.indexOf S5.STATE_SEQUENCE (S5.classify (VNumber (Fin q)))).
  { unfold Theme.getThemeLevel.
    cbn [Theme.is_negative_infinity Theme.isNaN orb Theme.scan
           Theme.DB_THRESHOLDS Theme.min Theme.max Theme.level
           Js.ge Js.le Js.lt andb].
    destruct (S5_classify_finite q)
      as [[A E]|[[A [B E]]|[[A [B E]]|[[A [B E]]|[A E]]]]]; rewrite E.
    - rewrite (Qltb_true_lt _ _ A). reflexivity.
    - rewrite (Qltb_false_le _ _ A), (Qle_bool_true _ _ A), (Qltb_true_lt _ _ B).
      reflexivity.
    - assert (70 <= q)%Q by lra.
      rewrite (Qltb_false_le q 70), (Qle_bool_true 70 q) by assumption.
      rewrite (Qltb_false_le _ _ A), (Qle_bool_true _ _ A), (Qltb_true_lt _ _ B).
      reflexivity.
    - assert (70 <= q)%Q by lra. assert (85 <= q)%Q by lra.
      rewrite (Qltb_false_le q 70), (Qle_bool_true 70 q) by assumption.
      rewrite (Qltb_false_le q 85), (Qle_bool_true 85 q) by assumption.
      rewrite (Qltb_false_le _ _ A), (Qle_bool_true _ _ A), (Qltb_true_lt _ _ B).
      reflexivity.
    - assert (70 <= q)%Q by lra. assert (85 <= q)%Q by lra.
      assert (100 <= q)%Q by lra.
      rewrite (Qltb_false_le q 70), (Qle_bool_true 70 q) by assumption.
      rewrite (Qltb_false_le q 85), (Qle_bool_true 85 q) by assumption.
      rewrite (Qltb_false_le q 100), (Qle_bool_true 100 q) by assumption.
      rewrite (Qltb_false_le _ _ A), (Qle_bool_true _ _ A).
      reflexivity. }
  rewrite E.
  destruct (S5_classify_finite q)
    as [[A E']|[[A [B E']]|[[A [B E']]|[[A [B E']]|[A E']]]]]; rewrite E';
    cbn; repeat split; eexists; reflexivity.
Qed.

(** ** The tracker: what it hands to the controller *)

Lemma SF_classify_three (dbValue : JsValue) :
  SF.classify dbValue = Some "S1"%string
  \/ SF.classify dbValue = Some "S2"%string
  \/ SF.classify dbValue = Some "S3"%string.
Proof.
  destruct (finite_or_zero_finite (Js.Number dbValue)) as [q Hq].
  assert (E : SF.classify dbValue = SF.classify (VNumber (Fin q))).
  { unfold SF.classify, classify. rewrite Hq. reflexivity. }
  rewrite E.
  destruct (SF_classify_finite q) as [[_ H]|[[_ [_ H]]|[_ H]]]; auto.
Qed.

(** X9. Whatever the state of the tracker, a call of [update] returns the
    range that it leaves as the current range; that range is one of the four
    of the state order, and it has a steady clip that loops; and the tracker
    is left in the final state exactly when that range is ['SF']. *)
Theorem update_range_is_playable
  (this : SF.animationState.t) (dbValue : JsValue) (now : Z) :
  let this' := fst (SF.animationState.update this dbValue now) in
  let result := snd (SF.animationState.update this dbValue now) in
  SF.animationState.range result = SF.animationState.currentRange this'
  /\ (exists name : string,
         SF.animationState.range result = Some name
         /\ In name SF.STATE_SEQUENCE)
  /\ (exists stateConfig : StateConfig.t,
         SF.getStateConfig (SF.animationState.range result) = Some stateConfig
         /\ Js.truthy (Some (StateConfig.file stateConfig)) = true
         /\ StateConfig.loop stateConfig = Some true)
  /\ (SF.animationState.inSF this' = true
      <-> SF.animationState.range result = Some "SF"%string).
Proof.
  intros this' result. subst this' result.
  unfold SF.animationState.update.
  destruct (SF.animationState.inSF this) eqn:Hin.
  - destruct (Js.strict_eq (SF.classify dbValue) (Some "S2"%string)) eqn:E2.
    + cbn. repeat split; try discriminate.
      * exists "S2"%string. cbn. auto.
      * eexists. repeat split.
    + cbn. repeat split; try assumption.
      * exists "SF"%string. cbn. auto 6.
      * eexists. repeat split.
  - destruct (Js.strict_eq (SF.classify dbValue) (Some "S3"%string)) eqn:E3.
    + destruct (_ >=? _); cbn; repeat split; try discriminate; try assumption.
      * exists "SF"%string. cbn. auto 6.
      * eexists. repeat split.
      * exists "S3"%string. cbn. auto 6.
      * eexists. repeat split.
    + cbn [fst snd SF.animationState.range SF.animationState.currentRange
             SF.animationState.inSF].
      destruct (SF_classify_three dbValue) as [E|[E|E]]; rewrite E in *;
        repeat split; try discriminate; try assumption.
      * exists "S1"%string. cbn. auto.
      * eexists. repeat split.
      * exists "S2"%string. cbn. auto.
      * eexists. repeat split.
Qed.

Lemma update_dwell_since_run (this : SF.animationState.t)
      (processed : list (JsValue * Z)) (dbValue : JsValue) (now : Z) :
  dwell_since_run this processed ->
  dwell_since_run (fst (SF.animationState.update this dbValue now))
    (processed ++ [(dbValue, now)]).
Proof.
  intro J. unfold dwell_since_run, SF.animationState.update.
  destruct (SF.animationState.inSF this) eqn:Hin.
  - destruct (Js.strict_eq (SF.classify dbValue) (Some "S2"%string)).
    + destruct (Js.lookup SF.files_transition "S2_S3"); cbn; discriminate.
    + cbn. congruence.
  - destruct (Js.strict_eq (SF.classify dbValue) (Some "S3"%string)) eqn:E3.
    + apply strict_eq_true in E3.
      destruct (SF.animationState.s3EnteredAt this) as [t1|] eqn:Hs.
      * destruct (_ >=? _); cbn; [discriminate|].
        intros _ t0 [= <-].
        destruct (J Hin t1 Hs) as [before [run [-> [Hhd Hall]]]].
        exists before, (run ++ [(dbValue, now)]).
        split; [symmetry; apply app_assoc|]. split.
        -- destruct run as [|first run]; [contradiction|exact Hhd].
        -- apply Forall_app. split; [exact Hall|]. constructor; [exact E3|constructor].
      * destruct (_ >=? _); cbn; [discriminate|].
        intros _ t0 [= <-].
        exists processed, [(dbValue, now)]. split; [reflexivity|]. split.
        -- reflexivity.
        -- constructor; [exact E3|constructor].
    + cbn. discriminate.
Qed.

Lemma updates_dwell_since_run (readings : list (JsValue * Z)) :
  forall (this : SF.animationState.t) (processed : list (JsValue * Z)),
    dwell_since_run this processed ->
    dwell_since_run (fst (SF.animationState.updates this readings))
      (processed ++ readings).
Proof.
  induction readings as [|[dbValue now] readings IH]; intros this processed J.
  - rewrite app_nil_r. exact J.
  - rewrite updates_cons_fst.
    replace (processed ++ (dbValue, now) :: readings)
      with ((processed ++ [(dbValue, now)]) ++ readings)
      by (rewrite <- app_assoc; reflexivity).
    apply IH. apply update_dwell_since_run. exact J.
Qed.

(** X10. The tracker never escalates early: from the initial tracker, if a
    call of [update] made outside the final state returns ['SF'], then the
    reading is classified into [S3] and the readings processed so far end
    with a run of readings all classified into [S3] whose first one was
    made at least 10000 ms before this one. *)
Theorem escalation_needs_sustained_dwell
  (earlier : list (JsValue * Z)) (dbValue : JsValue) (now : Z) :
  let this := fst (SF.animationState.updates SF.animationState.initial earlier) in
  SF.animationState.inSF this = false ->
  SF.animationState.range (snd (SF.animationState.update this dbValue now))
  = Some "SF"%string ->
  SF.classify dbValue = Some "S3"%string
  /\ exists before run t0,
      earlier = before ++ run
      /\ sustained_S3 t0 run
      /\ now - t0 >= SF.SF_TIMEOUT_MS.
Proof.
  intros this Hin Hsf.
  assert (J : dwell_since_run this earlier).
  { apply (updates_dwell_since_run earlier SF.animationState.initial []).
    intros _ t0 H. discriminate. }
  unfold SF.animationState.update in Hsf. rewrite Hin in Hsf.
  destruct (Js.strict_eq (SF.classify dbValue) (Some "S3"%string)) eqn:E3.
  - apply strict_eq_true in E3. split; [exact E3|].
    destruct (SF.animationState.s3EnteredAt this) as [t0|] eqn:Hs.
    + destruct (Z.geb_spec (now - t0) SF.SF_TIMEOUT_MS) as [Hge|Hlt];
        [|cbn in Hsf; discriminate].
      destruct (J Hin t0 Hs) as [before [run [E Hrun]]].
      exists before, run, t0. split; [exact E|]. split; [exact Hrun|lia].
    + rewrite Z.sub_diag in Hsf. cbn in Hsf. discriminate.
  - cbn in Hsf. exfalso. exact (SF_classify_not_final dbValue Hsf).
Qed.

Lemma escalation_needs_sustained_dwell_witness :
  SF.classify (VNumber (Fin 95)) = Some "S3"%string
  /\ exists before run t0,
      [(VNumber (Fin 60), 0); (VNumber (Fin 92), 500); (VNumber (Fin 97), 2500)]
      = before ++ run
      /\ sustained_S3 t0 run
      /\ 10500 - t0 >= SF.SF_TIMEOUT_MS.
Proof.
  apply (escalation_needs_sustained_dwell
           [(VNumber (Fin 60), 0); (VNumber (Fin 92), 500);
            (VNumber (Fin 97), 2500)]
           (VNumber (Fin 95)) 10500); reflexivity.
Defined.

(** ** Colours: writing and reading back *)

Lemma Math_round_integer (n : Z) : SF.Math_round (inject_Z n) = n.
Proof.
  unfold SF.Math_round.
  assert (H1 : (inject_Z n <= inject_Z n + (1 # 2))%Q) by lra.
  assert (H2 : (inject_Z n + (1 # 2) < inject_Z (n + 1))%Q).
  { rewrite inject_Z_plus. change (inject_Z 1) with 1%Q. lra. }
  pose proof (Qfloor_resp_le _ _ H1) as L. rewrite Qfloor_Z in L.
  pose proof (Qfloor_le (inject_Z n + (1 # 2))) as U.
  assert (U' : (inject_Z (Qfloor (inject_Z n + (1 # 2))) < inject_Z (n + 1))%Q)
    by lra.
  rewrite <- Zlt_Qlt in U'. lia.
Qed.

(** Rounding stays within integer bounds. *)
Lemma Math_round_bounds (lo hi : Z) (x : Q) :
  (inject_Z lo <= x)%Q -> (x <= inject_Z hi)%Q ->
  lo <= SF.Math_round x <= hi.
Proof.
  intros Hlo Hhi. unfold SF.Math_round. split.
  - assert (H : (inject_Z lo <= x + (1 # 2))%Q) by lra.
    apply Qfloor_resp_le in H. rewrite Qfloor_Z in H. exact H.
  - pose proof (Qfloor_le (x + (1 # 2))) as U.
    assert (U' : (inject_Z (Qfloor (x + (1 # 2))) < inject_Z (hi + 1))%Q).
    { rewrite inject_Z_plus. change (inject_Z 1) with 1%Q. lra. }
    rewrite <- Zlt_Qlt in U'. lia.
Qed.

Lemma toHex_rounds (x : Q) : SF.toHex x = SF.toHex (inject_Z (SF.Math_round x)).
Proof.
  unfold SF.toHex. rewrite Math_round_integer. reflexivity.
Qed.

(** Every integer from 0 to 255, rounded and written by [toHex], is two
    lower-case hexadecimal digits that [parseInt(_, 16)] reads back. *)
Lemma toHex_bytes_checked :
  forallb
    (fun k : nat =>
       match SF.toHex (inject_Z (Z.of_nat k)) with
       | String c1 (String c2 EmptyString) =>
           match SF.parseHexPair c1 c2 with
           | Some m => (m =? Z.of_nat k) && lower_hex_digit c1 && lower_hex_digit c2
           | None => false
           end
       | _ => false
       end)
    (seq 0 256)
  = true.
Proof. vm_compute. reflexivity. Qed.

Lemma toHex_byte (n : Z) :
  0 <= n <= 255 ->
  exists c1 c2 : ascii,
    SF.toHex (inject_Z n) = String c1 (String c2 EmptyString)
    /\ SF.parseHexPair c1 c2 = Some n
    /\ lower_hex_digit c1 = true /\ lower_hex_digit c2 = true.
Proof.
  intro Hn.
  pose proof (proj1 (forallb_forall _ _) toHex_bytes_checked (Z.to_nat n)) as H.
  cbv beta in H. rewrite Z2Nat.id in H by lia.
  assert (Hin : In (Z.to_nat n) (seq 0 256)) by (apply in_seq; lia).
  specialize (H Hin).
  destruct (SF.toHex (inject_Z n)) as [|c1 [|c2 [|c3 rest]]]; try discriminate.
  destruct (SF.parseHexPair c1 c2) as [m|] eqn:Ep; [|discriminate].
  apply andb_true_iff in H as [H H2]. apply andb_true_iff in H as [H0 H1].
  apply Z.eqb_eq in H0. subst m. exists c1, c2. auto.
Qed.

Lemma rgbToHex_rounds (rgb : SF.Rgb) :
  SF.rgbToHex rgb
  = SF.rgbToHex (SF.mkRgb (inject_Z (SF.Math_round (SF.r rgb)))
                   (inject_Z (SF.Math_round (SF.g rgb)))
                   (inject_Z (SF.Math_round (SF.b rgb)))).
Proof.
  unfold SF.rgbToHex. cbn [SF.r SF.g SF.b].
  rewrite <- !toHex_rounds. reflexivity.
Qed.

Lemma rgbToHex_bytes (red green blue : Z) :
  0 <= red <= 255 -> 0 <= green <= 255 -> 0 <= blue <= 255 ->
  canonical_hex
    (SF.rgbToHex (SF.mkRgb (inject_Z red) (inject_Z green) (inject_Z blue)))
  = true
  /\ SF.hexToRgb
       (SF.rgbToHex (SF.mkRgb (inject_Z red) (inject_Z green) (inject_Z blue)))
     = SF.mkRgb (inject_Z red) (inject_Z green) (inject_Z blue).
Proof.
  intros Hr Hg Hb.
  destruct (toHex_byte red Hr) as [r1 [r2 [Er [Pr [Lr1 Lr2]]]]].
  destruct (toHex_byte green Hg) as [g1 [g2 [Eg [Pg [Lg1 Lg2]]]]].
  destruct (toHex_byte blue Hb) as [b1 [b2 [Eb [Pb [Lb1 Lb2]]]]].
  unfold SF.rgbToHex. cbn [SF.r SF.g SF.b]. rewrite Er, Eg, Eb.
  cbn [String.append]. split.
  - cbn [canonical_hex]. rewrite Lr1, Lr2, Lg1, Lg2, Lb1, Lb2. reflexivity.
  - cbn [SF.hexToRgb]. rewrite Pr, Pg, Pb. reflexivity.
Qed.

(** X11. Writing a colour and reading it back rounds it: for channels
    between 0 and 255, [hexToRgb(rgbToHex(rgb))] has, on each channel, the
    integer that [Math.round] gives for the channel of [rgb], and the string
    written is ['#'] followed by six lower-case hexadecimal digits. *)
Theorem hexToRgb_rgbToHex (rgb : SF.Rgb)
  (Hr : in_channel_range (SF.r rgb))
  (Hg : in_channel_range (SF.g rgb))
  (Hb : in_channel_range (SF.b rgb)) :
  SF.hexToRgb (SF.rgbToHex rgb)
  = SF.mkRgb (inject_Z (SF.Math_round (SF.r rgb)))
      (inject_Z (SF.Math_round (SF.g rgb)))
      (inject_Z (SF.Math_round (SF.b rgb)))
  /\ canonical_hex (SF.rgbToHex rgb) = true.
Proof.
  destruct Hr as [Hr0 Hr1], Hg as [Hg0 Hg1], Hb as [Hb0 Hb1].
  rewrite rgbToHex_rounds.
  destruct (rgbToHex_bytes (SF.Math_round (SF.r rgb)) (SF.Math_round (SF.g rgb))
              (SF.Math_round (SF.b rgb))) as [Hc Hrt];
    try (apply Math_round_bounds; assumption).
  split; [exact Hrt|exact Hc].
Qed.

Lemma hexToRgb_rgbToHex_witness :
  SF.hexToRgb (SF.rgbToHex (SF.mkRgb 163.5 0 255))
  = SF.mkRgb (inject_Z (SF.Math_round 163.5)) (inject_Z (SF.Math_round 0))
      (inject_Z (SF.Math_round 255))
  /\ canonical_hex (SF.rgbToHex (SF.mkRgb 163.5 0 255)) = true.
Proof.
  apply (hexToRgb_rgbToHex (SF.mkRgb 163.5 0 255));
    split; vm_compute; discriminate.
Defined.

(** Every pair of characters: what [parseInt(_, 16)] reads from it is
    between 0 and 255, and a pair of lower-case hexadecimal digits is read
    as the integer that [toHex] writes as that pair. *)
Lemma parseHexPair_checked :
  forallb
    (fun k1 : nat =>
       forallb
         (fun k2 : nat =>
            let c1 := ascii_of_nat k1 in
            let c2 := ascii_of_nat k2 in
            match SF.parseHexPair c1 c2 with
            | Some n =>
                (0 <=? n) && (n <=? 255)
                && (if lower_hex_digit c1 && lower_hex_digit c2
                    then String.eqb (SF.toHex (inject_Z n))
                           (String c1 (String c2 EmptyString))
                    else true)
            | None => negb (lower_hex_digit c1 && lower_hex_digit c2)
            end)
         (seq 0 256))
    (seq 0 256)
  = true.
Proof. vm_compute. reflexivity. Qed.

Lemma parseHexPair_spec (c1 c2 : ascii) :
  match SF.parseHexPair c1 c2 with
  | Some n =>
      0 <= n <= 255
      /\ (lower_hex_digit c1 = true -> lower_hex_digit c2 = true ->
          SF.toHex (inject_Z n) = String c1 (String c2 EmptyString))
  | None => lower_hex_digit c1 && lower_hex_digit c2 = false
  end.
Proof.
  pose proof (proj1 (forallb_forall _ _) parseHexPair_checked (nat_of_ascii c1))
    as H.
  assert (H1 : In (nat_of_ascii c1) (seq 0 256)).
  { apply in_seq. pose proof (nat_ascii_bounded c1). lia. }
  specialize (H H1).
  pose proof (proj1 (forallb_forall _ _) H (nat_of_ascii c2)) as H'.
  assert (H2 : In (nat_of_ascii c2) (seq 0 256)).
  { apply in_seq. pose proof (nat_ascii_bounded c2). lia. }
  specialize (H' H2). cbv beta zeta in H'.
  rewrite !ascii_nat_embedding in H'.
  destruct (SF.parseHexPair c1 c2) as [n|].
  - apply andb_true_iff in H' as [Hb Hd]. apply andb_true_iff in Hb as [B0 B1].
    split; [lia|]. intros L1 L2. rewrite L1, L2 in Hd. cbn [andb] in Hd.
    apply String.eqb_eq. exact Hd.
  - apply negb_true_iff. exact H'.
Qed.

(** What [hexToRgb] returns is always three integers from 0 to 255. *)
Lemma hexToRgb_bytes (hex : string) :
  exists red green blue : Z,
    0 <= red <= 255 /\ 0 <= green <= 255 /\ 0 <= blue <= 255
    /\ SF.hexToRgb hex = SF.mkRgb (inject_Z red) (inject_Z green) (inject_Z blue).
Proof.
  assert (Hzero : exists red green blue : Z,
             0 <= red <= 255 /\ 0 <= green <= 255 /\ 0 <= blue <= 255
             /\ SF.mkRgb 0 0 0
                = SF.mkRgb (inject_Z red) (inject_Z green) (inject_Z blue)).
  { exists 0, 0, 0. repeat split; lia. }
  unfold SF.hexToRgb. cbv zeta.
  generalize (match hex with
              | String "#"%char rest => rest
              | _ => hex
              end).
  intros [|c1 [|c2 [|c3 [|c4 [|c5 [|c6 [|c7 rest]]]]]]]; try exact Hzero.
  pose proof (parseHexPair_spec c1 c2) as P1.
  pose proof (parseHexPair_spec c3 c4) as P2.
  pose proof (parseHexPair_spec c5 c6) as P3.
  destruct (SF.parseHexPair c1 c2) as [red|]; [|exact Hzero].
  destruct (SF.parseHexPair c3 c4) as [green|]; [|exact Hzero].
  destruct (SF.parseHexPair c5 c6) as [blue|]; [|exact Hzero].
  exists red, green, blue. tauto.
Qed.

(** X12. Reading a colour and writing it back normalises it: for every
    string, [rgbToHex(hexToRgb(hex))] is ['#'] followed by six lower-case
    hexadecimal digits; and it is [hex] itself when [hex] is already written
    that way, as every colour of the keyframe table is. *)
Theorem rgbToHex_hexToRgb (hex : string) :
  canonical_hex (SF.rgbToHex (SF.hexToRgb hex)) = true
  /\ (canonical_hex hex = true -> SF.rgbToHex (SF.hexToRgb hex) = hex)
  /\ Forall (fun keyframe => canonical_hex (SF.hex keyframe) = true)
       SF.COLOR_KEYFRAMES.
Proof.
  split; [|split].
  - destruct (hexToRgb_bytes hex) as [red [green [blue [Hr [Hg [Hb E]]]]]].
    rewrite E. apply rgbToHex_bytes; assumption.
  - intro Hc.
    destruct hex as [|c0 digits]; [discriminate|].
    destruct c0 as [[] [] [] [] [] [] [] []]; try discriminate.
    destruct digits as [|c1 [|c2 [|c3 [|c4 [|c5 [|c6 [|c7 rest]]]]]]];
      try discriminate.
    cbn [canonical_hex] in Hc.
    repeat (apply andb_true_iff in Hc as [Hc ?]).
    pose proof (parseHexPair_spec c1 c2) as P1.
    pose proof (parseHexPair_spec c3 c4) as P2.
    pose proof (parseHexPair_spec c5 c6) as P3.
    cbn [SF.hexToRgb].
    destruct (SF.parseHexPair c1 c2) as [red|];
      [|rewrite Hc in P1; cbn in P1; congruence].
    destruct (SF.parseHexPair c3 c4) as [green|];
      [|rewrite H2 in P2; cbn in P2; congruence].
    destruct (SF.parseHexPair c5 c6) as [blue|];
      [|rewrite H0 in P3; cbn in P3; congruence].
    destruct P1 as [_ P1], P2 as [_ P2], P3 as [_ P3].
    unfold SF.rgbToHex. cbn [SF.r SF.g SF.b].
    rewrite P1, P2, P3 by assumption. reflexivity.
  - repeat constructor.
Qed.

(** ** The colour mapper between the keyframes *)

(** The factor computed for a value from one integer loudness up to the
    next is between 0 and 1; rounding can make it 1. *)
Lemma factor_unit_integers (current next : Z) (value : Q) :
  current < next -> next - current < 2 ^ 53 ->
  (inject_Z current <= value)%Q -> (value < inject_Z next)%Q ->
  let factor :=
    Binary64.round
      (Binary64.round (value - inject_Z current)
       / Binary64.round (inject_Z next - inject_Z current)) in
  (0 <= factor)%Q /\ (factor <= 1)%Q.
Proof.
  intros Horder Hsmall Hlo Hhi factor. subst factor.
  assert (Hrange : Binary64.round (inject_Z next - inject_Z current)
                   == inject_Z (next - current)).
  { rewrite (round_compat _ _ (inject_Z_minus next current)).
    apply round_integer. lia. }
  assert (Hpos : (0 < inject_Z (next - current))%Q).
  { change 0%Q with (inject_Z 0). rewrite <- Zlt_Qlt. lia. }
  destruct (round_between 0 (next - current) (value - inject_Z current))
    as [P0 P1]; try lia.
  { change (inject_Z 0) with 0%Q. lra. }
  { rewrite <- inject_Z_minus. lra. }
  change (inject_Z 0) with 0%Q in P0.
  apply (round_between 0 1); try lia; rewrite Hrange.
  - change (inject_Z 0) with 0%Q.
    apply Qle_shift_div_l; [exact Hpos|lra].
  - change (inject_Z 1) with 1%Q.
    apply Qle_shift_div_r; [exact Hpos|lra].
Qed.

Lemma factor_unit (k : nat) (A B : SF.Keyframe) (q : Q) :
  nth_error SF.COLOR_KEYFRAMES k = Some A ->
  nth_error SF.COLOR_KEYFRAMES (S k) = Some B ->
  (SF.dB A <= q)%Q -> (q < SF.dB B)%Q ->
  let factor :=
    Binary64.round
      (Binary64.round (q - SF.dB A) / Binary64.round (SF.dB B - SF.dB A)) in
  (0 <= factor)%Q /\ (factor <= 1)%Q.
Proof.
  intros HA HB Hlo Hhi.
  destruct k as [|[|[|k]]]; cbn in HA, HB; try (destruct k; discriminate);
    injection HA as <-; injection HB as <-; cbn [SF.dB] in *.
  - apply (factor_unit_integers 76 85 q); try lia; assumption.
  - apply (factor_unit_integers 85 95 q); try lia; assumption.
  - apply (factor_unit_integers 95 105 q); try lia; assumption.
Qed.

(** Between two channel values, the rounded interpolation stays between
    them. *)
Lemma lerp_between (start end_ : Z) (factor : Q) :
  0 <= start <= 255 -> 0 <= end_ <= 255 ->
  (0 <= factor)%Q -> (factor <= 1)%Q ->
  between (inject_Z start) (SF.lerp (inject_Z start) (inject_Z end_) factor)
    (inject_Z end_).
Proof.
  intros Hs He H0 H1. unfold between, SF.lerp.
  assert (Hd : Binary64.round (inject_Z end_ - inject_Z start)
               == inject_Z (end_ - start)).
  { rewrite (round_compat _ _ (inject_Z_minus end_ start)).
    apply round_integer. lia. }
  set (d := Binary64.round (inject_Z end_ - inject_Z start)) in *.
  assert (Hdiff : inject_Z (end_ - start) == inject_Z end_ - inject_Z start)
    by (symmetry; apply inject_Z_minus).
  destruct (Z_le_gt_dec start end_) as [Hle|Hgt].
  - left.
    assert (Hd0 : (0 <= inject_Z (end_ - start))%Q).
    { change 0%Q with (inject_Z 0). rewrite <- Zle_Qle. lia. }
    destruct (round_between 0 (end_ - start) (d * factor)) as [P0 P1]; try lia.
    { change (inject_Z 0) with 0%Q. rewrite Hd. nra. }
    { rewrite Hd. nra. }
    change (inject_Z 0) with 0%Q in P0.
    apply (round_between start end_); try lia; lra.
  - right.
    assert (Hd0 : (inject_Z (end_ - start) <= 0)%Q).
    { change 0%Q with (inject_Z 0). rewrite <- Zle_Qle. lia. }
    destruct (round_between (end_ - start) 0 (d * factor)) as [P0 P1]; try lia.
    { rewrite Hd. nra. }
    { change (inject_Z 0) with 0%Q. rewrite Hd. nra. }
    change (inject_Z 0) with 0%Q in P1.
    apply (round_between end_ start); try lia; lra.
Qed.

(** A value between two integers rounds to an integer between them. *)
Lemma Math_round_between (a b : Z) (x : Q) :
  between (inject_Z a) x (inject_Z b) ->
  between (inject_Z a) (inject_Z (SF.Math_round x)) (inject_Z b).
Proof.
  intros [[H1 H2]|[H1 H2]]; [left|right];
    destruct (Math_round_bounds _ _ x H1 H2) as [L U];
    split; rewrite <- Zle_Qle; assumption.
Qed.

Lemma between_in_range (a b : Z) (x : Q) :
  0 <= a <= 255 -> 0 <= b <= 255 ->
  between (inject_Z a) x (inject_Z b) ->
  in_channel_range x.
Proof.
  intros [A0 A1] [B0 B1] Hb. unfold in_channel_range.
  rewrite Zle_Qle in A0, A1, B0, B1.
  change (inject_Z 0) with 0%Q in *. change (inject_Z 255) with 255%Q in *.
  destruct Hb as [[H1 H2]|[H1 H2]]; split; lra.
Qed.

(** The colour written for an interpolation between two colours read from
    strings: on each channel the integer is between those of the two
    colours, and the string is well formed. *)
Lemma interpolated_between (hexA hexB : string) (factor : Q) :
  (0 <= factor)%Q -> (factor <= 1)%Q ->
  let colorA := SF.hexToRgb hexA in
  let colorB := SF.hexToRgb hexB in
  let written := SF.rgbToHex (SF.interpolateColor colorA colorB factor) in
  canonical_hex written = true
  /\ between (SF.r colorA) (SF.r (SF.hexToRgb written)) (SF.r colorB)
  /\ between (SF.g colorA) (SF.g (SF.hexToRgb written)) (SF.g colorB)
  /\ between (SF.b colorA) (SF.b (SF.hexToRgb written)) (SF.b colorB).
Proof.
  intros H0 H1 colorA colorB written. subst colorA colorB written.
  destruct (hexToRgb_bytes hexA) as [ra [ga [ba [Hra [Hga [Hba EA]]]]]].
  destruct (hexToRgb_bytes hexB) as [rb [gb [bb [Hrb [Hgb [Hbb EB]]]]]].
  rewrite EA, EB. unfold SF.interpolateColor. cbn [SF.r SF.g SF.b].
  pose proof (lerp_between ra rb factor Hra Hrb H0 H1) as Br.
  pose proof (lerp_between ga gb factor Hga Hgb H0 H1) as Bg.
  pose proof (lerp_between ba bb factor Hba Hbb H0 H1) as Bb.
  rewrite rgbToHex_rounds. cbn [SF.r SF.g SF.b].
  pose proof (between_in_range ra rb _ Hra Hrb Br) as [Rr0 Rr1].
  pose proof (between_in_range ga gb _ Hga Hgb Bg) as [Rg0 Rg1].
  pose proof (between_in_range ba bb _ Hba Hbb Bb) as [Rb0 Rb1].
  destruct (rgbToHex_bytes
              (SF.Math_round (SF.lerp (inject_Z ra) (inject_Z rb) factor))
              (SF.Math_round (SF.lerp (inject_Z ga) (inject_Z gb) factor))
              (SF.Math_round (SF.lerp (inject_Z ba) (inject_Z bb) factor)))
    as [Hc Hrt]; try (apply Math_round_bounds; assumption).
  rewrite Hrt. cbn [SF.r SF.g SF.b].
  split; [exact Hc|].
  split; [|split]; apply Math_round_between; assumption.
Qed.

(** Between the first and the last keyframe the colour is interpolated
    between the two keyframes around the value. *)
Lemma getBackgroundColor_segment (k : nat) (A B : SF.Keyframe) (q : Q) :
  nth_error SF.COLOR_KEYFRAMES k = Some A ->
  nth_error SF.COLOR_KEYFRAMES (S k) = Some B ->
  (SF.dB A <= q)%Q -> (q < SF.dB B)%Q -> (76 < q)%Q ->
  SF.getBackgroundColor (VNumber (Fin q))
  = SF.rgbToHex
      (SF.interpolateColor (SF.hexToRgb (SF.hex A)) (SF.hexToRgb (SF.hex B))
         (Binary64.round
            (Binary64.round (q - SF.dB A)
             / Binary64.round (SF.dB B - SF.dB A)))).
Proof.
  intros HA HB Hlo Hhi Hfirst.
  assert (Hlast : (q < 105)%Q).
  { destruct k as [|[|[|k]]]; cbn in HB; try (destruct k; discriminate);
      injection HB as <-; cbn [SF.dB] in Hhi; lra. }
  unfold SF.getBackgroundColor. cbn [Js.Number].
  change (SF.dB SF.first_keyframe) with 76%Q.
  change (SF.dB SF.last_keyframe) with 105%Q.
  rewrite (Qle_bool_false_lt _ _ Hfirst), (Qle_bool_false_lt _ _ Hlast).
  unfold SF.COLOR_KEYFRAMES.
  destruct k as [|[|[|k]]]; cbn in HA, HB; try (destruct k; discriminate);
    injection HA as <-; injection HB as <-; cbn [SF.dB] in Hlo, Hhi;
    rewrite !interpolate_between_step; cbn [SF.dB SF.hex].
  - rewrite (Qle_bool_true _ _ Hlo), (Qltb_true_lt _ _ Hhi). reflexivity.
  - rewrite (Qltb_false_le q 85) by exact Hlo. rewrite andb_false_r.
    rewrite (Qle_bool_true _ _ Hlo), (Qltb_true_lt _ _ Hhi). reflexivity.
  - rewrite (Qltb_false_le q 85) by lra. rewrite andb_false_r.
    rewrite (Qltb_false_le q 95) by exact Hlo. rewrite andb_false_r.
    rewrite (Qle_bool_true _ _ Hlo), (Qltb_true_lt _ _ Hhi). reflexivity.
Qed.

(** The three ways a finite loudness gets its colour. *)
Lemma getBackgroundColor_cases (q : Q) :
  ((q <= 76)%Q /\ SF.getBackgroundColor (VNumber (Fin q)) = "#a4f12c"%string)
  \/ ((105 <= q)%Q /\ SF.getBackgroundColor (VNumber (Fin q)) = "#ee5b2d"%string)
  \/ exists (k : nat) (A B : SF.Keyframe),
      nth_error SF.COLOR_KEYFRAMES k = Some A
      /\ nth_error SF.COLOR_KEYFRAMES (S k) = Some B
      /\ (SF.dB A <= q)%Q /\ (q < SF.dB B)%Q
      /\ SF.getBackgroundColor (VNumber (Fin q))
         = SF.rgbToHex
             (SF.interpolateColor (SF.hexToRgb (SF.hex A))
                (SF.hexToRgb (SF.hex B))
                (Binary64.round
                   (Binary64.round (q - SF.dB A)
                    / Binary64.round (SF.dB B - SF.dB A)))).
Proof.
  destruct (Qlt_le_dec 76 q) as [H1|H1];
    [|left; split; [exact H1|apply getBackgroundColor_low; exact H1]].
  destruct (Qlt_le_dec q 105) as [H2|H2];
    [|right; left; split; [exact H2|apply getBackgroundColor_high; exact H2]].
  right; right.
  destruct (Qlt_le_dec q 85) as [H3|H3].
  { exists 0%nat. do 2 eexists. split; [reflexivity|]. split; [reflexivity|].
    cbn [SF.dB]. split; [lra|]. split; [exact H3|].
    apply (getBackgroundColor_segment 0); cbn [SF.dB]; try reflexivity; lra. }
  destruct (Qlt_le_dec q 95) as [H4|H4].
  { exists 1%nat. do 2 eexists. split; [reflexivity|]. split; [reflexivity|].
    cbn [SF.dB]. split; [exact H3|]. split; [exact H4|].
    apply (getBackgroundColor_segment 1); cbn [SF.dB]; try reflexivity; lra. }
  exists 2%nat. do 2 eexists. split; [reflexivity|]. split; [reflexivity|].
  cbn [SF.dB]. split; [exact H4|]. split; [exact H2|].
  apply (getBackgroundColor_segment 2); cbn [SF.dB]; try reflexivity; lra.
Qed.

(** X13. Whatever the reading, the colour that [getBackgroundColor] returns
    is a well-formed colour: ['#'] followed by six lower-case hexadecimal
    digits. *)
Theorem getBackgroundColor_wellformed (dbValue : JsValue) :
  canonical_hex (SF.getBackgroundColor dbValue) = true.
Proof.
  assert (Hq : exists q,
             SF.getBackgroundColor dbValue = SF.getBackgroundColor (VNumber (Fin q))).
  { unfold SF.getBackgroundColor.
    destruct (Js.Number dbValue) as [| | |q];
      [exists 76%Q|exists 76%Q|exists 76%Q|exists q]; reflexivity. }
  destruct Hq as [q ->].
  destruct (getBackgroundColor_cases q)
    as [[_ E]|[[_ E]|[k [A [B [HA [HB [Hlo [Hhi E]]]]]]]]]; rewrite E;
    try reflexivity.
  destruct (factor_unit k A B q HA HB Hlo Hhi) as [F0 F1].
  exact (proj1 (interpolated_between (SF.hex A) (SF.hex B) _ F0 F1)).
Qed.

(** X14. Between two adjacent keyframes the colour never leaves the span of
    their two colours: for a loudness from the loudness of a keyframe up to
    that of the next one, each channel of the colour returned lies between
    the channels of the two keyframe colours; and at the loudness of a
    keyframe the colour is that keyframe's colour. *)
Theorem getBackgroundColor_between_keyframes
  (k : nat) (A B : SF.Keyframe) (q : Q)
  (HA : nth_error SF.COLOR_KEYFRAMES k = Some A)
  (HB : nth_error SF.COLOR_KEYFRAMES (S k) = Some B)
  (Hlo : (SF.dB A <= q)%Q) (Hhi : (q < SF.dB B)%Q) :
  let colour := SF.hexToRgb (SF.getBackgroundColor (VNumber (Fin q))) in
  let colourA := SF.hexToRgb (SF.hex A) in
  let colourB := SF.hexToRgb (SF.hex B) in
  between (SF.r colourA) (SF.r colour) (SF.r colourB)
  /\ between (SF.g colourA) (SF.g colour) (SF.g colourB)
  /\ between (SF.b colourA) (SF.b colour) (SF.b colourB)
  /\ (q == SF.dB A -> SF.getBackgroundColor (VNumber (Fin q)) = SF.hex A).
Proof.
  intros colour colourA colourB. subst colour colourA colourB.
  assert (Hkey : q == SF.dB A ->
                 SF.getBackgroundColor (VNumber (Fin q)) = SF.hex A).
  { intro E. rewrite (getBackgroundColor_compat _ _ E).
    destruct k as [|[|[|k]]]; cbn in HA; try (destruct k; discriminate);
      injection HA as <-; vm_compute; reflexivity. }
  destruct (Qlt_le_dec 76 q) as [Hfirst|Hfirst].
  - destruct (factor_unit k A B q HA HB Hlo Hhi) as [F0 F1].
    destruct (interpolated_between (SF.hex A) (SF.hex B) _ F0 F1)
      as [_ [Hr [Hg Hb]]].
    rewrite <- (getBackgroundColor_segment k A B q HA HB Hlo Hhi Hfirst)
      in Hr, Hg, Hb.
    split; [exact Hr|]. split; [exact Hg|]. split; [exact Hb|exact Hkey].
  - assert (E : q == SF.dB A).
    { destruct k as [|[|[|k]]]; cbn in HA; try (destruct k; discriminate);
        injection HA as <-; cbn [SF.dB] in *; lra. }
    rewrite (Hkey E).
    assert (Hself : forall x y : Q, between x x y).
    { intros x y. unfold between.
      destruct (Qlt_le_dec y x); [right|left]; split; lra. }
    split; [apply Hself|]. split; [apply Hself|]. split; [apply Hself|].
    intros _. reflexivity.
Qed.

Lemma getBackgroundColor_between_keyframes_witness :
  let colour := SF.hexToRgb (SF.getBackgroundColor (VNumber (Fin 88))) in
  let colourA := SF.hexToRgb "#f1e22c" in
  let colourB := SF.hexToRgb "#ef8e2e" in
  between (SF.r colourA) (SF.r colour) (SF.r colourB)
  /\ between (SF.g colourA) (SF.g colour) (SF.g colourB)
  /\ between (SF.b colourA) (SF.b colour) (SF.b colourB)
  /\ (88 == 85 -> SF.getBackgroundColor (VNumber (Fin 88)) = "#f1e22c"%string).
Proof.
  apply (getBackgroundColor_between_keyframes 1 (SF.mkKeyframe 85 "#f1e22c")
           (SF.mkKeyframe 95 "#ef8e2e") 88);
    try reflexivity; vm_compute; discriminate.
Defined.

(** ** Playback and the rest of the session *)

Section PlaybackFrame.

Variable getStateConfig : JsRange -> option StateConfig.t.
Variable resolveTransition : JsRange -> JsRange -> option Plan.t.

Lemma loadClip_warned (count : nat) (id : Z) (src : string) (mode : Mode)
      (loop : bool) (st : Session.t) :
  loadClip id src mode loop (Session.set_warnings count st)
  = (Session.set_warnings count (fst (loadClip id src mode loop st)),
     snd (loadClip id src mode loop st)).
Proof.
  unfold loadClip, isPlayerReady. cbn [Session.set_warnings Session.playerReady].
  destruct (negb (Session.playerReady st) || negb (Js.truthy (Some src)));
    reflexivity.
Qed.

Lemma return_to_onReading_warned (count : nat) (ret : Return) (st : Session.t) :
  return_to_onReading ret (Session.set_warnings count st)
  = warned count (return_to_onReading ret st).
Proof. destruct ret; reflexivity. Qed.

Lemma playSteady_then_warned (count : nat) (range : JsRange) (id : Z)
      (ret : Return) (st : Session.t) :
  playSteady_then getStateConfig range id ret (Session.set_warnings count st)
  = warned count (playSteady_then getStateConfig range id ret st).
Proof.
  unfold playSteady_then, playSteady.
  cbn [Session.set_warnings Session.sequenceCounter].
  destruct (negb (id =? Session.sequenceCounter st));
    [apply return_to_onReading_warned|].
  destruct (getStateConfig range) as [cfg|]; [|apply return_to_onReading_warned].
  rewrite loadClip_warned.
  destruct (loadClip id _ _ _ st) as [st' loading]. cbn [fst snd].
  destruct loading; [reflexivity|apply return_to_onReading_warned].
Qed.

Lemma after_step_load_warned (count : nat) (path : list JsRange) (i : nat)
      (durationMs id : Z) (ret : Return) (st : Session.t) :
  after_step_load path i durationMs id ret (Session.set_warnings count st)
  = warned count (after_step_load path i durationMs id ret st).
Proof.
  unfold after_step_load. cbn [Session.set_warnings Session.sequenceCounter].
  destruct (negb (id =? Session.sequenceCounter st));
    [apply return_to_onReading_warned|reflexivity].
Qed.

Lemma transition_loop_warned (count : nat) (remaining : nat)
      (path : list JsRange) (id : Z) (ret : Return) (st : Session.t) :
  forall i : nat,
    transition_loop getStateConfig resolveTransition remaining path i id ret
      (Session.set_warnings count st)
    = warned count
        (transition_loop getStateConfig resolveTransition remaining path i id
           ret st).
Proof.
  induction remaining as [|remaining IH]; intro i; cbn [transition_loop].
  - apply playSteady_then_warned.
  - cbn [Session.set_warnings Session.sequenceCounter].
    destruct (negb (id =? Session.sequenceCounter st));
      [apply return_to_onReading_warned|].
    destruct (resolveTransition (nth i path None) (nth (i + 1) path None))
      as [transition|]; [|apply IH].
    rewrite loadClip_warned.
    destruct (loadClip id _ _ _ st) as [st' loading]. cbn [fst snd].
    destruct loading; [reflexivity|apply after_step_load_warned].
Qed.

Lemma resume_warned (count : nat) (k : Cont) (id : Z) (st : Session.t) :
  resume getStateConfig resolveTransition k id (Session.set_warnings count st)
  = warned count (resume getStateConfig resolveTransition k id st).
Proof.
  destruct k; cbn [resume].
  - reflexivity.
  - apply playSteady_then_warned.
  - apply return_to_onReading_warned.
  - apply after_step_load_warned.
  - apply transition_loop_warned.
Qed.

Lemma settle_warned (count : nat) (id : Z) (run : Run) :
  settle id (warned count run) = Session.set_warnings count (settle id run).
Proof. destruct run as [st [s|]]; reflexivity. Qed.

(** A load that fails is logged and changes nothing else: the call goes on
    as after a load that succeeds. *)
Lemma on_load_settled_rejected (id : Z) (st : Session.t) :
  on_load_settled getStateConfig resolveTransition id false st
  = option_map (Session.set_warnings (S (Session.warnings st)))
      (on_load_settled getStateConfig resolveTransition id true st).
Proof.
  unfold on_load_settled.
  destruct (Session.find id (Session.pending st)) as [[k [|due]]|];
    try reflexivity.
  cbn [option_map]. rewrite resume_warned, settle_warned. reflexivity.
Qed.

End PlaybackFrame.

(** X15. A [player.load] that is rejected only costs a warning: in both
    controllers, when the pending load of a call fails, the session goes on
    to exactly the state it reaches when that load succeeds, with one more
    warning logged; in particular the calls that follow the load in the
    sequence are issued all the same. *)
Theorem rejected_load_only_warns (sequenceId : Z) (st : Session.t) :
  Controller.step (LoadSettled sequenceId false) st
  = option_map (Session.set_warnings (S (Session.warnings st)))
      (Controller.step (LoadSettled sequenceId true) st)
  /\ PlainController.step (LoadSettled sequenceId false) st
     = option_map (Session.set_warnings (S (Session.warnings st)))
         (PlainController.step (LoadSettled sequenceId true) st).
Proof.
  unfold Controller.step, PlainController.step.
  destruct (Session.hung st); [split; reflexivity|].
  split; apply on_load_settled_rejected.
Qed.

Section PlaybackOnly.

Variable getStateConfig : JsRange -> option StateConfig.t.
Variable resolveTransition : JsRange -> JsRange -> option Plan.t.

Lemma playback_only_refl (st : Session.t) : playback_only st st.
Proof. destruct st; reflexivity. Qed.

Lemma playback_only_trans (st st1 st2 : Session.t) :
  playback_only st st1 -> playback_only st1 st2 -> playback_only st st2.
Proof.
  unfold playback_only. intros H1 H2. rewrite H2. rewrite H1. reflexivity.
Qed.

Lemma loadClip_playback_only (id : Z) (src : string) (mode : Mode) (loop : bool)
      (st : Session.t) :
  playback_only st (fst (loadClip id src mode loop st)).
Proof.
  unfold loadClip.
  destruct (negb (isPlayerReady st) || negb (Js.truthy (Some src)));
    cbn [fst]; [apply playback_only_refl|].
  destruct st; reflexivity.
Qed.

Lemma return_playback_only (ret : Return) (st0 st : Session.t) :
  playback_only st0 st ->
  playback_only st0 (fst (return_to_onReading ret st)).
Proof.
  intro H. destruct ret; cbn [return_to_onReading fst]; [|exact H].
  apply (playback_only_trans st0 st); [exact H|]. destruct st; reflexivity.
Qed.

Lemma playSteady_then_playback_only (range : JsRange) (id : Z) (ret : Return)
      (st : Session.t) :
  playback_only st (fst (playSteady_then getStateConfig range id ret st)).
Proof.
  unfold playSteady_then, playSteady.
  destruct (negb (id =? Session.sequenceCounter st));
    [apply return_playback_only, playback_only_refl|].
  destruct (getStateConfig range) as [cfg|];
    [|apply return_playback_only, playback_only_refl].
  pose proof (loadClip_playback_only id (StateConfig.file cfg)
                (match StateConfig.mode cfg with Some m => m | None => forward end)
                (match StateConfig.loop cfg with Some l => l | None => true end) st)
    as H.
  destruct (loadClip id _ _ _ st) as [st' loading]. cbn [fst] in H.
  destruct loading; [exact H|apply return_playback_only; exact H].
Qed.

Lemma after_step_load_playback_only (path : list JsRange) (i : nat)
      (durationMs id : Z) (ret : Return) (st0 st : Session.t) :
  playback_only st0 st ->
  playback_only st0 (fst (after_step_load path i durationMs id ret st)).
Proof.
  intro H. unfold after_step_load.
  destruct (negb (id =? Session.sequenceCounter st));
    [apply return_playback_only; exact H|exact H].
Qed.

Lemma transition_loop_playback_only (remaining : nat) (path : list JsRange)
      (id : Z) (ret : Return) (st : Session.t) :
  forall i : nat,
    playback_only st
      (fst (transition_loop getStateConfig resolveTransition remaining path i id
              ret st)).
Proof.
  induction remaining as [|remaining IH]; intro i; cbn [transition_loop].
  - apply playSteady_then_playback_only.
  - destruct (negb (id =? Session.sequenceCounter st));
      [apply return_playback_only, playback_only_refl|].
    destruct (resolveTransition (nth i path None) (nth (i + 1) path None))
      as [transition|]; [|apply IH].
    pose proof (loadClip_playback_only id (Plan.file transition)
                  (Plan.mode transition) false st) as H.
    destruct (loadClip id _ _ _ st) as [st' loading]. cbn [fst] in H.
    destruct loading; [exact H|apply after_step_load_playback_only; exact H].
Qed.

Lemma playTransitionSequence_playback_only (path : list JsRange) (id : Z)
      (ret : Return) (st : Session.t) :
  playback_only st
    (fst (playTransitionSequence getStateConfig resolveTransition path id ret st)).
Proof.
  unfold playTransitionSequence. destruct path as [|x [|y path]].
  - apply return_playback_only, playback_only_refl.
  - apply playSteady_then_playback_only.
  - apply transition_loop_playback_only.
Qed.

Lemma resume_playback_only (k : Cont) (id : Z) (st : Session.t) :
  playback_only st (fst (resume getStateConfig resolveTransition k id st)).
Proof.
  destruct k; cbn [resume fst].
  - apply playback_only_refl.
  - apply playSteady_then_playback_only.
  - apply return_playback_only, playback_only_refl.
  - apply after_step_load_playback_only, playback_only_refl.
  - apply transition_loop_playback_only.
Qed.

(** What a run of playback and its recording leave alone. *)
Lemma settle_playback_only (id : Z) (st : Session.t) (run : Run) :
  playback_only st (fst run) ->
  Session.sequenceCounter (settle id run) = Session.sequenceCounter st
  /\ Session.tracker (settle id run) = Session.tracker st
  /\ Session.playerReady (settle id run) = Session.playerReady st
  /\ Session.document_body (settle id run) = Session.document_body st
  /\ Session.warnings (settle id run) = Session.warnings st
  /\ Session.clock (settle id run) = Session.clock st
  /\ Session.hung (settle id run) = Session.hung st.
Proof.
  unfold playback_only. destruct run as [st' [s|]]; cbn [fst settle];
    intro H; rewrite H; cbn; repeat split.
Qed.

End PlaybackOnly.

(** ** What the readings alone determine *)

(** The fields of the session that a call of [onReading] of the tracker
    variant settles before its first [await]. *)
Lemma onReading_frame (dbValue : JsValue) (st : Session.t) :
  let st' := Controller.onReading dbValue st in
  Session.playerReady st' = Session.playerReady st
  /\ Session.clock st' = Session.clock st
  /\ Session.document_body st'
     = match Session.document_body st with
       | Some _ => Some (SF.getBackgroundColor dbValue)
       | None => None
       end
  /\ Session.tracker st'
     = if Session.playerReady st
       then fst (SF.animationState.update (Session.tracker st) dbValue
                   (Session.clock st))
       else Session.tracker st.
Proof.
  intro st'. subst st'.
  destruct (updateBackgroundColor_fields dbValue st)
    as [Ep [Ec [Et [Er [El [Ew [Ek [Epe Eh]]]]]]]].
  assert (Eb : Session.document_body (Controller.updateBackgroundColor dbValue st)
               = match Session.document_body st with
                 | Some _ => Some (SF.getBackgroundColor dbValue)
                 | None => None
                 end).
  { unfold Controller.updateBackgroundColor.
    destruct (Session.document_body st) eqn:E; [reflexivity|exact E]. }
  unfold Controller.onReading, isPlayerReady. rewrite Er.
  destruct (Session.playerReady st) eqn:Hready; cbn [negb]; [|auto].
  rewrite Et, Ek.
  destruct (SF.animationState.update _ dbValue _) as [tracker' result].
  cbn [fst].
  set (st1 := Session.set_tracker tracker' _).
  assert (F1 : Session.playerReady st1 = true /\ Session.clock st1 = Session.clock st
               /\ Session.document_body st1
                  = match Session.document_body st with
                    | Some _ => Some (SF.getBackgroundColor dbValue)
                    | None => None
                    end
               /\ Session.tracker st1 = tracker').
  { subst st1. cbn. auto. }
  destruct (negb (Js.truthy _)); [exact F1|].
  destruct (_ && _); [exact F1|].
  set (id := Session.sequenceCounter st1 + 1).
  set (st2 := Session.set_sequenceCounter id st1).
  assert (Hsettled : forall run : Run,
             playback_only st2 (fst run) ->
             Session.playerReady (settle id run) = true
             /\ Session.clock (settle id run) = Session.clock st
             /\ Session.document_body (settle id run)
                = match Session.document_body st with
                  | Some _ => Some (SF.getBackgroundColor dbValue)
                  | None => None
                  end
             /\ Session.tracker (settle id run) = tracker').
  { intros run Hrun.
    destruct (settle_playback_only id st2 run Hrun)
      as [_ [Gt [Gr [Gb [_ [Gc _]]]]]].
    rewrite Gt, Gr, Gb, Gc. exact F1. }
  destruct (SF.animationState.transition result) as [transition|].
  - unfold Controller.loadClip.
    pose proof (loadClip_playback_only id (Plan.file transition)
                  (Plan.mode transition) false st2) as Hl.
    destruct (loadClip id _ _ _ st2) as [st3 loading]. cbn [fst] in Hl.
    destruct loading; apply Hsettled; exact Hl.
  - destruct (SF.buildRangePath _ _) as [path|]; [|exact F1].
    apply Hsettled. apply playTransitionSequence_playback_only.
Qed.

(** An event other than a reading leaves the page and the tracker alone,
    and only the passing of time moves the clock. *)
Lemma step_frame (e : Event) (st st' : Session.t) :
  Controller.step e st = Some st' ->
  Session.playerReady st' = Session.playerReady st
  /\ Session.clock st'
     = match e with
       | Advance dt => Session.clock st + dt
       | _ => Session.clock st
       end
  /\ Session.document_body st'
     = match e with
       | Reading dbValue =>
           match Session.document_body st with
           | Some _ => Some (SF.getBackgroundColor dbValue)
           | None => None
           end
       | _ => Session.document_body st
       end
  /\ Session.tracker st'
     = match e with
       | Reading dbValue =>
           if Session.playerReady st
           then fst (SF.animationState.update (Session.tracker st) dbValue
                       (Session.clock st))
           else Session.tracker st
       | _ => Session.tracker st
       end.
Proof.
  intro Hstep. destruct (step_shape e st st' Hstep) as [_ Hshape].
  assert (Hresumed : forall id k resumed,
             resumed = st
             \/ resumed = Session.set_warnings (S (Session.warnings st)) st ->
             let st1 :=
               settle id (resume SF.getStateConfig SF.resolveTransition k id resumed) in
             Session.playerReady st1 = Session.playerReady st
             /\ Session.clock st1 = Session.clock st
             /\ Session.document_body st1 = Session.document_body st
             /\ Session.tracker st1 = Session.tracker st).
  { intros id k resumed Hr st1. subst st1.
    destruct (settle_playback_only id resumed _
                (resume_playback_only SF.getStateConfig SF.resolveTransition k id
                   resumed))
      as [_ [Gt [Gr [Gb [_ [Gc _]]]]]].
    rewrite Gt, Gr, Gb, Gc. destruct Hr as [->| ->]; cbn; auto. }
  destruct e as [dt|dbValue|id ok|id].
  - subst st'. cbn. auto.
  - subst st'. apply onReading_frame.
  - destruct Hshape as [k [resumed [-> Hr]]]. apply Hresumed. exact Hr.
  - destruct Hshape as [k [resumed [-> Hr]]]. apply Hresumed. exact Hr.
Qed.

Lemma run_frame (es : list Event) :
  forall st st' : Session.t,
    Controller.run es st = Some st' ->
    Session.playerReady st' = Session.playerReady st
    /\ Session.document_body st'
       = match Session.document_body st, last_reading es with
         | Some _, Some dbValue => Some (SF.getBackgroundColor dbValue)
         | body, _ => body
         end
    /\ Session.tracker st'
       = if Session.playerReady st
         then fst (SF.animationState.updates (Session.tracker st)
                     (readings_of es (Session.clock st)))
         else Session.tracker st.
Proof.
  induction es as [|e es IH]; intros st st' Hrun.
  - injection Hrun as <-. cbn.
    destruct (Session.document_body st), (Session.playerReady st); auto.
  - cbn [Controller.run] in Hrun.
    destruct (Controller.step e st) as [st1|] eqn:Hstep; [|discriminate].
    destruct (step_frame e st st1 Hstep) as [Fr [Fc [Fb Ft]]].
    destruct (IH st1 st' Hrun) as [Gr [Gb Gt]].
    rewrite Gr, Gb, Gt, Fr, Fb, Ft, Fc. split; [reflexivity|]. split.
    + destruct e as [dt|dbValue|id ok|id]; cbn [last_reading]; try reflexivity.
      destruct (Session.document_body st), (last_reading es); reflexivity.
    + destruct (Session.playerReady st); [|destruct e; reflexivity].
      destruct e as [dt|dbValue|id ok|id]; cbn [readings_of]; try reflexivity.
      rewrite updates_cons_fst. reflexivity.
Qed.

(** X16. The tracker hears every reading and nothing else: with the player
    ready, after any schedule of readings, settled loads, timers and passing
    time, the state of the tracker is the one that the calls of [update]
    for the readings alone, each at the time it was made, lead to from the
    initial tracker, however the playback was interleaved with them. *)
Theorem tracker_follows_readings
  (es : list Event) (body : option string) (now : Z) (final : Session.t)
  (Hrun : Controller.run es (Controller.initial true body now) = Some final) :
  Session.tracker final
  = fst (SF.animationState.updates SF.animationState.initial (readings_of es now)).
Proof.
  destruct (run_frame es _ _ Hrun) as [_ [_ Ht]].
  cbn [Controller.initial Session.playerReady Session.tracker Session.clock] in Ht.
  exact Ht.
Qed.

Lemma tracker_follows_readings_witness :
  exists final : Session.t,
    Controller.run superseded_prefix (Controller.initial true (Some ""%string) 0)
    = Some final
    /\ Session.tracker final
       = fst (SF.animationState.updates SF.animationState.initial
                (readings_of superseded_prefix 0)).
Proof.
  eexists. split; [vm_compute; reflexivity|].
  apply (tracker_follows_readings superseded_prefix (Some ""%string) 0).
  vm_compute. reflexivity.
Defined.

(** X17. The background follows every reading: on a page with a body, after
    any schedule, whether the player is ready or not, the background colour
    is the colour of the last reading made (the colour of the page before
    the schedule when no reading was made); no step of the playback changes
    it. *)
Theorem background_follows_last_reading
  (es : list Event) (ready : bool) (color : string) (now : Z)
  (final : Session.t)
  (Hrun : Controller.run es (Controller.initial ready (Some color) now)
          = Some final) :
  Session.document_body final
  = Some match last_reading es with
         | Some dbValue => SF.getBackgroundColor dbValue
         | None => color
         end.
Proof.
  destruct (run_frame es _ _ Hrun) as [_ [Hb _]].
  cbn [Controller.initial Session.document_body] in Hb.
  rewrite Hb. destruct (last_reading es); reflexivity.
Qed.

Lemma background_follows_last_reading_witness :
  exists final : Session.t,
    Controller.run [Reading (VNumber (Fin 80)); Advance 100; Reading (VNumber (Fin 95))]
      (Controller.initial false (Some "#ffffff"%string) 0)
    = Some final
    /\ Session.document_body final
       = Some match last_reading
                      [Reading (VNumber (Fin 80)); Advance 100;
                       Reading (VNumber (Fin 95))] with
              | Some dbValue => SF.getBackgroundColor dbValue
              | None => "#ffffff"%string
              end.
Proof.
  eexists. split; [vm_compute; reflexivity|].
  apply (background_follows_last_reading
           [Reading (VNumber (Fin 80)); Advance 100; Reading (VNumber (Fin 95))]
           false "#ffffff"%string 0).
  vm_compute. reflexivity.
Defined.

(** X18. Last token wins: from the start of the tracker variant, whatever
    the readings and however loads and timers are scheduled, the player is
    never called on behalf of an older reading after it has been called on
    behalf of a newer one, and never with a token that has not been issued:
    in the log of the loads the tokens never decrease over time and none
    exceeds the sequence counter. *)
Theorem loads_follow_token_order
  (es : list Event) (ready : bool) (body : option string) (now : Z)
  (final : Session.t)
  (Hrun : Controller.run es (Controller.initial ready body now) = Some final) :
  loads_in_token_order final.
Proof.
  pose proof (initial_in_order ready body now) as Hstart.
  revert Hrun Hstart. generalize (Controller.initial ready body now).
  intros st Hrun Hstart.
  exact (run_keeps_order es st final Hstart Hrun).
Qed.

Lemma loads_follow_token_order_witness :
  exists final : Session.t,
    Controller.run (superseded_prefix ++ [TimerFired 1])
      (Controller.initial true (Some ""%string) 0)
    = Some final
    /\ loads_in_token_order final.
Proof.
  eexists. split; [vm_compute; reflexivity|].
  apply (loads_follow_token_order (superseded_prefix ++ [TimerFired 1]) true
           (Some ""%string) 0).
  vm_compute. reflexivity.
Defined.

(** ** The plain controller keeps up with the readings *)

Lemma S5_classify_normalised (dbValue : JsValue) :
  S5.classify (if Js.isFiniteValue dbValue then dbValue else VNumber (Fin 0))
  = S5.classify dbValue.
Proof.
  unfold S5.classify, classify_plain.
  destruct (Js.isFiniteValue dbValue) eqn:E; [rewrite E|]; reflexivity.
Qed.

Lemma S5_classify_five (dbValue : JsValue) :
  exists name : string,
    S5.classify dbValue = Some name /\ In name S5.STATE_SEQUENCE.
Proof.
  assert (Hq : exists q, S5.classify dbValue = S5.classify (VNumber (Fin q))).
  { unfold S5.classify, classify_plain.
    destruct dbValue as [| |b|[| | |q]]; cbn [Js.isFiniteValue Js.isFinite Js.Number];
      eexists; reflexivity. }
  destruct Hq as [q ->].
  destruct (S5_classify_finite q)
    as [[_ E]|[[_ [_ E]]|[[_ [_ E]]|[[_ [_ E]]|[_ E]]]]]; rewrite E;
    eexists; (split; [reflexivity|cbn; auto 10]).
Qed.

(** With the player ready, the plain [onReading] leaves in [previousRange]
    the range of the reading, before its first [await]. *)
Lemma plain_onReading_previousRange (dbValue : JsValue) (st : Session.t) :
  pending_return_done st ->
  Session.playerReady st = true ->
  Session.previousRange (PlainController.onReading dbValue st)
  = S5.classify dbValue
  /\ Session.playerReady (PlainController.onReading dbValue st) = true.
Proof.
  intros Hdone Hready. unfold PlainController.onReading, isPlayerReady.
  rewrite Hready. cbn [negb]. rewrite S5_classify_normalised.
  destruct (S5_classify_five dbValue) as [name [E Hin]]. rewrite E.
  assert (Ht : Js.truthy (Some name) = true).
  { cbn in Hin.
    destruct Hin as [<-|[<-|[<-|[<-|[<-|[]]]]]]; reflexivity. }
  rewrite Ht. cbn [negb].
  destruct (Js.strict_eq (Some name) (Session.previousRange st)) eqn:Eq.
  { apply strict_eq_true in Eq. auto. }
  destruct (buildRangePath_total S5.STATE_SEQUENCE (Session.previousRange st)
              (Some name) S5_names) as [path Hpath].
  unfold S5.buildRangePath. rewrite Hpath.
  set (st1 := Session.set_previousRange (Some name) st).
  set (id := Session.sequenceCounter st1 + 1).
  set (st2 := Session.set_sequenceCounter id st1).
  assert (Hrun : keeps_previousRange st2
                   (PlainController.playTransitionSequence path id RetDone st2)).
  { unfold PlainController.playTransitionSequence, playTransitionSequence.
    destruct path as [|x [|y path]].
    - unfold keeps_previousRange. cbn. repeat split; discriminate.
    - apply playSteady_then_done.
    - apply transition_loop_done. }
  assert (Hdone2 : pending_return_done st2) by exact Hdone.
  destruct (settle_done id st2 _ Hdone2 Hrun) as [_ Hp].
  split; [rewrite Hp; reflexivity|].
  destruct (settle_playback_only id st2 _
              (playTransitionSequence_playback_only S5.getStateConfig
                 S5.resolveTransition path id RetDone st2))
    as [_ [_ [Gr _]]].
  unfold PlainController.playTransitionSequence. rewrite Gr. exact Hready.
Qed.

Lemma plain_step_ready (e : Event) (st st' : Session.t) :
  pending_return_done st ->
  Session.playerReady st = true ->
  PlainController.step e st = Some st' ->
  Session.playerReady st' = true.
Proof.
  intros Hdone Hready Hstep. unfold PlainController.step in Hstep.
  destruct (Session.hung st); [discriminate|].
  destruct e as [dt|dbValue|id ok|id].
  - destruct (dt <? 0); [discriminate|]. injection Hstep as <-. exact Hready.
  - injection Hstep as <-.
    apply (plain_onReading_previousRange dbValue st Hdone Hready).
  - unfold on_load_settled in Hstep.
    destruct (Session.find id (Session.pending st)) as [[k [|due]]|];
      try discriminate.
    injection Hstep as <-.
    set (resumed := if ok then st else _).
    destruct (settle_playback_only id resumed _
                (resume_playback_only S5.getStateConfig S5.resolveTransition k id
                   resumed))
      as [_ [_ [Gr _]]].
    rewrite Gr. subst resumed. destruct ok; exact Hready.
  - unfold on_timer_fired in Hstep.
    destruct (Session.find id (Session.pending st)) as [[k [|due]]|];
      try discriminate.
    destruct (due <=? Session.clock st); [|discriminate].
    injection Hstep as <-.
    destruct (settle_playback_only id st _
                (resume_playback_only S5.getStateConfig S5.resolveTransition k id
                   st))
      as [_ [_ [Gr _]]].
    rewrite Gr. exact Hready.
Qed.

Lemma plain_run_previousRange (es : list Event) :
  forall st st' : Session.t,
    pending_return_done st ->
    Session.playerReady st = true ->
    PlainController.run es st = Some st' ->
    Session.previousRange st'
    = match last_reading es with
      | Some dbValue => S5.classify dbValue
      | None => Session.previousRange st
      end.
Proof.
  induction es as [|e es IH]; intros st st' Hdone Hready Hrun.
  - injection Hrun as <-. reflexivity.
  - cbn [PlainController.run] in Hrun.
    destruct (PlainController.step e st) as [st1|] eqn:Hstep; [|discriminate].
    destruct (plain_step_previousRange e st st1 Hdone Hstep) as [Hdone1 Hprev].
    pose proof (plain_step_ready e st st1 Hdone Hready Hstep) as Hready1.
    rewrite (IH st1 st' Hdone1 Hready1 Hrun).
    destruct e as [dt|dbValue|id ok|id]; cbn [last_reading];
      try (destruct (last_reading es); [reflexivity|apply Hprev; reflexivity]).
    destruct (last_reading es); [reflexivity|].
    unfold PlainController.step in Hstep.
    destruct (Session.hung st); [discriminate|]. injection Hstep as <-.
    apply (plain_onReading_previousRange dbValue st Hdone Hready).
Qed.

(** X19. The plain controller never loses track of the loudness: with the
    player ready, after any schedule of readings, settled loads, timers and
    passing time, [previousRange] is the range of the last reading made (of
    the reading 0 before the first one), whatever sequences are still in
    flight or were superseded. *)
Theorem plain_previousRange_follows_readings
  (es : list Event) (now : Z) (final : Session.t)
  (Hrun : PlainController.run es (PlainController.initial true now) = Some final) :
  Session.previousRange final
  = S5.classify match last_reading es with
                | Some dbValue => dbValue
                | None => VNumber (Fin 0)
                end.
Proof.
  assert (Hdone : pending_return_done (PlainController.initial true now))
    by constructor.
  rewrite (plain_run_previousRange es _ final Hdone eq_refl Hrun).
  destruct (last_reading es); reflexivity.
Qed.

Lemma plain_previousRange_follows_readings_witness :
  exists final : Session.t,
    PlainController.run (superseded_prefix_plain ++ [TimerFired 1])
      (PlainController.initial true 0)
    = Some final
    /\ Session.previousRange final
       = S5.classify
           match last_reading (superseded_prefix_plain ++ [TimerFired 1]) with
           | Some dbValue => dbValue
           | None => VNumber (Fin 0)
           end.
Proof.
  eexists. split; [vm_compute; reflexivity|].
  apply (plain_previousRange_follows_readings
           (superseded_prefix_plain ++ [TimerFired 1]) 0).
  vm_compute. reflexivity.
Defined.

(** ** A live sequence leads to the steady clip of its target *)

Section LiveSequence.

Variable getStateConfig : JsRange -> option StateConfig.t.
Variable resolveTransition : JsRange -> JsRange -> option Plan.t.

Lemma nth_last {A : Type} (l : list A) (d : A) :
  nth (List.length l - 1) l d = last l d.
Proof.
  induction l as [|x l IH]; [reflexivity|].
  destruct l as [|y l]; [reflexivity|].
  change (last (x :: y :: l) d) with (last (y :: l) d). rewrite <- IH.
  cbn [List.length]. replace (S (S (List.length l)) - 1)%nat
    with (S (S (List.length l) - 1)) by lia.
  reflexivity.
Qed.

(** With the player ready and the token live, [playSteady] for a range that
    has a clip issues its load and suspends. *)
Lemma playSteady_then_live (range : JsRange) (id : Z) (ret : Return)
      (st : Session.t) (args : LoadArgs.t) :
  Session.playerReady st = true ->
  id = Session.sequenceCounter st ->
  steady_load getStateConfig range = Some args ->
  playSteady_then getStateConfig range id ret st
  = (Session.set_loads ((id, args) :: Session.loads st) st,
     Some (mkSuspended (K_steady_loaded ret) AwaitLoad)).
Proof.
  intros Hready Hlive Hargs. unfold playSteady_then, playSteady.
  rewrite <- Hlive, Z.eqb_refl. cbn [negb].
  unfold steady_load in Hargs.
  destruct (getStateConfig range) as [cfg|]; [|discriminate].
  destruct (Js.truthy (Some (StateConfig.file cfg))) eqn:Hfile; [|discriminate].
  injection Hargs as <-.
  unfold loadClip, isPlayerReady. rewrite Hready, Hfile. reflexivity.
Qed.

Lemma transition_loop_plays_to (remaining : nat) (path : list JsRange) (id : Z)
      (ret : Return) (st : Session.t) (args : LoadArgs.t) :
  Session.playerReady st = true ->
  id = Session.sequenceCounter st ->
  steady_load getStateConfig (last path None) = Some args ->
  forall i : nat,
    (i + remaining = List.length path - 1)%nat ->
    exists s,
      snd (transition_loop getStateConfig resolveTransition remaining path i id
             ret st) = Some s
      /\ plays_to getStateConfig (last path None) ret
           (fst (transition_loop getStateConfig resolveTransition remaining path
                   i id ret st)) s.
Proof.
  intros Hready Hlive Hargs.
  induction remaining as [|remaining IH]; intros i Hi; cbn [transition_loop].
  - rewrite nth_last.
    rewrite (playSteady_then_live _ id ret st args Hready Hlive Hargs).
    eexists. split; [reflexivity|]. cbn [fst plays_to]. split; [reflexivity|].
    exists args, (Session.loads st). cbn. rewrite Hlive. auto.
  - rewrite <- Hlive, Z.eqb_refl. cbn [negb].
    destruct (resolveTransition (nth i path None) (nth (i + 1) path None))
      as [transition|]; [|apply IH; lia].
    unfold loadClip, isPlayerReady. rewrite Hready. cbn [negb orb].
    destruct (negb (Js.truthy (Some (Plan.file transition)))).
    + unfold after_step_load. rewrite <- Hlive, Z.eqb_refl. cbn [negb].
      eexists. split; [reflexivity|]. cbn [fst plays_to delay].
      split; [reflexivity|]. split; [reflexivity|lia].
    + eexists. split; [reflexivity|]. cbn [fst plays_to].
      split; [reflexivity|]. split; [reflexivity|lia].
Qed.

Lemma playTransitionSequence_plays_to (path : list JsRange) (id : Z)
      (ret : Return) (st : Session.t) (args : LoadArgs.t) :
  Session.playerReady st = true ->
  id = Session.sequenceCounter st ->
  path <> [] ->
  steady_load getStateConfig (last path None) = Some args ->
  exists s,
    snd (playTransitionSequence getStateConfig resolveTransition path id ret st)
    = Some s
    /\ plays_to getStateConfig (last path None) ret
         (fst (playTransitionSequence getStateConfig resolveTransition path id
                 ret st)) s.
Proof.
  intros Hready Hlive Hne Hargs. unfold playTransitionSequence.
  destruct path as [|x [|y path]]; [contradiction| |].
  - cbn [last] in *.
    rewrite (playSteady_then_live x id ret st args Hready Hlive Hargs).
    eexists. split; [reflexivity|]. cbn [fst plays_to]. split; [reflexivity|].
    exists args, (Session.loads st). cbn. rewrite Hlive. auto.
  - apply (transition_loop_plays_to _ _ id ret st args Hready Hlive Hargs).
    cbn [List.length]. lia.
Qed.

(** Resuming a live sequence that leads to the steady clip of [target]:
    either it is suspended again, still leading there, or it has returned to
    [onReading] with that clip the last one asked for. *)
Lemma resume_plays_to (target : JsRange) (ret : Return) (s : Suspended) (id : Z)
      (st : Session.t) (args : LoadArgs.t) :
  Session.playerReady st = true ->
  id = Session.sequenceCounter st ->
  steady_load getStateConfig target = Some args ->
  plays_to getStateConfig target ret st s ->
  match snd (resume getStateConfig resolveTransition (cont s) id st) with
  | Some s' =>
      plays_to getStateConfig target ret
        (fst (resume getStateConfig resolveTransition (cont s) id st)) s'
  | None =>
      shows_steady getStateConfig target st
      /\ resume getStateConfig resolveTransition (cont s) id st
         = return_to_onReading ret st
  end.
Proof.
  intros Hready Hlive Hargs Hplays.
  destruct s as [k a].
  destruct k as [d n|n|ret'|path i d ret'|path i ret']; destruct a as [|due];
    cbn [plays_to] in Hplays; try contradiction; cbn [cont resume].
  - destruct Hplays as [-> ->]. cbn [snd fst plays_to delay]. auto.
  - destruct Hplays as [-> ->].
    rewrite (playSteady_then_live target id (RetAdvance target) st args
               Hready Hlive Hargs).
    cbn [snd fst plays_to]. split; [reflexivity|].
    exists args, (Session.loads st). cbn. rewrite Hlive. auto.
  - destruct Hplays as [-> Hshow].
    destruct ret; cbn [return_to_onReading snd]; auto.
  - destruct Hplays as [-> [Hlast Hi]]. unfold after_step_load.
    rewrite <- Hlive, Z.eqb_refl. cbn [negb snd fst plays_to delay]. auto.
  - destruct Hplays as [-> [Hlast Hi]]. subst target.
    destruct (transition_loop_plays_to (List.length path - 1 - (i + 1)) path id
                ret st args Hready Hlive Hargs (i + 1)%nat ltac:(lia))
      as [s' [E Hs']].
    rewrite E. exact Hs'.
Qed.

End LiveSequence.

(** ** The plain controller, when it is idle *)

Lemma find_remove_same (id : Z) (pending : list (Z * Suspended)) :
  Session.find id (Session.remove id pending) = None.
Proof.
  induction pending as [|[id' s] l IH]; cbn [Session.remove Session.find];
    [reflexivity|].
  destruct (Z.eqb_spec id' id) as [E|E]; [exact IH|].
  cbn [Session.find]. destruct (Z.eqb_spec id' id); [contradiction|exact IH].
Qed.

Lemma find_remove_other (id c : Z) (pending : list (Z * Suspended)) :
  id <> c ->
  Session.find c (Session.remove id pending) = Session.find c pending.
Proof.
  intro Hne.
  induction pending as [|[id' s] l IH]; cbn [Session.remove Session.find];
    [reflexivity|].
  destruct (Z.eqb_spec id' id) as [E|E].
  - subst id'. destruct (Z.eqb_spec id c); [contradiction|exact IH].
  - cbn [Session.find]. destruct (id' =? c); [reflexivity|exact IH].
Qed.

Lemma find_settle_same (id : Z) (run : Run) :
  Session.find id (Session.pending (settle id run)) = snd run.
Proof.
  destruct run as [st [s|]]; cbn [settle snd Session.set_pending Session.pending
                                    Session.find].
  - rewrite Z.eqb_refl. reflexivity.
  - apply find_remove_same.
Qed.

Lemma find_settle_other (id c : Z) (run : Run) :
  id <> c ->
  Session.find c (Session.pending (settle id run))
  = Session.find c (Session.pending (fst run)).
Proof.
  intro Hne.
  destruct run as [st [s|]]; cbn [settle fst Session.set_pending Session.pending
                                    Session.find].
  - destruct (Z.eqb_spec id c); [contradiction|].
    apply find_remove_other. exact Hne.
  - apply find_remove_other. exact Hne.
Qed.

Lemma shows_steady_same (getStateConfig : JsRange -> option StateConfig.t)
      (range : JsRange) (st st' : Session.t) :
  Session.loads st' = Session.loads st ->
  Session.sequenceCounter st' = Session.sequenceCounter st ->
  shows_steady getStateConfig range st ->
  shows_steady getStateConfig range st'.
Proof.
  intros Hl Hc [args [rest [E Ha]]]. exists args, rest.
  rewrite Hl, Hc. auto.
Qed.

Lemma plays_to_same (getStateConfig : JsRange -> option StateConfig.t)
      (target : JsRange) (ret : Return) (s : Suspended) (st st' : Session.t) :
  Session.loads st' = Session.loads st ->
  Session.sequenceCounter st' = Session.sequenceCounter st ->
  plays_to getStateConfig target ret st s ->
  plays_to getStateConfig target ret st' s.
Proof.
  intros Hl Hc.
  destruct s as [[d n|n|ret'|path i d ret'|path i ret'] [|due]];
    cbn [plays_to]; auto.
  intros [E H]. split; [exact E|].
  exact (shows_steady_same getStateConfig target st st' Hl Hc H).
Qed.

Lemma settle_loads (id : Z) (run : Run) :
  Session.loads (settle id run) = Session.loads (fst run).
Proof. destruct run as [st [s|]]; reflexivity. Qed.

Lemma settle_counter (id : Z) (run : Run) :
  Session.sequenceCounter (settle id run) = Session.sequenceCounter (fst run).
Proof. destruct run as [st [s|]]; reflexivity. Qed.

Lemma settle_previousRange (id : Z) (run : Run) :
  Session.previousRange (settle id run) = Session.previousRange (fst run).
Proof. destruct run as [st [s|]]; reflexivity. Qed.

Lemma S5_steady_load (name : string) :
  In name S5.STATE_SEQUENCE ->
  exists args, steady_load S5.getStateConfig (Some name) = Some args.
Proof.
  cbn. intros [<-|[<-|[<-|[<-|[<-|[]]]]]]; eexists; reflexivity.
Qed.

(** The path that [buildRangePath] returns for a name that is not empty is
    not empty and ends with that name. *)
Lemma buildRangePath_last (STATE_SEQUENCE : list string) (a b : JsRange) :
  ~ In ""%string STATE_SEQUENCE ->
  Js.truthy b = true ->
  exists path,
    buildRangePath STATE_SEQUENCE a b = Some path
    /\ path <> [] /\ last path None = b.
Proof.
  intros Hnames Tb.
  assert (Hone : buildRangePath STATE_SEQUENCE a b = Some [b] ->
                 exists path,
                   buildRangePath STATE_SEQUENCE a b = Some path
                   /\ path <> [] /\ last path None = b).
  { intro E. exists [b]. repeat split; [exact E|discriminate]. }
  destruct (Z.eq_dec (Js.indexOf STATE_SEQUENCE a) (-1)) as [Ea|Ea].
  { apply Hone. unfold buildRangePath, buildRangePath_fuel.
    rewrite Tb, Ea. cbn [negb orb Z.eqb].
    destruct (negb (Js.truthy a) || false); reflexivity. }
  destruct (Z.eq_dec (Js.indexOf STATE_SEQUENCE b) (-1)) as [Eb|Eb].
  { apply Hone. unfold buildRangePath, buildRangePath_fuel.
    rewrite Tb, Eb. cbn [negb orb Z.eqb]. rewrite orb_true_r.
    destruct (negb (Js.truthy a) || false); reflexivity. }
  destruct (buildRangePath_known STATE_SEQUENCE a b Hnames Ea Eb)
    as [path [H [L N]]].
  exists path. split; [exact H|]. split.
  - intro E. subst path. cbn in L. lia.
  - apply last_nth_error. rewrite N by lia. f_equal.
    rewrite <- (at_indexOf STATE_SEQUENCE b Eb) at 2. f_equal.
    rewrite Z.gtb_ltb.
    destruct (Z.ltb_spec (Js.indexOf STATE_SEQUENCE a) (Js.indexOf STATE_SEQUENCE b));
      lia.
Qed.

Lemma plain_initial_ok (now : Z) :
  plain_session_ok (PlainController.initial true now).
Proof.
  split; [reflexivity|]. split; [constructor|]. split.
  - exists "S1"%string. split; [reflexivity|cbn; auto].
  - left. repeat split.
Qed.

Lemma plain_up_to_date_same (st st' : Session.t) :
  Session.loads st' = Session.loads st ->
  Session.sequenceCounter st' = Session.sequenceCounter st ->
  Session.previousRange st' = Session.previousRange st ->
  Session.find (Session.sequenceCounter st') (Session.pending st')
  = Session.find (Session.sequenceCounter st) (Session.pending st) ->
  plain_up_to_date st -> plain_up_to_date st'.
Proof.
  intros Hl Hc Hp Hf. unfold plain_up_to_date. rewrite Hf, Hp.
  destruct (Session.find _ (Session.pending st)) as [s|].
  - apply plays_to_same; assumption.
  - intros [[E1 [E2 E3]]|H]; [left; rewrite Hl, Hc; auto|right].
    exact (shows_steady_same _ _ st st' Hl Hc H).
Qed.

Lemma plain_onReading_ok (dbValue : JsValue) (st : Session.t) :
  plain_session_ok st -> plain_session_ok (PlainController.onReading dbValue st).
Proof.
  intros [Hready [Hdone [Hprev Hup]]].
  pose proof (plain_onReading_done dbValue st Hdone) as Hdone'.
  destruct (plain_onReading_previousRange dbValue st Hdone Hready)
    as [Hp' Hready'].
  split; [exact Hready'|]. split; [exact Hdone'|]. split.
  { rewrite Hp'. apply S5_classify_five. }
  revert Hp'. unfold PlainController.onReading, isPlayerReady.
  rewrite Hready. cbn [negb]. rewrite S5_classify_normalised.
  destruct (S5_classify_five dbValue) as [name [E Hin]]. rewrite E.
  assert (Ht : Js.truthy (Some name) = true).
  { cbn in Hin. destruct Hin as [<-|[<-|[<-|[<-|[<-|[]]]]]]; reflexivity. }
  rewrite Ht. cbn [negb].
  destruct (Js.strict_eq (Some name) (Session.previousRange st));
    [intros _; exact Hup|].
  destruct (buildRangePath_last S5.STATE_SEQUENCE (Session.previousRange st)
              (Some name) S5_names Ht) as [path [Hpath [Hne Hlast]]].
  unfold S5.buildRangePath. rewrite Hpath.
  set (st1 := Session.set_previousRange (Some name) st).
  set (id := Session.sequenceCounter st1 + 1).
  set (st2 := Session.set_sequenceCounter id st1).
  intro Hp'.
  destruct (S5_steady_load name Hin) as [args Hargs].
  rewrite <- Hlast in Hargs.
  destruct (playTransitionSequence_plays_to S5.getStateConfig S5.resolveTransition
              path id RetDone st2 args Hready eq_refl Hne Hargs)
    as [s [Es Hs]].
  fold PlainController.playTransitionSequence in Es, Hs.
  unfold plain_up_to_date.
  pose proof (playTransitionSequence_playback_only S5.getStateConfig
                S5.resolveTransition path id RetDone st2) as Hframe.
  fold PlainController.playTransitionSequence in Hframe.
  destruct (settle_playback_only id st2 _ Hframe) as [Gc _].
  rewrite Gc. change (Session.sequenceCounter st2) with id.
  rewrite find_settle_same, Es, Hp', <- Hlast.
  apply (plays_to_same _ _ _ _
           (fst (PlainController.playTransitionSequence path id RetDone st2)));
    [apply settle_loads|apply settle_counter|exact Hs].
Qed.

(** The resumption of a suspended call of the plain controller, live or
    stale, keeps the invariant. *)
Lemma plain_resume_ok (id : Z) (s : Suspended) (st resumed : Session.t) :
  plain_session_ok st ->
  Session.find id (Session.pending st) = Some s ->
  resumed = st \/ resumed = Session.set_warnings (S (Session.warnings st)) st ->
  plain_session_ok
    (settle id (resume S5.getStateConfig S5.resolveTransition (cont s) id resumed)).
Proof.
  intros [Hready [Hdone [Hprev Hup]]] Hfind Hresumed.
  assert (Hsame : Session.playerReady resumed = true
                  /\ pending_return_done resumed
                  /\ Session.previousRange resumed = Session.previousRange st
                  /\ Session.loads resumed = Session.loads st
                  /\ Session.sequenceCounter resumed = Session.sequenceCounter st
                  /\ Session.pending resumed = Session.pending st).
  { destruct Hresumed as [->| ->]; cbn; auto 10. }
  destruct Hsame as [Hready' [Hdone' [Ep [El [Ec Epe]]]]].
  pose proof (find_done id _ _ Hdone Hfind) as Hk.
  set (run := resume S5.getStateConfig S5.resolveTransition (cont s) id resumed).
  pose proof (resume_done S5.getStateConfig S5.resolveTransition (cont s) id
                resumed Hk) as Hkeeps.
  fold run in Hkeeps.
  destruct (settle_done id resumed run Hdone' Hkeeps) as [Gdone Gprev].
  pose proof (resume_playback_only S5.getStateConfig S5.resolveTransition
                (cont s) id resumed) as Hframe.
  fold run in Hframe.
  destruct (settle_playback_only id resumed run Hframe)
    as [Gc [_ [Gr _]]].
  split; [rewrite Gr; exact Hready'|]. split; [exact Gdone|]. split.
  { rewrite Gprev, Ep. exact Hprev. }
  destruct Hkeeps as [Kp [Kpe _]].
  destruct (Z.eq_dec id (Session.sequenceCounter st)) as [Hlive|Hstale].
  - unfold plain_up_to_date in Hup. rewrite <- Hlive, Hfind in Hup.
    destruct Hprev as [name [Ename Hin]].
    destruct (S5_steady_load name Hin) as [args Hargs].
    rewrite <- Ename in Hargs.
    assert (Hplays : plays_to S5.getStateConfig (Session.previousRange st) RetDone
                       resumed s).
    { apply (plays_to_same _ _ _ _ st); assumption. }
    pose proof (resume_plays_to S5.getStateConfig S5.resolveTransition
                  (Session.previousRange st) RetDone s id resumed args Hready'
                  ltac:(congruence) Hargs Hplays) as Hres.
    fold run in Hres.
    unfold plain_up_to_date. rewrite Gc, Ec, <- Hlive.
    rewrite find_settle_same, Gprev, Ep.
    destruct (snd run) as [s'|].
    + apply (plays_to_same _ _ _ _ (fst run));
        [apply settle_loads|apply settle_counter|exact Hres].
    + right. destruct Hres as [Hshow Hrun].
      apply (shows_steady_same _ _ resumed).
      * rewrite settle_loads, Hrun. reflexivity.
      * exact Gc.
      * exact Hshow.
  - apply (plain_up_to_date_same st).
    + rewrite settle_loads. unfold run.
      rewrite (stale_resume_no_load S5.getStateConfig S5.resolveTransition
                 (cont s) id resumed) by congruence.
      exact El.
    + rewrite Gc. exact Ec.
    + rewrite Gprev. exact Ep.
    + rewrite Gc, Ec. rewrite find_settle_other by exact Hstale.
      rewrite Kpe, Epe. reflexivity.
    + exact Hup.
Qed.

Lemma plain_step_ok (e : Event) (st st' : Session.t) :
  plain_session_ok st ->
  PlainController.step e st = Some st' ->
  plain_session_ok st'.
Proof.
  intros Hok Hstep. unfold PlainController.step in Hstep.
  destruct (Session.hung st); [discriminate|].
  destruct e as [dt|dbValue|id ok|id].
  - destruct (dt <? 0); [discriminate|]. injection Hstep as <-. exact Hok.
  - injection Hstep as <-. apply plain_onReading_ok. exact Hok.
  - unfold on_load_settled in Hstep.
    destruct (Session.find id (Session.pending st)) as [[k [|due]]|] eqn:Hf;
      try discriminate.
    injection Hstep as <-.
    apply (plain_resume_ok id (mkSuspended k AwaitLoad) st _ Hok Hf).
    destruct ok; auto.
  - unfold on_timer_fired in Hstep.
    destruct (Session.find id (Session.pending st)) as [[k [|due]]|] eqn:Hf;
      try discriminate.
    destruct (due <=? Session.clock st); [|discriminate].
    injection Hstep as <-.
    apply (plain_resume_ok id (mkSuspended k (AwaitTimer due)) st _ Hok Hf).
    auto.
Qed.

Lemma plain_run_ok (es : list Event) :
  forall st st' : Session.t,
    plain_session_ok st ->
    PlainController.run es st = Some st' ->
    plain_session_ok st'.
Proof.
  induction es as [|e es IH]; intros st st' Hok Hrun.
  - injection Hrun as <-. exact Hok.
  - cbn [PlainController.run] in Hrun.
    destruct (PlainController.step e st) as [st1|] eqn:Hstep; [|discriminate].
    exact (IH st1 st' (plain_step_ok e st st1 Hok Hstep) Hrun).
Qed.

(** X20. The plain controller ends up showing the latest reading: with the
    player ready, after any schedule of readings, settled loads, timers and
    passing time, once the call of [onReading] that holds the latest token
    is no longer suspended, the last call made to the player is the load,
    under that token, of the steady clip of the range of the last reading,
    whatever sequences were superseded on the way; if the player was never
    called, that range is still the initial one. *)
Theorem plain_idle_shows_last_reading
  (es : list Event) (now : Z) (final : Session.t)
  (Hrun : PlainController.run es (PlainController.initial true now) = Some final)
  (Hidle : Session.find (Session.sequenceCounter final) (Session.pending final)
           = None) :
  let range :=
    S5.classify match last_reading es with
                | Some dbValue => dbValue
                | None => VNumber (Fin 0)
                end in
  match Session.loads final with
  | [] => range = S5.classify (VNumber (Fin 0))
  | (token, args) :: _ =>
      token = Session.sequenceCounter final
      /\ steady_load S5.getStateConfig range = Some args
  end.
Proof.
  intro range.
  assert (Hp : Session.previousRange final = range).
  { assert (Hdone : pending_return_done (PlainController.initial true now))
      by constructor.
    rewrite (plain_run_previousRange es _ final Hdone eq_refl Hrun).
    subst range. destruct (last_reading es); reflexivity. }
  destruct (plain_run_ok es _ final (plain_initial_ok now) Hrun)
    as [_ [_ [_ Hup]]].
  unfold plain_up_to_date in Hup. rewrite Hidle, Hp in Hup.
  destruct Hup as [[El [_ Er]]|[args [rest [El Ha]]]]; rewrite El; auto.
Qed.

Lemma plain_idle_shows_last_reading_witness :
  exists final : Session.t,
    PlainController.run
      (superseded_prefix_plain
       ++ [TimerFired 1; Advance 100; TimerFired 2; LoadSettled 2 true])
      (PlainController.initial true 0)
    = Some final
    /\ match Session.loads final with
       | [] => Some "S3"%string = S5.classify (VNumber (Fin 0))
       | (token, args) :: _ =>
           token = Session.sequenceCounter final
           /\ steady_load S5.getStateConfig (Some "S3"%string) = Some args
       end.
Proof.
  eexists. split; [vm_compute; reflexivity|].
  apply (plain_idle_shows_last_reading
           (superseded_prefix_plain
            ++ [TimerFired 1; Advance 100; TimerFired 2; LoadSettled 2 true]) 0);
    vm_compute; reflexivity.
Defined.

(** ** The tracker variant, used one reading at a time *)

Lemma update_range_known (this : SF.animationState.t) (dbValue : JsValue)
      (now : Z) :
  let this' := fst (SF.animationState.update this dbValue now) in
  let result := snd (SF.animationState.update this dbValue now) in
  SF.animationState.range result = SF.animationState.currentRange this'
  /\ Js.truthy (SF.animationState.range result) = true
  /\ exists args,
      steady_load SF.getStateConfig (SF.animationState.range result) = Some args.
Proof.
  intros this' result. subst this' result.
  unfold SF.animationState.update.
  destruct (SF.animationState.inSF this).
  - destruct (Js.strict_eq (SF.classify dbValue) (Some "S2"%string));
      cbn; repeat split; eexists; reflexivity.
  - destruct (Js.strict_eq (SF.classify dbValue) (Some "S3"%string)).
    + destruct (_ >=? _); cbn; repeat split; eexists; reflexivity.
    + cbn [fst snd SF.animationState.range SF.animationState.currentRange].
      destruct (SF_classify_three dbValue) as [E|[E|E]]; rewrite E;
        repeat split; eexists; reflexivity.
Qed.

Lemma serial_initial_ok (body : option string) (now : Z) :
  serial_session_ok (Controller.initial true body now).
Proof.
  split; [reflexivity|]. split; [reflexivity|]. cbn. split.
  - right. split; reflexivity.
  - left. split; reflexivity.
Qed.

(** A reading made while the controller is idle. *)
Lemma serial_onReading_ok (dbValue : JsValue) (st : Session.t) :
  serial_session_ok st ->
  Session.pending st = [] ->
  serial_session_ok (Controller.onReading dbValue st).
Proof.
  intros [Hready [Hhung Hinv]] Hidle. rewrite Hidle in Hinv.
  destruct Hinv as [_ Hshown].
  destruct (updateBackgroundColor_fields dbValue st)
    as [Ep [Ec [Et [Er [El [Ew [Ek [Epe Eh]]]]]]]].
  unfold Controller.onReading, isPlayerReady. rewrite Er, Hready. cbn [negb].
  rewrite Et, Ek.
  destruct (update_range_known (Session.tracker st) dbValue (Session.clock st))
    as [Hrange [Htruthy [args Hargs]]].
  destruct (SF.animationState.update (Session.tracker st) dbValue (Session.clock st))
    as [tracker' result].
  cbn [fst snd] in Hrange, Htruthy, Hargs.
  set (st0 := Controller.updateBackgroundColor dbValue st) in *.
  set (st1 := Session.set_tracker tracker' st0).
  rewrite Htruthy. cbn [negb].
  change (Session.previousRange st1) with (Session.previousRange st0).
  destruct (Js.strict_eq (SF.animationState.range result) (Session.previousRange st0)
            && negb (Js.is_some (SF.animationState.transition result))) eqn:Hfast.
  { apply andb_true_iff in Hfast as [Heq _]. apply strict_eq_true in Heq.
    split; [cbn; congruence|]. split; [cbn; congruence|].
    change (Session.pending st1) with (Session.pending st0). rewrite Epe, Hidle.
    split.
    - left. cbn. congruence.
    - change (Session.loads st1) with (Session.loads st0).
      change (Session.previousRange st1) with (Session.previousRange st0).
      rewrite El, Ep.
      destruct Hshown as [H|H]; [left; exact H|right].
      apply (shows_steady_same _ _ st); [exact El|exact Ec|exact H]. }
  clear Hfast.
  set (id := Session.sequenceCounter st1 + 1).
  set (st2 := Session.set_sequenceCounter id st1).
  assert (Hready2 : Session.playerReady st2 = true) by (cbn; congruence).
  assert (Hpending2 : Session.pending st2 = []) by (cbn; congruence).
  assert (Hhung2 : Session.hung st2 = false) by (cbn; congruence).
  assert (Hsettled : forall (run : Run) (s : Suspended),
             playback_only st2 (fst run) ->
             snd run = Some s ->
             plays_to SF.getStateConfig (SF.animationState.range result)
               (RetAdvance (SF.animationState.range result)) (fst run) s ->
             serial_session_ok (settle id run)).
  { intros run s Hframe Es Hplays.
    destruct (settle_playback_only id st2 run Hframe)
      as [Gc [Gt [Gr [_ [_ [_ Gh]]]]]].
    split; [rewrite Gr; exact Hready2|]. split; [rewrite Gh; exact Hhung2|].
    assert (Gp : Session.pending (settle id run) = [(id, s)]).
    { destruct run as [st' susp]. cbn [snd] in Es. subst susp.
      cbn [fst] in Hframe. cbn [settle Session.set_pending Session.pending].
      unfold playback_only in Hframe. rewrite Hframe. cbn [Session.pending].
      rewrite Hpending2. reflexivity. }
    rewrite Gp, Gc, Gt. cbn [Session.tracker Session.set_sequenceCounter st2 st1
                               Session.set_tracker Session.sequenceCounter].
    rewrite <- Hrange. split; [reflexivity|]. split; [exists args; exact Hargs|].
    apply (plays_to_same _ _ _ _ (fst run));
      [apply settle_loads|apply settle_counter|exact Hplays]. }
  destruct (SF.animationState.transition result) as [transition|].
  - unfold Controller.loadClip.
    pose proof (loadClip_playback_only id (Plan.file transition)
                  (Plan.mode transition) false st2) as Hl.
    destruct (loadClip id (Plan.file transition) (Plan.mode transition) false st2)
      as [st3 loading].
    cbn [fst] in Hl.
    destruct loading;
      (eapply Hsettled; [exact Hl|reflexivity|cbn [plays_to delay]; auto]).
  - destruct (buildRangePath_last SF.STATE_SEQUENCE (Session.previousRange st0)
                (SF.animationState.range result) SF_names Htruthy)
      as [path [Hpath [Hne Hlast]]].
    unfold SF.buildRangePath. rewrite Hpath.
    rewrite <- Hlast in Hargs.
    destruct (playTransitionSequence_plays_to SF.getStateConfig
                SF.resolveTransition path id
                (RetAdvance (SF.animationState.range result)) st2 args Hready2
                eq_refl Hne Hargs) as [s [Es Hs]].
    rewrite Hlast in Hs.
    apply (Hsettled _ s);
      [apply playTransitionSequence_playback_only|exact Es|exact Hs].
Qed.

(** The resumption of the one suspended call. *)
Lemma serial_resume_ok (id : Z) (s : Suspended) (st resumed : Session.t) :
  serial_session_ok st ->
  Session.find id (Session.pending st) = Some s ->
  resumed = st \/ resumed = Session.set_warnings (S (Session.warnings st)) st ->
  serial_session_ok
    (settle id (resume SF.getStateConfig SF.resolveTransition (cont s) id resumed)).
Proof.
  intros [Hready [Hhung Hinv]] Hfind Hresumed.
  destruct (Session.pending st) as [|[id0 s0] [|other rest]] eqn:Hpending;
    [discriminate| |contradiction].
  destruct Hinv as [Hid [[args Hargs] Hplays]].
  cbn [Session.find] in Hfind.
  destruct (Z.eqb_spec id0 id) as [Eid|Eid]; [|discriminate].
  injection Hfind as <-. subst id0. subst id.
  set (id := Session.sequenceCounter st) in *.
  assert (Hsame : Session.playerReady resumed = true
                  /\ Session.hung resumed = false
                  /\ Session.tracker resumed = Session.tracker st
                  /\ Session.loads resumed = Session.loads st
                  /\ Session.sequenceCounter resumed = Session.sequenceCounter st
                  /\ Session.pending resumed = [(id, s0)]).
  { destruct Hresumed as [->| ->]; cbn; auto 10. }
  destruct Hsame as [Hready' [Hhung' [Et [El [Ec Epe]]]]].
  fold id in Ec.
  set (target := SF.animationState.currentRange (Session.tracker st)) in *.
  assert (Hplays' : plays_to SF.getStateConfig target (RetAdvance target) resumed s0).
  { apply (plays_to_same _ _ _ _ st); assumption. }
  pose proof (resume_plays_to SF.getStateConfig SF.resolveTransition target
                (RetAdvance target) s0 id resumed args Hready'
                ltac:(congruence) Hargs Hplays') as Hres.
  set (run := resume SF.getStateConfig SF.resolveTransition (cont s0) id resumed)
    in *.
  pose proof (resume_playback_only SF.getStateConfig SF.resolveTransition
                (cont s0) id resumed) as Hframe.
  fold run in Hframe.
  destruct (settle_playback_only id resumed run Hframe)
    as [Gc [Gt [Gr [_ [_ [_ Gh]]]]]].
  split; [rewrite Gr; exact Hready'|]. split; [rewrite Gh; exact Hhung'|].
  assert (Gpe : Session.pending (fst run) = [(id, s0)]).
  { unfold playback_only in Hframe. rewrite Hframe. cbn. exact Epe. }
  destruct run as [st' [s'|]] eqn:Erun; cbn [fst snd] in *.
  - cbn [settle Session.set_pending Session.pending]. rewrite Gpe.
    cbn [Session.remove]. rewrite Z.eqb_refl. cbn [Session.remove].
    cbn [settle Session.set_pending Session.sequenceCounter Session.tracker]
      in Gc, Gt.
    cbn [Session.set_pending Session.sequenceCounter Session.tracker].
    rewrite Gc, Gt, Ec, Et. fold target.
    split; [reflexivity|]. split; [exists args; exact Hargs|].
    apply (plays_to_same _ _ _ _ st'); [reflexivity|reflexivity|exact Hres].
  - destruct Hres as [Hshow Hret].
    cbn [return_to_onReading] in Hret. injection Hret as Est'.
    cbn [settle Session.set_pending Session.pending]. rewrite Gpe.
    cbn [Session.remove]. rewrite Z.eqb_refl. cbn [Session.remove].
    subst st'. split.
    + left. cbn. rewrite Et. reflexivity.
    + right. destruct Hshow as [a [rest [E1 E2]]]. exists a, rest. cbn. auto.
Qed.

Lemma serial_step_ok (e : Event) (st st' : Session.t) :
  serial_session_ok st ->
  (is_reading e = true -> Session.pending st = []) ->
  Controller.step e st = Some st' ->
  serial_session_ok st'.
Proof.
  intros Hok Hserial Hstep. unfold Controller.step in Hstep.
  destruct (Session.hung st); [discriminate|].
  destruct e as [dt|dbValue|id ok|id].
  - destruct (dt <? 0); [discriminate|]. injection Hstep as <-.
    destruct Hok as [Hready [Hhung Hinv]].
    split; [exact Hready|]. split; [exact Hhung|].
    cbn [Session.set_clock Session.pending Session.previousRange Session.tracker
           Session.loads Session.sequenceCounter].
    destruct (Session.pending st) as [|[id0 s0] [|other rest]];
      [|destruct Hinv as [H1 [H2 H3]]; split; [exact H1|];
        split; [exact H2|]; apply (plays_to_same _ _ _ _ st);
        [reflexivity|reflexivity|exact H3]
       |exact Hinv].
    destruct Hinv as [H1 H2]. split; [exact H1|].
    destruct H2 as [H2|H2]; [left; exact H2|right].
    apply (shows_steady_same _ _ st); [reflexivity|reflexivity|exact H2].
  - injection Hstep as <-. apply serial_onReading_ok; [exact Hok|].
    apply Hserial. reflexivity.
  - unfold on_load_settled in Hstep.
    destruct (Session.find id (Session.pending st)) as [[k [|due]]|] eqn:Hf;
      try discriminate.
    injection Hstep as <-.
    apply (serial_resume_ok id (mkSuspended k AwaitLoad) st _ Hok Hf).
    destruct ok; auto.
  - unfold on_timer_fired in Hstep.
    destruct (Session.find id (Session.pending st)) as [[k [|due]]|] eqn:Hf;
      try discriminate.
    destruct (due <=? Session.clock st); [|discriminate].
    injection Hstep as <-.
    apply (serial_resume_ok id (mkSuspended k (AwaitTimer due)) st _ Hok Hf).
    auto.
Qed.

Lemma serial_run_ok (es : list Event) :
  forall st st' : Session.t,
    serial_session_ok st ->
    serial_from es st ->
    Controller.run es st = Some st' ->
    serial_session_ok st'.
Proof.
  induction es as [|e es IH]; intros st st' Hok Hserial Hrun.
  - injection Hrun as <-. exact Hok.
  - cbn [Controller.run] in Hrun. cbn [serial_from] in Hserial.
    destruct Hserial as [Hidle Hrest].
    destruct (Controller.step e st) as [st1|] eqn:Hstep; [|discriminate].
    exact (IH st1 st' (serial_step_ok e st st1 Hok Hidle Hstep) Hrest Hrun).
Qed.

(** X21. Used one reading at a time, the tracker variant is right: with
    the player ready, after any schedule in which every reading is made
    while no call of [onReading] is suspended, a controller that is idle
    again is in the current range of the tracker (in its initial range
    before the tracker has heard a reading), and the last call made to the
    player is the load, under the latest token, of the steady clip of that
    range; if the player was never called, the controller is still in its
    initial range. *)
Theorem serial_readings_settle
  (es : list Event) (body : option string) (now : Z) (final : Session.t)
  (Hrun : Controller.run es (Controller.initial true body now) = Some final)
  (Hserial : serial_from es (Controller.initial true body now))
  (Hidle : Session.pending final = []) :
  (settled final \/ before_first_reading final)
  /\ match Session.loads final with
     | [] => Session.previousRange final = Some "S1"%string
     | (token, args) :: _ =>
         token = Session.sequenceCounter final
         /\ steady_load SF.getStateConfig (Session.previousRange final)
            = Some args
     end.
Proof.
  destruct (serial_run_ok es _ final (serial_initial_ok body now) Hserial Hrun)
    as [_ [Hhung Hinv]].
  rewrite Hidle in Hinv. destruct Hinv as [Hrange Hshown]. split.
  - destruct Hrange as [H|H]; [left|right; exact H].
    unfold settled. auto.
  - destruct Hshown as [[El Ep]|[args [rest [El Ha]]]]; rewrite El; auto.
Qed.

Lemma serial_readings_settle_witness :
  exists final : Session.t,
    Controller.run
      [ Reading (VNumber (Fin 95)); LoadSettled 1 true;
        Advance 700; TimerFired 1; LoadSettled 1 true;
        Advance 467; TimerFired 1; LoadSettled 1 true;
        Advance 833; Reading (VNumber (Fin 80)); LoadSettled 2 true;
        Advance 467; TimerFired 2; LoadSettled 2 true ]
      (Controller.initial true (Some ""%string) 0)
    = Some final
    /\ (settled final \/ before_first_reading final)
    /\ match Session.loads final with
       | [] => Session.previousRange final = Some "S1"%string
       | (token, args) :: _ =>
           token = Session.sequenceCounter final
           /\ steady_load SF.getStateConfig (Session.previousRange final)
              = Some args
       end.
Proof.
  eexists. split; [vm_compute; reflexivity|].
  apply (serial_readings_settle
           [ Reading (VNumber (Fin 95)); LoadSettled 1 true;
             Advance 700; TimerFired 1; LoadSettled 1 true;
             Advance 467; TimerFired 1; LoadSettled 1 true;
             Advance 833; Reading (VNumber (Fin 80)); LoadSettled 2 true;
             Advance 467; TimerFired 2; LoadSettled 2 true ]
           (Some ""%string) 0).
  - vm_compute. reflexivity.
  - vm_compute. repeat split; intros; try reflexivity; discriminate.
  - vm_compute. reflexivity.
Defined.

(** ** A sequence played without interruption *)

Section Uninterrupted.

Variable getStateConfig : JsRange -> option StateConfig.t.
Variable resolveTransition : JsRange -> JsRange -> option Plan.t.

Lemma drive_done (steps : nat) (id : Z) (st : Session.t) :
  Session.find id (Session.pending st) = None ->
  drive getStateConfig resolveTransition steps id st = st.
Proof.
  intro H. destruct steps; cbn [drive]; [reflexivity|]. rewrite H. reflexivity.
Qed.

Lemma drive_load (steps : nat) (id : Z) (k : Cont) (st : Session.t) :
  Session.find id (Session.pending st) = Some (mkSuspended k AwaitLoad) ->
  drive getStateConfig resolveTransition (S steps) id st
  = drive getStateConfig resolveTransition steps id
      (settle id (resume getStateConfig resolveTransition k id st)).
Proof.
  intro H. cbn [drive]. rewrite H. unfold on_load_settled. rewrite H.
  reflexivity.
Qed.

Lemma drive_timer (steps : nat) (id : Z) (k : Cont) (due : Z) (st : Session.t) :
  Session.find id (Session.pending st) = Some (mkSuspended k (AwaitTimer due)) ->
  Session.clock st <= due ->
  drive getStateConfig resolveTransition (S steps) id st
  = drive getStateConfig resolveTransition steps id
      (settle id (resume getStateConfig resolveTransition k id
                    (Session.set_clock due st))).
Proof.
  intros H Hdue. cbn [drive]. rewrite H. unfold on_timer_fired.
  rewrite Z.max_r by exact Hdue.
  cbn [Session.set_clock Session.pending Session.clock]. rewrite H.
  rewrite Z.leb_refl. reflexivity.
Qed.

Lemma skipn_step {A : Type} (l : list A) (i : nat) (d : A) :
  (i < List.length l)%nat ->
  skipn i l = nth i l d :: skipn (S i) l.
Proof.
  revert i. induction l as [|x l IH]; intros i Hi; cbn [List.length] in Hi;
    [lia|].
  destruct i as [|i]; [reflexivity|]. cbn [skipn nth]. apply IH. lia.
Qed.

Lemma transition_loads_step (path : list JsRange) (i : nat) :
  (i + 1 < List.length path)%nat ->
  transition_loads resolveTransition (skipn i path)
  = match resolveTransition (nth i path None) (nth (i + 1) path None) with
    | Some transition => transition_clip transition
    | None => []
    end ++ transition_loads resolveTransition (skipn (i + 1) path)
  /\ transition_time resolveTransition (skipn i path)
     = match resolveTransition (nth i path None) (nth (i + 1) path None) with
       | Some transition => Z.max 0 (Plan.durationMs transition)
       | None => 0
       end + transition_time resolveTransition (skipn (i + 1) path).
Proof.
  intro Hi.
  rewrite (skipn_step path i None) by lia.
  replace (S i) with (i + 1)%nat by lia.
  rewrite (skipn_step path (i + 1) None) by lia.
  split; reflexivity.
Qed.

Lemma transition_loads_end (path : list JsRange) (i : nat) :
  (i + 1 = List.length path)%nat ->
  transition_loads resolveTransition (skipn i path) = []
  /\ transition_time resolveTransition (skipn i path) = 0.
Proof.
  intro Hi. rewrite (skipn_step path i None) by lia.
  rewrite (skipn_all2 path (n := S i)) by lia. split; reflexivity.
Qed.

Lemma settle_clock (id : Z) (run : Run) :
  Session.clock (settle id run) = Session.clock (fst run).
Proof. destruct run as [st [s|]]; reflexivity. Qed.

Lemma settle_ready (id : Z) (run : Run) :
  Session.playerReady (settle id run) = Session.playerReady (fst run).
Proof. destruct run as [st [s|]]; reflexivity. Qed.

(** The loop of [playTransitionSequence] from index [i], let run to its
    end. *)
Lemma transition_loop_driven (path : list JsRange) (id : Z) (ret : Return)
      (steady : LoadArgs.t) :
  steady_load getStateConfig (last path None) = Some steady ->
  forall (remaining i steps : nat) (st : Session.t),
    Session.playerReady st = true ->
    id = Session.sequenceCounter st ->
    (i + remaining = List.length path - 1)%nat ->
    (i < List.length path)%nat ->
    (2 * remaining + 1 <= steps)%nat ->
    let final :=
      drive getStateConfig resolveTransition steps id
        (settle id
           (transition_loop getStateConfig resolveTransition remaining path i id
              ret st)) in
    Session.loads final
    = map (pair id)
        (rev (transition_loads resolveTransition (skipn i path) ++ [steady]))
      ++ Session.loads st
    /\ Session.clock final
       = Session.clock st + transition_time resolveTransition (skipn i path)
    /\ Session.find id (Session.pending final) = None
    /\ Session.previousRange final = returned_range ret st
    /\ Session.sequenceCounter final = Session.sequenceCounter st.
Proof.
  intro Hsteady.
  induction remaining as [|remaining IH];
    intros i steps st Hready Hlive Hi Hlen Hsteps final; subst final;
    cbn [transition_loop].
  - rewrite nth_last.
    rewrite (playSteady_then_live getStateConfig _ id ret st steady Hready Hlive
               Hsteady).
    destruct steps as [|steps]; [lia|].
    rewrite (drive_load steps id (K_steady_loaded ret))
      by (rewrite find_settle_same; reflexivity).
    cbn [resume].
    rewrite drive_done by (rewrite find_settle_same; destruct ret; reflexivity).
    destruct (transition_loads_end path i ltac:(lia)) as [-> ->].
    rewrite settle_loads, settle_clock, settle_previousRange, settle_counter.
    rewrite find_settle_same.
    destruct ret; cbn [return_to_onReading fst snd returned_range];
      repeat split; try (cbn; lia); reflexivity.
  - assert (Hcheck : (id =? Session.sequenceCounter st) = true)
      by (apply Z.eqb_eq; exact Hlive).
    rewrite Hcheck. cbn [negb].
    destruct (transition_loads_step path i ltac:(lia)) as [-> ->].
    destruct (resolveTransition (nth i path None) (nth (i + 1) path None))
      as [transition|].
    2:{ cbn [app]. rewrite Z.add_0_l.
        apply (IH (i + 1)%nat steps st Hready Hlive); lia. }
    unfold loadClip, isPlayerReady, transition_clip.
    rewrite Hready. cbn [negb orb].
    destruct (Js.truthy (Some (Plan.file transition))); cbn [negb].
    + destruct steps as [|[|steps]]; try lia.
      rewrite (drive_load _ id
                 (K_step_loaded path i (Plan.durationMs transition) ret))
        by (rewrite find_settle_same; reflexivity).
      cbn [resume]. unfold after_step_load.
      rewrite settle_counter. cbn [fst Session.set_loads Session.sequenceCounter].
      rewrite Hcheck. cbn [negb].
      rewrite (drive_timer _ id (K_step_waited path i ret)
                 (Session.clock st + Z.max 0 (Plan.durationMs transition)))
        by (try (rewrite find_settle_same; reflexivity);
            repeat (rewrite settle_clock; cbn [fst]);
            cbn [Session.set_loads Session.clock]; lia).
      cbn [resume].
      replace (List.length path - 1 - (i + 1))%nat with remaining by lia.
      match goal with
      | |- context [transition_loop _ _ remaining path (i + 1) id ret ?X] =>
          destruct (IH (i + 1)%nat steps X) as [G1 [G2 [G3 [G4 G5]]]];
            [cbn [Session.set_clock Session.playerReady];
             rewrite !settle_ready; exact Hready
            |cbn [Session.set_clock Session.sequenceCounter];
             rewrite !settle_counter; exact Hlive
            |lia|lia|lia|]
      end.
      rewrite G1, G2, G3, G4, G5.
      cbn [Session.set_clock Session.loads Session.clock Session.sequenceCounter].
      repeat (rewrite settle_loads; cbn [fst]).
      repeat (rewrite settle_counter; cbn [fst]).
      cbn [Session.set_loads Session.loads Session.sequenceCounter].
      repeat split; try lia;
        try (destruct ret;
             cbn [returned_range Session.set_clock Session.previousRange];
             repeat (rewrite settle_previousRange; cbn [fst]); reflexivity).
      rewrite ?rev_app_distr. cbn [rev app map].
      rewrite map_app. cbn [map]. rewrite <- app_assoc. reflexivity.
    + destruct steps as [|steps]; try lia.
      unfold after_step_load. rewrite Hcheck. cbn [negb].
      rewrite (drive_timer _ id (K_step_waited path i ret)
                 (Session.clock st + Z.max 0 (Plan.durationMs transition)))
        by (try (rewrite find_settle_same; reflexivity);
            repeat (rewrite settle_clock; cbn [fst]);
            cbn [Session.set_loads Session.clock]; lia).
      cbn [resume].
      replace (List.length path - 1 - (i + 1))%nat with remaining by lia.
      match goal with
      | |- context [transition_loop _ _ remaining path (i + 1) id ret ?X] =>
          destruct (IH (i + 1)%nat steps X) as [G1 [G2 [G3 [G4 G5]]]];
            [cbn [Session.set_clock Session.playerReady];
             rewrite !settle_ready; exact Hready
            |cbn [Session.set_clock Session.sequenceCounter];
             rewrite !settle_counter; exact Hlive
            |lia|lia|lia|]
      end.
      rewrite G1, G2, G3, G4, G5.
      cbn [Session.set_clock Session.loads Session.clock Session.sequenceCounter].
      repeat (rewrite settle_loads; cbn [fst]).
      repeat (rewrite settle_counter; cbn [fst]).
      cbn [app]. repeat split; try lia;
        try (destruct ret;
             cbn [returned_range Session.set_clock Session.previousRange];
             repeat (rewrite settle_previousRange; cbn [fst]); reflexivity).
Qed.

(** A run that ends suspended has not been back in [onReading]:
    [previousRange] is as it was. *)
Lemma playSteady_then_suspended (range : JsRange) (id : Z) (ret : Return)
      (st : Session.t) (s : Suspended) :
  snd (playSteady_then getStateConfig range id ret st) = Some s ->
  Session.previousRange (fst (playSteady_then getStateConfig range id ret st))
  = Session.previousRange st.
Proof.
  unfold playSteady_then, playSteady.
  destruct (negb (id =? Session.sequenceCounter st)).
  { destruct ret; discriminate. }
  destruct (getStateConfig range) as [cfg|].
  2:{ destruct ret; discriminate. }
  match goal with
  | |- context [loadClip ?a ?b ?c ?d st] =>
      pose proof (proj1 (loadClip_previousRange a b c d st)) as H;
        destruct (loadClip a b c d st) as [st' loading]
  end.
  cbn [fst] in H. destruct loading; [intros _; exact H|].
  destruct ret; discriminate.
Qed.

Lemma transition_loop_suspended (path : list JsRange) (id : Z) (ret : Return)
      (remaining : nat) :
  forall (i : nat) (st : Session.t) (s : Suspended),
    snd (transition_loop getStateConfig resolveTransition remaining path i id
           ret st) = Some s ->
    Session.previousRange
      (fst (transition_loop getStateConfig resolveTransition remaining path i
              id ret st))
    = Session.previousRange st.
Proof.
  induction remaining as [|remaining IH]; intros i st s; cbn [transition_loop].
  { apply playSteady_then_suspended. }
  destruct (negb (id =? Session.sequenceCounter st)) eqn:Hstale.
  { destruct ret; discriminate. }
  destruct (resolveTransition (nth i path None) (nth (i + 1) path None))
    as [transition|]; [|apply IH].
  pose proof (proj1 (loadClip_previousRange id (Plan.file transition)
                       (Plan.mode transition) false st)) as H.
  assert (Hcounter : Session.sequenceCounter
                       (fst (loadClip id (Plan.file transition)
                               (Plan.mode transition) false st))
                     = Session.sequenceCounter st).
  { unfold loadClip. destruct (_ || _); reflexivity. }
  destruct (loadClip id (Plan.file transition) (Plan.mode transition) false st)
    as [st' loading].
  cbn [fst] in H, Hcounter.
  destruct loading; [intros _; exact H|].
  unfold after_step_load. rewrite Hcounter, Hstale. intros _. exact H.
Qed.

Lemma playTransitionSequence_suspended (path : list JsRange) (id : Z)
      (ret : Return) (st : Session.t) (s : Suspended) :
  snd (playTransitionSequence getStateConfig resolveTransition path id ret st)
  = Some s ->
  Session.previousRange
    (fst (playTransitionSequence getStateConfig resolveTransition path id ret
            st))
  = Session.previousRange st.
Proof.
  destruct path as [|a [|b rest]]; cbn [playTransitionSequence].
  - destruct ret; discriminate.
  - apply playSteady_then_suspended.
  - apply transition_loop_suspended.
Qed.

(** [playTransitionSequence] on a path that is not empty, let run to its
    end. *)
Lemma playTransitionSequence_driven (path : list JsRange) (id : Z)
      (ret : Return) (steady : LoadArgs.t) (steps : nat) (st : Session.t) :
  path <> [] ->
  steady_load getStateConfig (last path None) = Some steady ->
  Session.playerReady st = true ->
  id = Session.sequenceCounter st ->
  (2 * List.length path <= steps)%nat ->
  let final :=
    drive getStateConfig resolveTransition steps id
      (settle id
         (playTransitionSequence getStateConfig resolveTransition path id ret
            st)) in
  played_through id (transition_loads resolveTransition path) steady
    (transition_time resolveTransition path) st final
  /\ Session.previousRange final = returned_range ret st
  /\ Session.sequenceCounter final = Session.sequenceCounter st.
Proof.
  intros Hne Hsteady Hready Hlive Hsteps final. subst final.
  assert (E : playTransitionSequence getStateConfig resolveTransition path id
                ret st
              = transition_loop getStateConfig resolveTransition
                  (List.length path - 1) path 0 id ret st).
  { destruct path as [|a [|b rest]]; [congruence|reflexivity|reflexivity]. }
  rewrite E.
  assert (Hlen : (0 < List.length path)%nat)
    by (destruct path; [congruence|cbn; lia]).
  destruct (transition_loop_driven path id ret steady Hsteady
              (List.length path - 1) 0 steps st Hready Hlive)
    as [G1 [G2 [G3 [G4 G5]]]]; try lia.
  cbn [skipn] in G1, G2.
  repeat split; assumption.
Qed.

(** The single transition that [onReading] plays itself when the tracker
    names one, let run to its end. *)
Lemma single_transition_driven (transition : Plan.t) (nextRange : JsRange)
      (id : Z) (steady : LoadArgs.t) (steps : nat) (st : Session.t) :
  steady_load getStateConfig nextRange = Some steady ->
  Session.playerReady st = true ->
  id = Session.sequenceCounter st ->
  (3 <= steps)%nat ->
  let loaded :=
    loadClip id (Plan.file transition) (Plan.mode transition) false st in
  let final :=
    drive getStateConfig resolveTransition steps id
      (settle id
         (if snd loaded then
            (fst loaded,
             Some (mkSuspended
                     (K_transition_loaded (Plan.durationMs transition) nextRange)
                     AwaitLoad))
          else
            (fst loaded,
             Some (mkSuspended (K_transition_waited nextRange)
                     (delay (Plan.durationMs transition) (fst loaded)))))) in
  played_through id (transition_clip transition) steady
    (Z.max 0 (Plan.durationMs transition)) st final
  /\ Session.previousRange final = nextRange
  /\ Session.sequenceCounter final = Session.sequenceCounter st.
Proof.
  intros Hsteady Hready Hlive Hsteps loaded final. subst final loaded.
  unfold loadClip, isPlayerReady, transition_clip, played_through.
  rewrite Hready. cbn [negb orb].
  destruct steps as [|[|[|steps]]]; try lia.
  destruct (Js.truthy (Some (Plan.file transition))); cbn [negb fst snd].
  - rewrite (drive_load _ id
               (K_transition_loaded (Plan.durationMs transition) nextRange))
      by (rewrite find_settle_same; reflexivity).
    cbn [resume].
    rewrite (drive_timer _ id (K_transition_waited nextRange)
               (Session.clock st + Z.max 0 (Plan.durationMs transition)))
      by (try (rewrite find_settle_same; reflexivity);
          repeat (rewrite settle_clock; cbn [fst]);
          cbn [Session.set_loads Session.clock]; lia).
    cbn [resume].
    match goal with
    | |- context [playSteady_then _ nextRange id (RetAdvance nextRange) ?X] =>
        rewrite (playSteady_then_live getStateConfig nextRange id
                   (RetAdvance nextRange) X steady);
          [|cbn [Session.set_clock Session.playerReady];
            repeat (rewrite settle_ready; cbn [fst]); exact Hready
           |cbn [Session.set_clock Session.sequenceCounter];
            repeat (rewrite settle_counter; cbn [fst]); exact Hlive
           |exact Hsteady]
    end.
    rewrite (drive_load _ id (K_steady_loaded (RetAdvance nextRange)))
      by (rewrite find_settle_same; reflexivity).
    cbn [resume return_to_onReading].
    rewrite drive_done by (rewrite find_settle_same; reflexivity).
    rewrite find_settle_same.
    repeat (rewrite settle_loads; cbn [fst]).
    repeat (rewrite settle_clock; cbn [fst]).
    repeat (rewrite settle_previousRange; cbn [fst]).
    repeat (rewrite settle_counter; cbn [fst]).
    cbn. repeat split; try reflexivity;
      repeat (rewrite settle_loads; cbn [fst]); reflexivity.
  - rewrite (drive_timer _ id (K_transition_waited nextRange)
               (Session.clock st + Z.max 0 (Plan.durationMs transition)))
      by (try (rewrite find_settle_same; reflexivity);
          repeat (rewrite settle_clock; cbn [fst]); lia).
    cbn [resume].
    match goal with
    | |- context [playSteady_then _ nextRange id (RetAdvance nextRange) ?X] =>
        rewrite (playSteady_then_live getStateConfig nextRange id
                   (RetAdvance nextRange) X steady);
          [|cbn [Session.set_clock Session.playerReady];
            repeat (rewrite settle_ready; cbn [fst]); exact Hready
           |cbn [Session.set_clock Session.sequenceCounter];
            repeat (rewrite settle_counter; cbn [fst]); exact Hlive
           |exact Hsteady]
    end.
    rewrite (drive_load _ id (K_steady_loaded (RetAdvance nextRange)))
      by (rewrite find_settle_same; reflexivity).
    cbn [resume return_to_onReading].
    rewrite drive_done by (rewrite find_settle_same; reflexivity).
    rewrite find_settle_same.
    repeat (rewrite settle_loads; cbn [fst]).
    repeat (rewrite settle_clock; cbn [fst]).
    repeat (rewrite settle_previousRange; cbn [fst]).
    repeat (rewrite settle_counter; cbn [fst]).
    cbn. repeat split; try reflexivity;
      repeat (rewrite settle_loads; cbn [fst]); reflexivity.
Qed.

End Uninterrupted.

(** ** A reading that nothing interrupts *)

Lemma S5_names_not_empty : ~ In ""%string S5.STATE_SEQUENCE.
Proof. cbn. intuition discriminate. Qed.

Lemma SF_names_not_empty : ~ In ""%string SF.STATE_SEQUENCE.
Proof. cbn. intuition discriminate. Qed.

Lemma strict_eq_false (a b : JsRange) : a <> b -> Js.strict_eq a b = false.
Proof.
  intro H. destruct (Js.strict_eq a b) eqn:E; [|reflexivity].
  apply strict_eq_true in E. contradiction.
Qed.

(** X22.  The plain controller, ready, receives a reading whose range
    differs from [previousRange], and nothing else happens but the player
    settling each load and each timer firing when it is due.  Then within
    two resumptions per range of the path of [buildRangePath] the call has
    returned; the player was given the clip of every step of the path, in
    order, and last the steady clip of the range of the reading; the time
    that passed is the sum of the durations of the steps; [previousRange]
    is the range of the reading. *)
Theorem plain_reading_plays_whole_path (dbValue : JsValue) (st : Session.t) :
  Session.playerReady st = true ->
  S5.classify dbValue <> Session.previousRange st ->
  let id := Session.sequenceCounter st + 1 in
  exists (path : list JsRange) (steady : LoadArgs.t),
    S5.buildRangePath (Session.previousRange st) (S5.classify dbValue)
    = Some path
    /\ steady_load S5.getStateConfig (S5.classify dbValue) = Some steady
    /\ forall steps : nat,
        (2 * List.length path <= steps)%nat ->
        let final :=
          drive S5.getStateConfig S5.resolveTransition steps id
            (PlainController.onReading dbValue st) in
        played_through id (transition_loads S5.resolveTransition path) steady
          (transition_time S5.resolveTransition path) st final
        /\ Session.previousRange final = S5.classify dbValue
        /\ Session.sequenceCounter final = id.
Proof.
  intros Hready Hne id.
  destruct (S5_classify_five dbValue) as [name [E Hin]].
  assert (Htruthy : Js.truthy (Some name) = true).
  { cbn in Hin. destruct Hin as [<-|[<-|[<-|[<-|[<-|[]]]]]]; reflexivity. }
  destruct (buildRangePath_last S5.STATE_SEQUENCE (Session.previousRange st)
              (Some name) S5_names_not_empty Htruthy)
    as [path [Hpath [Hnonempty Hlast]]].
  destruct (S5_steady_load name Hin) as [steady Hsteady].
  rewrite E in *.
  exists path, steady. split; [exact Hpath|]. split; [exact Hsteady|].
  intros steps Hsteps final. subst final.
  unfold PlainController.onReading, isPlayerReady.
  rewrite Hready. cbn [negb].
  rewrite S5_classify_normalised, E, Htruthy. cbn [negb].
  rewrite (strict_eq_false _ _ Hne).
  unfold S5.buildRangePath. rewrite Hpath.
  unfold PlainController.playTransitionSequence.
  cbn [Session.set_previousRange Session.sequenceCounter]. fold id.
  set (st' := Session.set_sequenceCounter _ _).
  rewrite <- Hlast in Hsteady.
  destruct (playTransitionSequence_driven S5.getStateConfig S5.resolveTransition
              path id RetDone steady steps st' Hnonempty Hsteady)
    as [Hplayed [Hprev Hcounter]];
    [exact Hready|reflexivity|exact Hsteps|].
  split; [exact Hplayed|]. split; [|exact Hcounter].
  rewrite Hprev. reflexivity.
Qed.

Lemma plain_reading_plays_whole_path_witness :
  let st := PlainController.initial true 0 in
  let dbValue := VNumber (Fin 90) in
  exists (path : list JsRange) (steady : LoadArgs.t),
    S5.buildRangePath (Session.previousRange st) (S5.classify dbValue)
    = Some path
    /\ steady_load S5.getStateConfig (S5.classify dbValue) = Some steady
    /\ forall steps : nat,
        (2 * List.length path <= steps)%nat ->
        let final :=
          drive S5.getStateConfig S5.resolveTransition steps 1
            (PlainController.onReading dbValue st) in
        played_through 1 (transition_loads S5.resolveTransition path) steady
          (transition_time S5.resolveTransition path) st final
        /\ Session.previousRange final = S5.classify dbValue
        /\ Session.sequenceCounter final = 1.
Proof.
  apply (plain_reading_plays_whole_path (VNumber (Fin 90))
           (PlainController.initial true 0)).
  - reflexivity.
  - vm_compute. discriminate.
Defined.

(** X23.  The controller of [controller.js], ready, receives a reading for
    which it starts a sequence, and nothing else happens but the player
    settling each load and each timer firing when it is due.  When the
    tracker names a transition, the player is given its clip and, after its
    duration, the steady clip of the new range; otherwise it is given the
    clips of the steps of the path from [previousRange].  Only when the
    call returns is [previousRange] the new range. *)
Theorem tracker_reading_plays_to_end (dbValue : JsValue) (st : Session.t) :
  Session.playerReady st = true ->
  let result :=
    snd (SF.animationState.update (Session.tracker st) dbValue
           (Session.clock st)) in
  let nextRange := SF.animationState.range result in
  let id := Session.sequenceCounter st + 1 in
  nextRange <> Session.previousRange st
  \/ SF.animationState.transition result <> None ->
  exists steady : LoadArgs.t,
    steady_load SF.getStateConfig nextRange = Some steady
    /\ Session.previousRange (Controller.onReading dbValue st)
       = Session.previousRange st
    /\ match SF.animationState.transition result with
       | Some transition =>
           forall steps : nat,
             (3 <= steps)%nat ->
             let final :=
               drive SF.getStateConfig SF.resolveTransition steps id
                 (Controller.onReading dbValue st) in
             played_through id (transition_clip transition) steady
               (Z.max 0 (Plan.durationMs transition)) st final
             /\ Session.previousRange final = nextRange
       | None =>
           exists path : list JsRange,
             SF.buildRangePath (Session.previousRange st) nextRange = Some path
             /\ forall steps : nat,
                 (2 * List.length path <= steps)%nat ->
                 let final :=
                   drive SF.getStateConfig SF.resolveTransition steps id
                     (Controller.onReading dbValue st) in
                 played_through id (transition_loads SF.resolveTransition path)
                   steady (transition_time SF.resolveTransition path) st final
                 /\ Session.previousRange final = nextRange
       end.
Proof.
  intros Hready result nextRange id Hstart.
  destruct (updateBackgroundColor_fields dbValue st)
    as [Ep [Ec [Et [Er [El [Ew [Ek [Epe Eh]]]]]]]].
  destruct (update_range_known (Session.tracker st) dbValue (Session.clock st))
    as [_ [Htruthy [steady Hsteady]]].
  fold result in Htruthy, Hsteady. fold nextRange in Htruthy, Hsteady.
  exists steady. split; [exact Hsteady|].
  assert (Hgo : Js.strict_eq nextRange (Session.previousRange st)
                && negb (Js.is_some (SF.animationState.transition result))
                = false).
  { destruct Hstart as [H|H].
    - rewrite (strict_eq_false _ _ H). reflexivity.
    - destruct (SF.animationState.transition result); [|congruence].
      apply andb_false_r. }
  unfold Controller.onReading, isPlayerReady. rewrite Er, Hready. cbn [negb].
  rewrite Et, Ek.
  subst result nextRange.
  destruct (SF.animationState.update (Session.tracker st) dbValue
              (Session.clock st)) as [tracker' result].
  cbn [snd] in *.
  set (st0 := Controller.updateBackgroundColor dbValue st) in *.
  rewrite Htruthy. cbn [negb Session.set_tracker Session.previousRange].
  rewrite Ep, Hgo.
  set (st2 := Session.set_sequenceCounter _ _).
  change (Session.sequenceCounter (Session.set_tracker tracker' st0))
    with (Session.sequenceCounter st0) in *.
  assert (Hready2 : Session.playerReady st2 = true) by exact (eq_trans Er Hready).
  assert (Hid : id = Session.sequenceCounter st2)
    by (exact (f_equal (fun c => c + 1) (eq_sym Ec))).
  replace (Session.sequenceCounter st0 + 1) with id
    by (exact (f_equal (fun c => c + 1) (eq_sym Ec))).
  assert (Hloads : Session.loads st2 = Session.loads st) by exact El.
  assert (Hclock : Session.clock st2 = Session.clock st) by exact Ek.
  assert (Hprev2 : Session.previousRange st2 = Session.previousRange st)
    by exact Ep.
  destruct (SF.animationState.transition result) as [transition|].
  - split.
    { unfold Controller.loadClip.
      destruct (loadClip id (Plan.file transition) (Plan.mode transition) false
                  st2) as [st3 loading] eqn:Eload.
      assert (Hst3 : Session.previousRange st3 = Session.previousRange st2).
      { unfold loadClip in Eload.
        destruct (_ || _) in Eload; injection Eload as <- _; reflexivity. }
      rewrite settle_previousRange.
      destruct loading; cbn [fst]; congruence. }
    intros steps Hsteps.
    destruct (single_transition_driven SF.getStateConfig SF.resolveTransition
                transition (SF.animationState.range result) id steady steps st2
                Hsteady Hready2 Hid Hsteps)
      as [[G1 [G2 G3]] [G4 _]].
    unfold Controller.loadClip.
    destruct (loadClip id (Plan.file transition) (Plan.mode transition) false
                st2) as [st3 loading].
    cbn [fst snd] in G1, G2, G3, G4.
    split; [|exact G4].
    unfold played_through. rewrite <- Hloads, <- Hclock.
    repeat split; assumption.
  - destruct (buildRangePath_last SF.STATE_SEQUENCE (Session.previousRange st)
                (SF.animationState.range result) SF_names_not_empty Htruthy)
      as [path [Hpath [Hnonempty Hlast]]].
    unfold SF.buildRangePath. rewrite Hpath.
    split.
    { rewrite settle_previousRange.
      unfold Controller.playTransitionSequence.
      rewrite <- Hlast in Hsteady.
      destruct (playTransitionSequence_plays_to SF.getStateConfig
                  SF.resolveTransition path id
                  (RetAdvance (SF.animationState.range result)) st2 steady
                  Hready2 Hid Hnonempty Hsteady) as [s [Hs _]].
      rewrite (playTransitionSequence_suspended SF.getStateConfig
                 SF.resolveTransition path id _ st2 s Hs).
      exact Hprev2. }
    exists path. split; [reflexivity|].
    intros steps Hsteps.
    rewrite <- Hlast in Hsteady.
    destruct (playTransitionSequence_driven SF.getStateConfig
                SF.resolveTransition path id
                (RetAdvance (SF.animationState.range result)) steady steps st2
                Hnonempty Hsteady Hready2 Hid Hsteps)
      as [[G1 [G2 G3]] [G4 _]].
    split; [|exact G4].
    unfold played_through. rewrite <- Hloads, <- Hclock.
    repeat split; assumption.
Qed.

Lemma tracker_reading_plays_to_end_witness :
  let st := Controller.initial true None 0 in
  let dbValue := VNumber (Fin 80) in
  let result :=
    snd (SF.animationState.update (Session.tracker st) dbValue
           (Session.clock st)) in
  let nextRange := SF.animationState.range result in
  let id := Session.sequenceCounter st + 1 in
  exists steady : LoadArgs.t,
    steady_load SF.getStateConfig nextRange = Some steady
    /\ Session.previousRange (Controller.onReading dbValue st)
       = Session.previousRange st
    /\ match SF.animationState.transition result with
       | Some transition =>
           forall steps : nat,
             (3 <= steps)%nat ->
             let final :=
               drive SF.getStateConfig SF.resolveTransition steps id
                 (Controller.onReading dbValue st) in
             played_through id (transition_clip transition) steady
               (Z.max 0 (Plan.durationMs transition)) st final
             /\ Session.previousRange final = nextRange
       | None =>
           exists path : list JsRange,
             SF.buildRangePath (Session.previousRange st) nextRange = Some path
             /\ forall steps : nat,
                 (2 * List.length path <= steps)%nat ->
                 let final :=
                   drive SF.getStateConfig SF.resolveTransition steps id
                     (Controller.onReading dbValue st) in
                 played_through id (transition_loads SF.resolveTransition path)
                   steady (transition_time SF.resolveTransition path) st final
                 /\ Session.previousRange final = nextRange
       end.
Proof.
  apply (tracker_reading_plays_to_end (VNumber (Fin 80))
           (Controller.initial true None 0)).
  - reflexivity.
  - left. vm_compute. discriminate.
Defined.

(** ** The clips of a sequence, whatever the timing *)

Section OnPlan.

Variable getStateConfig : JsRange -> option StateConfig.t.
Variable resolveTransition : JsRange -> JsRange -> option Plan.t.

(** What a run of the loop adds to the loads, and what it leaves to do. *)
Lemma transition_loop_on_plan (path : list JsRange) (id : Z) (ret : Return)
      (steady : LoadArgs.t) :
  steady_load getStateConfig (last path None) = Some steady ->
  forall (remaining i : nat) (st : Session.t),
    Session.playerReady st = true ->
    id = Session.sequenceCounter st ->
    (i + remaining = List.length path - 1)%nat ->
    (i < List.length path)%nat ->
    exists (s : Suspended) (done rest : list LoadArgs.t),
      snd (transition_loop getStateConfig resolveTransition remaining path i id
             ret st) = Some s
      /\ transition_loads resolveTransition (skipn i path) ++ [steady]
         = done ++ rest
      /\ Session.loads
           (fst (transition_loop getStateConfig resolveTransition remaining
                   path i id ret st))
         = map (pair id) (rev done) ++ Session.loads st
      /\ remaining_clips getStateConfig resolveTransition (cont s) = Some rest.
Proof.
  intro Hsteady.
  induction remaining as [|remaining IH]; intros i st Hready Hlive Hi Hlen;
    cbn [transition_loop].
  - rewrite nth_last.
    rewrite (playSteady_then_live getStateConfig _ id ret st steady Hready Hlive
               Hsteady).
    destruct (transition_loads_end resolveTransition path i ltac:(lia))
      as [-> _].
    exists (mkSuspended (K_steady_loaded ret) AwaitLoad), [steady], [].
    repeat split.
  - assert (Hcheck : (id =? Session.sequenceCounter st) = true)
      by (apply Z.eqb_eq; exact Hlive).
    rewrite Hcheck. cbn [negb].
    destruct (transition_loads_step resolveTransition path i ltac:(lia))
      as [-> _].
    destruct (resolveTransition (nth i path None) (nth (i + 1) path None))
      as [transition|].
    2:{ cbn [app]. apply (IH (i + 1)%nat st Hready Hlive); lia. }
    assert (Hnext : (i + 1 <? List.length path)%nat = true)
      by (apply Nat.ltb_lt; lia).
    unfold loadClip, isPlayerReady, transition_clip.
    rewrite Hready. cbn [negb orb].
    destruct (Js.truthy (Some (Plan.file transition))); cbn [negb].
    + exists (mkSuspended
                (K_step_loaded path i (Plan.durationMs transition) ret)
                AwaitLoad),
             [LoadArgs.mk (Plan.file transition) true false
                (Plan.mode transition)],
             (transition_loads resolveTransition (skipn (i + 1) path)
              ++ [steady]).
      cbn [snd fst cont remaining_clips].
      rewrite Hnext, Hsteady.
      split; [reflexivity|]. split; [reflexivity|]. split; reflexivity.
    + unfold after_step_load. rewrite Hcheck. cbn [negb].
      exists (mkSuspended (K_step_waited path i ret)
                (delay (Plan.durationMs transition) st)),
             [],
             (transition_loads resolveTransition (skipn (i + 1) path)
              ++ [steady]).
      cbn [snd fst cont remaining_clips].
      rewrite Hnext, Hsteady.
      split; [reflexivity|]. split; [reflexivity|]. split; reflexivity.
Qed.

(** The same for [playTransitionSequence] on a path that is not empty. *)
Lemma playTransitionSequence_on_plan (path : list JsRange) (id : Z)
      (ret : Return) (steady : LoadArgs.t) (st : Session.t) :
  path <> [] ->
  steady_load getStateConfig (last path None) = Some steady ->
  Session.playerReady st = true ->
  id = Session.sequenceCounter st ->
  exists (s : Suspended) (done rest : list LoadArgs.t),
    snd (playTransitionSequence getStateConfig resolveTransition path id ret st)
    = Some s
    /\ transition_loads resolveTransition path ++ [steady] = done ++ rest
    /\ Session.loads
         (fst (playTransitionSequence getStateConfig resolveTransition path id
                 ret st))
       = map (pair id) (rev done) ++ Session.loads st
    /\ remaining_clips getStateConfig resolveTransition (cont s) = Some rest.
Proof.
  intros Hne Hsteady Hready Hlive.
  assert (E : playTransitionSequence getStateConfig resolveTransition path id
                ret st
              = transition_loop getStateConfig resolveTransition
                  (List.length path - 1) path 0 id ret st).
  { destruct path as [|a [|b rest]]; [congruence|reflexivity|reflexivity]. }
  rewrite E.
  assert (Hlen : (0 < List.length path)%nat)
    by (destruct path; [congruence|cbn; lia]).
  apply (transition_loop_on_plan path id ret steady Hsteady
           (List.length path - 1) 0 st Hready Hlive); lia.
Qed.

(** Resuming a call that is on its plan. *)
Lemma resume_on_plan (k : Cont) (id : Z) (st : Session.t)
      (rest : list LoadArgs.t) :
  Session.playerReady st = true ->
  id = Session.sequenceCounter st ->
  remaining_clips getStateConfig resolveTransition k = Some rest ->
  exists done rest' : list LoadArgs.t,
    rest = done ++ rest'
    /\ Session.loads (fst (resume getStateConfig resolveTransition k id st))
       = map (pair id) (rev done) ++ Session.loads st
    /\ match snd (resume getStateConfig resolveTransition k id st) with
       | Some s =>
           remaining_clips getStateConfig resolveTransition (cont s)
           = Some rest'
       | None => rest' = []
       end.
Proof.
  intros Hready Hlive Hrest.
  assert (Hcheck : (id =? Session.sequenceCounter st) = true)
    by (apply Z.eqb_eq; exact Hlive).
  destruct k as [d nextRange|nextRange|ret|path i d ret|path i ret];
    cbn [remaining_clips] in Hrest; cbn [resume].
  - exists [], rest. cbn [snd fst cont remaining_clips].
    repeat split. exact Hrest.
  - destruct (steady_load getStateConfig nextRange) as [steady|] eqn:Hsteady;
      [|discriminate].
    injection Hrest as <-.
    rewrite (playSteady_then_live getStateConfig nextRange id _ st steady Hready
               Hlive Hsteady).
    exists [steady], []. repeat split.
  - injection Hrest as <-. exists [], [].
    destruct ret; repeat split.
  - unfold after_step_load. rewrite Hcheck. cbn [negb].
    exists [], rest. cbn [snd fst cont remaining_clips].
    repeat split. exact Hrest.
  - destruct (i + 1 <? List.length path)%nat eqn:Hnext; [|discriminate].
    apply Nat.ltb_lt in Hnext.
    destruct (steady_load getStateConfig (last path None)) as [steady|]
      eqn:Hsteady; [|discriminate].
    injection Hrest as <-.
    destruct (transition_loop_on_plan path id ret steady Hsteady
                (List.length path - 1 - (i + 1)) (i + 1) st Hready Hlive)
      as [s [done [rest' [Hs [Hsplit [Hloads Hleft]]]]]]; try lia.
    exists done, rest'. rewrite Hs.
    split; [exact Hsplit|]. split; [exact Hloads|exact Hleft].
Qed.

(** A call on its plan stays on it when it is resumed. *)
Lemma settle_on_plan (id : Z) (planned : list LoadArgs.t) (st0 st st1 : Session.t)
      (s : Suspended) :
  on_plan getStateConfig resolveTransition id planned st0 st ->
  Session.find id (Session.pending st) = Some s ->
  Session.playerReady st1 = Session.playerReady st ->
  Session.sequenceCounter st1 = Session.sequenceCounter st ->
  Session.loads st1 = Session.loads st ->
  Session.pending st1 = Session.pending st ->
  on_plan getStateConfig resolveTransition id planned st0
    (settle id (resume getStateConfig resolveTransition (cont s) id st1)).
Proof.
  intros [Hready [Hid [Hothers [done [rest [Hplan [Hloads Hleft]]]]]]]
         Hfind Er Ec El Ep.
  rewrite Hfind in Hleft.
  destruct (settle_playback_only id st1
              (resume getStateConfig resolveTransition (cont s) id st1)
              (resume_playback_only getStateConfig resolveTransition (cont s) id
                 st1))
    as [Gc [_ [Gr _]]].
  split; [rewrite Gr, Er; exact Hready|].
  split; [rewrite Gc, Ec; exact Hid|].
  split.
  { intros other Hother. rewrite find_settle_other by congruence.
    pose proof (resume_playback_only getStateConfig resolveTransition (cont s)
                  id st1) as Hframe.
    unfold playback_only in Hframe. rewrite Hframe. cbn [Session.pending].
    rewrite Ep. apply Hothers. exact Hother. }
  destruct (resume_on_plan (cont s) id st1 rest)
    as [done' [rest' [Hsplit [Hloads' Hleft']]]];
    [congruence|congruence|exact Hleft|].
  exists (done ++ done'), rest'.
  split; [rewrite Hplan, Hsplit; apply app_assoc|].
  split.
  - rewrite settle_loads, Hloads', El, Hloads.
    rewrite rev_app_distr, map_app. apply app_assoc.
  - rewrite find_settle_same. exact Hleft'.
Qed.

Lemma on_load_settled_on_plan (id other : Z) (ok : bool)
      (planned : list LoadArgs.t) (st0 st st' : Session.t) :
  on_plan getStateConfig resolveTransition id planned st0 st ->
  on_load_settled getStateConfig resolveTransition other ok st = Some st' ->
  on_plan getStateConfig resolveTransition id planned st0 st'.
Proof.
  intros Hplan Hstep. unfold on_load_settled in Hstep.
  destruct (Z.eq_dec other id) as [->|Hother].
  2:{ destruct Hplan as [_ [_ [Hothers _]]].
      rewrite (Hothers other Hother) in Hstep. discriminate. }
  destruct (Session.find id (Session.pending st)) as [[k [|due]]|] eqn:Hfind;
    try discriminate.
  injection Hstep as <-.
  apply (settle_on_plan id planned st0 st _ (mkSuspended k AwaitLoad) Hplan
           Hfind); destruct ok; reflexivity.
Qed.

Lemma on_timer_fired_on_plan (id other : Z) (planned : list LoadArgs.t)
      (st0 st st' : Session.t) :
  on_plan getStateConfig resolveTransition id planned st0 st ->
  on_timer_fired getStateConfig resolveTransition other st = Some st' ->
  on_plan getStateConfig resolveTransition id planned st0 st'.
Proof.
  intros Hplan Hstep. unfold on_timer_fired in Hstep.
  destruct (Z.eq_dec other id) as [->|Hother].
  2:{ destruct Hplan as [_ [_ [Hothers _]]].
      rewrite (Hothers other Hother) in Hstep. discriminate. }
  destruct (Session.find id (Session.pending st)) as [[k [|due]]|] eqn:Hfind;
    try discriminate.
  destruct (due <=? Session.clock st); [|discriminate].
  injection Hstep as <-.
  apply (settle_on_plan id planned st0 st _ (mkSuspended k (AwaitTimer due))
           Hplan Hfind); reflexivity.
Qed.

(** A call started while no other is under way is on its plan at its
    first suspension. *)
Lemma start_on_plan (id : Z) (st0 st : Session.t) (run : Run) (s : Suspended)
      (done rest : list LoadArgs.t) :
  Session.playerReady st = true ->
  Session.sequenceCounter st = id ->
  Session.pending st = [] ->
  Session.loads st = Session.loads st0 ->
  playback_only st (fst run) ->
  snd run = Some s ->
  Session.loads (fst run) = map (pair id) (rev done) ++ Session.loads st ->
  remaining_clips getStateConfig resolveTransition (cont s) = Some rest ->
  on_plan getStateConfig resolveTransition id (done ++ rest) st0
    (settle id run).
Proof.
  intros Hready Hid Hidle Hsame Hframe Hs Hloads Hleft.
  destruct (settle_playback_only id st run Hframe) as [Gc [_ [Gr _]]].
  split; [rewrite Gr; exact Hready|].
  split; [rewrite Gc; exact Hid|].
  split.
  { intros other Hother. rewrite find_settle_other by congruence.
    unfold playback_only in Hframe. rewrite Hframe. cbn [Session.pending].
    rewrite Hidle. reflexivity. }
  exists done, rest. split; [reflexivity|].
  split; [rewrite settle_loads, Hloads, Hsame; reflexivity|].
  rewrite find_settle_same, Hs. exact Hleft.
Qed.

End OnPlan.

Lemma set_loads_playback_only (loads : list (Z * LoadArgs.t)) (st : Session.t) :
  playback_only st (Session.set_loads loads st).
Proof. destruct st; reflexivity. Qed.

Lemma plain_quiet_run_on_plan (id : Z) (planned : list LoadArgs.t)
      (st0 : Session.t) (es : list Event) :
  forall st final : Session.t,
    on_plan S5.getStateConfig S5.resolveTransition id planned st0 st ->
    (forall dbValue : JsValue, ~ In (Reading dbValue) es) ->
    PlainController.run es st = Some final ->
    on_plan S5.getStateConfig S5.resolveTransition id planned st0 final.
Proof.
  induction es as [|e es IH]; intros st final Hplan Hquiet Hrun;
    cbn [PlainController.run] in Hrun.
  { injection Hrun as <-. exact Hplan. }
  destruct (PlainController.step e st) as [st1|] eqn:Hstep; [|discriminate].
  apply (IH st1 final); [|intros v Hv; apply (Hquiet v); right; exact Hv
                         |exact Hrun].
  unfold PlainController.step in Hstep.
  destruct (Session.hung st); [discriminate|].
  destruct e as [dt|dbValue|other ok|other].
  - destruct (dt <? 0); [discriminate|]. injection Hstep as <-. exact Hplan.
  - exfalso. apply (Hquiet dbValue). left. reflexivity.
  - exact (on_load_settled_on_plan _ _ id other ok planned st0 st st1 Hplan
             Hstep).
  - exact (on_timer_fired_on_plan _ _ id other planned st0 st st1 Hplan Hstep).
Qed.

Lemma tracker_quiet_run_on_plan (id : Z) (planned : list LoadArgs.t)
      (st0 : Session.t) (es : list Event) :
  forall st final : Session.t,
    on_plan SF.getStateConfig SF.resolveTransition id planned st0 st ->
    (forall dbValue : JsValue, ~ In (Reading dbValue) es) ->
    Controller.run es st = Some final ->
    on_plan SF.getStateConfig SF.resolveTransition id planned st0 final.
Proof.
  induction es as [|e es IH]; intros st final Hplan Hquiet Hrun;
    cbn [Controller.run] in Hrun.
  { injection Hrun as <-. exact Hplan. }
  destruct (Controller.step e st) as [st1|] eqn:Hstep; [|discriminate].
  apply (IH st1 final); [|intros v Hv; apply (Hquiet v); right; exact Hv
                         |exact Hrun].
  unfold Controller.step in Hstep.
  destruct (Session.hung st); [discriminate|].
  destruct e as [dt|dbValue|other ok|other].
  - destruct (dt <? 0); [discriminate|]. injection Hstep as <-. exact Hplan.
  - exfalso. apply (Hquiet dbValue). left. reflexivity.
  - exact (on_load_settled_on_plan _ _ id other ok planned st0 st st1 Hplan
             Hstep).
  - exact (on_timer_fired_on_plan _ _ id other planned st0 st st1 Hplan Hstep).
Qed.

(** X24.  The plain controller, ready and with no call under way,
    receives a reading whose range differs from [previousRange]; then the
    player settles or rejects loads and timers fire, at any pace, and no
    other reading arrives.  At every moment the player has been given,
    since the reading, a first part of the clips of the path of
    [buildRangePath] followed by the steady clip of the new range, in
    that order, each once; when the call has returned it has been given
    all of them. *)
Theorem plain_clips_follow_the_path (dbValue : JsValue) (st : Session.t)
        (es : list Event) (final : Session.t) :
  Session.playerReady st = true ->
  Session.pending st = [] ->
  S5.classify dbValue <> Session.previousRange st ->
  (forall other : JsValue, ~ In (Reading other) es) ->
  PlainController.run es (PlainController.onReading dbValue st) = Some final ->
  let id := Session.sequenceCounter st + 1 in
  exists (path : list JsRange) (steady : LoadArgs.t)
         (done rest : list LoadArgs.t),
    S5.buildRangePath (Session.previousRange st) (S5.classify dbValue)
    = Some path
    /\ steady_load S5.getStateConfig (S5.classify dbValue) = Some steady
    /\ transition_loads S5.resolveTransition path ++ [steady] = done ++ rest
    /\ Session.loads final = map (pair id) (rev done) ++ Session.loads st
    /\ (Session.find id (Session.pending final) = None -> rest = []).
Proof.
  intros Hready Hidle Hne Hquiet Hrun id.
  destruct (S5_classify_five dbValue) as [name [E Hin]].
  assert (Htruthy : Js.truthy (Some name) = true).
  { cbn in Hin. destruct Hin as [<-|[<-|[<-|[<-|[<-|[]]]]]]; reflexivity. }
  destruct (buildRangePath_last S5.STATE_SEQUENCE (Session.previousRange st)
              (Some name) S5_names_not_empty Htruthy)
    as [path [Hpath [Hnonempty Hlast]]].
  destruct (S5_steady_load name Hin) as [steady Hsteady].
  rewrite E in *.
  unfold PlainController.onReading, isPlayerReady in Hrun.
  rewrite Hready in Hrun. cbn [negb] in Hrun.
  rewrite S5_classify_normalised, E, Htruthy in Hrun. cbn [negb] in Hrun.
  rewrite (strict_eq_false _ _ Hne) in Hrun.
  unfold S5.buildRangePath in Hrun. rewrite Hpath in Hrun.
  unfold PlainController.playTransitionSequence in Hrun.
  cbn [Session.set_previousRange Session.sequenceCounter] in Hrun.
  fold id in Hrun.
  set (st' := Session.set_sequenceCounter _ _) in Hrun.
  rewrite <- Hlast in Hsteady.
  destruct (playTransitionSequence_on_plan S5.getStateConfig
              S5.resolveTransition path id RetDone steady st' Hnonempty Hsteady
              Hready eq_refl)
    as [s [done [rest [Hs [Hsplit [Hloads Hleft]]]]]].
  assert (Hstart : on_plan S5.getStateConfig S5.resolveTransition id
                     (done ++ rest) st
                     (settle id
                        (playTransitionSequence S5.getStateConfig
                           S5.resolveTransition path id RetDone st'))).
  { apply (start_on_plan S5.getStateConfig S5.resolveTransition id st st' _ s);
      try assumption; try reflexivity.
    apply playTransitionSequence_playback_only. }
  destruct (plain_quiet_run_on_plan id (done ++ rest) st es _ final Hstart
              Hquiet Hrun)
    as [_ [_ [_ [done' [rest' [Hplan [Hloads' Hleft']]]]]]].
  exists path, steady, done', rest'.
  rewrite Hlast in Hsteady.
  split; [exact Hpath|]. split; [exact Hsteady|].
  split; [rewrite Hsplit; exact Hplan|]. split; [exact Hloads'|].
  intro Hnone. rewrite Hnone in Hleft'. exact Hleft'.
Qed.

Lemma plain_clips_follow_the_path_witness :
  let st := PlainController.initial true 0 in
  let es :=
    [LoadSettled 1 false; Advance 2000; TimerFired 1; LoadSettled 1 true;
     Advance 2500; TimerFired 1; LoadSettled 1 true] in
  let final :=
    match PlainController.run es
            (PlainController.onReading (VNumber (Fin 90)) st) with
    | Some final => final
    | None => st
    end in
  exists (path : list JsRange) (steady : LoadArgs.t)
         (done rest : list LoadArgs.t),
    S5.buildRangePath (Session.previousRange st)
      (S5.classify (VNumber (Fin 90)))
    = Some path
    /\ steady_load S5.getStateConfig (S5.classify (VNumber (Fin 90)))
       = Some steady
    /\ transition_loads S5.resolveTransition path ++ [steady] = done ++ rest
    /\ Session.loads final = map (pair 1) (rev done) ++ Session.loads st
    /\ (Session.find 1 (Session.pending final) = None -> rest = []).
Proof.
  intros st es final.
  apply (plain_clips_follow_the_path (VNumber (Fin 90)) st es final).
  - reflexivity.
  - reflexivity.
  - vm_compute. discriminate.
  - intros other H. cbn in H. intuition discriminate.
  - vm_compute. reflexivity.
Defined.

(** X25.  The controller of [controller.js], ready and with no call under
    way, receives a reading for which it starts a sequence; then the player
    settles or rejects loads and timers fire, at any pace, and no other
    reading arrives.  The plan is the clip of the transition that the
    tracker names or, when it names none, the clips of the path from
    [previousRange], and last the steady clip of the new range.  At every
    moment the player has been given a first part of the plan, in order,
    each clip once; when the call has returned it has been given all of
    it. *)
Theorem tracker_clips_follow_the_plan (dbValue : JsValue) (st : Session.t)
        (es : list Event) (final : Session.t) :
  Session.playerReady st = true ->
  Session.pending st = [] ->
  let result :=
    snd (SF.animationState.update (Session.tracker st) dbValue
           (Session.clock st)) in
  let nextRange := SF.animationState.range result in
  let id := Session.sequenceCounter st + 1 in
  nextRange <> Session.previousRange st
  \/ SF.animationState.transition result <> None ->
  (forall other : JsValue, ~ In (Reading other) es) ->
  Controller.run es (Controller.onReading dbValue st) = Some final ->
  exists (steady : LoadArgs.t) (planned done rest : list LoadArgs.t),
    steady_load SF.getStateConfig nextRange = Some steady
    /\ match SF.animationState.transition result with
       | Some transition => planned = transition_clip transition
       | None =>
           exists path : list JsRange,
             SF.buildRangePath (Session.previousRange st) nextRange = Some path
             /\ planned = transition_loads SF.resolveTransition path
       end
    /\ planned ++ [steady] = done ++ rest
    /\ Session.loads final = map (pair id) (rev done) ++ Session.loads st
    /\ (Session.find id (Session.pending final) = None -> rest = []).
Proof.
  intros Hready Hidle result nextRange id Hstart Hquiet Hrun.
  destruct (updateBackgroundColor_fields dbValue st)
    as [Ep [Ec [Et [Er [El [Ew [Ek [Epe Eh]]]]]]]].
  destruct (update_range_known (Session.tracker st) dbValue (Session.clock st))
    as [_ [Htruthy [steady Hsteady]]].
  fold result in Htruthy, Hsteady. fold nextRange in Htruthy, Hsteady.
  assert (Hgo : Js.strict_eq nextRange (Session.previousRange st)
                && negb (Js.is_some (SF.animationState.transition result))
                = false).
  { destruct Hstart as [H|H].
    - rewrite (strict_eq_false _ _ H). reflexivity.
    - destruct (SF.animationState.transition result); [|congruence].
      apply andb_false_r. }
  unfold Controller.onReading, isPlayerReady in Hrun.
  rewrite Er, Hready in Hrun. cbn [negb] in Hrun.
  rewrite Et, Ek in Hrun.
  subst result nextRange.
  destruct (SF.animationState.update (Session.tracker st) dbValue
              (Session.clock st)) as [tracker' result].
  cbn [snd] in *.
  set (st0 := Controller.updateBackgroundColor dbValue st) in *.
  rewrite Htruthy in Hrun.
  cbn [negb Session.set_tracker Session.previousRange] in Hrun.
  rewrite Ep, Hgo in Hrun.
  change (Session.sequenceCounter (Session.set_tracker tracker' st0))
    with (Session.sequenceCounter st0) in *.
  set (st2 := Session.set_sequenceCounter _ _) in Hrun.
  assert (Hready2 : Session.playerReady st2 = true) by exact (eq_trans Er Hready).
  assert (Hid : Session.sequenceCounter st2 = id)
    by (exact (f_equal (fun c => c + 1) Ec)).
  assert (Hloads2 : Session.loads st2 = Session.loads st) by exact El.
  assert (Hidle2 : Session.pending st2 = []) by exact (eq_trans Epe Hidle).
  replace (Session.sequenceCounter st0 + 1) with id in Hrun
    by (exact (f_equal (fun c => c + 1) (eq_sym Ec))).
  exists steady.
  destruct (SF.animationState.transition result) as [transition|].
  - assert (Hstarted :
             on_plan SF.getStateConfig SF.resolveTransition id
               (transition_clip transition ++ [steady]) st
               (let '(st1, loading) :=
                  Controller.loadClip id (Plan.file transition)
                    (Plan.mode transition) false st2 in
                settle id
                  (if loading then
                     (st1,
                      Some (mkSuspended
                              (K_transition_loaded (Plan.durationMs transition)
                                 (SF.animationState.range result))
                              AwaitLoad))
                   else
                     (st1,
                      Some (mkSuspended
                              (K_transition_waited
                                 (SF.animationState.range result))
                              (delay (Plan.durationMs transition) st1)))))).
    { unfold Controller.loadClip, loadClip, isPlayerReady, transition_clip.
      rewrite Hready2. cbn [negb orb].
      destruct (Js.truthy (Some (Plan.file transition))); cbn [negb].
      - apply (start_on_plan SF.getStateConfig SF.resolveTransition id st st2
                 _ (mkSuspended
                      (K_transition_loaded (Plan.durationMs transition)
                         (SF.animationState.range result)) AwaitLoad)
                 [LoadArgs.mk (Plan.file transition) true false
                    (Plan.mode transition)] [steady]);
          try assumption; try reflexivity;
          try apply set_loads_playback_only.
        cbn [cont remaining_clips]. rewrite Hsteady. reflexivity.
      - apply (start_on_plan SF.getStateConfig SF.resolveTransition id st st2
                 _ (mkSuspended
                      (K_transition_waited (SF.animationState.range result))
                      (delay (Plan.durationMs transition) st2))
                 [] [steady]);
          try assumption; try reflexivity;
          try apply playback_only_refl.
        cbn [cont remaining_clips]. rewrite Hsteady. reflexivity. }
    destruct (tracker_quiet_run_on_plan id _ st es _ final Hstarted Hquiet Hrun)
      as [_ [_ [_ [done [rest [Hplan [Hloads Hleft]]]]]]].
    exists (transition_clip transition), done, rest.
    split; [exact Hsteady|]. split; [reflexivity|].
    split; [exact Hplan|]. split; [exact Hloads|].
    intro Hnone. rewrite Hnone in Hleft. exact Hleft.
  - destruct (buildRangePath_last SF.STATE_SEQUENCE (Session.previousRange st)
                (SF.animationState.range result) SF_names_not_empty Htruthy)
      as [path [Hpath [Hnonempty Hlast]]].
    unfold SF.buildRangePath in Hrun |- *. rewrite Hpath in Hrun.
    unfold Controller.playTransitionSequence in Hrun.
    pose proof Hsteady as Hsteady'. rewrite <- Hlast in Hsteady'.
    destruct (playTransitionSequence_on_plan SF.getStateConfig
                SF.resolveTransition path id
                (RetAdvance (SF.animationState.range result)) steady st2
                Hnonempty Hsteady' Hready2 (eq_sym Hid))
      as [s [done0 [rest0 [Hs [Hsplit [Hloads0 Hleft0]]]]]].
    assert (Hstarted :
             on_plan SF.getStateConfig SF.resolveTransition id
               (done0 ++ rest0) st
               (settle id
                  (playTransitionSequence SF.getStateConfig SF.resolveTransition
                     path id (RetAdvance (SF.animationState.range result))
                     st2))).
    { apply (start_on_plan SF.getStateConfig SF.resolveTransition id st st2 _ s);
        try assumption; try reflexivity.
      apply playTransitionSequence_playback_only. }
    destruct (tracker_quiet_run_on_plan id _ st es _ final Hstarted Hquiet Hrun)
      as [_ [_ [_ [done [rest [Hplan [Hloads Hleft]]]]]]].
    exists (transition_loads SF.resolveTransition path), done, rest.
    split; [exact Hsteady|].
    split; [exists path; split; [exact Hpath|reflexivity]|].
    split; [rewrite Hsplit; exact Hplan|]. split; [exact Hloads|].
    intro Hnone. rewrite Hnone in Hleft. exact Hleft.
Qed.

Lemma tracker_clips_follow_the_plan_witness :
  let st :=
    Controller.onReading (VNumber (Fin 50)) (Controller.initial true None 0) in
  let dbValue := VNumber (Fin 80) in
  let es :=
    [LoadSettled 1 true; Advance 700; TimerFired 1; LoadSettled 1 false] in
  let final :=
    match Controller.run es (Controller.onReading dbValue st) with
    | Some final => final
    | None => st
    end in
  let result :=
    snd (SF.animationState.update (Session.tracker st) dbValue
           (Session.clock st)) in
  let nextRange := SF.animationState.range result in
  let id := Session.sequenceCounter st + 1 in
  exists (steady : LoadArgs.t) (planned done rest : list LoadArgs.t),
    steady_load SF.getStateConfig nextRange = Some steady
    /\ match SF.animationState.transition result with
       | Some transition => planned = transition_clip transition
       | None =>
           exists path : list JsRange,
             SF.buildRangePath (Session.previousRange st) nextRange = Some path
             /\ planned = transition_loads SF.resolveTransition path
       end
    /\ planned ++ [steady] = done ++ rest
    /\ Session.loads final = map (pair id) (rev done) ++ Session.loads st
    /\ (Session.find id (Session.pending final) = None -> rest = []).
Proof.
  intros st dbValue es final.
  apply (tracker_clips_follow_the_plan dbValue st es final).
  - reflexivity.
  - reflexivity.
  - left. vm_compute. discriminate.
  - intros other H. cbn in H. intuition discriminate.
  - vm_compute. reflexivity.
Defined.

(** ** The readout of [app.js] *)

(** X26.  After [updateDbDisplay(db)] the readout is the string ['--']
    exactly when [db] is [-Infinity] or [NaN]; otherwise it is a whole
    number from 0 to 150: 0 for every value below 0, 150 for every value
    above 150 and for [Infinity], and in between the whole number nearest
    to [db], the upper one at a tie. *)
Theorem updateDbDisplay_readout (db : JsNumber) (app : App.t) :
  match App.dbValueElement_textContent (App.updateDbDisplay db app) with
  | App.TextString s => s = "--"%string /\ (db = NegInf \/ db = NaN)
  | App.TextNumber n =>
      db <> NegInf /\ db <> NaN
      /\ exists k : Z,
          n = Fin (inject_Z k)
          /\ 0 <= k <= 150
          /\ (db = PosInf -> k = 150)
          /\ forall q : Q,
              db = Fin q ->
              ((q <= 0)%Q -> k = 0)
              /\ ((150 <= q)%Q -> k = 150)
              /\ ((0 <= q)%Q -> (q <= 150)%Q ->
                  (inject_Z k - (1 # 2) <= q)%Q
                  /\ (q < inject_Z k + (1 # 2))%Q)
  end.
Proof.
  unfold App.updateDbDisplay. cbn [App.dbValueElement_textContent].
  destruct db as [| | |q]; cbn [Theme.is_negative_infinity Theme.isNaN orb].
  - split; [reflexivity|right; reflexivity].
  - cbn. split; [discriminate|]. split; [discriminate|].
    exists 150. split; [reflexivity|]. split; [lia|].
    split; [reflexivity|]. intros q H. discriminate.
  - split; [reflexivity|left; reflexivity].
  - split; [discriminate|]. split; [discriminate|].
    assert (Hround : forall x : Q,
               (inject_Z (SF.Math_round x) - (1 # 2) <= x)%Q
               /\ (x < inject_Z (SF.Math_round x) + (1 # 2))%Q).
    { intro x. unfold SF.Math_round.
      pose proof (Qfloor_le (x + (1 # 2))) as L.
      pose proof (Qlt_floor (x + (1 # 2))) as U.
      rewrite inject_Z_plus in U. change (inject_Z 1) with 1%Q in U.
      split; lra. }
    cbn [App.Math_min Js.lt].
    destruct (Qlt_le_dec q 150) as [Hhi|Hhi].
    + rewrite (Qltb_true_lt _ _ Hhi). cbn [App.Math_max Js.lt].
      destruct (Qlt_le_dec 0 q) as [Hlo|Hlo].
      * rewrite (Qltb_true_lt _ _ Hlo). cbn [App.Math_round].
        exists (SF.Math_round q). split; [reflexivity|].
        split; [apply (Math_round_bounds 0 150 q); unfold inject_Z; lra|].
        split; [discriminate|].
        intros q' E. injection E as <-.
        split; [intro H; lra|]. split; [intro H; lra|].
        intros _ _. apply Hround.
      * rewrite (Qltb_false_le _ _ Hlo). cbn [App.Math_round].
        change (SF.Math_round 0) with 0.
        exists 0. split; [reflexivity|]. split; [lia|].
        split; [discriminate|].
        intros q' E. injection E as <-.
        split; [reflexivity|]. split; [intro H; lra|].
        intros H0 _. unfold inject_Z. split; lra.
    + rewrite (Qltb_false_le _ _ Hhi). cbn [App.Math_max Js.lt].
      change (Js.Qltb 0 150) with true. cbn [App.Math_round].
      change (SF.Math_round 150) with 150.
      exists 150. split; [reflexivity|]. split; [lia|].
      split; [discriminate|].
      intros q' E. injection E as <-.
      split; [intro H; lra|]. split; [reflexivity|].
      intros _ H150. unfold inject_Z. split; lra.
Qed.
